(** * Quantum visualizer: simulation core

    A shallow embedding of the simulation kernel of the quantum visualizer
    ([src/quantum.js]) and of the branch enumeration engine of the
    application component ([getOrderedGates], [buildColumnStateCache],
    [qubitBranches]), together with the properties stated about them.

    Conventions of the embedding.
    - A JavaScript number that holds a measured quantity (amplitude, angle,
      probability) is a real number of [R]; [Math.sqrt], [Math.cos],
      [Math.sin], [Math.acos] are the functions of the same name of the
      Standard Library and [Math.atan2] is [atan2] below.  Rounding is not
      modelled: every "within tolerance" statement is proved for the exact
      values.
    - A JavaScript number that holds an index or a counter (wire, slot,
      frame, loop counter) is a [nat]; the 32-bit operators [>>] and [&]
      are [js_shr] and [js_and] on [Z], with the conversion to a signed
      32-bit integer and the masking of the shift count written out.
    - [null] and [undefined] are [None]; an exception is an explicit
      constructor of the result type. *)

From Stdlib Require Import Reals Lra Lia List ZArith Ascii String Bool Permutation Sorted.
Import ListNotations.

Open Scope string_scope.
Open Scope list_scope.
Open Scope R_scope.

(** ** Comparisons of numbers, as booleans *)

Definition Rltb (x y : R) : bool := if Rlt_dec x y then true else false.
Definition Rleb (x y : R) : bool := if Rle_dec x y then true else false.
Definition Rgtb (x y : R) : bool := Rltb y x.
Definition Reqb (x y : R) : bool := if Req_dec_T x y then true else false.

(** ** Complex numbers ([complex], [cAdd], ... of quantum.js) *)

Record C : Type := complex { re : R; im : R }.

Definition cAdd (a b : C) : C := complex (re a + re b) (im a + im b).
Definition cSub (a b : C) : C := complex (re a - re b) (im a - im b).
Definition cMul (a b : C) : C :=
  complex (re a * re b - im a * im b) (re a * im b + im a * re b).
Definition cConj (a : C) : C := complex (re a) (- im a).
Definition cAbs (a : C) : R := sqrt (re a * re a + im a * im a).

(** [Math.atan2 y x] on real arguments: the angle of the point [(x, y)],
    in [(-PI, PI]], and [0] at the origin. *)
Definition atan2 (y x : R) : R :=
  if Rlt_dec 0 x then atan (y / x)
  else if Rlt_dec x 0 then
         if Rle_dec 0 y then atan (y / x) + PI else atan (y / x) - PI
  else if Rlt_dec 0 y then PI / 2
  else if Rlt_dec y 0 then - (PI / 2)
  else 0.

Definition cPhase (a : C) : R := atan2 (im a) (re a).
Definition cFromPolar (r theta : R) : C := complex (r * cos theta) (r * sin theta).
Definition cScale (a : C) (s : R) : C := complex (re a * s) (im a * s).

Definition SQRT2_INV : R := 1 / sqrt 2.

(** ** States and matrices *)

(** A qubit state is the two-element array [[alpha, beta]]. *)
Definition State : Type := (C * C)%type.

(** The elements of a state, in index order. *)
Definition amps (s : State) : list C := [fst s; snd s].

(** A gate matrix is a 2x2 array of rows. *)
Definition Matrix : Type := ((C * C) * (C * C))%type.

Definition m00 (m : Matrix) : C := fst (fst m).
Definition m01 (m : Matrix) : C := snd (fst m).
Definition m10 (m : Matrix) : C := fst (snd m).
Definition m11 (m : Matrix) : C := snd (snd m).

Definition normalize (state : State) : State :=
  let norm := sqrt (cAbs (fst state) ^ 2 + cAbs (snd state) ^ 2) in
  if Reqb norm 0 then (complex 1 0, complex 0 0)
  else (complex (re (fst state) / norm) (im (fst state) / norm),
        complex (re (snd state) / norm) (im (snd state) / norm)).

Definition STATE_ZERO : State := (complex 1 0, complex 0 0).
Definition STATE_ONE : State := (complex 0 0, complex 1 0).
Definition STATE_PLUS : State := (complex SQRT2_INV 0, complex SQRT2_INV 0).

Definition getInitialQubitState (mode : string) : State :=
  if String.eqb mode "one" then STATE_ONE
  else if String.eqb mode "plus" then STATE_PLUS
  else STATE_ZERO.

(** The product [M * state] before normalisation. *)
Definition matVec (matrix : Matrix) (state : State) : State :=
  (cAdd (cMul (m00 matrix) (fst state)) (cMul (m01 matrix) (snd state)),
   cAdd (cMul (m10 matrix) (fst state)) (cMul (m11 matrix) (snd state))).

Definition applyMatrix (state : State) (matrix : option Matrix) : State :=
  match matrix with
  | None => state
  | Some m => normalize (matVec m state)
  end.

(** Squared norm of a state: [|alpha|^2 + |beta|^2]. *)
Definition normSq (s : State) : R := cAbs (fst s) ^ 2 + cAbs (snd s) ^ 2.

(** ** JavaScript library operations used by the program *)

(** [x >> s] and [x & y]: both operands are converted to signed 32-bit
    integers, and only the low five bits of the shift count are used. *)
Definition toInt32 (z : Z) : Z := ((z + 2 ^ 31) mod 2 ^ 32 - 2 ^ 31)%Z.
Definition js_shr (x s : Z) : Z := Z.shiftr (toInt32 x) (s mod 32)%Z.
Definition js_and (x y : Z) : Z := Z.land (toInt32 x) (toInt32 y).

(** A present object is truthy; [null] and [undefined] are not. *)
Definition truthy {A : Type} (o : option A) : bool :=
  match o with Some _ => true | None => false end.

(** [Array.prototype.findIndex]; [None] stands for [-1]. *)
Fixpoint findIndexFrom {A : Type} (f : A -> bool) (l : list A) (i : nat) : option nat :=
  match l with
  | [] => None
  | a :: l' => if f a then Some i else findIndexFrom f l' (S i)
  end.

Definition findIndex {A : Type} (f : A -> bool) (l : list A) : option nat :=
  findIndexFrom f l 0.

(** [Array.prototype.sort] with a comparator.  [after y x] tells that the
    comparator is positive on [(y, x)], that is, [y] has to come after [x].
    The sort is stable: an element is inserted behind the elements that do
    not have to come after it. *)
Fixpoint insertBy {A : Type} (after : A -> A -> bool) (x : A) (l : list A) : list A :=
  match l with
  | [] => [x]
  | y :: l' => if after y x then x :: y :: l' else y :: insertBy after x l'
  end.

Definition jsSort {A : Type} (after : A -> A -> bool) (l : list A) : list A :=
  fold_left (fun acc x => insertBy after x acc) l [].

(** [[...new Set(l)]]: the distinct elements in order of first occurrence. *)
Fixpoint dedupInto (seen : list nat) (l : list nat) : list nat :=
  match l with
  | [] => []
  | a :: l' =>
      if existsb (Nat.eqb a) seen then dedupInto seen l'
      else a :: dedupInto (a :: seen) l'
  end.

Definition dedup (l : list nat) : list nat := dedupInto [] l.

(** ** Gates ([createU3Matrix], [GATES], [createGateInstance]) *)

Record Decomp : Type := mkDecomp { theta : R; phi : R; lambda : R }.

Definition createU3Matrix (theta phi lambda : R) : Matrix :=
  ((complex (cos (theta / 2)) 0,
    cScale (cFromPolar 1 (- lambda)) (- sin (theta / 2))),
   (cScale (cFromPolar 1 phi) (sin (theta / 2)),
    cScale (cFromPolar 1 (phi + lambda)) (cos (theta / 2)))).

(** An entry of the catalog.  The display fields ([label], [description],
    [color], [showDecomposition], [animDuration]) take no part in the
    simulation and are left out. *)
Record GateRef : Type := mkGateRef {
  name : string;
  isBarrier : bool;
  defaultMatrix : Matrix;
  defaultDecomposition : Decomp
}.

Definition identityMatrix : Matrix :=
  ((complex 1 0, complex 0 0), (complex 0 0, complex 1 0)).

Definition GATE_I : GateRef :=
  mkGateRef "I" false identityMatrix (mkDecomp 0 0 0).
Definition GATE_X : GateRef :=
  mkGateRef "X" false
    ((complex 0 0, complex 1 0), (complex 1 0, complex 0 0))
    (mkDecomp PI 0 PI).
Definition GATE_Y : GateRef :=
  mkGateRef "Y" false
    ((complex 0 0, complex 0 (-1)), (complex 0 1, complex 0 0))
    (mkDecomp PI (PI / 2) (PI / 2)).
Definition GATE_Z : GateRef :=
  mkGateRef "Z" false
    ((complex 1 0, complex 0 0), (complex 0 0, complex (-1) 0))
    (mkDecomp 0 0 PI).
Definition GATE_H : GateRef :=
  mkGateRef "H" false
    ((complex SQRT2_INV 0, complex SQRT2_INV 0),
     (complex SQRT2_INV 0, complex (- SQRT2_INV) 0))
    (mkDecomp (PI / 2) 0 PI).
Definition GATE_S : GateRef :=
  mkGateRef "S" false
    ((complex 1 0, complex 0 0), (complex 0 0, complex 0 1))
    (mkDecomp 0 0 (PI / 2)).
Definition GATE_T : GateRef :=
  mkGateRef "T" false
    ((complex 1 0, complex 0 0), (complex 0 0, cFromPolar 1 (PI / 4)))
    (mkDecomp 0 0 (PI / 4)).
Definition GATE_U : GateRef :=
  mkGateRef "U" false identityMatrix (mkDecomp 0 0 0).
Definition GATE_BARRIER : GateRef :=
  mkGateRef "BARRIER" true identityMatrix (mkDecomp 0 0 0).

(** The own properties of the object [GATES], in source order. *)
Definition GATES : list (string * GateRef) :=
  [("I", GATE_I); ("X", GATE_X); ("Y", GATE_Y); ("Z", GATE_Z); ("H", GATE_H);
   ("S", GATE_S); ("T", GATE_T); ("U", GATE_U); ("BARRIER", GATE_BARRIER)].

Definition catalogKeys : list string := map fst GATES.

(** [GATES] is an object literal, so its prototype is [Object.prototype]:
    a property read with a name that is not an own key falls through to the
    members every object inherits. *)
Definition objectPrototypeKeys : list string :=
  ["constructor"; "__defineGetter__"; "__defineSetter__"; "hasOwnProperty";
   "__lookupGetter__"; "__lookupSetter__"; "isPrototypeOf";
   "propertyIsEnumerable"; "toString"; "valueOf"; "__proto__";
   "toLocaleString"].

(** The value of [GATES[gateName]]: a catalog entry, an inherited member
    (a function or object without [defaultMatrix] and
    [defaultDecomposition]), or [undefined]. *)
Inductive Lookup : Type :=
| Own (g : GateRef)
| Inherited
| Undefined.

Fixpoint assoc (k : string) (l : list (string * GateRef)) : option GateRef :=
  match l with
  | [] => None
  | (k', g) :: l' => if String.eqb k k' then Some g else assoc k l'
  end.

Definition lookupGATES (gateName : string) : Lookup :=
  match assoc gateName GATES with
  | Some g => Own g
  | None =>
      if existsb (String.eqb gateName) objectPrototypeKeys then Inherited
      else Undefined
  end.

(** A gate instance or a cell of the circuit.  A control marker is the cell
    [{ gate: 'CONTROL', targetIndex, controlIndex: null }], which has neither
    matrix nor decomposition. *)
Record Gate : Type := mkGate {
  gate : string;
  matrix : option Matrix;
  decomposition : option Decomp;
  controlIndex : option nat;
  targetIndex : option nat;
  isDerivedKickback : bool
}.

(** What a call does: it returns a value or throws a [TypeError]. *)
Inductive Outcome (A : Type) : Type :=
| Returned (a : A)
| TypeError.
Arguments Returned {A} a.
Arguments TypeError {A}.

(** [createGateInstance(gateName, decomposition = null)].  The copy of the
    default matrix ([map] over rows and entries) is the matrix itself. *)
Definition createGateInstance (gateName : string) (decomposition : option Decomp)
  : Outcome (option Gate) :=
  match lookupGATES gateName with
  | Undefined => Returned None
  | Own gateRef =>
      let decomp :=
        match decomposition with
        | Some d => d
        | None => defaultDecomposition gateRef
        end in
      let matrix :=
        if (String.eqb gateName "U" || truthy decomposition)%bool
        then createU3Matrix (theta decomp) (phi decomp) (lambda decomp)
        else defaultMatrix gateRef in
      Returned (Some (mkGate gateName (Some matrix) (Some decomp) None None false))
  | Inherited =>
      match decomposition with
      | Some decomp =>
          Returned (Some (mkGate gateName
                            (Some (createU3Matrix (theta decomp) (phi decomp) (lambda decomp)))
                            (Some decomp) None None false))
      | None => TypeError
      end
  end.

Definition applyGate (state : State) (gateInstance : Gate) : State :=
  if String.eqb (gate gateInstance) "BARRIER" then state
  else applyMatrix state (matrix gateInstance).

Record Probabilities : Type := mkProbs { prob0 : R; prob1 : R }.

Definition getProbabilities (state : State) : Probabilities :=
  mkProbs (cAbs (fst state) ^ 2) (cAbs (snd state) ^ 2).

(** ** Eigenphase detection ([getKickbackPhaseForControlledGate]) *)

(** The two [while] loops of [normalizeAngle], each with a bound on the
    number of turns. *)
Fixpoint subTurns (fuel : nat) (a : R) : R :=
  match fuel with
  | O => a
  | S f => if Rltb PI a then subTurns f (a - 2 * PI) else a
  end.

Fixpoint addTurns (fuel : nat) (a : R) : R :=
  match fuel with
  | O => a
  | S f => if Rltb a (- PI) then addTurns f (a + 2 * PI) else a
  end.

(** The bound: a turn changes the angle by more than [1], so [up |angle|]
    turns are enough ([normalizeAngle_range] below). *)
Definition turnsFor (angle : R) : nat := Z.to_nat (up (Rabs angle)).

Definition normalizeAngle (angle : R) : R :=
  addTurns (turnsFor angle) (subTurns (turnsFor angle) angle).

Definition complexDiv (a b : C) : C :=
  let den := re b * re b + im b * im b in
  if Rltb den (1 / 1000000000000) then complex 0 0
  else complex ((re a * re b + im a * im b) / den)
               ((im a * re b - re a * im b) / den).

Definition amp (s : State) (i : nat) : C := nth i (amps s) (complex 0 0).

(** The loop over the basis indices: [true] when some index has
    [diff > tolerance * 2]. *)
Definition eigenCheckFails (state evolved : State) (unitPhase : C) (tolerance : R) : bool :=
  existsb
    (fun i =>
       let expected := cMul unitPhase (amp state i) in
       let diff := cAbs (cSub (amp evolved i) expected) in
       Rgtb diff (tolerance * 2))
    (seq 0 (List.length (amps state))).

Definition getKickbackPhaseForControlledGate
    (targetGate : option Gate) (targetStateBefore : option State) (tolerance : R)
  : option R :=
  match targetGate with
  | None => None
  | Some g =>
      if (String.eqb (gate g) "BARRIER" || String.eqb (gate g) "CONTROL")%bool then None
      else
        match matrix g with
        | None => None
        | Some _ =>
            let state :=
              match targetStateBefore with Some s => s | None => STATE_ZERO end in
            let evolved := applyMatrix state (matrix g) in
            match findIndex (fun a => Rgtb (cAbs a) tolerance) (amps state) with
            | None => None
            | Some referenceIdx =>
                let rawPhase := complexDiv (amp evolved referenceIdx) (amp state referenceIdx) in
                let rawMag := cAbs rawPhase in
                if Rleb rawMag tolerance then None
                else
                  let unitPhase := cScale rawPhase (1 / rawMag) in
                  if eigenCheckFails state evolved unitPhase tolerance then None
                  else
                    let phase := normalizeAngle (cPhase unitPhase) in
                    Some (if Rgtb (Rabs phase) tolerance then phase else 0)
            end
        end
  end.

(** The default tolerance of the source. *)
Definition TOL : R := 1 / 100.

(** ** Joint probabilities ([getMultiQubitProbabilities]) *)

Record Entry : Type := mkEntry { state : string; probability : R }.

(** The inner loop over the wires for the basis index [i]: the label and
    the product so far. *)
Definition jointStep (qubitStates : list State) (numQubits i : nat)
    (acc : R * string) (q : nat) : R * string :=
  let '(prob, stateLabel) := acc in
  let bit := js_and (js_shr (Z.of_nat i) (Z.of_nat (numQubits - 1 - q))) 1 in
  let qubitProbs := getProbabilities (nth q qubitStates STATE_ZERO) in
  (prob * (if Z.eqb bit 0 then prob0 qubitProbs else prob1 qubitProbs),
   (stateLabel ++ (if Z.eqb bit 0 then "0" else "1"))%string).

Definition jointEntry (qubitStates : list State) (i : nat) : Entry :=
  let numQubits := List.length qubitStates in
  let '(prob, stateLabel) :=
    fold_left (jointStep qubitStates numQubits i) (seq 0 numQubits) (1, EmptyString) in
  mkEntry stateLabel prob.

Definition getMultiQubitProbabilities (qubitStates : list State) (includeZero : bool)
  : list Entry :=
  let numQubits := List.length qubitStates in
  let numStates := (2 ^ numQubits)%nat in
  let results :=
    filter (fun e => (includeZero || Rgtb (probability e) (1 / 1000))%bool)
           (map (jointEntry qubitStates) (seq 0 numStates)) in
  jsSort (fun a b => Rltb (probability a) (probability b)) results.

(** ** Angles of a matrix ([extractRotationFromMatrix]) *)

Definition extractRotationFromMatrix (matrix : option Matrix) : Decomp :=
  match matrix with
  | None => mkDecomp 0 0 0
  | Some m =>
      let a := m00 m in
      let b := m01 m in
      let c := m10 m in
      let d := m11 m in
      let aMag := cAbs a in
      let cMag := cAbs c in
      if Rltb aMag (1 / 10000) then
        mkDecomp PI (cPhase c) (- cPhase b)
      else if Rltb cMag (1 / 10000) then
        let phiPlusLambda := cPhase d - cPhase a in
        mkDecomp 0 (phiPlusLambda / 2) (phiPlusLambda / 2)
      else
        mkDecomp (2 * acos (Rmin 1 aMag)) (cPhase c) (- cPhase b)
  end.

(** ** Bloch coordinates ([stateToBlochCoords]) *)

Record Coords : Type := mkCoords {
  x : R; y : R; z : R; bloch_theta : R; bloch_phi : R
}.

Definition stateToBlochCoords (s : State) : Coords :=
  let alpha := fst s in
  let beta := snd s in
  let prob0 := cAbs alpha ^ 2 in
  let theta := 2 * acos (sqrt (Rmax 0 (Rmin 1 prob0))) in
  let phi := cPhase beta - cPhase alpha in
  mkCoords (sin theta * cos phi) (sin theta * sin phi) (cos theta) theta phi.

(** ** The circuit and its frames (application component) *)

(** [circuits[q][s]] is the cell of wire [q] at slot [s]; an empty cell
  ([null] or a hole of the array) is [None]. *)
Definition Circuits : Type := list (list (option Gate)).

(** A gate with its slot: the object [{ ...gate, slot }]. *)
Record Placed : Type := place { cell : Gate; slot : nat }.

Section App.

(** The state of the component that the computation reads. *)
Variable circuits : Circuits.
Variable barriers : list nat.
Variable initialStateMode : string.

Definition barrierCount : nat := List.length barriers.
Definition totalFrames : nat := barrierCount + 2.

(** [row.map((gate, slot) => ...).filter(e => e.gate)] *)
Fixpoint entriesFrom (row : list (option Gate)) (slot : nat) : list Placed :=
  match row with
  | [] => []
  | Some g :: row' => place g slot :: entriesFrom row' (S slot)
  | None :: row' => entriesFrom row' (S slot)
  end.

Definition slotAfter (a b : Placed) : bool := (slot b <? slot a)%nat.

Definition getOrderedGates (qubitIndex frame : nat) : list Placed :=
  let row := nth qubitIndex circuits [] in
  let sortedBarriers := jsSort (fun a b => (b <? a)%nat) barriers in
  let entries := jsSort slotAfter (entriesFrom row 0) in
  if (frame =? 0)%nat then []
  else if (barrierCount <? frame)%nat then entries
  else
    match nth_error sortedBarriers (frame - 1) with
    | None => entries
    | Some barrierSlot => filter (fun e => (slot e <? barrierSlot)%nat) entries
    end.

Definition getInitialState : State := getInitialQubitState initialStateMode.

Definition isBarrierOrControl (g : Gate) : bool :=
  (String.eqb (gate g) "BARRIER" || String.eqb (gate g) "CONTROL")%bool.

(** The greatest slot that holds a cell, over all wires ([0] without one). *)
Definition maxSlotOf : nat :=
  fold_left
    (fun m row => fold_left (fun m' e => Nat.max m' (slot e)) (entriesFrom row 0) m)
    circuits 0%nat.

(** The loop over the slots [s = 0 .. maxSlot + 1] of one wire: the
    states before each slot, in slot order. *)
Fixpoint statesAtSlots (sortedGates : list Placed) (slots : list nat) (state : State)
  : list State :=
  match slots with
  | [] => []
  | s :: slots' =>
      let state' :=
        match find (fun g => (slot g =? s)%nat) sortedGates with
        | Some gateAtSlot =>
            if negb (isBarrierOrControl (cell gateAtSlot))
            then applyGate state (cell gateAtSlot)
            else state
        | None => state
        end in
      state :: statesAtSlots sortedGates slots' state'
  end.

(** [buildColumnStateCache(frame)]: for every wire, the states before
    the slots [0 .. maxSlot + 1].  (The entry [-1] is never read.) *)
Definition buildColumnStateCache (frame : nat) : list (list State) :=
  map (fun qi =>
         let gateList := getOrderedGates qi frame in
         let sortedGates := jsSort slotAfter gateList in
         statesAtSlots sortedGates (seq 0 (maxSlotOf + 2)) getInitialState)
      (seq 0 (List.length circuits)).

(** [stateCache[q]?.[slot] || getInitialState()] *)
Definition cachedState (stateCache : list (list State)) (q slot : nat) : State :=
  match nth_error stateCache q with
  | None => getInitialState
  | Some qubitCache =>
      match nth_error qubitCache slot with
      | None => getInitialState
      | Some s => s
      end
  end.

Definition getControlStateAtSlot (stateCache : list (list State)) (ctrlQubit slot : nat)
  : State := cachedState stateCache ctrlQubit slot.

Definition option_nat_eqb (a : option nat) (b : nat) : bool :=
  match a with Some n => (n =? b)%nat | None => false end.

(** The gate synthesized on the controlling wire for an eigenphase. *)
Definition kickbackGate (phase : R) (slot : nat) : Placed :=
  place (mkGate "U" (Some (createU3Matrix 0 0 phase)) (Some (mkDecomp 0 0 phase))
                None None true) slot.

Definition getKickbackGatesForControl (stateCache : list (list State)) (frame controlQubit : nat)
  : list Placed :=
  flat_map
    (fun targetQubit =>
       flat_map
         (fun g =>
            if String.eqb (gate (cell g)) "CONTROL" then []
            else if negb (option_nat_eqb (controlIndex (cell g)) controlQubit) then []
            else
              let targetStateBefore := cachedState stateCache targetQubit (slot g) in
              match getKickbackPhaseForControlledGate
                      (Some (cell g)) (Some targetStateBefore) TOL with
              | None => []
              | Some phase =>
                  if Rleb (Rabs phase) (1 / 100) then []
                  else [kickbackGate phase (slot g)]
              end)
         (getOrderedGates targetQubit frame))
    (seq 0 (List.length circuits)).

(** ** Branches of a wire ([qubitBranches]) *)

(** An entry of the rotation history, [{ theta, phi, lambda, isCompound:
    true }]: the three angles. *)
Definition Rotation : Type := Decomp.

Record Branch : Type := mkBranch {
  br_state : State;
  coords : Coords;
  br_probability : R;
  rotations : list Rotation
}.

Definition buildRotations (gateList : list Placed) : list Rotation :=
  flat_map
    (fun g =>
       if isBarrierOrControl (cell g) then []
       else
         match decomposition (cell g) with
         | None => []
         | Some decomp =>
             let hasTheta := Rgtb (Rabs (theta decomp)) (1 / 100) in
             let hasPhi := Rgtb (Rabs (phi decomp)) (1 / 100) in
             let hasLambda := Rgtb (Rabs (lambda decomp)) (1 / 100) in
             if (hasTheta || hasPhi || hasLambda)%bool then [decomp] else []
         end)
    gateList.

Definition applyGates (gateList : list Placed) (state : State) : State :=
  fold_left
    (fun st g => if isBarrierOrControl (cell g) then st else applyGate st (cell g))
    gateList state.

(** [g.controlIndex !== undefined && g.controlIndex !== null &&
    g.gate !== 'CONTROL'] *)
Definition isControlled (g : Placed) : bool :=
  (truthy (controlIndex (cell g)) && negb (String.eqb (gate (cell g)) "CONTROL"))%bool.

Definition controlOf (g : Placed) : nat :=
  match controlIndex (cell g) with Some c => c | None => 0%nat end.

(** The object [controlActive], as the list of its assignments in the
    order they are made; a read takes the last assignment to the key. *)
Fixpoint readActive (controlActive : list (nat * bool)) (k : nat) : bool :=
  match controlActive with
  | [] => false
  | (k', v) :: rest =>
      if existsb (fun kv => (fst kv =? k)%nat) rest then readActive rest k
      else if (k' =? k)%nat then v else false
  end.

(** The inner loop over the controls for one combination: the assignments
    and the probability. *)
Definition comboStep (uniqueControls : list nat) (controlProbs : list R) (combo : nat)
    (acc : list (nat * bool) * R) (i : nat) : list (nat * bool) * R :=
  let '(controlActive, probability) := acc in
  let isActive := js_and (js_shr (Z.of_nat combo) (Z.of_nat i)) 1 in
  (controlActive ++ [(nth i uniqueControls 0%nat, Z.eqb isActive 1)],
   probability * (if negb (Z.eqb isActive 0) then nth i controlProbs 0
                  else 1 - nth i controlProbs 0)).

Definition comboAssign (uniqueControls : list nat) (controlProbs : list R) (combo : nat)
  : list (nat * bool) * R :=
  fold_left (comboStep uniqueControls controlProbs combo)
            (seq 0 (List.length uniqueControls)) ([], 1).

Definition activeGatesOf (gates : list Placed) (controlActive : list (nat * bool))
  : list Placed :=
  filter
    (fun g =>
       if String.eqb (gate (cell g)) "CONTROL" then false
       else
         match controlIndex (cell g) with
         | None => true
         | Some c => readActive controlActive c
         end)
    gates.

(** The branch pushed for a combination whose probability passes the
    threshold. *)
Definition branchOf (gates : list Placed) (uniqueControls : list nat)
    (controlProbs : list R) (combo : nat) : Branch :=
  let '(controlActive, probability) := comboAssign uniqueControls controlProbs combo in
  let activeGates := activeGatesOf gates controlActive in
  let state := applyGates activeGates getInitialState in
  mkBranch state (stateToBlochCoords state) probability (buildRotations activeGates).

(** The loop [for (combo = 0; combo < numCombinations && branches.length <
    10; combo++)]; [todo] is [numCombinations - combo]. *)
Fixpoint enumerate (gates : list Placed) (uniqueControls : list nat) (controlProbs : list R)
    (todo combo : nat) (branches : list Branch) : list Branch :=
  match todo with
  | O => branches
  | S todo' =>
      if (List.length branches <? 10)%nat then
        let probability := snd (comboAssign uniqueControls controlProbs combo) in
        if Rltb probability (1 / 100)
        then enumerate gates uniqueControls controlProbs todo' (S combo) branches
        else enumerate gates uniqueControls controlProbs todo' (S combo)
               (branches ++ [branchOf gates uniqueControls controlProbs combo])
      else branches
  end.

Definition coordsEqual (c1 c2 : Coords) : bool :=
  let tol := 1 / 100 in
  (Rltb (Rabs (x c1 - x c2)) tol &&
   Rltb (Rabs (y c1 - y c2)) tol &&
   Rltb (Rabs (z c1 - z c2)) tol)%bool.

Definition getTotalPhases (rotations : list Rotation) : Decomp :=
  let '(t, l, p) :=
    fold_left
      (fun acc r => let '(t, l, p) := acc in (t + theta r, l + lambda r, p + phi r))
      rotations (0, 0, 0) in
  mkDecomp (normalizeAngle t) (normalizeAngle p) (normalizeAngle l).

Definition phasesEqual (rots1 rots2 : list Rotation) : bool :=
  let tol := 1 / 100 in
  let p1 := getTotalPhases rots1 in
  let p2 := getTotalPhases rots2 in
  (Rltb (Rabs (theta p1 - theta p2)) tol &&
   Rltb (Rabs (lambda p1 - lambda p2)) tol &&
   Rltb (Rabs (phi p1 - phi p2)) tol)%bool.

Definition sameBranch (b branch : Branch) : bool :=
  (coordsEqual (coords b) (coords branch) &&
   phasesEqual (rotations b) (rotations branch))%bool.

(** [existing.probability += branch.probability] on the first branch of
    [mergedBranches] that coincides with [branch]; [None] when there is
    none. *)
Fixpoint addToExisting (mergedBranches : list Branch) (branch : Branch)
  : option (list Branch) :=
  match mergedBranches with
  | [] => None
  | b :: rest =>
      if sameBranch b branch then
        Some (mkBranch (br_state b) (coords b)
                       (br_probability b + br_probability branch) (rotations b) :: rest)
      else
        match addToExisting rest branch with
        | Some rest' => Some (b :: rest')
        | None => None
        end
  end.

Definition mergeStep (mergedBranches : list Branch) (branch : Branch) : list Branch :=
  match addToExisting mergedBranches branch with
  | Some merged => merged
  | None => mergedBranches ++ [branch]
  end.

Definition mergeBranches (branches : list Branch) : list Branch :=
  fold_left mergeStep branches [].

Definition probabilityAfter (a b : Branch) : bool :=
  Rltb (br_probability a) (br_probability b).

Definition fallbackBranch : Branch :=
  mkBranch getInitialState (stateToBlochCoords getInitialState) 1 [].

(** The gates of wire [qi] with the synthesized kickback gates, by slot. *)
Definition effectiveGates (stateCache : list (list State)) (frame qi : nat) : list Placed :=
  let rowGates := getOrderedGates qi frame in
  let kickbackGates := getKickbackGatesForControl stateCache frame qi in
  jsSort slotAfter (rowGates ++ kickbackGates).

Definition controlledGatesOf (gates : list Placed) : list Placed :=
  filter isControlled gates.

Definition uniqueControlsOf (gates : list Placed) : list nat :=
  dedup (map controlOf (controlledGatesOf gates)).

Definition controlProbsOf (stateCache : list (list State)) (gates : list Placed) : list R :=
  map (fun ctrlIdx =>
         match find (fun g => option_nat_eqb (controlIndex (cell g)) ctrlIdx)
                    (controlledGatesOf gates) with
         | Some ctrlGate =>
             prob1 (getProbabilities (getControlStateAtSlot stateCache ctrlIdx (slot ctrlGate)))
         | None => 0
         end)
      (uniqueControlsOf gates).

(** The raw branches: the array [branches] when the loop over the
    combinations ends. *)
Definition rawBranches (stateCache : list (list State)) (gates : list Placed) : list Branch :=
  let uniqueControls := uniqueControlsOf gates in
  let numCombinations := (2 ^ List.length uniqueControls)%nat in
  enumerate gates uniqueControls (controlProbsOf stateCache gates) numCombinations 0 [].

(** The branches of wire [qi] at [frame]: the body of
    [circuits.map((_, qi) => ...)]. *)
Definition wireBranches (frame qi : nat) : list Branch :=
  let stateCache := buildColumnStateCache frame in
  let gates := effectiveGates stateCache frame qi in
  let hasControl := truthy (find isControlled gates) in
  if negb hasControl then
    let state := applyGates gates getInitialState in
    [mkBranch state (stateToBlochCoords state) 1 (buildRotations gates)]
  else
    let mergedBranches :=
      firstn 10 (jsSort probabilityAfter (mergeBranches (rawBranches stateCache gates))) in
    match mergedBranches with
    | [] => [fallbackBranch]
    | _ => mergedBranches
    end.

(** [animationFrame < 0 ? totalFrames - 1 : animationFrame]; [None] is the
    value [-1] that selects the whole circuit. *)
Definition frameOf (animationFrame : option nat) : nat :=
  match animationFrame with
  | None => totalFrames - 1
  | Some f => f
  end.

Definition qubitBranches (animationFrame : option nat) : list (list Branch) :=
  map (wireBranches (frameOf animationFrame)) (seq 0 (List.length circuits)).

(** [b.reduce((a, c) => c.probability > a.probability ? c : a).state] *)
Definition representative (b : list Branch) : State :=
  match b with
  | [] => getInitialState
  | a :: rest =>
      br_state (fold_left (fun a c => if Rgtb (br_probability c) (br_probability a)
                                      then c else a) rest a)
  end.

Definition qubitStates (animationFrame : option nat) : list State :=
  map representative (qubitBranches animationFrame).

End App.

(** ** Notions used to state the properties *)

(** The product of a matrix with its conjugate transpose. *)
Definition mulAdjoint (m : Matrix) : Matrix :=
  ((cAdd (cMul (m00 m) (cConj (m00 m))) (cMul (m01 m) (cConj (m01 m))),
    cAdd (cMul (m00 m) (cConj (m10 m))) (cMul (m01 m) (cConj (m11 m)))),
   (cAdd (cMul (m10 m) (cConj (m00 m))) (cMul (m11 m) (cConj (m01 m))),
    cAdd (cMul (m10 m) (cConj (m10 m))) (cMul (m11 m) (cConj (m11 m))))).

(** Distance between two complex numbers. *)
Definition cDist (a b : C) : R := cAbs (cSub a b).

(** The matrix a decomposition stands for. *)
Definition matrixOf (d : Decomp) : Matrix :=
  createU3Matrix (theta d) (phi d) (lambda d).

(** The value returned for an angle: snapped to [0] within the tolerance. *)
Definition snapped (phase : R) : R :=
  if Rgtb (Rabs phase) TOL then phase else 0.

(** The diagonal matrix [diag(1, d)]. *)
Definition diagMatrix (d : C) : Matrix :=
  ((complex 1 0, complex 0 0), (complex 0 0, d)).

(** Sum of a list of numbers. *)
Definition Rsum (l : list R) : R := fold_right Rplus 0 l.

(** Product of a list of numbers. *)
Definition Rprod (l : list R) : R := fold_right Rmult 1 l.

(** For a comparator: [a] may stay before [b]. *)
Definition inOrder {A : Type} (after : A -> A -> bool) (a b : A) : Prop :=
  after a b = false.

(** Total probability of a list of branches. *)
Definition sumProb (l : list Branch) : R := Rsum (map br_probability l).

(** The probability the enumeration computes for a combination. *)
Definition comboProb (uniqueControls : list nat) (controlProbs : list R) (combo : nat) : R :=
  snd (comboAssign uniqueControls controlProbs combo).

(** A combination passes the threshold [probability < 0.01 -> continue]. *)
Definition accepted (uniqueControls : list nat) (controlProbs : list R) (combo : nat) : bool :=
  negb (Rltb (comboProb uniqueControls controlProbs combo) (1 / 100)).

(** The product, over the controls, of the probability of the outcome
    that the bits of [c] assign: bit [i] of [c] set selects [p_i], clear
    selects [1 - p_i]. *)
Fixpoint weight (controlProbs : list R) (c : nat) : R :=
  match controlProbs with
  | [] => 1
  | p :: ps => (if Nat.odd c then p else 1 - p) * weight ps (Nat.div2 c)
  end.

(** What identifies a branch apart from its probability. *)
Definition branchKey (b : Branch) : State * Coords * list Rotation :=
  (br_state b, coords b, rotations b).

(** What holds of the merged list after the branches [done] went in. *)
Definition mergeInv (merged done : list Branch) : Prop :=
  Forall (fun e => 0 <= br_probability e) merged /\
  (forall e, In e merged -> exists b, In b done /\ branchKey e = branchKey b) /\
  (forall b, In b done ->
     exists e, In e merged /\ sameBranch e b = true /\
               br_probability b <= br_probability e).


(** The joint basis strings of [n] wires, in increasing order. *)
Fixpoint basisStrings (n : nat) : list string :=
  match n with
  | O => [EmptyString]
  | S n' => map (String.append "0") (basisStrings n') ++
            map (String.append "1") (basisStrings n')
  end.

(** The product, over the wires, of the probability of the outcome the
    character of the label gives for the wire: [prob0] for the character
    [0], [prob1] otherwise. *)
Fixpoint labelProb (qubitStates : list State) (label : string) : R :=
  match qubitStates, label with
  | s :: ss, String c rest =>
      (if Ascii.eqb c "0"%char then prob0 (getProbabilities s)
       else prob1 (getProbabilities s)) * labelProb ss rest
  | _, _ => 1
  end.

(** The label and the probability of the basis index [i], wire by wire:
    the first wire reads the highest bit. *)
Fixpoint labelOf (n i : nat) : string :=
  match n with
  | O => EmptyString
  | S n' => String (if Nat.testbit i n' then "1"%char else "0"%char) (labelOf n' i)
  end.

Fixpoint probOf (qubitStates : list State) (i : nat) : R :=
  match qubitStates with
  | [] => 1
  | s :: ss =>
      (if Nat.testbit i (List.length ss) then prob1 (getProbabilities s)
       else prob0 (getProbabilities s)) * probOf ss i
  end.

(** The string of [n] zeros. *)
Fixpoint zeros (n : nat) : string :=
  match n with
  | O => EmptyString
  | S n' => String "0"%char (zeros n')
  end.

(** The joint amplitudes of independent wires: the tensor product of
    their states, first wire first. *)
Definition tensorProduct (states : list State) : list C :=
  fold_left
    (fun result state => flat_map (fun a => map (cMul a) (amps state)) result)
    states [complex 1 0].

(** A decomposition enters the rotation history when one of its angles
    exceeds [0.01] in magnitude. *)
Definition visible (d : Decomp) : bool :=
  (Rgtb (Rabs (theta d)) (1 / 100) || Rgtb (Rabs (phi d)) (1 / 100)
   || Rgtb (Rabs (lambda d)) (1 / 100))%bool.

(** ** Gates and circuits used as examples *)

(** The instance [createGateInstance] makes for a catalog gate. *)
Definition instanceOf (g : GateRef) : Gate :=
  mkGate (name g) (Some (defaultMatrix g)) (Some (defaultDecomposition g)) None None false.

(** The instance of the universal gate with the angles [d]. *)
Definition universal (d : Decomp) : Gate :=
  mkGate "U" (Some (matrixOf d)) (Some d) None None false.

(** The gate [{ ...g, controlIndex: c }]. *)
Definition controlledBy (c : nat) (g : Gate) : Gate :=
  mkGate (gate g) (matrix g) (decomposition g) (Some c) (targetIndex g) (isDerivedKickback g).

(** The control marker [{ gate: 'CONTROL', targetIndex, controlIndex: null }]. *)
Definition controlMarker (target : nat) : Gate :=
  mkGate "CONTROL" None None None (Some target) false.

(** Two wires: [H] on wire 0, which controls the gate [g] on wire 1 at
    slot 1; [prep] is the cell of wire 1 at slot 0. *)
Definition kickbackCircuit (prep : option Gate) (g : Gate) : Circuits :=
  [[Some (instanceOf GATE_H); Some (controlMarker 1)];
   [prep; Some (controlledBy 0 g)]].

(** Control in [|+>], target in [|1>], controlled-Z. *)
Definition czOne : Circuits :=
  kickbackCircuit (Some (instanceOf GATE_X)) (instanceOf GATE_Z).

(** Control in [|+>], target in [|1>], controlled-S. *)
Definition csOne : Circuits :=
  kickbackCircuit (Some (instanceOf GATE_X)) (instanceOf GATE_S).

(** Control in [|+>], target in [|0>], controlled-Z. *)
Definition czZero : Circuits := kickbackCircuit None (instanceOf GATE_Z).

(** The circuit of wire 0 of the examples alone: [H]. *)
Definition plusOnly : Circuits := [[Some (instanceOf GATE_H)]].

(** [|->] and the state [(|0> + i|1>)/sqrt 2]. *)
Definition STATE_MINUS : State := (complex SQRT2_INV 0, complex (- SQRT2_INV) 0).
Definition STATE_PLUS_I : State := (complex SQRT2_INV 0, complex 0 SQRT2_INV).

(** Five wires.  Wire 0 carries four [T] gates, at the slots 1 to 4,
    controlled by the wires 1 to 4; each controlling wire carries the
    universal gate of angles [(2 PI / 3, 0, 0)] at slot 0 and the control
    marker at the slot of its gate. *)
Definition U23 : Gate := universal (mkDecomp (2 * PI / 3) 0 0).

Definition capCircuit : Circuits :=
  [[None; Some (controlledBy 1 (instanceOf GATE_T)); Some (controlledBy 2 (instanceOf GATE_T));
    Some (controlledBy 3 (instanceOf GATE_T)); Some (controlledBy 4 (instanceOf GATE_T))];
   [Some U23; Some (controlMarker 0)];
   [Some U23; None; Some (controlMarker 0)];
   [Some U23; None; None; Some (controlMarker 0)];
   [Some U23; None; None; None; Some (controlMarker 0)]].

(** The gates of wire 0 of [capCircuit], its controls and the probability
    of each control being in [|1>]. *)
Definition capGates : list Placed :=
  [place (controlledBy 1 (instanceOf GATE_T)) 1; place (controlledBy 2 (instanceOf GATE_T)) 2;
   place (controlledBy 3 (instanceOf GATE_T)) 3; place (controlledBy 4 (instanceOf GATE_T)) 4].

Definition capControls : list nat := [1; 2; 3; 4]%nat.

Definition capProbs : list R := [3 / 4; 3 / 4; 3 / 4; 3 / 4].

(** ** The remaining operations of the simulation kernel *)

(** [updateMatrixFromDecomposition(gateInstance)]: the instance with its
    matrix rebuilt from its angles.  Reading the angles of a missing
    decomposition throws. *)
Definition updateMatrixFromDecomposition (gateInstance : Gate) : Outcome Gate :=
  match decomposition gateInstance with
  | None => TypeError
  | Some d =>
      Returned (mkGate (gate gateInstance)
                       (Some (createU3Matrix (theta d) (phi d) (lambda d)))
                       (decomposition gateInstance) (controlIndex gateInstance)
                       (targetIndex gateInstance) (isDerivedKickback gateInstance))
  end.

Definition gateHasPhaseKickbackPotential (gateInstance : option Gate) (tolerance : R) : bool :=
  match gateInstance with
  | None => false
  | Some g =>
      if (String.eqb (gate g) "BARRIER" || String.eqb (gate g) "CONTROL")%bool then false
      else if existsb (String.eqb (gate g)) ["Z"; "S"; "T"] then true
      else if (negb (String.eqb (gate g) "U") || negb (truthy (decomposition g)))%bool
           then false
      else
        match decomposition g with
        | None => false
        | Some d =>
            if Rgtb (Rabs (theta d)) tolerance then false
            else
              let relativePhase := normalizeAngle (phi d + lambda d) in
              Rgtb (Rabs relativePhase) tolerance
        end
  end.

(** ** Frames, signals and views (application component and panels) *)

(** A signal from a controlling wire to its target:
    [{ from, to, hasKickback }]. *)
Record Signal : Type := mkSignal { from : nat; to : nat; hasKickback : bool }.

(** A bar of the probability panel: an entry, or the row that sums up the
    entries left out, [{ state: '**', probability, isOthers: true }]. *)
Record Bar : Type := mkBar { bar_state : string; bar_probability : R; isOthers : bool }.

Section Views.

Variable circuits : Circuits.
Variable barriers : list nat.
Variable initialStateMode : string.

(** [[...barriers].sort((a, b) => a - b)] *)
Definition sortedBarriers : list nat := jsSort (fun a b => (b <? a)%nat) barriers.

(** [detectPhaseKickback(targetGate, targetQubit, slot, stateCache)] *)
Definition detectPhaseKickback (targetGate : Gate) (targetQubit slot : nat)
    (stateCache : list (list State)) : bool :=
  let targetStateBefore := cachedState initialStateMode stateCache targetQubit slot in
  match getKickbackPhaseForControlledGate (Some targetGate) (Some targetStateBefore) TOL with
  | None => false
  | Some phase => Rgtb (Rabs phase) (1 / 100)
  end.

(** The slots [minSlot <= slot < maxSlot] of a frame; [None] is the bound
    [Infinity]. *)
Definition slotRange (frame : nat) : nat * option nat :=
  if ((0 <? frame) && (frame <=? List.length sortedBarriers))%nat%bool then
    ((if (1 <? frame)%nat then nth (frame - 2) sortedBarriers 0%nat else 0%nat),
     Some (nth (frame - 1) sortedBarriers 0%nat))
  else if (List.length sortedBarriers <? frame)%nat then
    ((if (0 <? List.length sortedBarriers)%nat
      then nth (List.length sortedBarriers - 1) sortedBarriers 0%nat else 0%nat),
     None)
  else (0%nat, None).

Definition inSlotRange (range : nat * option nat) (slot : nat) : bool :=
  ((fst range <=? slot)%nat &&
   match snd range with
   | Some maxSlot => (slot <? maxSlot)%nat
   | None => true
   end)%bool.

(** [activeControlSignals]; the frame [None] is [-1]. *)
Definition activeControlSignals (isPlaying : bool) (animationFrame : option nat)
  : list Signal :=
  match animationFrame with
  | None => []
  | Some frame =>
      if (negb isPlaying || (frame =? 0)%nat)%bool then []
      else
        let range := slotRange frame in
        let stateCache := buildColumnStateCache circuits barriers initialStateMode frame in
        flat_map
          (fun qIdx =>
             flat_map
               (fun e =>
                  if (isControlled e && inSlotRange range (slot e))%bool then
                    [mkSignal (controlOf e) qIdx
                              (detectPhaseKickback (cell e) qIdx (slot e) stateCache)]
                  else [])
               (entriesFrom (nth qIdx circuits []) 0))
          (seq 0 (List.length circuits))
  end.

(** The slot bound of a frame, to state the properties: the gates of the
    frame are those below the bound; [None] is no bound. *)
Definition frameBound (frame : nat) : option nat :=
  if (frame =? 0)%nat then Some 0%nat
  else if (List.length barriers <? frame)%nat then None
  else nth_error sortedBarriers (frame - 1).

Definition beforeBound (bound : option nat) (slot : nat) : bool :=
  match bound with
  | Some b => (slot <? b)%nat
  | None => true
  end.

(** [highlightedBarrier]; [None] is [-1]. *)
Definition highlightedBarrier (animationFrame : option nat) : option nat :=
  match animationFrame with
  | None => None
  | Some frame =>
      if ((0 <? frame) && (frame <=? List.length barriers))%nat%bool
      then Some (frame - 1)%nat else None
  end.

(** [isGateAnimated] of the circuit panel, applied to a slot.  Beyond the
    barriers [sortedBarriers[animationFrame - 1]] is [undefined] and the
    comparison is false. *)
Definition isGateAnimated (isPlaying : bool) (animationFrame : option nat) (slot : nat)
  : bool :=
  match animationFrame with
  | None => true
  | Some frame =>
      if negb isPlaying then true
      else if (frame =? 0)%nat then false
      else if (List.length sortedBarriers <? frame)%nat then true
      else
        match nth_error sortedBarriers (frame - 1) with
        | Some barrierSlot => (slot <? barrierSlot)%nat
        | None => false
        end
  end.

End Views.

(** [displayProbs] of the probability panel, for the view mode. *)
Definition barOf (p : Entry) : Bar := mkBar (state p) (probability p) false.

Definition displayProbs (viewMode : string) (allProbabilities : list Entry) : list Bar :=
  if String.eqb viewMode "all" then map barOf allProbabilities
  else
    let nonZero := filter (fun p => Rgtb (probability p) (1 / 1000)) allProbabilities in
    if String.eqb viewMode "presence" then map barOf nonZero
    else if (List.length nonZero <=? 6)%nat then map barOf nonZero
    else
      let top5 := firstn 5 nonZero in
      let othersSum := fold_left (fun sum p => sum + probability p) (skipn 5 nonZero) 0 in
      map barOf top5 ++ [mkBar "**" othersSum true].
(** ** Editing the circuit (handlers of the application component) *)

(** The selection, [null] or an object with some of the fields
    [{ isBarrier, slot, qubitIndex, slotIndex, gate }]. *)
Record Selected : Type := mkSelected {
  sel_isBarrier : bool;
  sel_slot : option nat;
  qubitIndex : option nat;
  slotIndex : option nat;
  sel_gate : option Gate
}.

(** The state of the component that the handlers change. *)
Record Editor : Type := mkEditor {
  circuits : Circuits;
  barriers : list nat;
  qubitVisibility : list bool;
  selectedGate : option Selected;
  animationFrame : option nat;
  isPlaying : bool;
  initialStateMode : string
}.

(** Sequencing of steps that may throw. *)
Definition bind {A B : Type} (x : Outcome A) (f : A -> Outcome B) : Outcome B :=
  match x with
  | Returned a => f a
  | TypeError => TypeError
  end.

Notation "x <- a ;; b" := (bind a (fun x => b))
  (at level 100, a at next level, right associativity).

(** [circuits[qi]?.[si]]: a missing row, a hole, [undefined] and [null]
    all read as no gate. *)
Definition cellAt (c : Circuits) (qi si : nat) : option Gate :=
  nth si (nth qi c []) None.

(** [row[i] = v]: an index beyond the end extends the array by holes. *)
Definition setAt (row : list (option Gate)) (i : nat) (v : option Gate)
  : list (option Gate) :=
  if (i <? List.length row)%nat then firstn i row ++ v :: skipn (S i) row
  else row ++ repeat None (i - List.length row) ++ [v].

(** [next[qi][si] = v], which throws when there is no row [qi]. *)
Definition setCell (next : Circuits) (qi si : nat) (v : option Gate) : Outcome Circuits :=
  match nth_error next qi with
  | None => TypeError
  | Some row => Returned (firstn qi next ++ setAt row si v :: skipn (S qi) next)
  end.

(** The loop [for (s = newRow.length; s > fromSlot; s--) newRow[s] =
    newRow[s - 1]] and the assignment [newRow[fromSlot] = null]. *)
Definition shiftRow (row : list (option Gate)) (fromSlot : nat) : list (option Gate) :=
  let newRow :=
    fold_left (fun newRow s => setAt newRow s (nth (s - 1) newRow None))
              (rev (seq (S fromSlot) (List.length row - fromSlot))) row in
  setAt newRow fromSlot None.

Definition shiftAllColumnsRight (circuitRows : Circuits) (fromSlot : nat) : Circuits :=
  map (fun row => shiftRow row fromSlot) circuitRows.

(** [bi >= si ? bi + 1 : bi] *)
Definition shiftBarrier (si bi : nat) : nat :=
  if (si <=? bi)%nat then (bi + 1)%nat else bi.

(** [{ ...g, controlIndex: c }] and [{ ...g, targetIndex: t }] *)
Definition withControl (g : Gate) (c : option nat) : Gate :=
  mkGate (gate g) (matrix g) (decomposition g) c (targetIndex g) (isDerivedKickback g).

Definition withTarget (g : Gate) (t : option nat) : Gate :=
  mkGate (gate g) (matrix g) (decomposition g) (controlIndex g) t (isDerivedKickback g).

Definition selectGate (qi si : nat) (g : Gate) : Selected :=
  mkSelected false None (Some qi) (Some si) (Some g).

(** [handleInsertGate(qi, si, gate)] *)
Definition handleInsertGate (st : Editor) (qi si : nat) (gate : Gate) : Outcome Editor :=
  let isOccupied := truthy (cellAt (circuits st) qi si) in
  let next := if isOccupied then shiftAllColumnsRight (circuits st) si else circuits st in
  next' <- setCell next qi si (Some gate) ;;
  Returned (mkEditor next'
              (if isOccupied then map (shiftBarrier si) (barriers st) else barriers st)
              (qubitVisibility st) (Some (selectGate qi si gate)) None false
              (initialStateMode st)).

(** The updater of [handleRemoveGate(qi, si)]. *)
Definition removeGate (prev : Circuits) (qi si : nat) : Outcome Circuits :=
  match nth_error prev qi with
  | None => TypeError
  | Some row =>
      match nth si row None with
      | None => Returned prev
      | Some g =>
          next <-
            (if String.eqb (gate g) "CONTROL" then
               match targetIndex g with
               | Some targetQi =>
                   match cellAt prev targetQi si with
                   | Some t =>
                       if option_nat_eqb (controlIndex t) qi
                       then setCell prev targetQi si (Some (withControl t None))
                       else Returned prev
                   | None => Returned prev
                   end
               | None => Returned prev
               end
             else
               match controlIndex g with
               | Some ctrlQi =>
                   match cellAt prev ctrlQi si with
                   | Some m =>
                       if (String.eqb (gate m) "CONTROL"
                           && option_nat_eqb (targetIndex m) qi)%bool
                       then setCell prev ctrlQi si None
                       else Returned prev
                   | None => Returned prev
                   end
               | None => Returned prev
               end) ;;
          setCell next qi si None
      end
  end.

Definition handleRemoveGate (st : Editor) (qi si : nat) : Outcome Editor :=
  next <- removeGate (circuits st) qi si ;;
  Returned (mkEditor next (barriers st) (qubitVisibility st) None None false
              (initialStateMode st)).

(** [handleGateMiddleClick(qi, si)] *)
Definition handleGateMiddleClick (st : Editor) (qi si : nat) : Outcome Editor :=
  match cellAt (circuits st) qi si with
  | Some g =>
      if String.eqb (gate g) "CONTROL" then
        next <-
          (match targetIndex g with
           | Some targetQi =>
               match cellAt (circuits st) targetQi si with
               | Some t => setCell (circuits st) targetQi si (Some (withControl t None))
               | None => Returned (circuits st)
               end
           | None => Returned (circuits st)
           end) ;;
        next' <- setCell next qi si None ;;
        Returned (mkEditor next' (barriers st) (qubitVisibility st) None
                    (animationFrame st) (isPlaying st) (initialStateMode st))
      else handleRemoveGate st qi si
  | None => handleRemoveGate st qi si
  end.

(** [handleRemoveBarrier(slotIdx)] *)
Definition handleRemoveBarrier (st : Editor) (slotIdx : nat) : Editor :=
  mkEditor (circuits st) (filter (fun b => negb (b =? slotIdx)%nat) (barriers st))
           (qubitVisibility st) None None false (initialStateMode st).

(** [handleAddBarrier(si)] *)
Definition handleAddBarrier (st : Editor) (si : nat) : Editor :=
  mkEditor (circuits st)
           (if existsb (Nat.eqb si) (barriers st) then barriers st
            else jsSort (fun a b => (b <? a)%nat) (barriers st ++ [si]))
           (qubitVisibility st) (selectedGate st) None false (initialStateMode st).

(** The first step of the updater of [handleUpdateGate]: "remove old
    control dot if control is changing or being removed". *)
Definition removeOldControl (prev : Circuits) (si : nat) (newGate : Gate)
    (oldGate : option Gate) : Outcome Circuits :=
  match oldGate with
  | Some og =>
      match controlIndex og with
      | Some oldCtrlQi =>
          if negb (option_nat_eqb (controlIndex newGate) oldCtrlQi) then
            match cellAt prev oldCtrlQi si with
            | Some m =>
                if String.eqb (gate m) "CONTROL"
                then setCell prev oldCtrlQi si None
                else Returned prev
            | None => Returned prev
            end
          else Returned prev
      | None => Returned prev
      end
  | None => Returned prev
  end.

(** The second step: "place new control dot", or the gate alone.  The
    flag tells whether the columns were shifted (and the barriers with
    them). *)
Definition placeGate (next : Circuits) (qi si : nat) (newGate : Gate)
  : Outcome (Circuits * bool) :=
  match controlIndex newGate with
  | Some ctrlQi =>
      match nth_error next ctrlQi with
      | None => TypeError
      | Some ctrlRow =>
          let existingAtCtrl := nth si ctrlRow None in
          let isOurControlNode :=
            match existingAtCtrl with
            | Some m => (String.eqb (gate m) "CONTROL"
                         && option_nat_eqb (targetIndex m) qi)%bool
            | None => false
            end in
          if (truthy existingAtCtrl && negb isOurControlNode)%bool then
            n1 <- setCell next qi si None ;;
            n2 <- setCell (shiftAllColumnsRight n1 si) qi si (Some newGate) ;;
            n3 <- setCell n2 ctrlQi si (Some (controlMarker qi)) ;;
            Returned (n3, true)
          else
            n1 <- setCell next qi si (Some newGate) ;;
            n2 <- setCell n1 ctrlQi si (Some (controlMarker qi)) ;;
            Returned (n2, false)
      end
  | None =>
      n1 <- setCell next qi si (Some newGate) ;;
      Returned (n1, false)
  end.

(** The updater of [handleUpdateGate(qi, si, newGate)]. *)
Definition updateGate (prev : Circuits) (qi si : nat) (newGate : Gate)
  : Outcome (Circuits * bool) :=
  match nth_error prev qi with
  | None => TypeError
  | Some row =>
      next <- removeOldControl prev si newGate (nth si row None) ;;
      placeGate next qi si newGate
  end.

Definition handleUpdateGate (st : Editor) (qi si : nat) (newGate : Gate) : Outcome Editor :=
  r <- updateGate (circuits st) qi si newGate ;;
  Returned (mkEditor (fst r)
              (if snd r then map (shiftBarrier si) (barriers st) else barriers st)
              (qubitVisibility st)
              (match selectedGate st with
               | Some prev => Some (mkSelected (sel_isBarrier prev) (sel_slot prev)
                                               (qubitIndex prev) (slotIndex prev)
                                               (Some newGate))
               | None => None
               end)
              (animationFrame st) (isPlaying st) (initialStateMode st)).

(** [handleAddQubit()] *)
Definition handleAddQubit (st : Editor) : Editor :=
  mkEditor (circuits st ++ [[]]) (barriers st) (qubitVisibility st ++ [true])
           (selectedGate st) None false (initialStateMode st).

(** [l.filter((_, i) => i !== qi)] *)
Definition dropAt {A : Type} (qi : nat) (l : list A) : list A :=
  firstn qi l ++ skipn (S qi) l.

(** [x > qi ? x - 1 : x] *)
Definition renumber (qi x : nat) : nat := if (qi <? x)%nat then (x - 1)%nat else x.

(** What [handleRemoveQubit(qi)] makes of a cell of a remaining row. *)
Definition cleanCell (qi : nat) (c : option Gate) : option Gate :=
  match c with
  | None => None
  | Some g =>
      if String.eqb (gate g) "CONTROL" then
        match targetIndex g with
        | Some originalTarget =>
            if (originalTarget =? qi)%nat then None
            else Some (withTarget g (Some (renumber qi originalTarget)))
        | None => Some g
        end
      else
        match controlIndex g with
        | None => Some g
        | Some c =>
            if (c =? qi)%nat then Some (withControl g None)
            else Some (withControl g (Some (renumber qi c)))
        end
  end.

Definition handleRemoveQubit (st : Editor) (qi : nat) : Editor :=
  if (List.length (circuits st) <=? 1)%nat then st
  else
    mkEditor (map (map (cleanCell qi)) (dropAt qi (circuits st))) (barriers st)
             (dropAt qi (qubitVisibility st)) None None false (initialStateMode st).

(** ** Notions used to state the properties of the handlers *)

(** The slot a cell has after the columns from [si] on moved right. *)
Definition shiftedSlot (si s : nat) : nat := if (s <? si)%nat then s else S s.

(** The slot that a cell of the old circuit has after
    [handleInsertGate(qi, si, gate)]. *)
Definition insertedSlot (st : Editor) (qi si s : nat) : nat :=
  if truthy (cellAt (circuits st) qi si) then shiftedSlot si s else s.

(** The controlled-Z example in the editor, with a barrier before the
    controlled gate. *)
Definition czEditor : Editor := mkEditor czOne [1%nat] [true; true] None None false "zero".

(** The same while the animation plays at frame 1. *)
Definition czPlaying : Editor :=
  mkEditor czOne [1%nat] [true; true] None (Some 1%nat) true "zero".

(** Every control marker has its target gate in its column, and every
    controlled gate its control marker. *)
Definition wellPaired (c : Circuits) : Prop :=
  (forall q s m,
     cellAt c q s = Some m -> gate m = "CONTROL" ->
     exists t tg, targetIndex m = Some t /\ cellAt c t s = Some tg /\
                  gate tg <> "CONTROL" /\ controlIndex tg = Some q) /\
  (forall t s tg k,
     cellAt c t s = Some tg -> gate tg <> "CONTROL" -> controlIndex tg = Some k ->
     exists m, cellAt c k s = Some m /\ gate m = "CONTROL" /\ targetIndex m = Some t).
(** * Properties *)

(** ** Boolean comparisons *)

Lemma Rltb_true x y : Rltb x y = true <-> x < y.
Proof. unfold Rltb; destruct (Rlt_dec x y); split; intros; try easy. Qed.

Lemma Rltb_false x y : Rltb x y = false <-> y <= x.
Proof. unfold Rltb; destruct (Rlt_dec x y); split; intros; try easy; lra. Qed.

Lemma Rleb_true x y : Rleb x y = true <-> x <= y.
Proof. unfold Rleb; destruct (Rle_dec x y); split; intros; try easy. Qed.

Lemma Rleb_false x y : Rleb x y = false <-> y < x.
Proof. unfold Rleb; destruct (Rle_dec x y); split; intros; try easy; lra. Qed.

Lemma Reqb_true x y : Reqb x y = true <-> x = y.
Proof. unfold Reqb; destruct (Req_dec_T x y); split; intros; try easy. Qed.

Lemma Reqb_false x y : Reqb x y = false <-> x <> y.
Proof. unfold Reqb; destruct (Req_dec_T x y); split; intros; try easy. Qed.

(** ** Facts on complex numbers and normalisation *)

Lemma cAbs_nonneg a : 0 <= cAbs a.
Proof. unfold cAbs; apply sqrt_pos. Qed.

Lemma cAbs_sq a : cAbs a ^ 2 = re a * re a + im a * im a.
Proof.
  unfold cAbs. simpl. rewrite Rmult_1_r.
  apply sqrt_sqrt. nra.
Qed.

Lemma normSq_nonneg s : 0 <= normSq s.
Proof. unfold normSq. rewrite !cAbs_sq. nra. Qed.

Lemma cAbs_real x : cAbs (complex x 0) = Rabs x.
Proof.
  unfold cAbs; simpl. replace (x * x + 0 * 0) with (x²) by (unfold Rsqr; ring).
  apply sqrt_Rsqr_abs.
Qed.

Lemma cAbs_imag x : cAbs (complex 0 x) = Rabs x.
Proof.
  unfold cAbs; simpl. replace (0 * 0 + x * x) with (x²) by (unfold Rsqr; ring).
  apply sqrt_Rsqr_abs.
Qed.

Lemma normalize_zero s : normSq s = 0 -> normalize s = (complex 1 0, complex 0 0).
Proof.
  intros H. unfold normalize. fold (normSq s). rewrite H, sqrt_0.
  destruct (Reqb 0 0) eqn:E; [reflexivity|].
  apply Reqb_false in E. contradiction.
Qed.

Lemma normalize_nonzero s :
  normSq s <> 0 ->
  normalize s =
    (complex (re (fst s) / sqrt (normSq s)) (im (fst s) / sqrt (normSq s)),
     complex (re (snd s) / sqrt (normSq s)) (im (snd s) / sqrt (normSq s))).
Proof.
  intros H. unfold normalize. fold (normSq s).
  destruct (Reqb (sqrt (normSq s)) 0) eqn:E; [|reflexivity].
  apply Reqb_true in E. apply sqrt_eq_0 in E; [contradiction|apply normSq_nonneg].
Qed.

Lemma normalize_normSq s : normSq (normalize s) = 1.
Proof.
  destruct (Req_dec_T (normSq s) 0) as [H|H].
  - rewrite (normalize_zero _ H). unfold normSq. rewrite !cAbs_sq. simpl. ring.
  - rewrite (normalize_nonzero _ H).
    assert (Hp : 0 < normSq s) by (pose proof (normSq_nonneg s); lra).
    assert (Hs : 0 < sqrt (normSq s)) by (apply sqrt_lt_R0; exact Hp).
    assert (Hq : sqrt (normSq s) * sqrt (normSq s) = normSq s)
      by (apply sqrt_sqrt; lra).
    unfold normSq at 1. rewrite !cAbs_sq. simpl.
    unfold normSq in Hq at 3. rewrite !cAbs_sq in Hq.
    set (n := sqrt (normSq s)) in *.
    field_simplify_eq; [|lra]. nra.
Qed.

Lemma normalize_unit s : normSq s = 1 -> normalize s = s.
Proof.
  intros H. rewrite normalize_nonzero by lra.
  rewrite H, sqrt_1. destruct s as [[a b] [c d]]; simpl.
  f_equal; f_equal; field.
Qed.
(** ** Special values of the elementary functions *)

Lemma sqrt2_inv_sq : SQRT2_INV * SQRT2_INV = 1 / 2.
Proof.
  unfold SQRT2_INV.
  assert (H : sqrt 2 * sqrt 2 = 2) by (apply sqrt_sqrt; lra).
  assert (H0 : 0 < sqrt 2) by (apply sqrt_lt_R0; lra).
  field_simplify_eq; [|lra]. lra.
Qed.

Lemma sqrt2_inv_pos : 0 < SQRT2_INV.
Proof.
  unfold SQRT2_INV. apply Rdiv_lt_0_compat; [lra|]. apply sqrt_lt_R0; lra.
Qed.

Lemma cos_quarter : cos (PI / 4) = SQRT2_INV.
Proof. exact cos_PI4. Qed.

Lemma sin_quarter : sin (PI / 4) = SQRT2_INV.
Proof. exact sin_PI4. Qed.

Lemma atan2_pos_re y x : 0 < x -> atan2 y x = atan (y / x).
Proof. intros H. unfold atan2. destruct (Rlt_dec 0 x); [reflexivity|lra]. Qed.

Lemma atan2_zero_pos x : 0 < x -> atan2 0 x = 0.
Proof.
  intros H. rewrite atan2_pos_re by exact H.
  replace (0 / x) with 0 by (field; lra). apply atan_0.
Qed.

Lemma atan2_zero_neg x : x < 0 -> atan2 0 x = PI.
Proof.
  intros H. unfold atan2.
  destruct (Rlt_dec 0 x); [lra|]. destruct (Rlt_dec x 0); [|lra].
  destruct (Rle_dec 0 0); [|lra].
  replace (0 / x) with 0 by (field; lra). rewrite atan_0. ring.
Qed.

Lemma atan2_pos_zero y : 0 < y -> atan2 y 0 = PI / 2.
Proof.
  intros H. unfold atan2.
  destruct (Rlt_dec 0 0); [lra|]. destruct (Rlt_dec 0 0); [lra|].
  destruct (Rlt_dec 0 y); [reflexivity|lra].
Qed.

Lemma atan2_neg_zero y : y < 0 -> atan2 y 0 = - (PI / 2).
Proof.
  intros H. unfold atan2.
  destruct (Rlt_dec 0 0); [lra|]. destruct (Rlt_dec 0 0); [lra|].
  destruct (Rlt_dec 0 y); [lra|]. destruct (Rlt_dec y 0); [reflexivity|lra].
Qed.

Lemma atan2_origin : atan2 0 0 = 0.
Proof.
  unfold atan2.
  destruct (Rlt_dec 0 0); [lra|]. destruct (Rlt_dec 0 0); [lra|reflexivity].
Qed.

(** [Math.atan2] takes its values in [(-PI, PI]]. *)
Lemma atan2_range y x : - PI < atan2 y x <= PI.
Proof.
  pose proof PI_RGT_0 as Hpi.
  pose proof (atan_bound (y / x)) as Hb.
  unfold atan2.
  destruct (Rlt_dec 0 x) as [Hx|Hx]; [lra|].
  destruct (Rlt_dec x 0) as [Hx'|Hx'].
  - destruct (Rle_dec 0 y) as [Hy|Hy].
    + assert (y / x <= 0).
      { unfold Rdiv. assert (/ x < 0) by (apply Rinv_lt_0_compat; exact Hx'). nra. }
      assert (atan (y / x) <= 0).
      { rewrite <- atan_0. destruct H as [H|H].
        - left. apply atan_increasing. exact H.
        - rewrite H. right. reflexivity. }
      lra.
    + assert (0 < y / x).
      { unfold Rdiv. assert (/ x < 0) by (apply Rinv_lt_0_compat; exact Hx'). nra. }
      assert (0 < atan (y / x)).
      { rewrite <- atan_0. apply atan_increasing. exact H. }
      lra.
  - destruct (Rlt_dec 0 y); [lra|]. destruct (Rlt_dec y 0); lra.
Qed.

Lemma cPhase_range a : - PI < cPhase a <= PI.
Proof. apply atan2_range. Qed.

Ltac trig :=
  repeat first
    [ rewrite cos_neg | rewrite sin_neg | rewrite cos_0 | rewrite sin_0
    | rewrite cos_PI | rewrite sin_PI | rewrite cos_PI2 | rewrite sin_PI2
    | rewrite cos_quarter | rewrite sin_quarter ].

Lemma C_eq a b c d : a = c -> b = d -> complex a b = complex c d.
Proof. intros; subst; reflexivity. Qed.

(** ** Normalisation after every matrix application *)

(** C6.  Whatever the input state and the 2x2 matrix, the state returned
    by [applyMatrix] has [|alpha|^2 + |beta|^2 = 1] (exactly, hence within
    any tolerance), and when the product of the matrix and the state has
    norm zero the result is the basis state [[1, 0]]. *)
Theorem C6_applyMatrix_normalized :
  forall (s : State) (m : Matrix),
    normSq (applyMatrix s (Some m)) = 1 /\
    (normSq (matVec m s) = 0 ->
     applyMatrix s (Some m) = (complex 1 0, complex 0 0)).
Proof.
  intros s m. simpl. split.
  - apply normalize_normSq.
  - apply normalize_zero.
Qed.

(** The zero matrix sends every state to the zero vector: the guarded case. *)
Lemma C6_applyMatrix_normalized_witness :
  normSq (matVec ((complex 0 0, complex 0 0), (complex 0 0, complex 0 0)) STATE_ONE) = 0 /\
  applyMatrix STATE_ONE (Some ((complex 0 0, complex 0 0), (complex 0 0, complex 0 0)))
  = (complex 1 0, complex 0 0).
Proof.
  assert (H : normSq (matVec ((complex 0 0, complex 0 0), (complex 0 0, complex 0 0))
                             STATE_ONE) = 0).
  { unfold normSq. rewrite !cAbs_sq. simpl. ring. }
  split; [exact H|].
  exact (proj2 (C6_applyMatrix_normalized STATE_ONE _) H).
Defined.

(** ** The gate catalog and [createGateInstance] *)

Lemma assoc_not_in k l : ~ In k (map fst l) -> assoc k l = None.
Proof.
  induction l as [|[k' g] l IH]; simpl; intros H; [reflexivity|].
  destruct (String.eqb_spec k k') as [E|E].
  - exfalso. apply H. left. symmetry. exact E.
  - apply IH. intros H'. apply H. right. exact H'.
Qed.

Lemma existsb_eqb_not_in k l : ~ In k l -> existsb (String.eqb k) l = false.
Proof.
  induction l as [|k' l IH]; simpl; intros H; [reflexivity|].
  destruct (String.eqb_spec k k') as [E|E].
  - exfalso. apply H. left. symmetry. exact E.
  - apply IH. intros H'. apply H. right. exact H'.
Qed.

(** A name that is neither a catalog key nor a member inherited from
    [Object.prototype] yields [null]. *)
Lemma createGateInstance_unknown gateName decomposition :
  ~ In gateName catalogKeys -> ~ In gateName objectPrototypeKeys ->
  createGateInstance gateName decomposition = Returned None.
Proof.
  intros Hc Hp. unfold createGateInstance, lookupGATES.
  rewrite (assoc_not_in _ _ Hc), (existsb_eqb_not_in _ _ Hp). reflexivity.
Qed.

(** A catalog key yields an instance with a matrix and without control. *)
Lemma createGateInstance_catalog gateName decomposition :
  In gateName catalogKeys ->
  exists g m, createGateInstance gateName decomposition = Returned (Some g) /\
              gate g = gateName /\ matrix g = Some m /\ controlIndex g = None.
Proof.
  intros H. simpl in H.
  repeat (destruct H as [H|H]; [subst gateName; eexists; eexists; repeat split|]).
  contradiction.
Qed.

(** C10, at the name [constructor].  The name is not a catalog key, and
    the read [GATES["constructor"]] finds the member inherited from
    [Object.prototype], which passes the guard [if (!gateRef) return null];
    the call then fails on [gateRef.defaultMatrix.map] instead of returning
    [null].  With a decomposition it returns an instance. *)
Theorem C10_createGateInstance_inherited_name :
  ~ In "constructor" catalogKeys /\
  createGateInstance "constructor" None = TypeError /\
  createGateInstance "constructor" (Some (mkDecomp 0 0 0)) <> Returned None.
Proof.
  split; [|split].
  - simpl. intros H. repeat (destruct H as [H|H]; [discriminate H|]). exact H.
  - reflexivity.
  - discriminate.
Qed.

(** ** The matrix family [createU3Matrix] *)

(** The rows of [createU3Matrix] have norm one for all angles. *)
Lemma createU3Matrix_rows_unit t p l :
  m00 (mulAdjoint (createU3Matrix t p l)) = complex 1 0 /\
  m11 (mulAdjoint (createU3Matrix t p l)) = complex 1 0.
Proof.
  pose proof (sin2_cos2 (t / 2)) as H1. unfold Rsqr in H1.
  pose proof (sin2_cos2 (- l)) as H2. unfold Rsqr in H2.
  pose proof (sin2_cos2 p) as H3. unfold Rsqr in H3.
  pose proof (sin2_cos2 (p + l)) as H4. unfold Rsqr in H4.
  unfold mulAdjoint, createU3Matrix, m00, m01, m10, m11, cAdd, cMul, cConj,
    cScale, cFromPolar; simpl.
  split; apply C_eq; nra.
Qed.

(** The two rows are orthogonal only when [sin theta * sin lambda] vanishes:
    the off-diagonal entry of the product is
    [sin(theta/2) cos(theta/2) e^{-i phi} (1 - e^{-2 i lambda})]. *)
Lemma createU3Matrix_offdiag t p l :
  m01 (mulAdjoint (createU3Matrix t p l)) =
  cMul (complex (sin (t / 2) * cos (t / 2)) 0)
       (cSub (cFromPolar 1 (- p)) (cFromPolar 1 (- (p + 2 * l)))).
Proof.
  unfold mulAdjoint, createU3Matrix, m00, m01, m10, m11, cAdd, cMul, cConj,
    cSub, cScale, cFromPolar; simpl.
  replace (- (p + 2 * l)) with (- l + - (p + l)) by ring.
  rewrite (cos_plus (- l)), (sin_plus (- l)).
  rewrite !cos_neg, !sin_neg.
  apply C_eq; ring.
Qed.

(** C8, at [theta = PI/2, phi = 0, lambda = PI/2].  The entry [(0,1)] of
    [M * conj(M)^T] is [1], while the identity matrix has [0] there: the
    matrix is not unitary, by a distance of [1], far above [1e-6]. *)
Theorem C8_createU3Matrix_not_unitary :
  m01 (mulAdjoint (createU3Matrix (PI / 2) 0 (PI / 2))) = complex 1 0 /\
  m01 identityMatrix = complex 0 0 /\
  cDist (m01 (mulAdjoint (createU3Matrix (PI / 2) 0 (PI / 2)))) (m01 identityMatrix) = 1.
Proof.
  assert (H : m01 (mulAdjoint (createU3Matrix (PI / 2) 0 (PI / 2))) = complex 1 0).
  { unfold mulAdjoint, createU3Matrix, m00, m01, m10, m11, cAdd, cMul, cConj,
      cScale, cFromPolar; simpl.
    replace (PI / 2 / 2) with (PI / 4) by field.
    replace (0 + PI / 2) with (PI / 2) by ring.
    trig. pose proof sqrt2_inv_sq. apply C_eq; nra. }
  split; [exact H|]. split; [reflexivity|].
  rewrite H. unfold cDist, cSub, identityMatrix, m01; simpl.
  replace (1 - 0) with 1 by ring. replace (0 - 0) with 0 by ring.
  rewrite cAbs_real. apply Rabs_R1.
Qed.

(** The same defect seen in the catalog: the angles stored for the gate
    [Y] do not give back the matrix stored for [Y]. *)
Lemma createU3Matrix_Y_mismatch :
  m01 (matrixOf (defaultDecomposition GATE_Y)) = complex 0 1 /\
  m01 (defaultMatrix GATE_Y) = complex 0 (-1).
Proof.
  split; [|reflexivity].
  unfold matrixOf, createU3Matrix, m01, cScale, cFromPolar; simpl.
  trig. apply C_eq; ring.
Qed.

(** ** Angles recovered from a matrix *)

(** C7, at the gate [X], whose default decomposition is [(PI, 0, PI)].
    [extractRotationFromMatrix] returns [(PI, 0, 0)], and the matrix built
    from these angles has [-1] where the matrix of [(PI, 0, PI)] has [1],
    at distance [2]: the recovered angles do not reproduce the matrix. *)
Theorem C7_roundtrip_fails_for_X :
  defaultDecomposition GATE_X = mkDecomp PI 0 PI /\
  extractRotationFromMatrix (Some (createU3Matrix PI 0 PI)) = mkDecomp PI 0 0 /\
  m01 (matrixOf (extractRotationFromMatrix (Some (createU3Matrix PI 0 PI)))) = complex (-1) 0 /\
  m01 (createU3Matrix PI 0 PI) = complex 1 0 /\
  cDist (m01 (matrixOf (extractRotationFromMatrix (Some (createU3Matrix PI 0 PI)))))
        (m01 (createU3Matrix PI 0 PI)) = 2.
Proof.
  assert (Hb : m01 (createU3Matrix PI 0 PI) = complex 1 0).
  { unfold createU3Matrix, m01, cScale, cFromPolar; simpl. trig. apply C_eq; ring. }
  assert (Hc : m10 (createU3Matrix PI 0 PI) = complex 1 0).
  { unfold createU3Matrix, m10, cScale, cFromPolar; simpl. trig. apply C_eq; ring. }
  assert (Ha : m00 (createU3Matrix PI 0 PI) = complex 0 0).
  { unfold createU3Matrix, m00; simpl. trig. reflexivity. }
  assert (He : extractRotationFromMatrix (Some (createU3Matrix PI 0 PI)) = mkDecomp PI 0 0).
  { unfold extractRotationFromMatrix. rewrite Ha, Hb, Hc.
    rewrite cAbs_real, Rabs_R0.
    destruct (Rltb 0 (1 / 10000)) eqn:E; [|apply Rltb_false in E; lra].
    unfold cPhase; simpl. rewrite atan2_zero_pos by lra. f_equal. ring. }
  assert (Hr : m01 (matrixOf (extractRotationFromMatrix (Some (createU3Matrix PI 0 PI))))
               = complex (-1) 0).
  { rewrite He. unfold matrixOf, createU3Matrix, m01, cScale, cFromPolar; simpl.
    trig. apply C_eq; ring. }
  split; [reflexivity|]. split; [exact He|]. split; [exact Hr|]. split; [exact Hb|].
  rewrite Hr, Hb. unfold cDist, cSub; simpl.
  replace (-1 - 1) with (-2) by ring. replace (0 - 0) with 0 by ring.
  rewrite cAbs_real, Rabs_left by lra. ring.
Qed.

(** For the catalog gates with [theta = 0] the recovered angles do give the
    same matrix; shown for [Z]. *)
Lemma roundtrip_Z :
  matrixOf (extractRotationFromMatrix (Some (matrixOf (defaultDecomposition GATE_Z))))
  = matrixOf (defaultDecomposition GATE_Z).
Proof.
  assert (Hm : matrixOf (defaultDecomposition GATE_Z)
               = ((complex 1 0, complex 0 0), (complex 0 0, complex (-1) 0))).
  { unfold matrixOf, createU3Matrix, cScale, cFromPolar; simpl.
    replace (0 / 2) with 0 by field. replace (0 + PI) with PI by ring. trig.
    repeat f_equal; ring. }
  rewrite Hm. unfold extractRotationFromMatrix, m00, m01, m10, m11; simpl.
  rewrite !cAbs_real, Rabs_R1, Rabs_R0.
  destruct (Rltb 1 (1 / 10000)) eqn:E1; [apply Rltb_true in E1; lra|].
  destruct (Rltb 0 (1 / 10000)) eqn:E2; [|apply Rltb_false in E2; lra].
  unfold cPhase; simpl. rewrite atan2_zero_neg by lra. rewrite atan2_zero_pos by lra.
  unfold matrixOf, createU3Matrix, cScale, cFromPolar; simpl.
  replace (0 / 2) with 0 by field.
  replace ((PI - 0) / 2 + (PI - 0) / 2) with PI by field.
  trig. repeat f_equal; ring.
Qed.

(** ** Angle normalisation *)

Lemma subTurns_small fuel a : a <= PI -> subTurns fuel a = a.
Proof.
  intros H. destruct fuel; simpl; [reflexivity|].
  destruct (Rltb PI a) eqn:E; [apply Rltb_true in E; lra|reflexivity].
Qed.

Lemma addTurns_small fuel a : - PI <= a -> addTurns fuel a = a.
Proof.
  intros H. destruct fuel; simpl; [reflexivity|].
  destruct (Rltb a (- PI)) eqn:E; [apply Rltb_true in E; lra|reflexivity].
Qed.

Lemma normalizeAngle_id a : - PI <= a <= PI -> normalizeAngle a = a.
Proof.
  intros [H1 H2]. unfold normalizeAngle.
  rewrite subTurns_small by exact H2. apply addTurns_small. exact H1.
Qed.

Lemma subTurns_enough fuel : forall a,
  a <= PI + 2 * PI * INR fuel ->
  subTurns fuel a <= PI /\ (subTurns fuel a = a \/ - PI < subTurns fuel a).
Proof.
  pose proof PI_RGT_0 as Hpi.
  induction fuel as [|f IH]; intros a H.
  - simpl in *. split; [lra|left; reflexivity].
  - rewrite S_INR in H. simpl.
    destruct (Rltb PI a) eqn:E.
    + apply Rltb_true in E.
      destruct (IH (a - 2 * PI)) as [H1 H2]; [lra|].
      split; [exact H1|]. right. destruct H2 as [H2|H2]; [rewrite H2|]; lra.
    + apply Rltb_false in E. split; [exact E|left; reflexivity].
Qed.

Lemma addTurns_enough fuel : forall a,
  - PI - 2 * PI * INR fuel <= a -> a <= PI ->
  - PI <= addTurns fuel a <= PI.
Proof.
  pose proof PI_RGT_0 as Hpi.
  induction fuel as [|f IH]; intros a H Ha.
  - simpl in *. lra.
  - rewrite S_INR in H. simpl.
    destruct (Rltb a (- PI)) eqn:E.
    + apply Rltb_true in E. apply IH; lra.
    + apply Rltb_false in E. lra.
Qed.

Lemma turnsFor_bound a : Rabs a < INR (turnsFor a).
Proof.
  unfold turnsFor.
  destruct (archimed (Rabs a)) as [H _].
  pose proof (Rabs_pos a) as Hp.
  assert (Hz : (0 <= up (Rabs a))%Z).
  { apply le_IZR. lra. }
  rewrite INR_IZR_INZ, Z2Nat.id by exact Hz. lra.
Qed.

(** The bound on the turns is never reached: both loops of
    [normalizeAngle] leave by their condition, with a result in
    [[-PI, PI]]. *)
Lemma normalizeAngle_range a : - PI <= normalizeAngle a <= PI.
Proof.
  pose proof PI2_1 as Hpi.
  pose proof (turnsFor_bound a) as Hb.
  assert (Ha : - Rabs a <= a <= Rabs a).
  { split; [|apply Rle_abs]. pose proof (Rle_abs (- a)) as H. rewrite Rabs_Ropp in H. lra. }
  assert (Hn : 0 <= INR (turnsFor a)) by apply pos_INR.
  unfold normalizeAngle.
  destruct (subTurns_enough (turnsFor a) a) as [H1 H2]; [nra|].
  apply addTurns_enough; [|exact H1].
  destruct H2 as [H2|H2]; [rewrite H2|]; nra.
Qed.

(** ** Eigenphase detection *)

Lemma findIndexFrom_Some {A} (f : A -> bool) l d : forall k i,
  findIndexFrom f l k = Some i ->
  (k <= i)%nat /\ (i - k < List.length l)%nat /\ f (nth (i - k) l d) = true.
Proof.
  induction l as [|a l IH]; intros k i H; simpl in H; [discriminate|].
  destruct (f a) eqn:E.
  - inversion H; subst. rewrite Nat.sub_diag. simpl. repeat split; [lia|lia|exact E].
  - destruct (IH _ _ H) as (H1 & H2 & H3).
    replace (i - k)%nat with (S (i - S k)) by lia. simpl.
    repeat split; [lia|lia|exact H3].
Qed.

Lemma findIndex_Some {A} (f : A -> bool) l d i :
  findIndex f l = Some i -> (i < List.length l)%nat /\ f (nth i l d) = true.
Proof.
  intros H. destruct (findIndexFrom_Some f l d _ _ H) as (_ & H2 & H3).
  rewrite Nat.sub_0_r in *. split; assumption.
Qed.

Lemma cAbs_cScale_unit a : 0 < cAbs a -> cAbs (cScale a (1 / cAbs a)) = 1.
Proof.
  intros H. unfold cScale; simpl.
  assert (Hs : cAbs a * cAbs a = re a * re a + im a * im a)
    by (rewrite <- cAbs_sq; ring).
  set (n := cAbs a) in *.
  unfold cAbs at 1; simpl.
  replace (re a * (1 / n) * (re a * (1 / n)) + im a * (1 / n) * (im a * (1 / n)))
    with ((re a * re a + im a * im a) / (n * n)) by (field; lra).
  rewrite <- Hs. replace (n * n / (n * n)) with 1 by (field; lra). apply sqrt_1.
Qed.

(** With a divisor of magnitude above the tolerance, [complexDiv] is the
    quotient. *)
Lemma complexDiv_quotient a b :
  1 / 100 < cAbs b -> cMul (complexDiv a b) b = a.
Proof.
  intros H. pose proof (cAbs_sq b) as Hs.
  assert (Hd : 1 / 10000 < re b * re b + im b * im b) by (rewrite <- Hs; nra).
  unfold complexDiv.
  destruct (Rltb (re b * re b + im b * im b) (1 / 1000000000000)) eqn:E.
  - apply Rltb_true in E. lra.
  - destruct a as [ar ai], b as [br bi]; unfold cMul; simpl in *.
    apply C_eq; field; lra.
Qed.

Lemma existsb_seq_false (f : nat -> bool) n :
  existsb f (seq 0 n) = false -> forall i, (i < n)%nat -> f i = false.
Proof.
  intros H i Hi.
  rewrite <- not_true_iff_false in H.
  destruct (f i) eqn:E; [|reflexivity].
  exfalso. apply H. apply existsb_exists. exists i. split; [|exact E].
  apply in_seq. lia.
Qed.

(** The shape of every non-null result of the detector. *)
Lemma kickback_Some_inv g s phase :
  getKickbackPhaseForControlledGate (Some g) (Some s) TOL = Some phase ->
  exists ref,
    findIndex (fun a => Rgtb (cAbs a) TOL) (amps s) = Some ref /\
    let evolved := applyMatrix s (matrix g) in
    let raw := complexDiv (amp evolved ref) (amp s ref) in
    let ratio := cScale raw (1 / cAbs raw) in
    TOL < cAbs raw /\
    eigenCheckFails s evolved ratio TOL = false /\
    phase = snapped (normalizeAngle (cPhase ratio)).
Proof.
  unfold getKickbackPhaseForControlledGate.
  destruct (String.eqb (gate g) "BARRIER" || String.eqb (gate g) "CONTROL")%bool;
    [discriminate|].
  destruct (matrix g) as [m|] eqn:Em; [|discriminate].
  destruct (findIndex (fun a => Rgtb (cAbs a) TOL) (amps s)) as [ref|]; [|discriminate].
  destruct (Rleb _ TOL) eqn:E1; [discriminate|].
  destruct (eigenCheckFails _ _ _ _) eqn:E2; [discriminate|].
  intros H. inversion H; subst. exists ref. split; [reflexivity|].
  cbv zeta. apply Rleb_false in E1. repeat split; assumption.
Qed.

Lemma eigenCheckFails_false s evolved ratio :
  eigenCheckFails s evolved ratio TOL = false <->
  forall i, (i < 2)%nat ->
    cDist (amp evolved i) (cMul ratio (amp s i)) <= 2 * TOL.
Proof.
  unfold eigenCheckFails, cDist. simpl List.length. split.
  - intros H i Hi.
    pose proof (existsb_seq_false _ _ H i Hi) as H'. cbv beta zeta in H'.
    unfold Rgtb in H'. apply Rltb_false in H'. lra.
  - intros H. simpl.
    pose proof (H 0%nat ltac:(lia)) as H0. pose proof (H 1%nat ltac:(lia)) as H1.
    unfold Rgtb.
    rewrite (proj2 (Rltb_false _ _)) by lra.
    rewrite (proj2 (Rltb_false _ _)) by lra.
    reflexivity.
Qed.

Lemma snapped_cases a :
  (Rabs a <= TOL -> snapped a = 0) /\ (TOL < Rabs a -> snapped a = a).
Proof.
  unfold snapped, Rgtb. split; intros H.
  - destruct (Rltb TOL (Rabs a)) eqn:E; [apply Rltb_true in E; lra|reflexivity].
  - destruct (Rltb TOL (Rabs a)) eqn:E; [reflexivity|apply Rltb_false in E; lra].
Qed.

(** C3.  For a gate [g] and a pre-gate state [s], every non-null result
    [phase] of [getKickbackPhaseForControlledGate] comes with a reference
    index [ref] such that, for [evolved = applyMatrix(s, g.matrix)], the
    quotient [raw = evolved[ref] / s[ref]] and its unit-magnitude multiple
    [ratio], every basis index [i] has
    [|evolved[i] - ratio * s[i]| <= 2 * 0.01]; the phase lies in
    [(-PI, PI]], is [0] when the angle of [ratio] has magnitude at most
    [0.01], and is that angle otherwise.  And when some index fails the
    check, the result is null. *)
Theorem C3_kickback_phase_eigencheck (g : Gate) (s : State) :
  (forall phase,
      getKickbackPhaseForControlledGate (Some g) (Some s) TOL = Some phase ->
      exists ref,
        findIndex (fun a => Rgtb (cAbs a) TOL) (amps s) = Some ref /\
        let evolved := applyMatrix s (matrix g) in
        let raw := complexDiv (amp evolved ref) (amp s ref) in
        let ratio := cScale raw (1 / cAbs raw) in
        cMul raw (amp s ref) = amp evolved ref /\
        cAbs ratio = 1 /\
        (forall i, (i < 2)%nat ->
           cDist (amp evolved i) (cMul ratio (amp s i)) <= 2 * (1 / 100)) /\
        - PI < phase <= PI /\
        (Rabs (cPhase ratio) <= 1 / 100 -> phase = 0) /\
        (1 / 100 < Rabs (cPhase ratio) -> phase = cPhase ratio))
  /\
  (forall ref i,
      findIndex (fun a => Rgtb (cAbs a) TOL) (amps s) = Some ref ->
      (i < 2)%nat ->
      let evolved := applyMatrix s (matrix g) in
      let raw := complexDiv (amp evolved ref) (amp s ref) in
      let ratio := cScale raw (1 / cAbs raw) in
      2 * (1 / 100) < cDist (amp evolved i) (cMul ratio (amp s i)) ->
      getKickbackPhaseForControlledGate (Some g) (Some s) TOL = None).
Proof.
  split.
  - intros phase H.
    destruct (kickback_Some_inv _ _ _ H) as (ref & Href & Hmag & Hchk & Hph).
    exists ref. split; [exact Href|]. cbv zeta.
    destruct (findIndex_Some _ _ (complex 0 0) _ Href) as [_ Hgt].
    unfold Rgtb in Hgt. apply Rltb_true in Hgt.
    assert (Hrange := cPhase_range
              (cScale (complexDiv (amp (applyMatrix s (matrix g)) ref) (amp s ref))
                      (1 / cAbs (complexDiv (amp (applyMatrix s (matrix g)) ref) (amp s ref))))).
    rewrite normalizeAngle_id in Hph by lra.
    destruct (snapped_cases
                (cPhase (cScale (complexDiv (amp (applyMatrix s (matrix g)) ref) (amp s ref))
                   (1 / cAbs (complexDiv (amp (applyMatrix s (matrix g)) ref) (amp s ref))))))
      as [Hs0 Hs1].
    unfold TOL in *.
    repeat split.
    + apply complexDiv_quotient. exact Hgt.
    + apply cAbs_cScale_unit. lra.
    + apply eigenCheckFails_false. exact Hchk.
    + rewrite Hph. unfold snapped, Rgtb.
      destruct (Rltb _ _); [lra|]. pose proof PI_RGT_0. lra.
    + rewrite Hph. unfold snapped, Rgtb.
      destruct (Rltb _ _); [lra|]. pose proof PI_RGT_0. lra.
    + intros Hle. rewrite Hph. apply Hs0. exact Hle.
    + intros Hlt. rewrite Hph. apply Hs1. exact Hlt.
  - intros ref i Href Hi. cbv zeta. intros Hfail.
    unfold getKickbackPhaseForControlledGate.
    destruct (String.eqb (gate g) "BARRIER" || String.eqb (gate g) "CONTROL")%bool;
      [reflexivity|].
    destruct (matrix g) as [m|] eqn:Em; [|reflexivity].
    rewrite Href.
    destruct (Rleb _ TOL); [reflexivity|].
    destruct (eigenCheckFails _ _ _ _) eqn:E2; [reflexivity|].
    exfalso. rewrite eigenCheckFails_false in E2.
    specialize (E2 i Hi). unfold TOL in E2. lra.
Qed.

(** ** The detector on the basis states, for a diagonal gate *)

Lemma amps_findIndex_one :
  findIndex (fun a => Rgtb (cAbs a) TOL) (amps STATE_ONE) = Some 1%nat.
Proof.
  unfold findIndex, amps, STATE_ONE, Rgtb, TOL; simpl.
  rewrite !cAbs_real, Rabs_R0, Rabs_R1.
  destruct (Rltb (1 / 100) 0) eqn:E0; [apply Rltb_true in E0; lra|].
  destruct (Rltb (1 / 100) 1) eqn:E1; [reflexivity|apply Rltb_false in E1; lra].
Qed.

Lemma amps_findIndex_zero :
  findIndex (fun a => Rgtb (cAbs a) TOL) (amps STATE_ZERO) = Some 0%nat.
Proof.
  unfold findIndex, amps, STATE_ZERO, Rgtb, TOL; simpl.
  rewrite !cAbs_real, Rabs_R1.
  destruct (Rltb (1 / 100) 1) eqn:E1; [reflexivity|apply Rltb_false in E1; lra].
Qed.

Lemma cAbs_zero_diff a b : a = b -> cAbs (cSub a b) = 0.
Proof.
  intros ->. unfold cAbs, cSub; simpl.
  replace ((re b - re b) * (re b - re b) + (im b - im b) * (im b - im b)) with 0 by ring.
  apply sqrt_0.
Qed.

Lemma applyMatrix_diag_one d :
  re d * re d + im d * im d = 1 ->
  applyMatrix STATE_ONE (Some (diagMatrix d)) = (complex 0 0, d).
Proof.
  intros H. simpl.
  assert (E : matVec (diagMatrix d) STATE_ONE = (complex 0 0, d)).
  { unfold matVec, diagMatrix, STATE_ONE, m00, m01, m10, m11, cAdd, cMul; simpl.
    destruct d as [dr di]; simpl. f_equal; apply C_eq; ring. }
  rewrite E. apply normalize_unit.
  unfold normSq. rewrite !cAbs_sq. simpl. lra.
Qed.

Lemma applyMatrix_diag_zero d :
  applyMatrix STATE_ZERO (Some (diagMatrix d)) = STATE_ZERO.
Proof.
  simpl.
  assert (E : matVec (diagMatrix d) STATE_ZERO = STATE_ZERO).
  { unfold matVec, diagMatrix, STATE_ZERO, m00, m01, m10, m11, cAdd, cMul; simpl.
    f_equal; apply C_eq; ring. }
  rewrite E. apply normalize_unit.
  unfold normSq, STATE_ZERO. rewrite !cAbs_sq. simpl. lra.
Qed.

(** On [|1>] a diagonal gate [diag(1, d)] with [|d| = 1] has the eigenphase
    [arg d]. *)
Lemma kickback_diag_one g d :
  (String.eqb (gate g) "BARRIER" || String.eqb (gate g) "CONTROL")%bool = false ->
  matrix g = Some (diagMatrix d) ->
  re d * re d + im d * im d = 1 ->
  getKickbackPhaseForControlledGate (Some g) (Some STATE_ONE) TOL
  = Some (snapped (cPhase d)).
Proof.
  intros Hg Hm Hd. unfold getKickbackPhaseForControlledGate.
  rewrite Hg, Hm, amps_findIndex_one, (applyMatrix_diag_one d Hd).
  assert (Hraw : complexDiv (amp (complex 0 0, d) 1) (amp STATE_ONE 1) = d).
  { unfold complexDiv, amp, amps, STATE_ONE; simpl.
    destruct (Rltb (1 * 1 + 0 * 0) (1 / 1000000000000)) eqn:E;
      [apply Rltb_true in E; lra|].
    destruct d as [dr di]; simpl. apply C_eq; field. }
  rewrite Hraw.
  assert (Habs : cAbs d = 1) by (unfold cAbs; rewrite Hd; apply sqrt_1).
  rewrite Habs.
  assert (Hunit : cScale d (1 / 1) = d).
  { destruct d as [dr di]; unfold cScale; simpl. apply C_eq; field. }
  rewrite Hunit.
  destruct (Rleb 1 TOL) eqn:E; [apply Rleb_true in E; unfold TOL in E; lra|].
  assert (Hchk : eigenCheckFails STATE_ONE (complex 0 0, d) d TOL = false).
  { apply eigenCheckFails_false. intros i Hi. unfold cDist.
    rewrite cAbs_zero_diff; [unfold TOL; lra|].
    destruct i as [|[|i]]; [| |lia]; unfold amp, amps, STATE_ONE, cMul; simpl;
      destruct d as [dr di]; simpl; apply C_eq; ring. }
  rewrite Hchk.
  rewrite normalizeAngle_id by (pose proof (cPhase_range d); lra).
  reflexivity.
Qed.

(** On [|0>] a diagonal gate [diag(1, d)] has the eigenphase [0]. *)
Lemma kickback_diag_zero g d :
  (String.eqb (gate g) "BARRIER" || String.eqb (gate g) "CONTROL")%bool = false ->
  matrix g = Some (diagMatrix d) ->
  getKickbackPhaseForControlledGate (Some g) (Some STATE_ZERO) TOL = Some 0.
Proof.
  intros Hg Hm. unfold getKickbackPhaseForControlledGate.
  rewrite Hg, Hm, amps_findIndex_zero, (applyMatrix_diag_zero d).
  assert (Hraw : complexDiv (amp STATE_ZERO 0) (amp STATE_ZERO 0) = complex 1 0).
  { unfold complexDiv, amp, amps, STATE_ZERO; simpl.
    destruct (Rltb (1 * 1 + 0 * 0) (1 / 1000000000000)) eqn:E;
      [apply Rltb_true in E; lra|].
    apply C_eq; field. }
  rewrite Hraw, cAbs_real, Rabs_R1.
  assert (Hunit : cScale (complex 1 0) (1 / 1) = complex 1 0).
  { unfold cScale; simpl. apply C_eq; field. }
  rewrite Hunit.
  destruct (Rleb 1 TOL) eqn:E; [apply Rleb_true in E; unfold TOL in E; lra|].
  assert (Hchk : eigenCheckFails STATE_ZERO STATE_ZERO (complex 1 0) TOL = false).
  { apply eigenCheckFails_false. intros i Hi. unfold cDist.
    rewrite cAbs_zero_diff; [unfold TOL; lra|].
    destruct i as [|[|i]]; [| |lia]; unfold amp, amps, STATE_ZERO, cMul; simpl;
      apply C_eq; ring. }
  rewrite Hchk. unfold cPhase; simpl. rewrite atan2_zero_pos by lra.
  rewrite normalizeAngle_id by (pose proof PI_RGT_0; lra).
  f_equal. apply (proj1 (snapped_cases 0)). rewrite Rabs_R0. unfold TOL. lra.
Qed.

(** ** [Array.prototype.sort] *)

Section Sorting.

Context {A : Type} (after : A -> A -> bool).

Hypothesis after_asym : forall a b, after a b = true -> after b a = false.
Hypothesis after_trans :
  forall x y z, after y x = true -> after y z = false -> after x z = false.

Lemma insertBy_perm x l : Permutation (insertBy after x l) (x :: l).
Proof.
  induction l as [|y l IH]; simpl; [reflexivity|].
  destruct (after y x); [reflexivity|].
  rewrite IH. apply perm_swap.
Qed.

Lemma jsSort_perm_acc l : forall acc,
  Permutation (fold_left (fun acc x => insertBy after x acc) l acc) (acc ++ l).
Proof.
  induction l as [|x l IH]; intros acc; simpl.
  - rewrite app_nil_r. reflexivity.
  - rewrite IH, insertBy_perm. apply Permutation_middle.
Qed.

Lemma jsSort_perm l : Permutation (jsSort after l) l.
Proof. unfold jsSort. apply (jsSort_perm_acc l []). Qed.

Lemma jsSort_length l : List.length (jsSort after l) = List.length l.
Proof. apply Permutation_length, jsSort_perm. Qed.

Lemma insertBy_sorted x l :
  StronglySorted (inOrder after) l -> StronglySorted (inOrder after) (insertBy after x l).
Proof.
  induction l as [|y l IH]; intros Hs; simpl.
  - constructor; constructor.
  - inversion Hs as [|? ? Hs' Hall]; subst.
    destruct (after y x) eqn:E.
    + constructor; [exact Hs|]. constructor.
      * apply after_asym. exact E.
      * eapply Forall_impl; [|exact Hall]. intros z Hz.
        eapply after_trans; eassumption.
    + constructor; [apply IH; exact Hs'|].
      eapply Permutation_Forall; [symmetry; apply insertBy_perm|].
      constructor; assumption.
Qed.

Lemma jsSort_sorted_acc l : forall acc,
  StronglySorted (inOrder after) acc ->
  StronglySorted (inOrder after) (fold_left (fun acc x => insertBy after x acc) l acc).
Proof.
  induction l as [|x l IH]; intros acc Hs; simpl; [exact Hs|].
  apply IH, insertBy_sorted, Hs.
Qed.

Lemma jsSort_sorted l : StronglySorted (inOrder after) (jsSort after l).
Proof. apply jsSort_sorted_acc. constructor. Qed.

(** An element that may stay behind all of [l] is inserted at the end. *)
Lemma insertBy_last x l :
  Forall (fun y => (inOrder after) y x) l -> insertBy after x l = l ++ [x].
Proof.
  induction 1 as [|y l Hy _ IH]; simpl; [reflexivity|].
  unfold inOrder in Hy. rewrite Hy, IH. reflexivity.
Qed.

Lemma jsSort_id_acc l : forall acc,
  StronglySorted (inOrder after) (acc ++ l) ->
  fold_left (fun acc x => insertBy after x acc) l acc = acc ++ l.
Proof.
  induction l as [|x l IH]; intros acc Hs; simpl.
  - rewrite app_nil_r. reflexivity.
  - assert (Hx : Forall (fun y => (inOrder after) y x) acc).
    { clear IH. induction acc as [|a acc IHa]; [constructor|].
      simpl in Hs. inversion Hs as [|? ? Hs' Hall]; subst.
      constructor; [|apply IHa; exact Hs'].
      rewrite Forall_forall in Hall. apply Hall, in_or_app. right. left. reflexivity. }
    rewrite insertBy_last by exact Hx.
    rewrite IH; rewrite <- app_assoc; [reflexivity|exact Hs].
Qed.

(** A list already in order is left as it is. *)
Lemma jsSort_id l : StronglySorted (inOrder after) l -> jsSort after l = l.
Proof. intros H. unfold jsSort. apply (jsSort_id_acc l []). exact H. Qed.

End Sorting.

Lemma StronglySorted_filter {A} (R : A -> A -> Prop) f l :
StronglySorted R l -> StronglySorted R (filter f l).
Proof.
induction 1 as [|a l Hs IH Hall]; simpl; [constructor|].
destruct (f a); [|exact IH].
constructor; [exact IH|].
rewrite Forall_forall in *. intros b Hb. apply filter_In in Hb. apply Hall, Hb.
Qed.

Lemma StronglySorted_weaken {A} (R R' : A -> A -> Prop) l :
  (forall a b, R a b -> R' a b) -> StronglySorted R l -> StronglySorted R' l.
Proof.
  intros H. induction 1 as [|a l Hs IH Hall]; constructor; [exact IH|].
  eapply Forall_impl; [|exact Hall]. intros b. apply H.
Qed.

(** The two orders the program sorts by. *)
Lemma natAfter_asym (a b : nat) : (b <? a)%nat = true -> (a <? b)%nat = false.
Proof. rewrite Nat.ltb_lt, Nat.ltb_ge. lia. Qed.

Lemma natAfter_trans (x y z : nat) :
(x <? y)%nat = true -> (z <? y)%nat = false -> (z <? x)%nat = false.
Proof. rewrite Nat.ltb_lt, !Nat.ltb_ge. lia. Qed.

Lemma slotAfter_asym a b : slotAfter a b = true -> slotAfter b a = false.
Proof. unfold slotAfter. apply natAfter_asym. Qed.

Lemma slotAfter_trans x y z :
slotAfter y x = true -> slotAfter y z = false -> slotAfter x z = false.
Proof. unfold slotAfter. apply natAfter_trans. Qed.

Lemma RltbAfter_asym (a b : R) : Rltb a b = true -> Rltb b a = false.
Proof. rewrite Rltb_true, Rltb_false. lra. Qed.

Lemma RltbAfter_trans (x y z : R) :
Rltb y x = true -> Rltb y z = false -> Rltb x z = false.
Proof. rewrite Rltb_true, !Rltb_false. lra. Qed.

(** ** The loop over the control combinations *)

Section Enumeration.

Variable initialStateMode : string.
Variable gates : list Placed.
Variable uniqueControls : list nat.
Variable controlProbs : list R.

Let branchOf' := branchOf initialStateMode gates uniqueControls controlProbs.
Let accepted' := accepted uniqueControls controlProbs.

(** The loop adds, in increasing order, the branches of the combinations
    that pass the threshold, and stops at ten branches. *)
Lemma enumerate_spec todo : forall combo branches,
  enumerate initialStateMode gates uniqueControls controlProbs todo combo branches =
  if (List.length branches <? 10)%nat then
    branches ++ map branchOf'
      (firstn (10 - List.length branches) (filter accepted' (seq combo todo)))
  else branches.
Proof.
  induction todo as [|todo IH]; intros combo branches.
  - cbn [enumerate seq filter]. rewrite firstn_nil. cbn [map]. rewrite app_nil_r.
    destruct (_ <? 10)%nat; reflexivity.
  - cbn [enumerate seq filter].
    destruct (List.length branches <? 10)%nat eqn:E; [|reflexivity].
    unfold accepted' at 1, accepted, comboProb.
    destruct (Rltb (snd (comboAssign uniqueControls controlProbs combo)) (1 / 100));
      cbn [negb].
    + rewrite IH, E. reflexivity.
    + rewrite IH. rewrite length_app. cbn [List.length].
      apply Nat.ltb_lt in E.
      replace (10 - List.length branches)%nat with (S (10 - (List.length branches + 1)))
        by lia.
      rewrite firstn_cons. cbn [map]. fold branchOf'.
      destruct (List.length branches + 1 <? 10)%nat eqn:E'.
      * rewrite <- app_assoc. reflexivity.
      * apply Nat.ltb_ge in E'.
        replace (10 - (List.length branches + 1))%nat with 0%nat by lia.
        reflexivity.
Qed.

Lemma enumerate_from_start todo :
  enumerate initialStateMode gates uniqueControls controlProbs todo 0 [] =
  map branchOf' (firstn 10 (filter accepted' (seq 0 todo))).
Proof. rewrite enumerate_spec. reflexivity. Qed.

Lemma branchOf_probability combo :
  br_probability (branchOf' combo) = comboProb uniqueControls controlProbs combo.
Proof.
  unfold branchOf', branchOf, comboProb.
  destruct (comboAssign uniqueControls controlProbs combo). reflexivity.
Qed.

End Enumeration.

(** ** Merging of coinciding branches *)

Lemma Rsum_app l1 l2 : Rsum (l1 ++ l2) = Rsum l1 + Rsum l2.
Proof. induction l1 as [|a l1 IH]; simpl; [ring|rewrite IH; ring]. Qed.

Lemma Rsum_perm l1 l2 : Permutation l1 l2 -> Rsum l1 = Rsum l2.
Proof. induction 1; simpl; lra. Qed.

Lemma sumProb_app l1 l2 : sumProb (l1 ++ l2) = sumProb l1 + sumProb l2.
Proof. unfold sumProb. rewrite map_app. apply Rsum_app. Qed.

Lemma sumProb_perm l1 l2 : Permutation l1 l2 -> sumProb l1 = sumProb l2.
Proof. intros H. apply Rsum_perm, Permutation_map, H. Qed.

(** The effect of [existing.probability += branch.probability]: same
    length, same states, coordinates and histories, one probability
    raised. *)
Lemma addToExisting_Some merged branch merged' :
  addToExisting merged branch = Some merged' ->
  sumProb merged' = sumProb merged + br_probability branch /\
  map branchKey merged' = map branchKey merged /\
  Forall2 (fun e e' => br_probability e' = br_probability e \/
                       (sameBranch e branch = true /\
                        br_probability e' = br_probability e + br_probability branch))
          merged merged'.
Proof.
  revert merged'. induction merged as [|b rest IH]; intros merged' H; simpl in H;
    [discriminate|].
  destruct (sameBranch b branch) eqn:E.
  - inversion H; subst. unfold sumProb; simpl. repeat split.
    + ring.
    + constructor.
      * right. split; [exact E|reflexivity].
      * clear. induction rest; constructor; [left; reflexivity|assumption].
  - destruct (addToExisting rest branch) as [rest'|]; [|discriminate].
    inversion H; subst. destruct (IH rest' eq_refl) as (H1 & H2 & H3).
    unfold sumProb in *; simpl. repeat split.
    + rewrite H1. ring.
    + rewrite H2. reflexivity.
    + constructor; [left; reflexivity|exact H3].
Qed.

Lemma addToExisting_None merged branch :
  addToExisting merged branch = None ->
  Forall (fun e => sameBranch e branch = false) merged.
Proof.
  induction merged as [|b rest IH]; simpl; intros H; [constructor|].
  destruct (sameBranch b branch) eqn:E; [discriminate|].
  destruct (addToExisting rest branch); [discriminate|].
  constructor; [exact E|apply IH; reflexivity].
Qed.

Lemma mergeStep_sum merged branch :
  sumProb (mergeStep merged branch) = sumProb merged + br_probability branch.
Proof.
  unfold mergeStep. destruct (addToExisting merged branch) as [m|] eqn:E.
  - apply (addToExisting_Some _ _ _ E).
  - rewrite sumProb_app. unfold sumProb; simpl. ring.
Qed.

Lemma mergeStep_length merged branch :
  (List.length (mergeStep merged branch) <= List.length merged + 1)%nat.
Proof.
  unfold mergeStep. destruct (addToExisting merged branch) as [m|] eqn:E.
  - destruct (addToExisting_Some _ _ _ E) as (_ & H & _).
    apply (f_equal (@List.length _)) in H. rewrite !length_map in H. lia.
  - rewrite length_app. simpl. lia.
Qed.

Lemma mergeBranches_acc_sum branches : forall merged,
  sumProb (fold_left mergeStep branches merged) = sumProb merged + sumProb branches.
Proof.
  induction branches as [|b l IH]; intros merged; simpl.
  - unfold sumProb at 3; simpl. ring.
  - rewrite IH, mergeStep_sum. unfold sumProb at 4; simpl. fold (sumProb l). ring.
Qed.

(** Merging keeps the total probability. *)
Lemma mergeBranches_sum branches : sumProb (mergeBranches branches) = sumProb branches.
Proof.
  unfold mergeBranches. rewrite mergeBranches_acc_sum. unfold sumProb at 1; simpl. ring.
Qed.

Lemma mergeBranches_acc_length branches : forall merged,
  (List.length (fold_left mergeStep branches merged)
   <= List.length merged + List.length branches)%nat.
Proof.
  induction branches as [|b l IH]; intros merged; simpl; [lia|].
  specialize (IH (mergeStep merged b)). pose proof (mergeStep_length merged b). lia.
Qed.

(** Merging does not add branches. *)
Lemma mergeBranches_length branches :
  (List.length (mergeBranches branches) <= List.length branches)%nat.
Proof. apply (mergeBranches_acc_length branches []). Qed.

(** ** The 32-bit operators on small numbers *)

Lemma toInt32_small z : (0 <= z < 2 ^ 31)%Z -> toInt32 z = z.
Proof. intros H. unfold toInt32. rewrite Z.mod_small; lia. Qed.

(** Below [2^31], and for a shift count below [32], [(c >> i) & 1] is the
    bit [i] of [c]. *)
Lemma js_bit c i :
  (Z.of_nat c < 2 ^ 31)%Z -> (i < 32)%nat ->
  js_and (js_shr (Z.of_nat c) (Z.of_nat i)) 1 = Z.of_nat (Nat.b2n (Nat.testbit c i)).
Proof.
  intros Hc Hi.
  assert (Hc' : (0 <= Z.of_nat c < 2 ^ 31)%Z) by (split; [apply Nat2Z.is_nonneg|exact Hc]).
  unfold js_and, js_shr.
  rewrite (toInt32_small (Z.of_nat c)) by exact Hc'.
  rewrite (Z.mod_small (Z.of_nat i)) by lia.
  rewrite Z.shiftr_div_pow2 by lia.
  assert (Hq : (0 <= Z.of_nat c / 2 ^ Z.of_nat i <= Z.of_nat c)%Z).
  { split; [apply Z.div_pos; lia|].
    apply Z.div_le_upper_bound; [lia|].
    assert (1 <= 2 ^ Z.of_nat i)%Z by (apply Z.pow_le_mono_r with (b := 0%Z) (c := Z.of_nat i); lia).
    nia. }
  rewrite toInt32_small by lia.
  rewrite (toInt32_small 1) by lia.
  change 1%Z with (Z.ones 1) at 1. rewrite Z.land_ones by lia.
  rewrite Nat.testbit_spec'.
  rewrite Nat2Z.inj_mod, Nat2Z.inj_div, Nat2Z.inj_pow. reflexivity.
Qed.

Lemma js_bit_eqb0 c i :
  (Z.of_nat c < 2 ^ 31)%Z -> (i < 32)%nat ->
  Z.eqb (js_and (js_shr (Z.of_nat c) (Z.of_nat i)) 1) 0 = negb (Nat.testbit c i).
Proof.
  intros Hc Hi. rewrite js_bit by assumption. destruct (Nat.testbit c i); reflexivity.
Qed.

Lemma js_bit_eqb1 c i :
  (Z.of_nat c < 2 ^ 31)%Z -> (i < 32)%nat ->
  Z.eqb (js_and (js_shr (Z.of_nat c) (Z.of_nat i)) 1) 1 = Nat.testbit c i.
Proof.
  intros Hc Hi. rewrite js_bit by assumption. destruct (Nat.testbit c i); reflexivity.
Qed.

(** ** Probabilities of the control combinations *)

Lemma Rprod_app l1 l2 : Rprod (l1 ++ l2) = Rprod l1 * Rprod l2.
Proof. induction l1 as [|a l1 IH]; simpl; [ring|rewrite IH; ring]. Qed.

Lemma comboAssign_fold_snd uc cp combo l : forall acc,
  snd (fold_left (comboStep uc cp combo) l acc) =
  snd acc *
  Rprod (map (fun i =>
                if negb (Z.eqb (js_and (js_shr (Z.of_nat combo) (Z.of_nat i)) 1) 0)
                then nth i cp 0 else 1 - nth i cp 0) l).
Proof.
  induction l as [|i l IH]; intros [ca p]; simpl; [ring|].
  rewrite IH. simpl. ring.
Qed.

Lemma weight_as_product cp : forall c,
  Rprod (map (fun i => if Nat.testbit c i then nth i cp 0 else 1 - nth i cp 0)
             (seq 0 (List.length cp)))
  = weight cp c.
Proof.
  induction cp as [|p ps IH]; intros c; [reflexivity|].
  cbn [List.length seq map Rprod fold_right weight].
  rewrite <- seq_shift, map_map. cbn [nth Nat.testbit].
  f_equal. apply IH.
Qed.

(** With at most 31 controls, the probability the loop computes for a
    combination is the product of the outcome probabilities its bits
    select. *)
Lemma comboProb_weight uc cp combo :
  List.length uc = List.length cp -> (List.length cp <= 31)%nat ->
  (combo < 2 ^ List.length cp)%nat ->
  comboProb uc cp combo = weight cp combo.
Proof.
  intros Hlen Hk Hc. unfold comboProb, comboAssign.
  rewrite comboAssign_fold_snd. simpl snd. rewrite Rmult_1_l, Hlen.
  rewrite <- weight_as_product. f_equal.
  apply map_ext_in. intros i Hi. apply in_seq in Hi.
  assert (Hc31 : (Z.of_nat combo < 2 ^ 31)%Z).
  { apply Z.lt_le_trans with (m := Z.of_nat (2 ^ List.length cp)).
    - apply Nat2Z.inj_lt. exact Hc.
    - rewrite Nat2Z.inj_pow. apply Z.pow_le_mono_r; [reflexivity|].
      change 31%Z with (Z.of_nat 31). apply Nat2Z.inj_le. exact Hk. }
  rewrite js_bit_eqb0; [|exact Hc31|destruct Hi as [_ Hi]; simpl in Hi; lia].
  rewrite negb_involutive. reflexivity.
Qed.

Lemma weight_nonneg cp : Forall (fun p => 0 <= p <= 1) cp -> forall c, 0 <= weight cp c.
Proof.
  induction 1 as [|p ps Hp _ IH]; intros c; simpl; [lra|].
  specialize (IH (Nat.div2 c)). destruct (Nat.odd c); nra.
Qed.

Lemma Rsum_pairs (f : nat -> R) m :
  Rsum (map f (seq 0 (2 * m))) =
  Rsum (map (fun j => f (2 * j)%nat + f (2 * j + 1)%nat) (seq 0 m)).
Proof.
  induction m as [|m IH]; [reflexivity|].
  replace (2 * S m)%nat with (2 * m + 2)%nat by lia.
  rewrite (seq_app (2 * m) 2), map_app, Rsum_app, IH.
  rewrite (seq_S m 0), (map_app _ (seq 0 m)), (Rsum_app (map _ (seq 0 m))).
  cbn [seq map Rsum fold_right Nat.add].
  replace (S (2 * m)) with (2 * m + 1)%nat by lia. ring.
Qed.

Lemma Rsum_map_ext (f g : nat -> R) l :
  (forall x, In x l -> f x = g x) -> Rsum (map f l) = Rsum (map g l).
Proof. intros H. f_equal. apply map_ext_in, H. Qed.

(** The probabilities of all the combinations add up to one. *)
Lemma weight_total cp : Rsum (map (weight cp) (seq 0 (2 ^ List.length cp))) = 1.
Proof.
  induction cp as [|p ps IH]; [simpl; ring|].
  cbn [List.length]. rewrite Nat.pow_succ_r', Rsum_pairs.
  rewrite <- IH. 
  rewrite (Rsum_map_ext _ (weight ps)); [reflexivity|].
  intros j _. cbn [weight].
  rewrite Nat.odd_even, Nat.odd_odd, Nat.div2_double, Nat.div2_odd'. ring.
Qed.

Lemma Rsum_nonneg l : Forall (fun x => 0 <= x) l -> 0 <= Rsum l.
Proof. induction 1; simpl; lra. Qed.

Lemma Rsum_firstn_le l n : Forall (fun x => 0 <= x) l -> Rsum (firstn n l) <= Rsum l.
Proof.
  intros H. revert n. induction H as [|a l Ha Hl IH]; intros [|n]; simpl; try lra.
  - pose proof (Rsum_nonneg l Hl). lra.
  - specialize (IH n). lra.
Qed.

Lemma Rsum_filter_le (f : nat -> R) g l :
  (forall x, In x l -> 0 <= f x) -> Rsum (map f (filter g l)) <= Rsum (map f l).
Proof.
  induction l as [|a l IH]; intros H; simpl; [lra|].
  assert (0 <= f a) by (apply H; left; reflexivity).
  assert (Rsum (map f (filter g l)) <= Rsum (map f l))
    by (apply IH; intros x Hx; apply H; right; exact Hx).
  destruct (g a); simpl; lra.
Qed.

(** A part of the combinations, cut after some of them, weighs at most
    one. *)
Lemma weight_part_le_1 cp g n :
  Forall (fun p => 0 <= p <= 1) cp ->
  Rsum (map (weight cp) (firstn n (filter g (seq 0 (2 ^ List.length cp))))) <= 1.
Proof.
  intros H. rewrite <- (weight_total cp).
  eapply Rle_trans; [|apply (Rsum_filter_le (weight cp) g)].
  - rewrite <- firstn_map. apply Rsum_firstn_le.
    apply Forall_forall. intros x Hx. apply in_map_iff in Hx.
    destruct Hx as (c & <- & _). apply weight_nonneg, H.
  - intros x _. apply weight_nonneg, H.
Qed.

Lemma Rsum_le_const (f : nat -> R) w l :
  (forall x, In x l -> f x <= w) -> Rsum (map f l) <= INR (List.length l) * w.
Proof.
  induction l as [|a l IH]; intros H; [simpl; lra|].
  cbn [map Rsum fold_right List.length]. rewrite S_INR.
  assert (f a <= w) by (apply H; left; reflexivity).
  assert (Rsum (map f l) <= INR (List.length l) * w)
    by (apply IH; intros x Hx; apply H; right; exact Hx).
  unfold Rsum in *. lra.
Qed.

(** A combination of largest probability weighs at least [1 / 2^k]. *)
Lemma weight_max_bound cp c :
  (forall c', (c' < 2 ^ List.length cp)%nat -> weight cp c' <= weight cp c) ->
  1 <= INR (2 ^ List.length cp) * weight cp c.
Proof.
  intros H. rewrite <- (weight_total cp) at 1.
  pose proof (Rsum_le_const (weight cp) (weight cp c) (seq 0 (2 ^ List.length cp))) as Hs.
  rewrite length_seq in Hs. apply Hs.
  intros x Hx. apply H. apply in_seq in Hx. lia.
Qed.

(** ** States of the cache are normalised *)

Lemma initial_normalized mode : normSq (getInitialQubitState mode) = 1.
Proof.
  unfold getInitialQubitState.
  destruct (String.eqb mode "one"); [|destruct (String.eqb mode "plus")];
    unfold normSq; rewrite !cAbs_sq; simpl; try ring.
  pose proof sqrt2_inv_sq. lra.
Qed.

Lemma applyGate_normalized s g : normSq s = 1 -> normSq (applyGate s g) = 1.
Proof.
  intros H. unfold applyGate. destruct (String.eqb (gate g) "BARRIER"); [exact H|].
  destruct (matrix g); simpl; [apply normalize_normSq|exact H].
Qed.

Lemma statesAtSlots_normalized sortedGates slots : forall s,
  normSq s = 1 ->
  Forall (fun st => normSq st = 1) (statesAtSlots sortedGates slots s).
Proof.
  induction slots as [|sl slots IH]; intros s H; simpl; constructor; [exact H|].
  apply IH. destruct (find _ sortedGates) as [g|]; [|exact H].
  destruct (negb (isBarrierOrControl (cell g))); [|exact H].
  apply applyGate_normalized, H.
Qed.

Lemma cachedState_normalized circuits barriers mode frame q slot :
  normSq (cachedState mode (buildColumnStateCache circuits barriers mode frame) q slot) = 1.
Proof.
  unfold cachedState.
  destruct (nth_error _ q) as [qubitCache|] eqn:E; [|apply initial_normalized].
  destruct (nth_error qubitCache slot) as [s|] eqn:E'; [|apply initial_normalized].
  apply nth_error_In in E, E'. unfold buildColumnStateCache in E.
  apply in_map_iff in E. destruct E as (qi & <- & _).
  pose proof (statesAtSlots_normalized
                (jsSort slotAfter (getOrderedGates circuits barriers qi frame))
                (seq 0 (maxSlotOf circuits + 2)) (getInitialState mode)
                (initial_normalized mode)) as H.
  rewrite Forall_forall in H. apply H, E'.
Qed.

Lemma prob1_range s : normSq s = 1 -> 0 <= prob1 (getProbabilities s) <= 1.
Proof.
  unfold normSq, getProbabilities; cbn [prob1]. rewrite !cAbs_sq. nra.
Qed.

(** The probability of every control outcome lies between [0] and [1]. *)
Lemma controlProbsOf_range circuits barriers mode frame gates :
  Forall (fun p => 0 <= p <= 1)
         (controlProbsOf mode (buildColumnStateCache circuits barriers mode frame) gates).
Proof.
  unfold controlProbsOf. apply Forall_forall. intros p Hp.
  apply in_map_iff in Hp. destruct Hp as (c & <- & _).
  destruct (find _ _); [|lra].
  apply prob1_range, cachedState_normalized.
Qed.

Lemma controlProbsOf_length mode cache gates :
  List.length (controlProbsOf mode cache gates) = List.length (uniqueControlsOf gates).
Proof. unfold controlProbsOf. apply length_map. Qed.

(** ** The distinct controls *)

Lemma existsb_eqb_In a l : existsb (Nat.eqb a) l = true <-> In a l.
Proof.
  rewrite existsb_exists. split.
  - intros (x & Hx & E). apply Nat.eqb_eq in E. subst. exact Hx.
  - intros H. exists a. split; [exact H|apply Nat.eqb_refl].
Qed.

Lemma dedupInto_spec l : forall seen,
  NoDup (dedupInto seen l) /\
  (forall a, In a (dedupInto seen l) <-> In a l /\ ~ In a seen).
Proof.
  induction l as [|x l IH]; intros seen; simpl.
  - split; [constructor|]. intros a. tauto.
  - destruct (existsb (Nat.eqb x) seen) eqn:E.
    + apply existsb_eqb_In in E. destruct (IH seen) as [H1 H2].
      split; [exact H1|]. intros a. rewrite H2. split; [tauto|].
      intros [[->|Ha] Hn]; [contradiction|tauto].
    + assert (Hx : ~ In x seen).
      { intros H. apply existsb_eqb_In in H. congruence. }
      destruct (IH (x :: seen)) as [H1 H2]. split.
      * constructor; [|exact H1]. rewrite H2. simpl. tauto.
      * intros a. simpl. rewrite H2. simpl. split.
        -- intros [->|[Ha Hn]]; [tauto|tauto].
        -- intros [[->|Ha] Hn]; [tauto|].
           destruct (Nat.eq_dec x a); [tauto|tauto].
Qed.

(** [uniqueControls] lists every controlling wire once. *)
Lemma dedup_spec l : NoDup (dedup l) /\ (forall a, In a (dedup l) <-> In a l).
Proof.
  destruct (dedupInto_spec l []) as [H1 H2]. split; [exact H1|].
  intros a. unfold dedup. rewrite H2. simpl. tauto.
Qed.

(** ** Coinciding branches *)

Lemma coordsEqual_refl c : coordsEqual c c = true.
Proof.
  unfold coordsEqual.
  replace (x c - x c) with 0 by ring. replace (y c - y c) with 0 by ring.
  replace (z c - z c) with 0 by ring. rewrite Rabs_R0.
  rewrite (proj2 (Rltb_true 0 (1 / 100))) by lra. reflexivity.
Qed.

Lemma phasesEqual_refl r : phasesEqual r r = true.
Proof.
  unfold phasesEqual. cbv zeta.
  replace (theta (getTotalPhases r) - theta (getTotalPhases r)) with 0 by ring.
  replace (lambda (getTotalPhases r) - lambda (getTotalPhases r)) with 0 by ring.
  replace (phi (getTotalPhases r) - phi (getTotalPhases r)) with 0 by ring.
  rewrite Rabs_R0.
  rewrite (proj2 (Rltb_true 0 (1 / 100))) by lra. reflexivity.
Qed.

Lemma sameBranch_refl b : sameBranch b b = true.
Proof. unfold sameBranch. rewrite coordsEqual_refl, phasesEqual_refl. reflexivity. Qed.

Lemma sameBranch_key e e' b :
  branchKey e = branchKey e' -> sameBranch e b = sameBranch e' b.
Proof.
  unfold branchKey, sameBranch. intros H. inversion H. congruence.
Qed.

Lemma Forall2_In_l {A B} (P : A -> B -> Prop) l l' x :
  Forall2 P l l' -> In x l -> exists y, In y l' /\ P x y.
Proof.
  induction 1 as [|a b l l' Hab _ IH]; intros Hx; [contradiction|].
  destruct Hx as [->|Hx].
  - exists b. split; [left; reflexivity|exact Hab].
  - destruct (IH Hx) as (y' & Hy & Hp). exists y'. split; [right; exact Hy|exact Hp].
Qed.

(** When a branch is added to an existing one, every branch of the list
    keeps its state, coordinates and history, and no probability goes
    down; one branch that coincides with the added one takes its
    probability. *)
Lemma addToExisting_rel merged branch merged' :
  0 <= br_probability branch ->
  addToExisting merged branch = Some merged' ->
  Forall2 (fun e e' => branchKey e' = branchKey e /\
                       br_probability e <= br_probability e') merged merged' /\
  exists e e', In e merged /\ In e' merged' /\ sameBranch e branch = true /\
               branchKey e' = branchKey e /\
               br_probability e' = br_probability e + br_probability branch.
Proof.
  intros Hp. revert merged'.
  induction merged as [|b rest IH]; intros merged' H; simpl in H; [discriminate|].
  destruct (sameBranch b branch) eqn:E.
  - inversion H; subst. split.
    + constructor; [split; [reflexivity|simpl; lra]|].
      clear. induction rest; constructor; [split; [reflexivity|lra]|assumption].
    + exists b. eexists. split; [left; reflexivity|]. split; [left; reflexivity|].
      split; [exact E|]. split; reflexivity.
  - destruct (addToExisting rest branch) as [rest'|]; [|discriminate].
    inversion H; subst.
    destruct (IH rest' eq_refl) as (H1 & e & e' & H2 & H3 & H4 & H5 & H6).
    split.
    + constructor; [split; [reflexivity|lra]|exact H1].
    + exists e, e'. split; [right; exact H2|]. split; [right; exact H3|].
      split; [exact H4|]. split; [exact H5|exact H6].
Qed.

Lemma mergeStep_inv merged done branch :
  0 <= br_probability branch ->
  mergeInv merged done ->
  mergeInv (mergeStep merged branch) (done ++ [branch]).
Proof.
  intros Hp (Hpos & Hkey & Hrep). unfold mergeStep.
  destruct (addToExisting merged branch) as [merged'|] eqn:E.
  - destruct (addToExisting_rel _ _ _ Hp E)
      as (HF & e0 & e0' & He0 & He0' & Hsame & Hk0 & Hp0).
    assert (Hback : forall e', In e' merged' ->
              exists e, In e merged /\ branchKey e' = branchKey e /\
                        br_probability e <= br_probability e').
    { intros e' He'.
      assert (HF' : Forall2 (fun e' e => branchKey e' = branchKey e /\
                                         br_probability e <= br_probability e')
                            merged' merged).
      { clear -HF. induction HF; constructor; assumption. }
      destruct (Forall2_In_l _ _ _ _ HF' He') as (e & He & Hk & Hle).
      exists e. repeat split; assumption. }
    rewrite Forall_forall in Hpos.
    split; [|split].
    + apply Forall_forall. intros e' He'.
      destruct (Hback e' He') as (e & He & _ & Hle). specialize (Hpos e He). lra.
    + intros e' He'. destruct (Hback e' He') as (e & He & Hk & _).
      destruct (Hkey e He) as (b & Hb & Hkb).
      exists b. split; [apply in_or_app; left; exact Hb|congruence].
    + intros b Hb. apply in_app_or in Hb. destruct Hb as [Hb|[<-|[]]].
      * destruct (Hrep b Hb) as (e & He & Hs & Hle).
        destruct (Forall2_In_l _ _ _ _ HF He) as (e' & He' & Hk & Hle').
        exists e'. split; [exact He'|]. split; [|lra].
        rewrite (sameBranch_key e' e b Hk). exact Hs.
      * exists e0'. split; [exact He0'|]. split.
        -- rewrite (sameBranch_key e0' e0 branch Hk0). exact Hsame.
        -- specialize (Hpos e0 He0). lra.
  - split; [|split].
    + apply Forall_app. split; [exact Hpos|]. constructor; [exact Hp|constructor].
    + intros e He. apply in_app_or in He. destruct He as [He|[<-|[]]].
      * destruct (Hkey e He) as (b & Hb & Hkb).
        exists b. split; [apply in_or_app; left; exact Hb|exact Hkb].
      * exists branch. split; [apply in_or_app; right; left; reflexivity|reflexivity].
    + intros b Hb. apply in_app_or in Hb. destruct Hb as [Hb|[<-|[]]].
      * destruct (Hrep b Hb) as (e & He & Hs & Hle).
        exists e. split; [apply in_or_app; left; exact He|]. split; assumption.
      * exists branch. split; [apply in_or_app; right; left; reflexivity|].
        split; [apply sameBranch_refl|lra].
Qed.

Lemma mergeBranches_acc_inv branches : forall merged done,
  Forall (fun b => 0 <= br_probability b) branches ->
  mergeInv merged done ->
  mergeInv (fold_left mergeStep branches merged) (done ++ branches).
Proof.
  induction branches as [|b l IH]; intros merged done Hpos Hinv; simpl.
  - rewrite app_nil_r. exact Hinv.
  - inversion Hpos; subst.
    replace (done ++ b :: l) with ((done ++ [b]) ++ l) by (rewrite <- app_assoc; reflexivity).
    apply IH; [assumption|]. apply mergeStep_inv; assumption.
Qed.

(** Every merged branch has the state, the coordinates and the history of
    a raw branch, and every raw branch coincides with a merged branch of
    at least its probability. *)
Lemma mergeBranches_inv branches :
  Forall (fun b => 0 <= br_probability b) branches ->
  mergeInv (mergeBranches branches) branches.
Proof.
  intros H. apply (mergeBranches_acc_inv branches [] [] H).
  split; [constructor|]. split; intros ? [].
Qed.

(** ** The branches of a wire *)

Section BranchesOfAWire.

Variable circuits : Circuits.
Variable barriers : list nat.
Variable mode : string.
Variable frame qi : nat.

Let cache := buildColumnStateCache circuits barriers mode frame.
Let gates := effectiveGates circuits barriers mode cache frame qi.
Let uc := uniqueControlsOf gates.
Let cp := controlProbsOf mode cache gates.
Let raw := rawBranches mode cache gates.
Let selected := firstn 10 (filter (accepted uc cp) (seq 0 (2 ^ List.length uc))).

Lemma raw_spec : raw = map (branchOf mode gates uc cp) selected.
Proof. unfold raw, rawBranches. apply enumerate_from_start. Qed.

Lemma selected_bound c : In c selected -> (c < 2 ^ List.length uc)%nat.
Proof.
  intros H. unfold selected in H.
  assert (H' : In c (filter (accepted uc cp) (seq 0 (2 ^ List.length uc)))).
  { rewrite <- (firstn_skipn 10). apply in_or_app. left. exact H. }
  apply filter_In in H'. destruct H' as [H' _]. apply in_seq in H'. lia.
Qed.

Lemma selected_accepted c : In c selected -> 1 / 100 <= comboProb uc cp c.
Proof.
  intros H. unfold selected in H.
  assert (H' : In c (filter (accepted uc cp) (seq 0 (2 ^ List.length uc)))).
  { rewrite <- (firstn_skipn 10). apply in_or_app. left. exact H. }
  apply filter_In in H'. destruct H' as [_ H']. unfold accepted in H'.
  apply negb_true_iff, Rltb_false in H'. exact H'.
Qed.

Lemma raw_length : (List.length raw <= 10)%nat /\ (List.length raw <= 2 ^ List.length uc)%nat.
Proof.
  rewrite raw_spec, length_map. unfold selected. rewrite length_firstn. split; [lia|].
  pose proof (filter_length_le (accepted uc cp) (seq 0 (2 ^ List.length uc))) as H.
  rewrite length_seq in H. lia.
Qed.

Lemma raw_probability : Forall (fun b => 1 / 100 <= br_probability b) raw.
Proof.
  rewrite raw_spec. apply Forall_forall. intros b Hb.
  apply in_map_iff in Hb. destruct Hb as (c & <- & Hc).
  rewrite branchOf_probability. apply selected_accepted, Hc.
Qed.

Lemma raw_nonneg : Forall (fun b => 0 <= br_probability b) raw.
Proof. eapply Forall_impl; [|apply raw_probability]. simpl. intros; lra. Qed.

(** The cut to ten branches after the sort removes nothing. *)
Lemma truncation_idle :
  firstn 10 (jsSort probabilityAfter (mergeBranches raw))
  = jsSort probabilityAfter (mergeBranches raw).
Proof.
  apply firstn_all2. rewrite jsSort_length.
  pose proof (mergeBranches_length raw). pose proof raw_length. lia.
Qed.

Lemma probabilityAfter_asym a b : probabilityAfter a b = true -> probabilityAfter b a = false.
Proof. apply RltbAfter_asym. Qed.

Lemma probabilityAfter_trans a b c :
  probabilityAfter b a = true -> probabilityAfter b c = false -> probabilityAfter a c = false.
Proof. apply RltbAfter_trans. Qed.

Lemma inOrder_probability a b :
  inOrder probabilityAfter a b <-> br_probability b <= br_probability a.
Proof. unfold inOrder, probabilityAfter. apply Rltb_false. Qed.

Lemma wireBranches_cases :
  (truthy (find isControlled gates) = false /\
   wireBranches circuits barriers mode frame qi
   = [mkBranch (applyGates gates (getInitialState mode))
               (stateToBlochCoords (applyGates gates (getInitialState mode))) 1
               (buildRotations gates)]) \/
  (truthy (find isControlled gates) = true /\ raw = [] /\
   wireBranches circuits barriers mode frame qi = [fallbackBranch mode]) \/
  (truthy (find isControlled gates) = true /\ raw <> [] /\
   wireBranches circuits barriers mode frame qi
   = jsSort probabilityAfter (mergeBranches raw)).
Proof.
  unfold wireBranches. fold cache. fold gates. fold raw.
  destruct (truthy (find isControlled gates)); cbn [negb]; [right|left; split; reflexivity].
  rewrite truncation_idle.
  destruct raw as [|b l] eqn:E.
  - left. repeat split; reflexivity.
  - right. split; [reflexivity|]. split; [discriminate|].
    destruct (jsSort probabilityAfter (mergeBranches (b :: l))) as [|e s] eqn:Es; [|reflexivity].
    exfalso.
    pose proof (mergeBranches_inv (b :: l)) as Hinv. rewrite <- E in Hinv.
    destruct (Hinv raw_nonneg) as (_ & _ & Hrep). rewrite E in Hrep.
    destruct (Hrep b (or_introl eq_refl)) as (e & He & _).
    apply (Permutation_in _ (Permutation_sym (jsSort_perm probabilityAfter _))) in He.
    rewrite Es in He. exact He.
Qed.

(** What the emitted list of a wire always satisfies: sorted by descending
    probability, at most ten branches. *)
Lemma wireBranches_sorted :
  StronglySorted (fun a b => br_probability b <= br_probability a)
                 (wireBranches circuits barriers mode frame qi) /\
  (List.length (wireBranches circuits barriers mode frame qi) <= 10)%nat.
Proof.
  destruct wireBranches_cases as [[_ ->]|[(_ & _ & ->)|(_ & _ & ->)]].
  - split; [repeat constructor|simpl; lia].
  - split; [repeat constructor|simpl; lia].
  - split.
    + apply (StronglySorted_weaken (inOrder probabilityAfter)).
      * intros a b H. apply inOrder_probability, H.
      * apply jsSort_sorted; [apply probabilityAfter_asym|apply probabilityAfter_trans].
    + rewrite jsSort_length.
      pose proof (mergeBranches_length raw). pose proof raw_length. lia.
Qed.

(** Total probability of the raw branches, for at most 31 controls. *)
Lemma raw_sum :
  (List.length uc <= 31)%nat -> sumProb raw = Rsum (map (weight cp) selected).
Proof.
  intros Hk. rewrite raw_spec. unfold sumProb. rewrite map_map. f_equal.
  apply map_ext_in. intros c Hc. rewrite branchOf_probability.
  pose proof (controlProbsOf_length mode cache gates) as Hlen. fold cp uc in Hlen.
  apply comboProb_weight; [symmetry; exact Hlen|rewrite Hlen; exact Hk|].
  rewrite Hlen. apply selected_bound, Hc.
Qed.

Lemma wireBranches_sum_le_1 :
  (List.length uc <= 31)%nat ->
  sumProb (wireBranches circuits barriers mode frame qi) <= 1.
Proof.
  intros Hk.
  destruct wireBranches_cases as [[_ ->]|[(_ & _ & ->)|(_ & _ & ->)]].
  - unfold sumProb; simpl. lra.
  - unfold sumProb; simpl. lra.
  - rewrite (sumProb_perm _ _ (jsSort_perm probabilityAfter _)).
    rewrite mergeBranches_sum, (raw_sum Hk). unfold selected.
    pose proof (controlProbsOf_length mode cache gates) as Hlen. fold cp uc in Hlen.
    rewrite <- Hlen. apply weight_part_le_1.
    apply controlProbsOf_range.
Qed.

(** Every selected combination has its branch in the emitted list, alone
    or merged into a branch that coincides with it. *)
Lemma selected_represented c :
  truthy (find isControlled gates) = true ->
  In c selected ->
  exists e, In e (wireBranches circuits barriers mode frame qi) /\
            sameBranch e (branchOf mode gates uc cp c) = true /\
            comboProb uc cp c <= br_probability e.
Proof.
  intros Hctl Hc.
  assert (Hb : In (branchOf mode gates uc cp c) raw)
    by (rewrite raw_spec; apply in_map, Hc).
  destruct wireBranches_cases as [[H _]|[(_ & H & _)|(_ & _ & ->)]].
  - congruence.
  - rewrite H in Hb. contradiction.
  - destruct (mergeBranches_inv raw raw_nonneg) as (_ & _ & Hrep).
    destruct (Hrep _ Hb) as (e & He & Hs & Hle).
    exists e. split; [|split; [exact Hs|]].
    + apply (Permutation_in _ (Permutation_sym (jsSort_perm probabilityAfter _))), He.
    + rewrite branchOf_probability in Hle. exact Hle.
Qed.

(** With at most three controls nothing is cut and a combination of
    largest probability passes the threshold. *)
Lemma largest_selected c :
  (List.length uc <= 3)%nat ->
  (c < 2 ^ List.length uc)%nat ->
  (forall c', (c' < 2 ^ List.length uc)%nat -> comboProb uc cp c' <= comboProb uc cp c) ->
  In c selected.
Proof.
  intros Hk Hc Hmax.
  pose proof (controlProbsOf_length mode cache gates) as Hlen. fold cp uc in Hlen.
  assert (Hw : forall c', (c' < 2 ^ List.length uc)%nat -> comboProb uc cp c' = weight cp c').
  { intros c' Hc'. apply comboProb_weight; [symmetry; exact Hlen|lia|].
    rewrite Hlen. exact Hc'. }
  assert (Hpow : (2 ^ List.length uc <= 8)%nat).
  { change 8%nat with (2 ^ 3)%nat. apply Nat.pow_le_mono_r; lia. }
  assert (Hbound : 1 <= INR (2 ^ List.length cp) * weight cp c).
  { apply weight_max_bound. intros c' Hc'. rewrite Hlen in Hc'.
    rewrite <- !Hw by assumption. apply Hmax, Hc'. }
  rewrite Hlen in Hbound.
  assert (H8 : INR (2 ^ List.length uc) <= 8).
  { replace 8 with (INR 8) by (simpl; lra). apply le_INR. exact Hpow. }
  assert (Hpos : 0 <= weight cp c) by (apply weight_nonneg, controlProbsOf_range).
  assert (Hacc : accepted uc cp c = true).
  { unfold accepted. apply negb_true_iff, Rltb_false. rewrite Hw by exact Hc. nra. }
  unfold selected. rewrite firstn_all2.
  - apply filter_In. split; [apply in_seq; lia|exact Hacc].
  - pose proof (filter_length_le (accepted uc cp) (seq 0 (2 ^ List.length uc))) as H.
    rewrite length_seq in H. lia.
Qed.

End BranchesOfAWire.

(** ** Gates of a wire up to a frame *)

Lemma entriesFrom_In row : forall s0 g s,
  In (place g s) (entriesFrom row s0) <->
  (s0 <= s)%nat /\ nth_error row (s - s0) = Some (Some g).
Proof.
  induction row as [|c row IH]; intros s0 g s; simpl.
  - split; [intros []|]. intros [_ H]. destruct (s - s0)%nat; discriminate.
  - destruct c as [g'|]; simpl; rewrite ?IH.
    + split.
      * intros [H|[H1 H2]].
        -- inversion H; subst. rewrite Nat.sub_diag. simpl. split; [lia|reflexivity].
        -- replace (s - s0)%nat with (S (s - S s0)) by lia. simpl. split; [lia|exact H2].
      * intros [H1 H2]. destruct (Nat.eq_dec s s0) as [->|Hne].
        -- rewrite Nat.sub_diag in H2. simpl in H2. inversion H2. left. reflexivity.
        -- right. replace (s - s0)%nat with (S (s - S s0)) in H2 by lia. simpl in H2.
           split; [lia|exact H2].
    + split.
      * intros [H1 H2]. replace (s - s0)%nat with (S (s - S s0)) by lia. simpl.
        split; [lia|exact H2].
      * intros [H1 H2]. destruct (Nat.eq_dec s s0) as [->|Hne].
        -- rewrite Nat.sub_diag in H2. simpl in H2. discriminate.
        -- replace (s - s0)%nat with (S (s - S s0)) in H2 by lia. simpl in H2.
           split; [lia|exact H2].
Qed.

Lemma entriesFrom_lower row : forall s0,
  Forall (fun e => (s0 <= slot e)%nat) (entriesFrom row s0).
Proof.
  induction row as [|c row IH]; intros s0; simpl; [constructor|].
  assert (H : Forall (fun e => (s0 <= slot e)%nat) (entriesFrom row (S s0))).
  { eapply Forall_impl; [|apply IH]. simpl. intros; lia. }
  destruct c; [constructor; [simpl; lia|exact H]|exact H].
Qed.

(** The cells of a row come in strictly increasing slot order. *)
Lemma entriesFrom_sorted row : forall s0,
  StronglySorted (fun a b => (slot a < slot b)%nat) (entriesFrom row s0).
Proof.
  induction row as [|c row IH]; intros s0; simpl; [constructor|].
  destruct c; [|apply IH].
  constructor; [apply IH|].
  eapply Forall_impl; [|apply (entriesFrom_lower row (S s0))]. simpl. intros; lia.
Qed.

(** Sorting the cells by slot leaves them as they are. *)
Lemma entries_sort_id row : jsSort slotAfter (entriesFrom row 0) = entriesFrom row 0.
Proof.
  apply jsSort_id.
  apply (StronglySorted_weaken (fun a b => (slot a < slot b)%nat)); [|apply entriesFrom_sorted].
  intros a b H. unfold inOrder, slotAfter. apply Nat.ltb_ge. lia.
Qed.

Lemma sortedBarriers_spec barriers :
  StronglySorted le (jsSort (fun a b => (b <? a)%nat) barriers) /\
  Permutation (jsSort (fun a b => (b <? a)%nat) barriers) barriers.
Proof.
  split; [|apply jsSort_perm].
  apply (StronglySorted_weaken (inOrder (fun a b => (b <? a)%nat))).
  - intros a b H. unfold inOrder in H. apply Nat.ltb_ge in H. exact H.
  - apply jsSort_sorted.
    + intros a b. apply natAfter_asym.
    + intros a b c. apply natAfter_trans.
Qed.




(** ** Joint probabilities *)

Lemma append_assoc (a b c : string) : ((a ++ b) ++ c = a ++ (b ++ c))%string.
Proof. induction a as [|x a IH]; simpl; [reflexivity|rewrite IH; reflexivity]. Qed.

Lemma jointStep_fold qubitStates numQubits i l : forall p lab,
  fold_left (jointStep qubitStates numQubits i) l (p, lab) =
  (p * Rprod (map (fun q =>
                     let bit := js_and (js_shr (Z.of_nat i) (Z.of_nat (numQubits - 1 - q))) 1 in
                     if Z.eqb bit 0
                     then prob0 (getProbabilities (nth q qubitStates STATE_ZERO))
                     else prob1 (getProbabilities (nth q qubitStates STATE_ZERO))) l),
   fold_left (fun acc q =>
                let bit := js_and (js_shr (Z.of_nat i) (Z.of_nat (numQubits - 1 - q))) 1 in
                (acc ++ (if Z.eqb bit 0 then "0" else "1"))%string) l lab).
Proof.
  induction l as [|q l IH]; intros p lab; cbn [fold_left map Rprod fold_right].
  - apply f_equal2; [ring|reflexivity].
  - unfold jointStep at 2. rewrite IH. cbv zeta. unfold Rprod.
    apply f_equal2; [ring|reflexivity].
Qed.

(** The wire-by-wire reading of the bits, from the first wire on. *)
Lemma probOf_as_product ss : forall pre i,
  Rprod (map (fun q => if Nat.testbit i (List.length (pre ++ ss) - 1 - q)
                       then prob1 (getProbabilities (nth q (pre ++ ss) STATE_ZERO))
                       else prob0 (getProbabilities (nth q (pre ++ ss) STATE_ZERO)))
             (seq (List.length pre) (List.length ss)))
  = probOf ss i.
Proof.
  induction ss as [|s ss IH]; intros pre i; [reflexivity|].
  cbn [List.length seq map Rprod fold_right probOf].
  rewrite app_nth2, Nat.sub_diag by lia. cbn [nth].
  rewrite length_app. cbn [List.length].
  replace (List.length pre + S (List.length ss) - 1 - List.length pre)%nat
    with (List.length ss) by lia.
  f_equal.
  specialize (IH (pre ++ [s]) i).
  rewrite <- app_assoc in IH. cbn [app] in IH.
  rewrite !length_app in IH. cbn [List.length] in IH.
  replace (List.length pre + 1)%nat with (S (List.length pre)) in IH by lia.
  exact IH.
Qed.

Lemma labelOf_as_fold n : forall total k i lab,
  (total = k + n)%nat ->
  fold_left (fun acc q =>
               (acc ++ (if Nat.testbit i (total - 1 - q) then "1" else "0"))%string)
            (seq k n) lab
  = (lab ++ labelOf n i)%string.
Proof.
  induction n as [|n IH]; intros total k i lab Ht; cbn [seq fold_left labelOf].
  - clear. induction lab as [|c lab IHl]; simpl; [reflexivity|rewrite <- IHl; reflexivity].
  - rewrite (IH total (S k)) by lia.
    replace (total - 1 - k)%nat with n by lia.
    rewrite append_assoc. f_equal.
    destruct (Nat.testbit i n); reflexivity.
Qed.

Lemma of_nat_lt_pow31 i n :
  (n <= 31)%nat -> (i < 2 ^ n)%nat -> (Z.of_nat i < 2 ^ 31)%Z.
Proof.
  intros Hn Hi.
  apply Z.lt_le_trans with (m := Z.of_nat (2 ^ n)).
  - apply Nat2Z.inj_lt. exact Hi.
  - rewrite Nat2Z.inj_pow. apply Z.pow_le_mono_r; [reflexivity|].
    change 31%Z with (Z.of_nat 31). apply Nat2Z.inj_le. exact Hn.
Qed.

Lemma fold_left_ext_in {A B} (f g : A -> B -> A) l :
  (forall a b, In b l -> f a b = g a b) ->
  forall a, fold_left f l a = fold_left g l a.
Proof.
  induction l as [|b l IH]; intros H a; simpl; [reflexivity|].
  rewrite H by (left; reflexivity). apply IH. intros a' b' Hb. apply H. right. exact Hb.
Qed.

(** On at most 31 wires, the entry of the basis index [i] has the binary
    label of [i] and the product of the probabilities its bits select. *)
Lemma jointEntry_spec qubitStates i :
  (List.length qubitStates <= 31)%nat -> (i < 2 ^ List.length qubitStates)%nat ->
  jointEntry qubitStates i
  = mkEntry (labelOf (List.length qubitStates) i) (probOf qubitStates i).
Proof.
  intros Hn Hi. unfold jointEntry. rewrite jointStep_fold.
  pose proof (of_nat_lt_pow31 _ _ Hn Hi) as Hi31.
  assert (Hbit : forall q, In q (seq 0 (List.length qubitStates)) ->
            Z.eqb (js_and (js_shr (Z.of_nat i)
                                  (Z.of_nat (List.length qubitStates - 1 - q))) 1) 0
            = negb (Nat.testbit i (List.length qubitStates - 1 - q))).
  { intros q Hq. apply in_seq in Hq. apply js_bit_eqb0; [exact Hi31|lia]. }
  f_equal.
  - change (labelOf (List.length qubitStates) i)
      with ("" ++ labelOf (List.length qubitStates) i)%string.
    rewrite <- (labelOf_as_fold (List.length qubitStates) (List.length qubitStates) 0 i "")
      by reflexivity.
    apply fold_left_ext_in. intros a q Hq. cbv zeta. rewrite (Hbit q Hq).
    destruct (Nat.testbit i _); reflexivity.
  - rewrite Rmult_1_l. rewrite <- (probOf_as_product qubitStates [] i).
    cbn [app List.length]. f_equal. apply map_ext_in. intros q Hq. cbv zeta.
    rewrite (Hbit q Hq). destruct (Nat.testbit i _); reflexivity.
Qed.

(** The label determines the probability. *)
Lemma labelProb_labelOf qubitStates i :
  labelProb qubitStates (labelOf (List.length qubitStates) i) = probOf qubitStates i.
Proof.
  induction qubitStates as [|s ss IH]; [reflexivity|].
  cbn [List.length labelOf labelProb probOf]. rewrite IH.
  destruct (Nat.testbit i (List.length ss)); reflexivity.
Qed.

Lemma testbit_high i n : (i < 2 ^ n)%nat -> Nat.testbit i n = false.
Proof.
  intros H. rewrite <- (Nat.mod_small i (2 ^ n)) by exact H.
  apply Nat.mod_pow2_bits_high. lia.
Qed.

Lemma testbit_add_pow_low j n m :
  (m < n)%nat -> Nat.testbit (2 ^ n + j) m = Nat.testbit j m.
Proof.
  intros H. rewrite <- (Nat.mod_pow2_bits_low (2 ^ n + j) n m H).
  rewrite <- (Nat.mod_pow2_bits_low j n m H). f_equal.
  rewrite <- Nat.Div0.add_mod_idemp_l, Nat.Div0.mod_same. reflexivity.
Qed.

Lemma testbit_add_pow_top j n : (j < 2 ^ n)%nat -> Nat.testbit (2 ^ n + j) n = true.
Proof.
  intros H. pose proof (Nat.testbit_spec' (2 ^ n + j) n) as Hs.
  assert (Hd : ((2 ^ n + j) / 2 ^ n = 1)%nat).
  { assert (Hp : (2 ^ n <> 0)%nat) by (apply Nat.pow_nonzero; lia).
    replace (2 ^ n + j)%nat with (j + 1 * 2 ^ n)%nat by lia.
    rewrite Nat.div_add by exact Hp. rewrite Nat.div_small by exact H. reflexivity. }
  rewrite Hd in Hs. destruct (Nat.testbit (2 ^ n + j) n); [reflexivity|discriminate].
Qed.

Lemma labelOf_low n : forall m j,
  (n <= m)%nat -> labelOf n (2 ^ m + j) = labelOf n j.
Proof.
  induction n as [|n IH]; intros m j H; [reflexivity|].
  cbn [labelOf]. rewrite testbit_add_pow_low by lia. rewrite IH by lia. reflexivity.
Qed.

Lemma seq_from a n : seq a n = map (Nat.add a) (seq 0 n).
Proof.
  induction a as [|a IH].
  - rewrite <- (map_id (seq 0 n)) at 1. apply map_ext. reflexivity.
  - rewrite <- seq_shift, IH, map_map. apply map_ext. reflexivity.
Qed.

(** The labels of the indices [0 .. 2^n - 1] are the basis strings, in
    order. *)
Lemma labels_basisStrings n : map (labelOf n) (seq 0 (2 ^ n)) = basisStrings n.
Proof.
  induction n as [|n IH]; [reflexivity|].
  cbn [basisStrings]. rewrite <- IH, !map_map.
  replace (2 ^ S n)%nat with (2 ^ n + 2 ^ n)%nat by (rewrite Nat.pow_succ_r'; lia).
  rewrite seq_app, map_app. f_equal.
  - apply map_ext_in. intros i Hi. apply in_seq in Hi.
    cbn [labelOf]. rewrite testbit_high by lia. reflexivity.
  - cbn [Nat.add]. rewrite (seq_from (2 ^ n)), map_map.
    apply map_ext_in. intros j Hj. apply in_seq in Hj.
    cbn [labelOf]. rewrite testbit_add_pow_top by lia.
    rewrite labelOf_low by lia. reflexivity.
Qed.

Lemma basisStrings_length n : List.length (basisStrings n) = (2 ^ n)%nat.
Proof. rewrite <- labels_basisStrings, length_map, length_seq. reflexivity. Qed.

Lemma labelOf_length n i : String.length (labelOf n i) = n.
Proof. induction n as [|n IH]; simpl; [reflexivity|rewrite IH; reflexivity]. Qed.

(** The basis strings of [n] wires are the strings of [n] characters [0]
    or [1], each listed once. *)
Lemma basisStrings_In n : forall s,
  In s (basisStrings n) <->
  String.length s = n /\
  (forall k c, String.get k s = Some c -> c = "0"%char \/ c = "1"%char).
Proof.
  induction n as [|n IH]; intros s; cbn [basisStrings].
  - split.
    + intros [<-|[]]. split; [reflexivity|]. intros k c H. destruct k; discriminate.
    + intros [H _]. destruct s; [left; reflexivity|discriminate].
  - rewrite in_app_iff, !in_map_iff. split.
    + intros [(t & <- & Ht)|(t & <- & Ht)]; apply IH in Ht; destruct Ht as [Hl Hc];
        (split; [simpl; rewrite Hl; reflexivity|]);
        intros [|k] c H; simpl in H;
        try (inversion H; subst; tauto); eapply Hc; exact H.
    + intros [Hl Hc]. destruct s as [|c s]; [discriminate|].
      simpl in Hl. injection Hl as Hl.
      assert (Hs : In s (basisStrings n)).
      { apply IH. split; [exact Hl|]. intros k c' H. apply (Hc (S k) c'). exact H. }
      destruct (Hc 0%nat c eq_refl) as [-> | ->]; [left|right]; exists s; split;
        try reflexivity; exact Hs.
Qed.

Lemma NoDup_map_inj {A B} (f : A -> B) l :
  (forall a b, f a = f b -> a = b) -> NoDup l -> NoDup (map f l).
Proof.
  intros Hf. induction 1 as [|a l Ha _ IH]; simpl; constructor; [|exact IH].
  intros H. apply in_map_iff in H. destruct H as (b & Hb & Hin).
  apply Hf in Hb. subst. contradiction.
Qed.

Lemma NoDup_append {A} (l1 l2 : list A) :
  NoDup l1 -> NoDup l2 -> (forall a, In a l1 -> In a l2 -> False) -> NoDup (l1 ++ l2).
Proof.
  induction 1 as [|a l1 Ha _ IH]; intros H2 Hd; simpl; [exact H2|].
  constructor.
  - intros H. apply in_app_or in H. destruct H as [H|H]; [contradiction|].
    apply (Hd a); [left; reflexivity|exact H].
  - apply IH; [exact H2|]. intros b Hb1 Hb2. apply (Hd b); [right; exact Hb1|exact Hb2].
Qed.

Lemma basisStrings_NoDup n : NoDup (basisStrings n).
Proof.
  induction n as [|n IH]; cbn [basisStrings]; [repeat constructor; intros []|].
  apply NoDup_append.
  - apply NoDup_map_inj; [|exact IH]. intros a b H. inversion H. reflexivity.
  - apply NoDup_map_inj; [|exact IH]. intros a b H. inversion H. reflexivity.
  - intros s H1 H2. apply in_map_iff in H1, H2.
    destruct H1 as (a & <- & _). destruct H2 as (b & H & _). discriminate.
Qed.

Lemma filter_all {A} (f : A -> bool) l : (forall a, f a = true) -> filter f l = l.
Proof.
  intros H. induction l as [|a l IH]; simpl; [reflexivity|].
  rewrite H, IH. reflexivity.
Qed.

Lemma probs_STATE_ZERO :
  prob0 (getProbabilities STATE_ZERO) = 1 /\ prob1 (getProbabilities STATE_ZERO) = 0.
Proof.
  unfold getProbabilities, STATE_ZERO; cbn [prob0 prob1 fst snd].
  rewrite !cAbs_sq. cbn [re im]. split; ring.
Qed.

(** With every wire in [|0>], the all-zero label has probability [1] and
    every other label probability [0]. *)
Lemma labelProb_all_zero n : forall s,
  String.length s = n ->
  (s = zeros n -> labelProb (repeat STATE_ZERO n) s = 1) /\
  (s <> zeros n -> labelProb (repeat STATE_ZERO n) s = 0).
Proof.
  destruct probs_STATE_ZERO as [H0 H1].
  induction n as [|n IH]; intros s Hl.
  - destruct s; [|discriminate]. split; [reflexivity|]. intros H. contradiction H. reflexivity.
  - destruct s as [|c s]; [discriminate|]. simpl in Hl. injection Hl as Hl.
    destruct (IH s Hl) as [IHa IHb].
    cbn [repeat labelProb zeros]. rewrite H0, H1.
    destruct (Ascii.eqb_spec c "0"%char) as [->|Hc].
    + split.
      * intros H. injection H as H. rewrite (IHa H). ring.
      * intros H. rewrite IHb; [ring|]. intros ->. apply H. reflexivity.
    + split.
      * intros H. injection H as H _. contradiction.
      * intros _. ring.
Qed.

(** C9.  For a list of [n <= 31] single-wire states,
    [getMultiQubitProbabilities] with [includeZero = true] returns [2^n]
    entries whose labels are the [2^n] joint basis strings, each once; the
    probability of an entry is the product, over the wires, of that wire's
    [|0>] or [|1>] probability according to the character of the label; the
    entries are sorted by descending probability; and with every wire in
    [|0>] the all-zero string has probability [1] and every other string
    probability [0]. *)
Theorem C9_joint_probabilities (qubitStates : list State) :
  (List.length qubitStates <= 31)%nat ->
  let n := List.length qubitStates in
  let results := getMultiQubitProbabilities qubitStates true in
  Permutation (map state results) (basisStrings n) /\
  List.length results = (2 ^ n)%nat /\
  (forall e, In e results -> probability e = labelProb qubitStates (state e)) /\
  StronglySorted (fun a b => probability b <= probability a) results /\
  (qubitStates = repeat STATE_ZERO n ->
   forall e, In e results ->
     (state e = zeros n -> probability e = 1) /\
     (state e <> zeros n -> probability e = 0)).
Proof.
  intros Hn. cbv zeta.
  set (n := List.length qubitStates).
  set (unsorted := map (fun i => mkEntry (labelOf n i) (probOf qubitStates i))
                       (seq 0 (2 ^ n))).
  assert (Hres : getMultiQubitProbabilities qubitStates true
                 = jsSort (fun a b => Rltb (probability a) (probability b)) unsorted).
  { unfold getMultiQubitProbabilities. fold n. f_equal.
    rewrite filter_all by reflexivity.
    apply map_ext_in. intros i Hi. apply in_seq in Hi.
    apply jointEntry_spec; [exact Hn|fold n; lia]. }
  assert (Hperm : Permutation (getMultiQubitProbabilities qubitStates true) unsorted).
  { rewrite Hres. apply jsSort_perm. }
  assert (Hin : forall e, In e (getMultiQubitProbabilities qubitStates true) ->
                  exists i, e = mkEntry (labelOf n i) (probOf qubitStates i)).
  { intros e He. apply (Permutation_in _ Hperm) in He.
    apply in_map_iff in He. destruct He as (i & <- & _). exists i. reflexivity. }
  split; [|split; [|split; [|split]]].
  - rewrite (Permutation_map state Hperm). unfold unsorted.
    rewrite map_map. cbn [state]. rewrite labels_basisStrings. reflexivity.
  - rewrite (Permutation_length Hperm). unfold unsorted.
    rewrite length_map, length_seq. reflexivity.
  - intros e He. destruct (Hin e He) as (i & ->). cbn [state probability].
    symmetry. apply labelProb_labelOf.
  - rewrite Hres.
    apply (StronglySorted_weaken (inOrder (fun a b => Rltb (probability a) (probability b)))).
    + intros a b H. unfold inOrder in H. apply Rltb_false in H. exact H.
    + apply jsSort_sorted.
      * intros a b. apply RltbAfter_asym.
      * intros a b c. apply RltbAfter_trans.
  - intros Hz e He. destruct (Hin e He) as (i & ->). cbn [state probability].
    rewrite <- labelProb_labelOf. fold n. rewrite Hz.
    apply labelProb_all_zero. apply labelOf_length.
Qed.

(** The theorem at two wires, in [|0>] and [|1>]. *)
Lemma C9_joint_probabilities_witness :
  (List.length [STATE_ZERO; STATE_ONE] <= 31)%nat /\
  Permutation (map state (getMultiQubitProbabilities [STATE_ZERO; STATE_ONE] true))
              (basisStrings 2).
Proof.
  assert (H : (List.length [STATE_ZERO; STATE_ONE] <= 31)%nat) by (simpl; lia).
  split; [exact H|].
  exact (proj1 (C9_joint_probabilities [STATE_ZERO; STATE_ONE] H)).
Defined.

(** ** Catalog gates on the basis states *)

Lemma createGateInstance_catalog_instances :
  createGateInstance "X" None = Returned (Some (instanceOf GATE_X)) /\
  createGateInstance "Z" None = Returned (Some (instanceOf GATE_Z)) /\
  createGateInstance "H" None = Returned (Some (instanceOf GATE_H)) /\
  createGateInstance "S" None = Returned (Some (instanceOf GATE_S)) /\
  createGateInstance "T" None = Returned (Some (instanceOf GATE_T)) /\
  (forall d, createGateInstance "U" (Some d) = Returned (Some (universal d))).
Proof. repeat split. Qed.

Lemma applyGate_H_zero : applyGate STATE_ZERO (instanceOf GATE_H) = STATE_PLUS.
Proof.
  change (applyGate STATE_ZERO (instanceOf GATE_H))
    with (normalize (matVec (defaultMatrix GATE_H) STATE_ZERO)).
  assert (E : matVec (defaultMatrix GATE_H) STATE_ZERO = STATE_PLUS).
  { unfold matVec, STATE_ZERO, STATE_PLUS, m00, m01, m10, m11, cAdd, cMul; simpl.
    f_equal; apply C_eq; ring. }
  rewrite E. apply normalize_unit.
  unfold normSq, STATE_PLUS. rewrite !cAbs_sq. simpl. pose proof sqrt2_inv_sq. lra.
Qed.

Lemma applyGate_X_zero : applyGate STATE_ZERO (instanceOf GATE_X) = STATE_ONE.
Proof.
  change (applyGate STATE_ZERO (instanceOf GATE_X))
    with (normalize (matVec (defaultMatrix GATE_X) STATE_ZERO)).
  assert (E : matVec (defaultMatrix GATE_X) STATE_ZERO = STATE_ONE).
  { unfold matVec, STATE_ZERO, STATE_ONE, m00, m01, m10, m11, cAdd, cMul; simpl.
    f_equal; apply C_eq; ring. }
  rewrite E. apply normalize_unit.
  unfold normSq, STATE_ONE. rewrite !cAbs_sq. simpl. lra.
Qed.

Lemma Matrix_eq (a b c d a' b' c' d' : C) :
  a = a' -> b = b' -> c = c' -> d = d' -> ((a, b), (c, d)) = ((a', b'), (c', d')).
Proof. intros; subst; reflexivity. Qed.

(** The synthesized gate of a phase is the diagonal gate of that phase. *)
Lemma createU3Matrix_phase l : createU3Matrix 0 0 l = diagMatrix (cFromPolar 1 l).
Proof.
  unfold createU3Matrix, diagMatrix, cScale, cFromPolar; simpl.
  replace (0 / 2) with 0 by field. replace (0 + l) with l by ring. trig.
  apply Matrix_eq; apply C_eq; ring.
Qed.

Lemma applyMatrix_diag_plus d :
  re d * re d + im d * im d = 1 ->
  applyMatrix STATE_PLUS (Some (diagMatrix d))
  = (complex SQRT2_INV 0, complex (re d * SQRT2_INV) (im d * SQRT2_INV)).
Proof.
  intros H. cbn [applyMatrix].
  assert (E : matVec (diagMatrix d) STATE_PLUS
              = (complex SQRT2_INV 0, complex (re d * SQRT2_INV) (im d * SQRT2_INV))).
  { unfold matVec, diagMatrix, STATE_PLUS, m00, m01, m10, m11, cAdd, cMul; simpl.
    f_equal; apply C_eq; ring. }
  rewrite E. apply normalize_unit.
  unfold normSq. rewrite !cAbs_sq. simpl. pose proof sqrt2_inv_sq. nra.
Qed.

Lemma cFromPolar_unit l :
  re (cFromPolar 1 l) * re (cFromPolar 1 l) + im (cFromPolar 1 l) * im (cFromPolar 1 l) = 1.
Proof.
  unfold cFromPolar; simpl. pose proof (sin2_cos2 l) as H. unfold Rsqr in H. nra.
Qed.

Lemma Rabs_PI_gt : Rgtb (Rabs PI) (1 / 100) = true.
Proof.
  unfold Rgtb. apply Rltb_true. pose proof PI2_1.
  rewrite Rabs_right by lra. lra.
Qed.

Lemma snapped_big a : 1 / 100 < Rabs a -> snapped a = a.
Proof. intros H. apply (proj2 (snapped_cases a)). exact H. Qed.

(** The eigenphases of the examples. *)
Lemma kickback_Z_one g :
  gate g = "Z" -> matrix g = Some (defaultMatrix GATE_Z) ->
  getKickbackPhaseForControlledGate (Some g) (Some STATE_ONE) TOL = Some PI.
Proof.
  intros Hg Hm.
  rewrite (kickback_diag_one g (complex (-1) 0)).
  - unfold cPhase; simpl. rewrite atan2_zero_neg by lra.
    rewrite snapped_big; [reflexivity|].
    pose proof PI2_1. rewrite Rabs_right by lra. lra.
  - rewrite Hg. reflexivity.
  - exact Hm.
  - simpl. ring.
Qed.

Lemma kickback_S_one g :
  gate g = "S" -> matrix g = Some (defaultMatrix GATE_S) ->
  getKickbackPhaseForControlledGate (Some g) (Some STATE_ONE) TOL = Some (PI / 2).
Proof.
  intros Hg Hm.
  rewrite (kickback_diag_one g (complex 0 1)).
  - unfold cPhase; simpl. rewrite atan2_pos_zero by lra.
    rewrite snapped_big; [reflexivity|].
    pose proof PI2_1. rewrite Rabs_right by lra. lra.
  - rewrite Hg. reflexivity.
  - exact Hm.
  - simpl. ring.
Qed.

Lemma kickback_Z_zero g :
  gate g = "Z" -> matrix g = Some (defaultMatrix GATE_Z) ->
  getKickbackPhaseForControlledGate (Some g) (Some STATE_ZERO) TOL = Some 0.
Proof.
  intros Hg Hm. apply (kickback_diag_zero g (complex (-1) 0)); [|exact Hm].
  rewrite Hg. reflexivity.
Qed.

Lemma normalizeAngle_turn a :
  PI < a <= 3 * PI -> normalizeAngle a = a - 2 * PI.
Proof.
  intros [H1 H2]. pose proof PI2_1 as Hpi.
  unfold normalizeAngle.
  pose proof (turnsFor_bound a) as Hb.
  destruct (turnsFor a) as [|f] eqn:E.
  - simpl in Hb. pose proof (Rabs_pos a). lra.
  - cbn [subTurns]. rewrite (proj2 (Rltb_true PI a)) by exact H1.
    rewrite subTurns_small by lra. apply addTurns_small. lra.
Qed.

(** ** Helpers to run the enumeration on a given circuit *)

Lemma buildRotations_cons g l d :
  isBarrierOrControl (cell g) = false ->
  decomposition (cell g) = Some d ->
  visible d = true ->
  buildRotations (g :: l) = d :: buildRotations l.
Proof.
  intros H1 H2 H3. unfold buildRotations. cbn [flat_map].
  rewrite H1, H2. unfold visible in H3. rewrite H3. reflexivity.
Qed.

Lemma visible_theta d : 1 / 100 < Rabs (theta d) -> visible d = true.
Proof.
  intros H. unfold visible, Rgtb. rewrite (proj2 (Rltb_true _ _) H). reflexivity.
Qed.

Lemma visible_lambda d : 1 / 100 < Rabs (lambda d) -> visible d = true.
Proof.
  intros H. unfold visible, Rgtb. rewrite (proj2 (Rltb_true _ (Rabs (lambda d))) H).
  rewrite !orb_true_r. reflexivity.
Qed.

Lemma Rabs_PI : Rabs PI = PI.
Proof. apply Rabs_right. pose proof PI_RGT_0. lra. Qed.

Lemma triple_eq (a b c a' b' c' : R) :
  a = a' -> b = b' -> c = c' -> (a, b, c) = (a', b', c').
Proof. intros; subst; reflexivity. Qed.

Lemma getTotalPhases_fold rots : forall t l p,
  fold_left (fun acc r => let '(t, l, p) := acc in (t + theta r, l + lambda r, p + phi r))
            rots (t, l, p)
  = (t + Rsum (map theta rots), l + Rsum (map lambda rots), p + Rsum (map phi rots)).
Proof.
  induction rots as [|r rots IH]; intros t l p; cbn [fold_left map Rsum fold_right].
  - apply triple_eq; ring.
  - rewrite IH. unfold Rsum. apply triple_eq; ring.
Qed.

(** The accumulated angles of a history. *)
Lemma getTotalPhases_sum rots :
  getTotalPhases rots
  = mkDecomp (normalizeAngle (Rsum (map theta rots)))
             (normalizeAngle (Rsum (map phi rots)))
             (normalizeAngle (Rsum (map lambda rots))).
Proof.
  unfold getTotalPhases. rewrite getTotalPhases_fold.
  rewrite !Rplus_0_l. reflexivity.
Qed.

Lemma phasesEqual_lambda_far r1 r2 :
  1 / 100 <= Rabs (normalizeAngle (Rsum (map lambda r1))
                   - normalizeAngle (Rsum (map lambda r2))) ->
  phasesEqual r1 r2 = false.
Proof.
  intros H. unfold phasesEqual. cbv zeta. rewrite !getTotalPhases_sum. cbn [theta phi lambda].
  rewrite (proj2 (Rltb_false _ _) H).
  rewrite andb_false_r. reflexivity.
Qed.

Lemma sameBranch_lambda_far b1 b2 :
  1 / 100 <= Rabs (normalizeAngle (Rsum (map lambda (rotations b1)))
                   - normalizeAngle (Rsum (map lambda (rotations b2)))) ->
  sameBranch b1 b2 = false.
Proof.
  intros H. unfold sameBranch. rewrite (phasesEqual_lambda_far _ _ H).
  apply andb_false_r.
Qed.

(** Two branches that do not coincide, the first at least as probable:
    merging, sorting and cutting leave them as they are. *)
Lemma emit_two b0 b1 :
  sameBranch b0 b1 = false ->
  br_probability b1 <= br_probability b0 ->
  firstn 10 (jsSort probabilityAfter (mergeBranches [b0; b1])) = [b0; b1].
Proof.
  intros Hs Hp.
  assert (Hm : mergeBranches [b0; b1] = [b0; b1]).
  { unfold mergeBranches. cbn [fold_left]. unfold mergeStep at 2. cbn [addToExisting app].
    unfold mergeStep. cbn [addToExisting]. rewrite Hs. reflexivity. }
  rewrite Hm. unfold jsSort. cbn [fold_left insertBy].
  unfold probabilityAfter. rewrite (proj2 (Rltb_false _ _) Hp). reflexivity.
Qed.

Lemma prob1_plus : prob1 (getProbabilities STATE_PLUS) = 1 / 2.
Proof.
  unfold getProbabilities, STATE_PLUS. cbn [prob1 snd]. rewrite cAbs_sq. cbn [re im].
  pose proof sqrt2_inv_sq. lra.
Qed.

Lemma comboProb_single p c :
  (c < 2)%nat -> comboProb [0%nat] [p] c = weight [p] c.
Proof.
  intros H. apply comboProb_weight; [reflexivity|simpl; lia|simpl; lia].
Qed.

(** ** Phase kickback on two wires *)

Lemma Rabs_PI2 : Rabs (PI / 2) = PI / 2.
Proof. apply Rabs_right. pose proof PI_RGT_0. lra. Qed.

Lemma czOne_kickback_gates :
  getKickbackGatesForControl czOne [] "zero" (buildColumnStateCache czOne [] "zero" 1) 1 0
  = [kickbackGate PI 1].
Proof.
  assert (E : getKickbackGatesForControl czOne [] "zero"
                (buildColumnStateCache czOne [] "zero" 1) 1 0
              = (match getKickbackPhaseForControlledGate
                         (Some (controlledBy 0 (instanceOf GATE_Z)))
                         (Some (applyGate STATE_ZERO (instanceOf GATE_X))) TOL with
                 | None => []
                 | Some phase =>
                     if Rleb (Rabs phase) (1 / 100) then [] else [kickbackGate phase 1]
                 end ++ []) ++ []) by reflexivity.
  rewrite E, applyGate_X_zero.
  rewrite (kickback_Z_one (controlledBy 0 (instanceOf GATE_Z)) eq_refl eq_refl).
  rewrite Rabs_PI.
  rewrite (proj2 (Rleb_false PI (1 / 100))) by (pose proof PI2_1; lra).
  reflexivity.
Qed.


Lemma czOne_wire0 :
  map br_state (wireBranches czOne [] "zero" 1 0) = [STATE_MINUS] /\
  map br_probability (wireBranches czOne [] "zero" 1 0) = [1].
Proof.
  unfold wireBranches, effectiveGates. rewrite czOne_kickback_gates.
  assert (Eg : jsSort slotAfter (getOrderedGates czOne [] 0 1 ++ [kickbackGate PI 1])
               = [place (instanceOf GATE_H) 0; place (controlMarker 1) 1; kickbackGate PI 1])
    by reflexivity.
  rewrite Eg.
  assert (Ec : truthy (find isControlled
                 [place (instanceOf GATE_H) 0; place (controlMarker 1) 1; kickbackGate PI 1])
               = false) by reflexivity.
  rewrite Ec. cbn [negb map br_state br_probability].
  split; [|reflexivity].
  assert (Es : applyGates [place (instanceOf GATE_H) 0; place (controlMarker 1) 1;
                           kickbackGate PI 1] (getInitialState "zero")
               = applyMatrix (applyGate STATE_ZERO (instanceOf GATE_H))
                             (Some (createU3Matrix 0 0 PI))) by reflexivity.
  rewrite Es, applyGate_H_zero, createU3Matrix_phase.
  rewrite applyMatrix_diag_plus by apply cFromPolar_unit.
  unfold STATE_MINUS, cFromPolar. cbn [re im]. rewrite cos_PI, sin_PI.
  f_equal. f_equal. apply C_eq; ring.
Qed.


Lemma accepted_single p c :
  (c < 2)%nat -> 1 / 100 <= weight [p] c -> accepted [0%nat] [p] c = true.
Proof.
  intros Hc H. unfold accepted. rewrite comboProb_single by exact Hc.
  apply negb_true_iff, Rltb_false. exact H.
Qed.

Lemma rotations_X :
  buildRotations [place (instanceOf GATE_X) 0] = [mkDecomp PI 0 PI].
Proof.
  rewrite (buildRotations_cons _ _ (mkDecomp PI 0 PI)); try reflexivity.
  apply visible_theta. cbn [theta]. rewrite Rabs_PI. pose proof PI2_1. lra.
Qed.

Lemma rotations_X_Z c :
  buildRotations [place (instanceOf GATE_X) 0; place (controlledBy c (instanceOf GATE_Z)) 1]
  = [mkDecomp PI 0 PI; mkDecomp 0 0 PI].
Proof.
  rewrite (buildRotations_cons _ _ (mkDecomp PI 0 PI)); try reflexivity.
  - rewrite (buildRotations_cons _ _ (mkDecomp 0 0 PI)); try reflexivity.
    apply visible_lambda. cbn [lambda]. rewrite Rabs_PI. pose proof PI2_1. lra.
  - apply visible_theta. cbn [theta]. rewrite Rabs_PI. pose proof PI2_1. lra.
Qed.


Lemma czOne_wire1 :
  map br_state (wireBranches czOne [] "zero" 1 1)
  = [STATE_ONE; (complex 0 0, complex (-1) 0)] /\
  map br_probability (wireBranches czOne [] "zero" 1 1) = [1 / 2; 1 / 2].
Proof.
  unfold wireBranches, effectiveGates.
  assert (Ek : getKickbackGatesForControl czOne [] "zero"
                 (buildColumnStateCache czOne [] "zero" 1) 1 1 = []) by reflexivity.
  rewrite Ek.
  set (gates1 := [place (instanceOf GATE_X) 0; place (controlledBy 0 (instanceOf GATE_Z)) 1]).
  assert (Eg : jsSort slotAfter (getOrderedGates czOne [] 1 1 ++ []) = gates1) by reflexivity.
  rewrite Eg.
  assert (Ec : truthy (find isControlled gates1) = true) by reflexivity.
  rewrite Ec. cbn [negb].
  unfold rawBranches. rewrite enumerate_from_start.
  assert (Eu : uniqueControlsOf gates1 = [0%nat]) by reflexivity.
  rewrite Eu.
  assert (Ep : controlProbsOf "zero" (buildColumnStateCache czOne [] "zero" 1) gates1
               = [prob1 (getProbabilities (applyGate STATE_ZERO (instanceOf GATE_H)))])
    by reflexivity.
  rewrite Ep, applyGate_H_zero, prob1_plus.
  change (seq 0 (2 ^ Datatypes.length [0%nat])) with [0%nat; 1%nat].
  assert (Esel : firstn 10 (filter (accepted [0%nat] [1 / 2]) [0%nat; 1%nat])
                 = [0%nat; 1%nat]).
  { cbn [filter]. rewrite !accepted_single by (try lia; simpl; lra). reflexivity. }
  rewrite Esel. cbn [map].
  set (b0 := branchOf "zero" gates1 [0%nat] [1 / 2] 0).
  set (b1 := branchOf "zero" gates1 [0%nat] [1 / 2] 1).
  assert (Ep0 : br_probability b0 = 1 / 2).
  { unfold b0. rewrite branchOf_probability, comboProb_single by lia. simpl. lra. }
  assert (Ep1 : br_probability b1 = 1 / 2).
  { unfold b1. rewrite branchOf_probability, comboProb_single by lia. simpl. lra. }
  assert (Er0 : rotations b0 = [mkDecomp PI 0 PI]).
  { change (rotations b0) with (buildRotations [place (instanceOf GATE_X) 0]).
    apply rotations_X. }
  assert (Er1 : rotations b1 = [mkDecomp PI 0 PI; mkDecomp 0 0 PI]).
  { change (rotations b1) with (buildRotations gates1). apply rotations_X_Z. }
  assert (Es0 : br_state b0 = STATE_ONE).
  { change (br_state b0) with (applyGate STATE_ZERO (instanceOf GATE_X)).
    apply applyGate_X_zero. }
  assert (Es1 : br_state b1 = (complex 0 0, complex (-1) 0)).
  { change (br_state b1)
      with (applyMatrix (applyGate STATE_ZERO (instanceOf GATE_X))
                        (Some (diagMatrix (complex (-1) 0)))).
    rewrite applyGate_X_zero. apply applyMatrix_diag_one. simpl. ring. }
  rewrite emit_two.
  - cbn [map]. rewrite Es0, Es1, Ep0, Ep1. split; reflexivity.
  - apply sameBranch_lambda_far. rewrite Er0, Er1. cbn [map lambda Rsum fold_right].
    pose proof PI2_1 as Hpi.
    replace (PI + 0) with PI by ring.
    rewrite normalizeAngle_id by lra.
    rewrite normalizeAngle_turn by lra.
    replace (PI - (PI + PI - 2 * PI)) with PI by ring.
    rewrite Rabs_PI. lra.
  - rewrite Ep0, Ep1. lra.
Qed.

Lemma csOne_kickback_gates :
  getKickbackGatesForControl csOne [] "zero" (buildColumnStateCache csOne [] "zero" 1) 1 0
  = [kickbackGate (PI / 2) 1].
Proof.
  assert (E : getKickbackGatesForControl csOne [] "zero"
                (buildColumnStateCache csOne [] "zero" 1) 1 0
              = (match getKickbackPhaseForControlledGate
                         (Some (controlledBy 0 (instanceOf GATE_S)))
                         (Some (applyGate STATE_ZERO (instanceOf GATE_X))) TOL with
                 | None => []
                 | Some phase =>
                     if Rleb (Rabs phase) (1 / 100) then [] else [kickbackGate phase 1]
                 end ++ []) ++ []) by reflexivity.
  rewrite E, applyGate_X_zero.
  rewrite (kickback_S_one (controlledBy 0 (instanceOf GATE_S)) eq_refl eq_refl).
  rewrite Rabs_PI2.
  rewrite (proj2 (Rleb_false (PI / 2) (1 / 100))) by (pose proof PI2_1; lra).
  reflexivity.
Qed.


Lemma csOne_wire0 :
  map br_state (wireBranches csOne [] "zero" 1 0) = [STATE_PLUS_I] /\
  map br_probability (wireBranches csOne [] "zero" 1 0) = [1].
Proof.
  unfold wireBranches, effectiveGates. rewrite csOne_kickback_gates.
  assert (Eg : jsSort slotAfter (getOrderedGates csOne [] 0 1 ++ [kickbackGate (PI / 2) 1])
               = [place (instanceOf GATE_H) 0; place (controlMarker 1) 1; kickbackGate (PI / 2) 1])
    by reflexivity.
  rewrite Eg.
  assert (Ec : truthy (find isControlled
                 [place (instanceOf GATE_H) 0; place (controlMarker 1) 1; kickbackGate (PI / 2) 1])
               = false) by reflexivity.
  rewrite Ec. cbn [negb map br_state br_probability].
  split; [|reflexivity].
  assert (Es : applyGates [place (instanceOf GATE_H) 0; place (controlMarker 1) 1;
                           kickbackGate (PI / 2) 1] (getInitialState "zero")
               = applyMatrix (applyGate STATE_ZERO (instanceOf GATE_H))
                             (Some (createU3Matrix 0 0 (PI / 2)))) by reflexivity.
  rewrite Es, applyGate_H_zero, createU3Matrix_phase.
  rewrite applyMatrix_diag_plus by apply cFromPolar_unit.
  unfold STATE_PLUS_I, cFromPolar. cbn [re im]. rewrite cos_PI2, sin_PI2.
  f_equal. f_equal. apply C_eq; ring.
Qed.


Lemma rotations_X_S c :
  buildRotations [place (instanceOf GATE_X) 0; place (controlledBy c (instanceOf GATE_S)) 1]
  = [mkDecomp PI 0 PI; mkDecomp 0 0 (PI / 2)].
Proof.
  rewrite (buildRotations_cons _ _ (mkDecomp PI 0 PI)); try reflexivity.
  - rewrite (buildRotations_cons _ _ (mkDecomp 0 0 (PI / 2))); try reflexivity.
    apply visible_lambda. cbn [lambda]. rewrite Rabs_PI2. pose proof PI2_1. lra.
  - apply visible_theta. cbn [theta]. rewrite Rabs_PI. pose proof PI2_1. lra.
Qed.

Lemma csOne_wire1 :
  map br_state (wireBranches csOne [] "zero" 1 1)
  = [STATE_ONE; (complex 0 0, complex 0 1)] /\
  map br_probability (wireBranches csOne [] "zero" 1 1) = [1 / 2; 1 / 2].
Proof.
  unfold wireBranches, effectiveGates.
  assert (Ek : getKickbackGatesForControl csOne [] "zero"
                 (buildColumnStateCache csOne [] "zero" 1) 1 1 = []) by reflexivity.
  rewrite Ek.
  set (gates1 := [place (instanceOf GATE_X) 0; place (controlledBy 0 (instanceOf GATE_S)) 1]).
  assert (Eg : jsSort slotAfter (getOrderedGates csOne [] 1 1 ++ []) = gates1) by reflexivity.
  rewrite Eg.
  assert (Ec : truthy (find isControlled gates1) = true) by reflexivity.
  rewrite Ec. cbn [negb].
  unfold rawBranches. rewrite enumerate_from_start.
  assert (Eu : uniqueControlsOf gates1 = [0%nat]) by reflexivity.
  rewrite Eu.
  assert (Ep : controlProbsOf "zero" (buildColumnStateCache csOne [] "zero" 1) gates1
               = [prob1 (getProbabilities (applyGate STATE_ZERO (instanceOf GATE_H)))])
    by reflexivity.
  rewrite Ep, applyGate_H_zero, prob1_plus.
  change (seq 0 (2 ^ Datatypes.length [0%nat])) with [0%nat; 1%nat].
  assert (Esel : firstn 10 (filter (accepted [0%nat] [1 / 2]) [0%nat; 1%nat])
                 = [0%nat; 1%nat]).
  { cbn [filter]. rewrite !accepted_single by (try lia; simpl; lra). reflexivity. }
  rewrite Esel. cbn [map].
  set (b0 := branchOf "zero" gates1 [0%nat] [1 / 2] 0).
  set (b1 := branchOf "zero" gates1 [0%nat] [1 / 2] 1).
  assert (Ep0 : br_probability b0 = 1 / 2).
  { unfold b0. rewrite branchOf_probability, comboProb_single by lia. simpl. lra. }
  assert (Ep1 : br_probability b1 = 1 / 2).
  { unfold b1. rewrite branchOf_probability, comboProb_single by lia. simpl. lra. }
  assert (Er0 : rotations b0 = [mkDecomp PI 0 PI]).
  { change (rotations b0) with (buildRotations [place (instanceOf GATE_X) 0]).
    apply rotations_X. }
  assert (Er1 : rotations b1 = [mkDecomp PI 0 PI; mkDecomp 0 0 (PI / 2)]).
  { change (rotations b1) with (buildRotations gates1). apply rotations_X_S. }
  assert (Es0 : br_state b0 = STATE_ONE).
  { change (br_state b0) with (applyGate STATE_ZERO (instanceOf GATE_X)).
    apply applyGate_X_zero. }
  assert (Es1 : br_state b1 = (complex 0 0, complex 0 1)).
  { change (br_state b1)
      with (applyMatrix (applyGate STATE_ZERO (instanceOf GATE_X))
                        (Some (diagMatrix (complex 0 1)))).
    rewrite applyGate_X_zero. apply applyMatrix_diag_one. simpl. ring. }
  rewrite emit_two.
  - cbn [map]. rewrite Es0, Es1, Ep0, Ep1. split; reflexivity.
  - apply sameBranch_lambda_far. rewrite Er0, Er1. cbn [map lambda Rsum fold_right].
    pose proof PI2_1 as Hpi.
    replace (PI + 0) with PI by ring.
    rewrite normalizeAngle_id by lra.
    rewrite normalizeAngle_turn by lra.
    replace (PI - (PI + (PI / 2 + 0) - 2 * PI)) with (3 * (PI / 2)) by field.
    rewrite Rabs_right by lra. lra.
  - rewrite Ep0, Ep1. lra.
Qed.

Lemma czZero_kickback_gates :
  getKickbackGatesForControl czZero [] "zero" (buildColumnStateCache czZero [] "zero" 1) 1 0
  = [].
Proof.
  assert (E : getKickbackGatesForControl czZero [] "zero"
                (buildColumnStateCache czZero [] "zero" 1) 1 0
              = (match getKickbackPhaseForControlledGate
                         (Some (controlledBy 0 (instanceOf GATE_Z)))
                         (Some STATE_ZERO) TOL with
                 | None => []
                 | Some phase =>
                     if Rleb (Rabs phase) (1 / 100) then [] else [kickbackGate phase 1]
                 end ++ []) ++ []) by reflexivity.
  rewrite E.
  rewrite (kickback_Z_zero (controlledBy 0 (instanceOf GATE_Z)) eq_refl eq_refl).
  rewrite Rabs_R0.
  rewrite (proj2 (Rleb_true 0 (1 / 100))) by lra.
  reflexivity.
Qed.

Lemma czZero_wire0 :
  map br_state (wireBranches czZero [] "zero" 1 0) = [STATE_PLUS].
Proof.
  unfold wireBranches, effectiveGates. rewrite czZero_kickback_gates.
  assert (Eg : jsSort slotAfter (getOrderedGates czZero [] 0 1 ++ [])
               = [place (instanceOf GATE_H) 0; place (controlMarker 1) 1])
    by reflexivity.
  rewrite Eg.
  assert (Ec : truthy (find isControlled
                 [place (instanceOf GATE_H) 0; place (controlMarker 1) 1])
               = false) by reflexivity.
  rewrite Ec. cbn [negb map br_state].
  assert (Es : applyGates [place (instanceOf GATE_H) 0; place (controlMarker 1) 1]
                          (getInitialState "zero")
               = applyGate STATE_ZERO (instanceOf GATE_H)) by reflexivity.
  rewrite Es, applyGate_H_zero. reflexivity.
Qed.

Lemma plusOnly_wire0 :
  map br_state (wireBranches plusOnly [] "zero" 1 0) = [STATE_PLUS].
Proof.
  assert (E : map br_state (wireBranches plusOnly [] "zero" 1 0)
              = [applyGate STATE_ZERO (instanceOf GATE_H)]) by reflexivity.
  rewrite E, applyGate_H_zero. reflexivity.
Qed.

(** The representative of one branch, and of two with the second not more
    probable than the first. *)
Lemma representative_one mode l s :
  map br_state l = [s] -> representative mode l = s.
Proof.
  destruct l as [|a [|b l]]; simpl; intros H; inversion H. reflexivity.
Qed.

Lemma representative_two mode l s0 s1 p0 p1 :
  map br_state l = [s0; s1] -> map br_probability l = [p0; p1] -> p1 <= p0 ->
  representative mode l = s0.
Proof.
  destruct l as [|a [|b [|c l]]]; simpl; intros H1 H2 Hp; inversion H1; inversion H2; subst.
  unfold Rgtb. rewrite (proj2 (Rltb_false _ _) Hp). reflexivity.
Qed.

Lemma qubitStates_czOne : qubitStates czOne [] "zero" None = [STATE_MINUS; STATE_ONE].
Proof.
  assert (E : qubitStates czOne [] "zero" None
              = [representative "zero" (wireBranches czOne [] "zero" 1 0);
                 representative "zero" (wireBranches czOne [] "zero" 1 1)]) by reflexivity.
  rewrite E.
  rewrite (representative_one _ _ _ (proj1 czOne_wire0)).
  rewrite (representative_two _ _ _ _ _ _ (proj1 czOne_wire1) (proj2 czOne_wire1))
    by lra.
  reflexivity.
Qed.

Lemma qubitStates_csOne : qubitStates csOne [] "zero" None = [STATE_PLUS_I; STATE_ONE].
Proof.
  assert (E : qubitStates csOne [] "zero" None
              = [representative "zero" (wireBranches csOne [] "zero" 1 0);
                 representative "zero" (wireBranches csOne [] "zero" 1 1)]) by reflexivity.
  rewrite E.
  rewrite (representative_one _ _ _ (proj1 csOne_wire0)).
  rewrite (representative_two _ _ _ _ _ _ (proj1 csOne_wire1) (proj2 csOne_wire1))
    by lra.
  reflexivity.
Qed.

Lemma tensor_with_one a b :
  tensorProduct [(a, b); STATE_ONE] = [complex 0 0; a; complex 0 0; b].
Proof.
  unfold tensorProduct, STATE_ONE. cbn [fold_left flat_map map amps fst snd app].
  destruct a as [ar ai], b as [br bi]. unfold cMul; cbn [re im].
  f_equal; [apply C_eq; ring|]. f_equal; [apply C_eq; ring|].
  f_equal; [apply C_eq; ring|]. f_equal. apply C_eq; ring.
Qed.

(** C4.  On two wires with [H] on the control wire (so in [|+>]) and [X]
    on the target wire (so in [|1>]): a controlled-Z has eigenphase [PI],
    which puts on the control wire the phase gate of angles
    [(0, 0, PI)], and the states of the two wires multiply to
    [(|01> - |11>)/sqrt 2]; a controlled-S has eigenphase [PI/2] and the
    product is [(|01> + i|11>)/sqrt 2].  With the target wire left in
    [|0>], a controlled-Z has eigenphase [0], no gate is put on the control
    wire, and its state is [|+>], as in the circuit without the controlled
    gate. *)
Theorem C4_kickback_examples :
  (getKickbackPhaseForControlledGate
     (Some (controlledBy 0 (instanceOf GATE_Z))) (Some STATE_ONE) TOL = Some PI /\
   getKickbackGatesForControl czOne [] "zero" (buildColumnStateCache czOne [] "zero" 1) 1 0
   = [kickbackGate PI 1] /\
   decomposition (cell (kickbackGate PI 1)) = Some (mkDecomp 0 0 PI) /\
   qubitStates czOne [] "zero" None = [STATE_MINUS; STATE_ONE] /\
   tensorProduct (qubitStates czOne [] "zero" None)
   = [complex 0 0; complex SQRT2_INV 0; complex 0 0; complex (- SQRT2_INV) 0]) /\
  (getKickbackPhaseForControlledGate
     (Some (controlledBy 0 (instanceOf GATE_S))) (Some STATE_ONE) TOL = Some (PI / 2) /\
   getKickbackGatesForControl csOne [] "zero" (buildColumnStateCache csOne [] "zero" 1) 1 0
   = [kickbackGate (PI / 2) 1] /\
   decomposition (cell (kickbackGate (PI / 2) 1)) = Some (mkDecomp 0 0 (PI / 2)) /\
   qubitStates csOne [] "zero" None = [STATE_PLUS_I; STATE_ONE] /\
   tensorProduct (qubitStates csOne [] "zero" None)
   = [complex 0 0; complex SQRT2_INV 0; complex 0 0; complex 0 SQRT2_INV]) /\
  (getKickbackPhaseForControlledGate
     (Some (controlledBy 0 (instanceOf GATE_Z))) (Some STATE_ZERO) TOL = Some 0 /\
   getKickbackGatesForControl czZero [] "zero" (buildColumnStateCache czZero [] "zero" 1) 1 0
   = [] /\
   map br_state (wireBranches czZero [] "zero" 1 0) = [STATE_PLUS] /\
   map br_state (wireBranches plusOnly [] "zero" 1 0) = [STATE_PLUS]).
Proof.
  split; [|split].
  - split; [apply kickback_Z_one; reflexivity|].
    split; [apply czOne_kickback_gates|]. split; [reflexivity|].
    split; [apply qubitStates_czOne|].
    rewrite qubitStates_czOne. apply tensor_with_one.
  - split; [apply kickback_S_one; reflexivity|].
    split; [apply csOne_kickback_gates|]. split; [reflexivity|].
    split; [apply qubitStates_csOne|].
    rewrite qubitStates_csOne. apply tensor_with_one.
  - split; [apply kickback_Z_zero; reflexivity|].
    split; [apply czZero_kickback_gates|].
    split; [apply czZero_wire0|apply plusOnly_wire0].
Qed.

(** The detector at the controlled-Z with the target in [|1>]. *)
Lemma C3_kickback_phase_eigencheck_witness :
  getKickbackPhaseForControlledGate
    (Some (controlledBy 0 (instanceOf GATE_Z))) (Some STATE_ONE) TOL = Some PI /\
  - PI < PI <= PI.
Proof.
  assert (H : getKickbackPhaseForControlledGate
                (Some (controlledBy 0 (instanceOf GATE_Z))) (Some STATE_ONE) TOL = Some PI)
    by (apply kickback_Z_one; reflexivity).
  split; [exact H|].
  destruct (proj1 (C3_kickback_phase_eigencheck
                     (controlledBy 0 (instanceOf GATE_Z)) STATE_ONE) PI H)
    as (ref & _ & _ & _ & _ & Hrange & _).
  exact Hrange.
Defined.

(** ** An example with four controls on one wire *)

Lemma prob1_U23 : prob1 (getProbabilities (applyGate STATE_ZERO U23)) = 3 / 4.
Proof.
  change (applyGate STATE_ZERO U23)
    with (normalize (matVec (createU3Matrix (2 * PI / 3) 0 0) STATE_ZERO)).
  assert (Hs : sqrt 3 * sqrt 3 = 3) by (apply sqrt_sqrt; lra).
  assert (E : matVec (createU3Matrix (2 * PI / 3) 0 0) STATE_ZERO
              = (complex (1 / 2) 0, complex (sqrt 3 / 2) 0)).
  { unfold matVec, createU3Matrix, STATE_ZERO, m00, m01, m10, m11, cAdd, cMul, cScale,
      cFromPolar; simpl.
    replace (2 * PI / 3 / 2) with (PI / 3) by field.
    rewrite cos_PI3, sin_PI3, cos_0, sin_0.
    f_equal; apply C_eq; field. }
  rewrite E, normalize_unit.
  - unfold getProbabilities. cbn [prob1 snd]. rewrite cAbs_sq. cbn [re im]. nra.
  - unfold normSq. rewrite !cAbs_sq. cbn [fst snd re im]. nra.
Qed.

Lemma cap_effective :
  effectiveGates capCircuit [] "zero" (buildColumnStateCache capCircuit [] "zero" 1) 1 0
  = capGates.
Proof. reflexivity. Qed.

Lemma cap_controls : uniqueControlsOf capGates = capControls.
Proof. reflexivity. Qed.

Lemma cap_probs :
  controlProbsOf "zero" (buildColumnStateCache capCircuit [] "zero" 1) capGates = capProbs.
Proof.
  assert (E : controlProbsOf "zero" (buildColumnStateCache capCircuit [] "zero" 1) capGates
              = [prob1 (getProbabilities (applyGate STATE_ZERO U23));
                 prob1 (getProbabilities (applyGate STATE_ZERO U23));
                 prob1 (getProbabilities (applyGate STATE_ZERO U23));
                 prob1 (getProbabilities (applyGate STATE_ZERO U23))]).
  { reflexivity. }
  rewrite E, prob1_U23. reflexivity.
Qed.

Lemma cap_comboProb c :
  (c < 16)%nat -> comboProb capControls capProbs c = weight capProbs c.
Proof.
  intros H. apply comboProb_weight; [reflexivity|simpl; lia|simpl; lia].
Qed.

Lemma cap_accepted_true c :
  (c < 16)%nat -> 1 / 100 <= weight capProbs c -> accepted capControls capProbs c = true.
Proof.
  intros Hc H. unfold accepted. rewrite cap_comboProb by exact Hc.
  apply negb_true_iff, Rltb_false. exact H.
Qed.

Lemma cap_accepted_false c :
  (c < 16)%nat -> weight capProbs c < 1 / 100 -> accepted capControls capProbs c = false.
Proof.
  intros Hc H. unfold accepted. rewrite cap_comboProb by exact Hc.
  apply negb_false_iff, Rltb_true. exact H.
Qed.

Lemma cap_selected :
  firstn 10 (filter (accepted capControls capProbs) (seq 0 (2 ^ List.length capControls)))
  = [1; 2; 3; 4; 5; 6; 7; 8; 9; 10]%nat.
Proof.
  change (seq 0 (2 ^ Datatypes.length capControls))
    with [0; 1; 2; 3; 4; 5; 6; 7; 8; 9; 10; 11; 12; 13; 14; 15]%nat.
  cbn [filter].
  rewrite (cap_accepted_false 0) by (try lia; unfold capProbs; simpl; lra).
  rewrite !cap_accepted_true by (try lia; unfold capProbs; simpl; lra).
  reflexivity.
Qed.

Lemma cap_raw :
  rawBranches "zero" (buildColumnStateCache capCircuit [] "zero" 1) capGates
  = map (branchOf "zero" capGates capControls capProbs) [1; 2; 3; 4; 5; 6; 7; 8; 9; 10]%nat.
Proof.
  unfold rawBranches. rewrite enumerate_from_start, cap_controls, cap_probs, cap_selected.
  reflexivity.
Qed.

Lemma cap_raw_sum :
  sumProb (rawBranches "zero" (buildColumnStateCache capCircuit [] "zero" 1) capGates)
  = 84 / 256.
Proof.
  rewrite cap_raw. unfold sumProb. rewrite map_map.
  cbn [map Rsum fold_right]. rewrite !branchOf_probability.
  rewrite !cap_comboProb by lia. unfold capProbs. simpl. lra.
Qed.

(** The emitted list of wire 0: the raw branches merged and sorted. *)
Lemma cap_emitted :
  wireBranches capCircuit [] "zero" 1 0
  = jsSort probabilityAfter
      (mergeBranches
         (rawBranches "zero" (buildColumnStateCache capCircuit [] "zero" 1) capGates)).
Proof.
  destruct (wireBranches_cases capCircuit [] "zero" 1 0)
    as [[H _]|[(_ & H & _)|(_ & _ & H)]]; rewrite cap_effective in H.
  - discriminate H.
  - rewrite cap_raw in H. discriminate H.
  - exact H.
Qed.

Lemma cap_emitted_sum : sumProb (wireBranches capCircuit [] "zero" 1 0) = 84 / 256.
Proof.
  rewrite cap_emitted, (sumProb_perm _ _ (jsSort_perm probabilityAfter _)).
  rewrite mergeBranches_sum. apply cap_raw_sum.
Qed.

Lemma buildRotations_all d l :
  Forall (fun g => isBarrierOrControl (cell g) = false /\ decomposition (cell g) = Some d) l ->
  visible d = true ->
  buildRotations l = repeat d (List.length l).
Proof.
  intros H Hv. induction H as [|g l [H1 H2] _ IH]; [reflexivity|].
  rewrite (buildRotations_cons g l d H1 H2 Hv), IH. reflexivity.
Qed.

Lemma Forall_filter_keep {A} (P : A -> Prop) f l : Forall P l -> Forall P (filter f l).
Proof.
  intros H. apply Forall_forall. intros a Ha. apply filter_In in Ha.
  rewrite Forall_forall in H. apply H, Ha.
Qed.

Lemma Rabs_PI4 : Rabs (PI / 4) = PI / 4.
Proof. apply Rabs_right. pose proof PI_RGT_0. lra. Qed.

(** The history of a branch of the example: the angles of [T], once for
    every gate that is active. *)
Lemma cap_rotations c :
  rotations (branchOf "zero" capGates capControls capProbs c)
  = repeat (mkDecomp 0 0 (PI / 4))
           (List.length (activeGatesOf capGates (fst (comboAssign capControls capProbs c)))).
Proof.
  unfold branchOf. destruct (comboAssign capControls capProbs c) as [ca p].
  cbn [rotations fst]. apply buildRotations_all.
  - apply Forall_filter_keep. repeat constructor.
  - apply visible_lambda. cbn [lambda]. rewrite Rabs_PI4. pose proof PI2_1. lra.
Qed.

Lemma cap_rotations_15 :
  rotations (branchOf "zero" capGates capControls capProbs 15)
  = repeat (mkDecomp 0 0 (PI / 4)) 4.
Proof. rewrite cap_rotations. reflexivity. Qed.

Lemma cap_rotations_selected c :
  In c [1; 2; 3; 4; 5; 6; 7; 8; 9; 10]%nat ->
  exists m, (m <= 3)%nat /\
    rotations (branchOf "zero" capGates capControls capProbs c)
    = repeat (mkDecomp 0 0 (PI / 4)) m.
Proof.
  intros Hc. rewrite cap_rotations.
  exists (List.length (activeGatesOf capGates (fst (comboAssign capControls capProbs c)))).
  split; [|reflexivity].
  simpl in Hc.
  repeat (destruct Hc as [<-|Hc]; [apply Nat.leb_le; reflexivity|]).
  contradiction.
Qed.

Lemma Rsum_lambda_repeat l m :
  Rsum (map lambda (repeat (mkDecomp 0 0 l) m)) = INR m * l.
Proof.
  induction m as [|m IH]; [simpl; ring|].
  cbn [repeat map Rsum fold_right lambda]. fold (Rsum (map lambda (repeat (mkDecomp 0 0 l) m))).
  rewrite IH, S_INR. ring.
Qed.

(** No emitted branch of the example coincides with the branch of the
    combination 15. *)
Lemma cap_15_absent e :
  In e (wireBranches capCircuit [] "zero" 1 0) ->
  sameBranch e (branchOf "zero" capGates capControls capProbs 15) = false.
Proof.
  intros He. rewrite cap_emitted in He.
  apply (Permutation_in _ (jsSort_perm probabilityAfter _)) in He.
  set (raw := rawBranches "zero" (buildColumnStateCache capCircuit [] "zero" 1) capGates) in *.
  assert (Hpos : Forall (fun b => 0 <= br_probability b) raw).
  { pose proof (raw_nonneg capCircuit [] "zero" 1 0) as H.
    rewrite cap_effective in H. exact H. }
  destruct (mergeBranches_inv raw Hpos) as (_ & Hkey & _).
  destruct (Hkey e He) as (b & Hb & Hk).
  unfold raw in Hb. rewrite cap_raw in Hb. apply in_map_iff in Hb.
  destruct Hb as (c & <- & Hc).
  destruct (cap_rotations_selected c Hc) as (m & Hm & Hr).
  apply sameBranch_lambda_far.
  assert (Hre : rotations e = repeat (mkDecomp 0 0 (PI / 4)) m).
  { unfold branchKey in Hk. inversion Hk. congruence. }
  rewrite Hre, cap_rotations_15, !Rsum_lambda_repeat.
  pose proof PI2_1 as Hpi.
  assert (H0 : 0 <= INR m) by apply pos_INR.
  assert (H3 : INR m <= 3).
  { replace 3 with (INR 3) by (simpl; lra). apply le_INR. exact Hm. }
  replace (INR 4) with 4 by (simpl; lra).
  rewrite !normalizeAngle_id by nra.
  rewrite Rabs_left1 by nra. nra.
Qed.

Lemma cap_probabilities :
  comboProb capControls capProbs 15 = 81 / 256 /\
  comboProb capControls capProbs 1 = 3 / 256 /\
  (forall c, (c < 15)%nat -> comboProb capControls capProbs c <= 27 / 256).
Proof.
  split; [|split].
  - rewrite cap_comboProb by lia. unfold capProbs. simpl. lra.
  - rewrite cap_comboProb by lia. unfold capProbs. simpl. lra.
  - intros c Hc. rewrite cap_comboProb by lia.
    do 15 (destruct c as [|c]; [unfold capProbs; simpl; lra|]). lia.
Qed.

(** ** The cap on the number of branches *)

Lemma uniqueControlsOf_spec gates :
  NoDup (uniqueControlsOf gates) /\
  (forall c, In c (uniqueControlsOf gates) <->
             exists g, In g gates /\ isControlled g = true /\
                       controlIndex (cell g) = Some c).
Proof.
  unfold uniqueControlsOf, controlledGatesOf.
  destruct (dedup_spec (map controlOf (filter isControlled gates))) as [H1 H2].
  split; [exact H1|]. intros c. rewrite H2, in_map_iff. split.
  - intros (g & Hc & Hg). apply filter_In in Hg. destruct Hg as [Hg Hctl].
    exists g. split; [exact Hg|]. split; [exact Hctl|].
    unfold isControlled in Hctl. unfold controlOf in Hc.
    destruct (controlIndex (cell g)); [congruence|discriminate].
  - intros (g & Hg & Hctl & Hc). exists g. split.
    + unfold controlOf. rewrite Hc. reflexivity.
    + apply filter_In. split; assumption.
Qed.

(** C1, as the code has it.  For the wire [qi] at [frame], with [uc] the
    distinct controlling wires of its effective gates: the raw branches
    are the branches of the first ten combinations, in increasing order,
    whose probability is at least [0.01]; there are at most [2^|uc|] of
    them (at most 8 for three controls) and at most ten, so the cut to ten
    after the sort removes nothing; the emitted list has at most ten
    branches, by descending probability. *)
Theorem C1_cap_in_enumeration_order
    (circuits : Circuits) (barriers : list nat) (mode : string) (frame qi : nat) :
  let cache := buildColumnStateCache circuits barriers mode frame in
  let gates := effectiveGates circuits barriers mode cache frame qi in
  let uc := uniqueControlsOf gates in
  let cp := controlProbsOf mode cache gates in
  let raw := rawBranches mode cache gates in
  (NoDup uc /\
   (forall c, In c uc <->
              exists g, In g gates /\ isControlled g = true /\
                        controlIndex (cell g) = Some c)) /\
  ((List.length raw <= 2 ^ List.length uc)%nat /\
   (List.length uc = 3%nat -> (List.length raw <= 8)%nat)) /\
  raw = map (branchOf mode gates uc cp)
            (firstn 10 (filter (accepted uc cp) (seq 0 (2 ^ List.length uc)))) /\
  (List.length raw <= 10)%nat /\
  firstn 10 (jsSort probabilityAfter (mergeBranches raw))
  = jsSort probabilityAfter (mergeBranches raw) /\
  StronglySorted (fun a b => br_probability b <= br_probability a)
                 (wireBranches circuits barriers mode frame qi) /\
  (List.length (wireBranches circuits barriers mode frame qi) <= 10)%nat.
Proof.
  cbv zeta.
  destruct (raw_length circuits barriers mode frame qi) as [H10 Hpow].
  split; [apply uniqueControlsOf_spec|].
  split; [split; [exact Hpow|intros H3; rewrite H3 in Hpow; exact Hpow]|].
  split; [apply raw_spec|].
  split; [exact H10|].
  split; [apply truncation_idle|].
  apply wireBranches_sorted.
Qed.

(** C1 fails on the example with four controls of probability [3/4]: the
    raw branches are those of the combinations 1 to 10; the combination
    15 passes the threshold with probability [81/256] and has no branch,
    while the combination 1, of probability [3/256], has one; the emitted
    probabilities add up to [84/256]. *)
Lemma C1_cap_counterexample :
  effectiveGates capCircuit [] "zero" (buildColumnStateCache capCircuit [] "zero" 1) 1 0
  = capGates /\
  uniqueControlsOf capGates = capControls /\
  controlProbsOf "zero" (buildColumnStateCache capCircuit [] "zero" 1) capGates = capProbs /\
  rawBranches "zero" (buildColumnStateCache capCircuit [] "zero" 1) capGates
  = map (branchOf "zero" capGates capControls capProbs) [1; 2; 3; 4; 5; 6; 7; 8; 9; 10]%nat /\
  accepted capControls capProbs 15 = true /\
  comboProb capControls capProbs 15 = 81 / 256 /\
  comboProb capControls capProbs 1 = 3 / 256 /\
  sumProb (wireBranches capCircuit [] "zero" 1 0) = 84 / 256.
Proof.
  destruct cap_probabilities as (H15 & H1 & _).
  split; [apply cap_effective|]. split; [apply cap_controls|].
  split; [apply cap_probs|]. split; [apply cap_raw|].
  split; [|split; [exact H15|split; [exact H1|apply cap_emitted_sum]]].
  unfold accepted. rewrite H15. apply negb_true_iff, Rltb_false. lra.
Qed.

(** C2, as the code has it.  For a wire with at most 31 distinct controls
    the emitted probabilities add up to at most one; on a wire with
    controls, every combination among the first ten of probability at
    least [0.01] has its branch in the emitted list, alone or merged into
    a branch that coincides with it; and with at most three controls this
    holds for a combination of largest probability. *)
Theorem C2_probability_mass
    (circuits : Circuits) (barriers : list nat) (mode : string) (frame qi : nat) :
  let cache := buildColumnStateCache circuits barriers mode frame in
  let gates := effectiveGates circuits barriers mode cache frame qi in
  let uc := uniqueControlsOf gates in
  let cp := controlProbsOf mode cache gates in
  let emitted := wireBranches circuits barriers mode frame qi in
  (List.length uc <= 31)%nat ->
  sumProb emitted <= 1 /\
  (truthy (find isControlled gates) = true ->
   forall c,
     In c (firstn 10 (filter (accepted uc cp) (seq 0 (2 ^ List.length uc)))) ->
     exists e, In e emitted /\
               sameBranch e (branchOf mode gates uc cp c) = true /\
               comboProb uc cp c <= br_probability e) /\
  (truthy (find isControlled gates) = true ->
   (List.length uc <= 3)%nat ->
   forall c,
     (c < 2 ^ List.length uc)%nat ->
     (forall c', (c' < 2 ^ List.length uc)%nat -> comboProb uc cp c' <= comboProb uc cp c) ->
     exists e, In e emitted /\
               sameBranch e (branchOf mode gates uc cp c) = true /\
               comboProb uc cp c <= br_probability e).
Proof.
  cbv zeta. intros Hk.
  split; [apply wireBranches_sum_le_1; exact Hk|].
  split.
  - intros Hctl c Hc. apply selected_represented; assumption.
  - intros Hctl H3 c Hc Hmax. apply selected_represented; [exact Hctl|].
    apply largest_selected; assumption.
Qed.

(** The theorem on the example with four controls. *)
Lemma C2_probability_mass_witness :
  (List.length
     (uniqueControlsOf
        (effectiveGates capCircuit [] "zero"
           (buildColumnStateCache capCircuit [] "zero" 1) 1 0)) <= 31)%nat /\
  sumProb (wireBranches capCircuit [] "zero" 1 0) <= 1.
Proof.
  assert (H : (List.length
                 (uniqueControlsOf
                    (effectiveGates capCircuit [] "zero"
                       (buildColumnStateCache capCircuit [] "zero" 1) 1 0)) <= 31)%nat).
  { rewrite cap_effective. simpl. lia. }
  split; [exact H|].
  exact (proj1 (C2_probability_mass capCircuit [] "zero" 1 0 H)).
Defined.

(** C2 fails on the example with four controls of probability [3/4]: the
    combination 15 has the largest probability, [81/256], every other one
    at most [27/256]; no emitted branch coincides with its branch, and the
    emitted probabilities add up to [84/256]. *)
Lemma C2_largest_counterexample :
  comboProb capControls capProbs 15 = 81 / 256 /\
  (forall c, (c < 15)%nat -> comboProb capControls capProbs c <= 27 / 256) /\
  (forall e, In e (wireBranches capCircuit [] "zero" 1 0) ->
             sameBranch e (branchOf "zero" capGates capControls capProbs 15) = false) /\
  Forall (fun e => branchOf "zero" capGates capControls capProbs 15 <> e)
         (wireBranches capCircuit [] "zero" 1 0) /\
  sumProb (wireBranches capCircuit [] "zero" 1 0) < 1.
Proof.
  destruct cap_probabilities as (H15 & _ & Hothers).
  split; [exact H15|]. split; [exact Hothers|].
  split; [exact cap_15_absent|]. split.
  - apply Forall_forall. intros e He Heq. subst e.
    pose proof (cap_15_absent _ He) as H. rewrite sameBranch_refl in H. discriminate H.
  - rewrite cap_emitted_sum. lra.
Qed.

(** ** Modulus, conjugate and division of complex numbers *)

Lemma cAbs_cMul a b : cAbs (cMul a b) = cAbs a * cAbs b.
Proof.
  unfold cAbs, cMul; simpl.
  rewrite <- sqrt_mult by nra. f_equal. ring.
Qed.

Lemma cAbs_cConj a : cAbs (cConj a) = cAbs a.
Proof. unfold cAbs, cConj; simpl. f_equal. ring. Qed.

(** The modulus is multiplicative, the conjugate keeps it, and a number
    times its conjugate is its squared modulus. *)
Theorem cAbs_laws (a b : C) :
  cAbs (cMul a b) = cAbs a * cAbs b /\
  cAbs (cConj a) = cAbs a /\
  cMul a (cConj a) = complex (cAbs a ^ 2) 0.
Proof.
  split; [apply cAbs_cMul|]. split; [apply cAbs_cConj|].
  rewrite cAbs_sq. unfold cMul, cConj; simpl. apply C_eq; ring.
Qed.

(** [complexDiv] undoes [cMul] as soon as the squared modulus of the
    divisor reaches the guard [1e-12]; below the guard it returns zero,
    whatever the dividend. *)
Theorem complexDiv_spec (a b : C) :
  (1 / 1000000000000 <= re b * re b + im b * im b ->
   cMul (complexDiv a b) b = a /\ complexDiv (cMul a b) b = a) /\
  (re b * re b + im b * im b < 1 / 1000000000000 ->
   complexDiv a b = complex 0 0).
Proof.
  unfold complexDiv. split; intros H.
  - rewrite !(proj2 (Rltb_false _ _)) by exact H.
    destruct a as [ar ai], b as [br bi]; unfold cMul; simpl in *.
    split; apply C_eq; field; lra.
  - rewrite (proj2 (Rltb_true _ _)) by exact H. reflexivity.
Qed.

(** ** Polar form *)

Lemma sqrt_ratio x y : 0 < x -> sqrt (x * x + y * y) = x * sqrt (1 + (y / x)²).
Proof.
  intros Hx.
  replace (x * x + y * y) with ((x * x) * (1 + (y / x)²))
    by (unfold Rsqr; field; lra).
  pose proof (Rle_0_sqr (y / x)) as Hq.
  rewrite sqrt_mult by nra. rewrite sqrt_square by lra. reflexivity.
Qed.

Lemma sqrt_ratio_neg x y : x < 0 -> sqrt (x * x + y * y) = - x * sqrt (1 + (y / x)²).
Proof.
  intros Hx.
  replace (x * x + y * y) with ((- x) * (- x) + (- y) * (- y)) by ring.
  rewrite sqrt_ratio by lra.
  replace (- y / - x) with (y / x) by (field; lra). reflexivity.
Qed.

Lemma cFromPolar_cAbs_cPhase a : cFromPolar (cAbs a) (cPhase a) = a.
Proof.
  destruct a as [x y]. unfold cFromPolar, cPhase, cAbs, atan2; simpl.
  assert (Hs : 0 < sqrt (1 + (y / x)²)).
  { apply sqrt_lt_R0. pose proof (Rle_0_sqr (y / x)). lra. }
  destruct (Rlt_dec 0 x) as [Hx|Hx].
  - rewrite cos_atan, sin_atan, (sqrt_ratio x y Hx).
    apply C_eq; field; lra.
  - destruct (Rlt_dec x 0) as [Hx'|Hx'].
    + rewrite (sqrt_ratio_neg x y Hx').
      destruct (Rle_dec 0 y).
      * rewrite neg_cos, neg_sin, cos_atan, sin_atan. apply C_eq; field; lra.
      * unfold Rminus. rewrite cos_plus, sin_plus, cos_neg, sin_neg, cos_PI, sin_PI,
          cos_atan, sin_atan.
        apply C_eq; field; lra.
    + assert (x = 0) by lra. subst x.
      replace (0 * 0 + y * y) with (y²) by (unfold Rsqr; ring).
      rewrite sqrt_Rsqr_abs.
      destruct (Rlt_dec 0 y) as [Hy|Hy].
      * rewrite cos_PI2, sin_PI2, Rabs_right by lra. apply C_eq; ring.
      * destruct (Rlt_dec y 0) as [Hy'|Hy'].
        -- rewrite cos_neg, sin_neg, cos_PI2, sin_PI2, Rabs_left by lra.
           apply C_eq; ring.
        -- assert (y = 0) by lra. subst y.
           rewrite Rabs_R0, cos_0, sin_0. apply C_eq; ring.
Qed.

(** Every complex number is rebuilt from its modulus and its phase. *)
Theorem polar_form (a : C) : cFromPolar (cAbs a) (cPhase a) = a.
Proof. apply cFromPolar_cAbs_cPhase. Qed.

Lemma tan_ratio r t : 0 < r -> cos t <> 0 -> r * sin t / (r * cos t) = tan t.
Proof. intros Hr Hc. unfold tan. field. split; [exact Hc|lra]. Qed.

Lemma cPhase_of_polar r t :
  0 < r -> - PI < t <= PI -> cPhase (cFromPolar r t) = t.
Proof.
  intros Hr [H1 H2]. pose proof PI_RGT_0 as Hpi.
  unfold cPhase, cFromPolar; simpl.
  destruct (Rtotal_order t (PI / 2)) as [Hlt|[Heq|Hgt]].
  - destruct (Rtotal_order t (- (PI / 2))) as [Hlt'|[Heq'|Hgt']].
    + assert (Hc : cos t < 0) by (rewrite <- cos_neg; apply cos_lt_0; lra).
      assert (Hsn : sin t < 0) by (apply sin_lt_0_var; lra).
      unfold atan2.
      destruct (Rlt_dec 0 (r * cos t)); [nra|].
      destruct (Rlt_dec (r * cos t) 0); [|nra].
      destruct (Rle_dec 0 (r * sin t)); [nra|].
      rewrite tan_ratio by lra.
      replace (tan t) with (tan (t + PI)).
      * rewrite atan_tan by lra. ring.
      * rewrite Rplus_comm. apply Rtrigo_facts.tan_pi_plus. lra.
    + subst t. rewrite cos_neg, sin_neg, cos_PI2, sin_PI2.
      replace (r * 0) with 0 by ring. apply atan2_neg_zero. lra.
    + assert (Hc : 0 < cos t) by (apply cos_gt_0; lra).
      rewrite atan2_pos_re by nra.
      rewrite tan_ratio by lra. apply atan_tan. lra.
  - subst t. rewrite cos_PI2, sin_PI2.
    replace (r * 0) with 0 by ring. apply atan2_pos_zero. lra.
  - assert (Hc : cos t < 0) by (apply cos_lt_0; lra).
    assert (Hsn : 0 <= sin t) by (apply sin_ge_0; lra).
    unfold atan2.
    destruct (Rlt_dec 0 (r * cos t)); [nra|].
    destruct (Rlt_dec (r * cos t) 0); [|nra].
    destruct (Rle_dec 0 (r * sin t)); [|nra].
    rewrite tan_ratio by lra.
    replace (tan t) with (tan (t - PI)).
    + rewrite atan_tan by lra. ring.
    + unfold tan. replace (t - PI) with (t + - PI) by ring.
      rewrite sin_plus, cos_plus, cos_neg, sin_neg, cos_PI, sin_PI. field. lra.
Qed.

(** The phase of a number given in polar form, with a positive modulus
    and an angle of [(-PI, PI]], is that angle. *)
Theorem cPhase_cFromPolar (r t : R) :
  0 < r -> - PI < t <= PI -> cPhase (cFromPolar r t) = t.
Proof. apply cPhase_of_polar. Qed.

Lemma cPhase_cFromPolar_witness :
  (0 < 1 /\ - PI < PI / 2 <= PI) /\ cPhase (cFromPolar 1 (PI / 2)) = PI / 2.
Proof.
  assert (H : 0 < 1 /\ - PI < PI / 2 <= PI) by (pose proof PI_RGT_0; lra).
  split; [exact H|].
  exact (cPhase_cFromPolar 1 (PI / 2) (proj1 H) (proj2 H)).
Defined.

(** ** Angles modulo a turn *)




Lemma cFromPolar_subTurns r fuel : forall a,
  cFromPolar r (subTurns fuel a) = cFromPolar r a.
Proof.
  induction fuel as [|f IH]; intros a; simpl; [reflexivity|].
  destruct (Rltb PI a); [|reflexivity].
  rewrite IH. unfold cFromPolar.
  replace (a - 2 * PI) with (a + - (2 * PI)) by ring.
  rewrite cos_plus, sin_plus, cos_neg, sin_neg, cos_2PI, sin_2PI.
  apply C_eq; ring.
Qed.

Lemma cFromPolar_addTurns r fuel : forall a,
  cFromPolar r (addTurns fuel a) = cFromPolar r a.
Proof.
  induction fuel as [|f IH]; intros a; simpl; [reflexivity|].
  destruct (Rltb a (- PI)); [|reflexivity].
  rewrite IH. unfold cFromPolar.
  rewrite cos_plus, sin_plus, cos_2PI, sin_2PI.
  apply C_eq; ring.
Qed.

Lemma cFromPolar_normalizeAngle r a :
  cFromPolar r (normalizeAngle a) = cFromPolar r a.
Proof.
  unfold normalizeAngle. rewrite cFromPolar_addTurns. apply cFromPolar_subTurns.
Qed.

Lemma cPhase_polar_any r a :
  0 < r ->
  (- PI < normalizeAngle a -> cPhase (cFromPolar r a) = normalizeAngle a) /\
  (normalizeAngle a = - PI -> cPhase (cFromPolar r a) = PI) /\
  Rabs (cPhase (cFromPolar r a)) = Rabs (normalizeAngle a).
Proof.
  intros Hr. pose proof PI_RGT_0 as Hpi.
  pose proof (normalizeAngle_range a) as [Hlo Hhi].
  rewrite <- (cFromPolar_normalizeAngle r a).
  assert (H1 : - PI < normalizeAngle a ->
               cPhase (cFromPolar r (normalizeAngle a)) = normalizeAngle a).
  { intros H. apply cPhase_of_polar; [exact Hr|lra]. }
  assert (H2 : normalizeAngle a = - PI ->
               cPhase (cFromPolar r (normalizeAngle a)) = PI).
  { intros H. rewrite H. unfold cPhase, cFromPolar; simpl.
    rewrite cos_neg, sin_neg, cos_PI, sin_PI.
    replace (r * - 0) with 0 by ring. apply atan2_zero_neg. lra. }
  split; [exact H1|]. split; [exact H2|].
  destruct (Req_dec_T (normalizeAngle a) (- PI)) as [E|E].
  - rewrite (H2 E), E, Rabs_Ropp. reflexivity.
  - rewrite H1 by lra. reflexivity.
Qed.

(** For an arbitrary angle, the phase of the polar form is the angle
    normalised by [normalizeAngle]; the one exception is the lower end
    [-PI] of the range of [normalizeAngle], where the phase is [PI]. *)
Theorem cPhase_normalizeAngle (r a : R) :
  0 < r ->
  (- PI < normalizeAngle a -> cPhase (cFromPolar r a) = normalizeAngle a) /\
  (normalizeAngle a = - PI -> cPhase (cFromPolar r a) = PI) /\
  Rabs (cPhase (cFromPolar r a)) = Rabs (normalizeAngle a).
Proof. apply cPhase_polar_any. Qed.

Lemma cPhase_normalizeAngle_witness :
  0 < 1 /\
  ((- PI < normalizeAngle (3 * PI) ->
    cPhase (cFromPolar 1 (3 * PI)) = normalizeAngle (3 * PI)) /\
   (normalizeAngle (3 * PI) = - PI -> cPhase (cFromPolar 1 (3 * PI)) = PI) /\
   Rabs (cPhase (cFromPolar 1 (3 * PI))) = Rabs (normalizeAngle (3 * PI))).
Proof.
  split; [lra|]. apply (cPhase_normalizeAngle 1 (3 * PI)). lra.
Defined.
(** ** Normalisation keeps the phases *)

Lemma atan2_scale y x k : 0 < k -> atan2 (y / k) (x / k) = atan2 y x.
Proof.
  intros Hk. assert (Hi : 0 < / k) by (apply Rinv_0_lt_compat; exact Hk).
  unfold atan2, Rdiv.
  destruct (Rlt_dec 0 x) as [Hx|Hx].
  - destruct (Rlt_dec 0 (x * / k)); [|nra]. f_equal. field. lra.
  - destruct (Rlt_dec 0 (x * / k)); [nra|].
    destruct (Rlt_dec x 0) as [Hx'|Hx'].
    + destruct (Rlt_dec (x * / k) 0); [|nra].
      replace (y * / k * / (x * / k)) with (y * / x) by (field; lra).
      destruct (Rle_dec 0 y); destruct (Rle_dec 0 (y * / k)); try reflexivity; nra.
    + destruct (Rlt_dec (x * / k) 0); [nra|].
      destruct (Rlt_dec 0 y); destruct (Rlt_dec 0 (y * / k)); try reflexivity; try nra.
      destruct (Rlt_dec y 0); destruct (Rlt_dec (y * / k) 0); try reflexivity; nra.
Qed.

Lemma normSq_zero s : normSq s = 0 -> s = (complex 0 0, complex 0 0).
Proof.
  unfold normSq. rewrite !cAbs_sq. destruct s as [[a b] [c d]]; simpl. intros H.
  assert (a = 0) by nra. assert (b = 0) by nra.
  assert (c = 0) by nra. assert (d = 0) by nra. subst. reflexivity.
Qed.

(** [normalize] is idempotent, returns a state of norm one unchanged, and
    never changes the phase of an amplitude (for the zero vector, whose
    amplitudes have phase [0], it returns [[1, 0]], of phases [0]). *)
Theorem normalize_spec (s : State) :
  normalize (normalize s) = normalize s /\
  (normSq s = 1 -> normalize s = s) /\
  cPhase (fst (normalize s)) = cPhase (fst s) /\
  cPhase (snd (normalize s)) = cPhase (snd s).
Proof.
  split; [apply normalize_unit, normalize_normSq|].
  split; [apply normalize_unit|].
  destruct (Req_dec_T (normSq s) 0) as [H|H].
  - rewrite (normalize_zero _ H), (normSq_zero _ H). unfold cPhase; simpl.
    rewrite atan2_origin, atan2_zero_pos by lra. split; reflexivity.
  - rewrite (normalize_nonzero _ H).
    assert (Hs : 0 < sqrt (normSq s)).
    { apply sqrt_lt_R0. pose proof (normSq_nonneg s). lra. }
    unfold cPhase; simpl. split; apply atan2_scale; exact Hs.
Qed.

(** ** The Bloch vector *)

Lemma polar_re a : re a = cAbs a * cos (cPhase a).
Proof.
  pose proof (cFromPolar_cAbs_cPhase a) as P. apply (f_equal re) in P. simpl in P.
  symmetry. exact P.
Qed.

Lemma polar_im a : im a = cAbs a * sin (cPhase a).
Proof.
  pose proof (cFromPolar_cAbs_cPhase a) as P. apply (f_equal im) in P. simpl in P.
  symmetry. exact P.
Qed.

Lemma acos_quadrant u : 0 <= u <= 1 -> 0 <= acos u <= PI / 2.
Proof.
  intros Hu. pose proof (acos_bound u) as [H0 H1]. split; [exact H0|].
  destruct (Rle_dec (acos u) (PI / 2)) as [H|H]; [exact H|].
  assert (Hc : cos (acos u) < 0) by (apply cos_lt_0; lra).
  rewrite cos_acos in Hc by lra. lra.
Qed.

Lemma clamp_unit p : 0 <= sqrt (Rmax 0 (Rmin 1 p)) <= 1.
Proof.
  assert (H : 0 <= Rmax 0 (Rmin 1 p) <= 1).
  { split; [apply Rmax_l|]. apply Rmax_lub; [lra|apply Rmin_l]. }
  split; [apply sqrt_pos|].
  apply Rle_trans with (sqrt 1); [apply sqrt_le_1_alt, H|rewrite sqrt_1; lra].
Qed.

(** Whatever the state, the coordinates [stateToBlochCoords] computes
    are those of a point of the unit sphere, with a polar angle in
    [[0, PI]]. *)
Theorem bloch_unit_sphere (s : State) :
  x (stateToBlochCoords s) ^ 2 + y (stateToBlochCoords s) ^ 2
  + z (stateToBlochCoords s) ^ 2 = 1 /\
  0 <= bloch_theta (stateToBlochCoords s) <= PI.
Proof.
  unfold stateToBlochCoords; cbn [x y z bloch_theta].
  set (t := 2 * acos (sqrt (Rmax 0 (Rmin 1 (cAbs (fst s) ^ 2))))).
  set (p := cPhase (snd s) - cPhase (fst s)).
  split.
  - pose proof (sin2_cos2 t) as H1. pose proof (sin2_cos2 p) as H2.
    unfold Rsqr in H1, H2. nra.
  - pose proof (acos_quadrant _ (clamp_unit (cAbs (fst s) ^ 2))) as H.
    unfold t. lra.
Qed.

Lemma bloch_xyz s :
  normSq s = 1 ->
  x (stateToBlochCoords s) = 2 * (re (fst s) * re (snd s) + im (fst s) * im (snd s)) /\
  y (stateToBlochCoords s) = 2 * (re (fst s) * im (snd s) - im (fst s) * re (snd s)) /\
  z (stateToBlochCoords s) = cAbs (fst s) ^ 2 - cAbs (snd s) ^ 2.
Proof.
  intros H. unfold normSq in H.
  pose proof (cAbs_nonneg (fst s)) as Ha. pose proof (cAbs_nonneg (snd s)) as Hb.
  set (a := cAbs (fst s)) in *. set (b := cAbs (snd s)) in *.
  assert (Ha1 : a <= 1) by nra.
  unfold stateToBlochCoords; cbn [x y z]. fold a.
  rewrite Rmin_right by nra. rewrite Rmax_right by nra.
  rewrite sqrt_pow2 by exact Ha.
  rewrite sin_2a, cos_2a_cos, cos_acos, sin_acos by lra.
  replace (1 - a²) with (b²) by (unfold Rsqr; lra).
  rewrite sqrt_Rsqr by exact Hb.
  rewrite cos_minus, sin_minus.
  rewrite (polar_re (fst s)), (polar_im (fst s)), (polar_re (snd s)), (polar_im (snd s)).
  fold a b.
  split; [ring|]. split; [ring|]. nra.
Qed.

(** For a normalised state [[alpha, beta]] the coordinates are the Bloch
    vector [(2 Re(conj(alpha) beta), 2 Im(conj(alpha) beta),
    |alpha|^2 - |beta|^2)]. *)
Theorem bloch_vector (s : State) :
  normSq s = 1 ->
  x (stateToBlochCoords s) = 2 * (re (fst s) * re (snd s) + im (fst s) * im (snd s)) /\
  y (stateToBlochCoords s) = 2 * (re (fst s) * im (snd s) - im (fst s) * re (snd s)) /\
  z (stateToBlochCoords s) = cAbs (fst s) ^ 2 - cAbs (snd s) ^ 2.
Proof. apply bloch_xyz. Qed.

Lemma bloch_vector_witness :
  normSq STATE_PLUS = 1 /\
  x (stateToBlochCoords STATE_PLUS)
  = 2 * (re (fst STATE_PLUS) * re (snd STATE_PLUS) + im (fst STATE_PLUS) * im (snd STATE_PLUS)) /\
  y (stateToBlochCoords STATE_PLUS)
  = 2 * (re (fst STATE_PLUS) * im (snd STATE_PLUS) - im (fst STATE_PLUS) * re (snd STATE_PLUS)) /\
  z (stateToBlochCoords STATE_PLUS) = cAbs (fst STATE_PLUS) ^ 2 - cAbs (snd STATE_PLUS) ^ 2.
Proof.
  assert (H : normSq STATE_PLUS = 1) by exact (initial_normalized "plus").
  split; [exact H|]. exact (bloch_vector STATE_PLUS H).
Defined.

Lemma coordsEqual_same c1 c2 :
  x c1 = x c2 -> y c1 = y c2 -> z c1 = z c2 -> coordsEqual c1 c2 = true.
Proof.
  intros Hx Hy Hz. unfold coordsEqual. rewrite Hx, Hy, Hz.
  replace (x c2 - x c2) with 0 by ring.
  replace (y c2 - y c2) with 0 by ring.
  replace (z c2 - z c2) with 0 by ring.
  rewrite Rabs_R0, (proj2 (Rltb_true 0 (1 / 100))) by lra. reflexivity.
Qed.

(** A global phase does not move the point: multiplying both amplitudes
    of a normalised state by a number of modulus one leaves [x], [y] and
    [z] unchanged, so the two states have equal coordinates for the merge
    of the branches. *)
Theorem bloch_global_phase (s : State) (u : C) :
  normSq s = 1 -> cAbs u = 1 ->
  x (stateToBlochCoords (cMul u (fst s), cMul u (snd s))) = x (stateToBlochCoords s) /\
  y (stateToBlochCoords (cMul u (fst s), cMul u (snd s))) = y (stateToBlochCoords s) /\
  z (stateToBlochCoords (cMul u (fst s), cMul u (snd s))) = z (stateToBlochCoords s) /\
  coordsEqual (stateToBlochCoords (cMul u (fst s), cMul u (snd s)))
              (stateToBlochCoords s) = true.
Proof.
  intros Hs Hu.
  assert (Hs' : normSq (cMul u (fst s), cMul u (snd s)) = 1).
  { unfold normSq in *; simpl. rewrite !cAbs_cMul, Hu. lra. }
  destruct (bloch_xyz _ Hs) as (X & Y & Z).
  destruct (bloch_xyz _ Hs') as (X' & Y' & Z').
  assert (Hq : re u * re u + im u * im u = 1).
  { rewrite <- cAbs_sq, Hu. ring. }
  assert (Ex : x (stateToBlochCoords (cMul u (fst s), cMul u (snd s)))
               = x (stateToBlochCoords s)).
  { rewrite X', X. cbn [fst snd]. unfold cMul; simpl.
    transitivity ((re u * re u + im u * im u)
                  * (2 * (re (fst s) * re (snd s) + im (fst s) * im (snd s)))); [ring|].
    rewrite Hq. ring. }
  assert (Ey : y (stateToBlochCoords (cMul u (fst s), cMul u (snd s)))
               = y (stateToBlochCoords s)).
  { rewrite Y', Y. cbn [fst snd]. unfold cMul; simpl.
    transitivity ((re u * re u + im u * im u)
                  * (2 * (re (fst s) * im (snd s) - im (fst s) * re (snd s)))); [ring|].
    rewrite Hq. ring. }
  assert (Ez : z (stateToBlochCoords (cMul u (fst s), cMul u (snd s)))
               = z (stateToBlochCoords s)).
  { rewrite Z', Z. cbn [fst snd]. rewrite !cAbs_cMul, Hu. ring. }
  split; [exact Ex|]. split; [exact Ey|]. split; [exact Ez|].
  apply coordsEqual_same; assumption.
Qed.

Lemma bloch_global_phase_witness :
  (normSq STATE_ONE = 1 /\ cAbs (complex 0 1) = 1) /\
  x (stateToBlochCoords (cMul (complex 0 1) (fst STATE_ONE), cMul (complex 0 1) (snd STATE_ONE)))
  = x (stateToBlochCoords STATE_ONE) /\
  y (stateToBlochCoords (cMul (complex 0 1) (fst STATE_ONE), cMul (complex 0 1) (snd STATE_ONE)))
  = y (stateToBlochCoords STATE_ONE) /\
  z (stateToBlochCoords (cMul (complex 0 1) (fst STATE_ONE), cMul (complex 0 1) (snd STATE_ONE)))
  = z (stateToBlochCoords STATE_ONE) /\
  coordsEqual
    (stateToBlochCoords (cMul (complex 0 1) (fst STATE_ONE), cMul (complex 0 1) (snd STATE_ONE)))
    (stateToBlochCoords STATE_ONE) = true.
Proof.
  assert (H : normSq STATE_ONE = 1 /\ cAbs (complex 0 1) = 1).
  { split; [exact (initial_normalized "one")|].
    rewrite cAbs_imag. apply Rabs_R1. }
  split; [exact H|].
  exact (bloch_global_phase STATE_ONE (complex 0 1) (proj1 H) (proj2 H)).
Defined.
(** ** When [createU3Matrix] is unitary *)

Lemma Matrix_ext (m : Matrix) : m = ((m00 m, m01 m), (m10 m, m11 m)).
Proof. destruct m as [[a b] [c d]]. reflexivity. Qed.

Lemma mulAdjoint_lower m : m10 (mulAdjoint m) = cConj (m01 (mulAdjoint m)).
Proof.
  unfold mulAdjoint, m00, m01, m10, m11, cAdd, cMul, cConj; simpl.
  apply C_eq; ring.
Qed.

Lemma cAbs_zero a : cAbs a ^ 2 = 0 -> a = complex 0 0.
Proof.
  rewrite cAbs_sq. destruct a as [ar ai]; simpl. intros H.
  assert (ar = 0) by nra. assert (ai = 0) by nra. subst. reflexivity.
Qed.

(** The squared modulus of the off-diagonal entry of [M * conj(M)^T]. *)
Lemma createU3Matrix_offdiag_sq t p l :
  cAbs (m01 (mulAdjoint (createU3Matrix t p l))) ^ 2 = (sin t * sin l) ^ 2.
Proof.
  rewrite createU3Matrix_offdiag, cAbs_cMul, cAbs_real.
  rewrite Rpow_mult_distr, pow2_abs.
  rewrite cAbs_sq. unfold cSub, cFromPolar; cbn [re im].
  rewrite !cos_neg, !sin_neg.
  pose proof (cos_minus (p + 2 * l) p) as Hm.
  replace (p + 2 * l - p) with (2 * l) in Hm by ring.
  rewrite cos_2a_sin in Hm.
  pose proof (sin2_cos2 p) as H1. pose proof (sin2_cos2 (p + 2 * l)) as H2.
  unfold Rsqr in H1, H2.
  replace (sin t) with (2 * sin (t / 2) * cos (t / 2))
    by (rewrite <- sin_2a; f_equal; field).
  set (cp := cos p) in *. set (sp := sin p) in *.
  set (cq := cos (p + 2 * l)) in *. set (sq := sin (p + 2 * l)) in *.
  set (sl := sin l) in *. set (a := sin (t / 2) * cos (t / 2)).
  replace ((1 * cp - 1 * cq) * (1 * cp - 1 * cq)
           + (1 * - sp - 1 * - sq) * (1 * - sp - 1 * - sq))
    with (4 * (sl * sl)) by nra.
  fold a. replace (2 * sin (t / 2) * cos (t / 2)) with (2 * a) by (unfold a; ring).
  ring.
Qed.

(** The matrix [createU3Matrix theta phi lambda] times its conjugate
    transpose is the identity exactly when [sin theta * sin lambda = 0]. *)
Theorem createU3Matrix_unitary_iff (t p l : R) :
  mulAdjoint (createU3Matrix t p l) = identityMatrix <-> sin t * sin l = 0.
Proof.
  pose proof (createU3Matrix_offdiag_sq t p l) as Hsq.
  split.
  - intros H. rewrite H in Hsq. unfold identityMatrix, m01 in Hsq; simpl in Hsq.
    rewrite cAbs_real, Rabs_R0 in Hsq. nra.
  - intros H. rewrite H in Hsq.
    assert (H01 : m01 (mulAdjoint (createU3Matrix t p l)) = complex 0 0)
      by (apply cAbs_zero; rewrite Hsq; ring).
    destruct (createU3Matrix_rows_unit t p l) as [H00 H11].
    rewrite (Matrix_ext (mulAdjoint (createU3Matrix t p l))).
    rewrite mulAdjoint_lower, H00, H01, H11. unfold identityMatrix, cConj; simpl.
    apply Matrix_eq; apply C_eq; ring.
Qed.

(** ** The catalog matrices and their decompositions *)

Lemma default_I : matrixOf (defaultDecomposition GATE_I) = defaultMatrix GATE_I.
Proof.
  unfold matrixOf; simpl. rewrite createU3Matrix_phase.
  unfold diagMatrix, identityMatrix, cFromPolar. trig.
  apply Matrix_eq; apply C_eq; ring.
Qed.

Lemma default_X : matrixOf (defaultDecomposition GATE_X) = defaultMatrix GATE_X.
Proof.
  unfold matrixOf, createU3Matrix, cScale, cFromPolar; simpl.
  replace (0 + PI) with PI by ring. trig.
  apply Matrix_eq; apply C_eq; ring.
Qed.

Lemma default_Z : matrixOf (defaultDecomposition GATE_Z) = defaultMatrix GATE_Z.
Proof.
  unfold matrixOf; simpl. rewrite createU3Matrix_phase.
  unfold diagMatrix, cFromPolar. trig.
  apply Matrix_eq; apply C_eq; ring.
Qed.

Lemma default_H : matrixOf (defaultDecomposition GATE_H) = defaultMatrix GATE_H.
Proof.
  unfold matrixOf, createU3Matrix, cScale, cFromPolar; simpl.
  replace (PI / 2 / 2) with (PI / 4) by field.
  replace (0 + PI) with PI by ring. trig.
  apply Matrix_eq; apply C_eq; ring.
Qed.

Lemma default_S : matrixOf (defaultDecomposition GATE_S) = defaultMatrix GATE_S.
Proof.
  unfold matrixOf; simpl. rewrite createU3Matrix_phase.
  unfold diagMatrix, cFromPolar. trig.
  apply Matrix_eq; apply C_eq; ring.
Qed.

Lemma default_T : matrixOf (defaultDecomposition GATE_T) = defaultMatrix GATE_T.
Proof. unfold matrixOf; simpl. rewrite createU3Matrix_phase. reflexivity. Qed.

Lemma update_instanceOf gr :
  matrixOf (defaultDecomposition gr) = defaultMatrix gr ->
  updateMatrixFromDecomposition (instanceOf gr) = Returned (instanceOf gr).
Proof.
  intros H. unfold updateMatrixFromDecomposition, instanceOf.
  cbn [decomposition gate controlIndex targetIndex isDerivedKickback].
  fold (matrixOf (defaultDecomposition gr)). rewrite H. reflexivity.
Qed.

(** For a fresh instance of every catalog gate but [Y], the stored matrix
    is the matrix of the stored angles, so [updateMatrixFromDecomposition]
    returns the instance unchanged.  For [Y] the two differ: the update
    replaces the entry [-i] of the first row by [i]. *)
Theorem update_fresh_instance (gateName : string) (g : Gate) :
  In gateName catalogKeys ->
  createGateInstance gateName None = Returned (Some g) ->
  (gateName <> "Y" -> updateMatrixFromDecomposition g = Returned g) /\
  (gateName = "Y" ->
   exists g', updateMatrixFromDecomposition g = Returned g' /\
              option_map m01 (matrix g) = Some (complex 0 (-1)) /\
              option_map m01 (matrix g') = Some (complex 0 1)).
Proof.
  intros Hin Hc. simpl in Hin.
  destruct Hin as [<-|[<-|[<-|[<-|[<-|[<-|[<-|[<-|[<-|[]]]]]]]]]].
  - assert (E : createGateInstance "I" None = Returned (Some (instanceOf GATE_I)))
      by reflexivity.
    rewrite E in Hc. injection Hc as <-.
    split; [intros _; apply update_instanceOf, default_I|discriminate].
  - assert (E : createGateInstance "X" None = Returned (Some (instanceOf GATE_X)))
      by reflexivity.
    rewrite E in Hc. injection Hc as <-.
    split; [intros _; apply update_instanceOf, default_X|discriminate].
  - assert (E : createGateInstance "Y" None = Returned (Some (instanceOf GATE_Y)))
      by reflexivity.
    rewrite E in Hc. injection Hc as <-.
    split; [intros H; contradiction H; reflexivity|]. intros _.
    eexists. split; [reflexivity|]. split; [reflexivity|].
    cbn [matrix option_map]. f_equal.
    exact (proj1 createU3Matrix_Y_mismatch).
  - assert (E : createGateInstance "Z" None = Returned (Some (instanceOf GATE_Z)))
      by reflexivity.
    rewrite E in Hc. injection Hc as <-.
    split; [intros _; apply update_instanceOf, default_Z|discriminate].
  - assert (E : createGateInstance "H" None = Returned (Some (instanceOf GATE_H)))
      by reflexivity.
    rewrite E in Hc. injection Hc as <-.
    split; [intros _; apply update_instanceOf, default_H|discriminate].
  - assert (E : createGateInstance "S" None = Returned (Some (instanceOf GATE_S)))
      by reflexivity.
    rewrite E in Hc. injection Hc as <-.
    split; [intros _; apply update_instanceOf, default_S|discriminate].
  - assert (E : createGateInstance "T" None = Returned (Some (instanceOf GATE_T)))
      by reflexivity.
    rewrite E in Hc. injection Hc as <-.
    split; [intros _; apply update_instanceOf, default_T|discriminate].
  - assert (E : createGateInstance "U" None
                = Returned (Some (universal (mkDecomp 0 0 0)))) by reflexivity.
    rewrite E in Hc. injection Hc as <-.
    split; [intros _; reflexivity|discriminate].
  - assert (E : createGateInstance "BARRIER" None
                = Returned (Some (instanceOf GATE_BARRIER))) by reflexivity.
    rewrite E in Hc. injection Hc as <-.
    split; [intros _; apply update_instanceOf, default_I|discriminate].
Qed.

Lemma update_fresh_instance_witness :
  (In "H" catalogKeys /\
   createGateInstance "H" None = Returned (Some (instanceOf GATE_H))) /\
  ("H" <> "Y" ->
   updateMatrixFromDecomposition (instanceOf GATE_H) = Returned (instanceOf GATE_H)).
Proof.
  assert (H : In "H" catalogKeys /\
              createGateInstance "H" None = Returned (Some (instanceOf GATE_H))).
  { split; [simpl; tauto|reflexivity]. }
  split; [exact H|].
  exact (proj1 (update_fresh_instance "H" (instanceOf GATE_H) (proj1 H) (proj2 H))).
Defined.

(** ** How the catalog gates compose *)

Lemma applyMatrix_unit m s :
  normSq (matVec m s) = 1 -> applyMatrix s (Some m) = matVec m s.
Proof. intros H. cbn [applyMatrix]. apply normalize_unit, H. Qed.

Lemma normSq_pair a b : normSq (a, b) = re a * re a + im a * im a + (re b * re b + im b * im b).
Proof. unfold normSq. rewrite !cAbs_sq. reflexivity. Qed.

Lemma matVec_diag d s : matVec (diagMatrix d) s = (fst s, cMul d (snd s)).
Proof.
  destruct s as [[ar ai] [br bi]], d as [dr di].
  unfold matVec, diagMatrix, m00, m01, m10, m11, cAdd, cMul; simpl.
  f_equal; apply C_eq; ring.
Qed.

(** A diagonal gate [diag(1, d)] with [|d| = 1] multiplies the second
    amplitude of a normalised state by [d]. *)
Lemma applyMatrix_diag d s :
  re d * re d + im d * im d = 1 -> normSq s = 1 ->
  applyMatrix s (Some (diagMatrix d)) = (fst s, cMul d (snd s)) /\
  normSq (fst s, cMul d (snd s)) = 1.
Proof.
  intros Hd Hs.
  assert (Hn : normSq (fst s, cMul d (snd s)) = 1).
  { unfold normSq in *; cbn [fst snd]. rewrite cAbs_cMul.
    assert (Hd1 : cAbs d ^ 2 = 1) by (rewrite cAbs_sq; exact Hd).
    rewrite Rpow_mult_distr, Hd1. lra. }
  split; [|exact Hn].
  rewrite applyMatrix_unit; rewrite matVec_diag; [reflexivity|exact Hn].
Qed.

Lemma cMul_polar a b z :
  cMul (cFromPolar 1 b) (cMul (cFromPolar 1 a) z) = cMul (cFromPolar 1 (a + b)) z.
Proof.
  destruct z as [zr zi]. unfold cMul, cFromPolar; simpl.
  rewrite cos_plus, sin_plus. apply C_eq; ring.
Qed.

(** Two phase gates in a row act as the phase gate of the sum of their
    angles: on a normalised state, [createU3Matrix 0 0 a] followed by
    [createU3Matrix 0 0 b] is [createU3Matrix 0 0 (a + b)]. *)
Theorem phase_gates_add (a b : R) (s : State) :
  normSq s = 1 ->
  applyMatrix (applyMatrix s (Some (createU3Matrix 0 0 a))) (Some (createU3Matrix 0 0 b))
  = applyMatrix s (Some (createU3Matrix 0 0 (a + b))).
Proof.
  intros Hs. rewrite !createU3Matrix_phase.
  destruct (applyMatrix_diag _ s (cFromPolar_unit a) Hs) as [E1 N1].
  destruct (applyMatrix_diag _ s (cFromPolar_unit (a + b)) Hs) as [E3 _].
  destruct (applyMatrix_diag _ _ (cFromPolar_unit b) N1) as [E2 _].
  rewrite E1, E2, E3. cbn [fst snd]. rewrite cMul_polar. reflexivity.
Qed.

Lemma phase_gates_add_witness :
  normSq STATE_PLUS = 1 /\
  applyMatrix (applyMatrix STATE_PLUS (Some (createU3Matrix 0 0 (PI / 4))))
              (Some (createU3Matrix 0 0 (PI / 4)))
  = applyMatrix STATE_PLUS (Some (createU3Matrix 0 0 (PI / 4 + PI / 4))).
Proof.
  assert (H : normSq STATE_PLUS = 1) by exact (initial_normalized "plus").
  split; [exact H|]. exact (phase_gates_add (PI / 4) (PI / 4) STATE_PLUS H).
Defined.

Lemma matVec_X s : matVec (defaultMatrix GATE_X) s = (snd s, fst s).
Proof.
  destruct s as [[ar ai] [br bi]].
  unfold matVec, m00, m01, m10, m11, cAdd, cMul; simpl.
  f_equal; apply C_eq; ring.
Qed.

Lemma matVec_Y s :
  matVec (defaultMatrix GATE_Y) s
  = (complex (im (snd s)) (- re (snd s)), complex (- im (fst s)) (re (fst s))).
Proof.
  destruct s as [[ar ai] [br bi]].
  unfold matVec, m00, m01, m10, m11, cAdd, cMul; simpl.
  f_equal; apply C_eq; ring.
Qed.

Lemma matVec_H s :
  matVec (defaultMatrix GATE_H) s
  = (complex (SQRT2_INV * (re (fst s) + re (snd s))) (SQRT2_INV * (im (fst s) + im (snd s))),
     complex (SQRT2_INV * (re (fst s) - re (snd s))) (SQRT2_INV * (im (fst s) - im (snd s)))).
Proof.
  destruct s as [[ar ai] [br bi]].
  unfold matVec, m00, m01, m10, m11, cAdd, cMul; simpl.
  f_equal; apply C_eq; ring.
Qed.

Lemma applyGate_instanceOf gr s :
  String.eqb (name gr) "BARRIER" = false ->
  applyGate s (instanceOf gr) = applyMatrix s (Some (defaultMatrix gr)).
Proof. intros H. unfold applyGate, instanceOf; cbn [gate matrix]. rewrite H. reflexivity. Qed.

Lemma applyGate_X s :
  normSq s = 1 -> applyGate s (instanceOf GATE_X) = (snd s, fst s).
Proof.
  intros Hs. rewrite applyGate_instanceOf by reflexivity.
  rewrite applyMatrix_unit; rewrite matVec_X; [reflexivity|].
  unfold normSq in *; cbn [fst snd]. lra.
Qed.

Lemma applyGate_Y s :
  normSq s = 1 ->
  applyGate s (instanceOf GATE_Y)
  = (complex (im (snd s)) (- re (snd s)), complex (- im (fst s)) (re (fst s))).
Proof.
  intros Hs. rewrite applyGate_instanceOf by reflexivity.
  rewrite applyMatrix_unit; rewrite matVec_Y; [reflexivity|].
  rewrite normSq_pair. unfold normSq in Hs. rewrite !cAbs_sq in Hs.
  cbn [re im]. lra.
Qed.

Lemma applyGate_H s :
  normSq s = 1 ->
  applyGate s (instanceOf GATE_H)
  = (complex (SQRT2_INV * (re (fst s) + re (snd s))) (SQRT2_INV * (im (fst s) + im (snd s))),
     complex (SQRT2_INV * (re (fst s) - re (snd s))) (SQRT2_INV * (im (fst s) - im (snd s)))).
Proof.
  intros Hs. rewrite applyGate_instanceOf by reflexivity.
  rewrite applyMatrix_unit; rewrite matVec_H; [reflexivity|].
  rewrite normSq_pair. unfold normSq in Hs. rewrite !cAbs_sq in Hs.
  cbn [re im]. pose proof sqrt2_inv_sq as Hq. nra.
Qed.

Lemma applyGate_phase gr l s :
  String.eqb (name gr) "BARRIER" = false ->
  defaultMatrix gr = diagMatrix (cFromPolar 1 l) ->
  normSq s = 1 ->
  applyGate s (instanceOf gr) = (fst s, cMul (cFromPolar 1 l) (snd s)).
Proof.
  intros Hn Hm Hs. rewrite applyGate_instanceOf by exact Hn. rewrite Hm.
  apply (applyMatrix_diag _ s (cFromPolar_unit l) Hs).
Qed.

Lemma diag_Z : defaultMatrix GATE_Z = diagMatrix (cFromPolar 1 PI).
Proof. rewrite <- default_Z. unfold matrixOf; simpl. apply createU3Matrix_phase. Qed.

Lemma diag_S : defaultMatrix GATE_S = diagMatrix (cFromPolar 1 (PI / 2)).
Proof. rewrite <- default_S. unfold matrixOf; simpl. apply createU3Matrix_phase. Qed.

Lemma diag_T : defaultMatrix GATE_T = diagMatrix (cFromPolar 1 (PI / 4)).
Proof. reflexivity. Qed.

Lemma state_eq (a b : C) (s : State) : fst s = a -> snd s = b -> (a, b) = s.
Proof. destruct s; simpl; intros; subst; reflexivity. Qed.

(** On a normalised state the gates [X], [Y], [Z] and [H] undo themselves,
    two [S] gates act as [Z], and two [T] gates act as [S]. *)
Theorem catalog_compositions (s : State) :
  normSq s = 1 ->
  applyGate (applyGate s (instanceOf GATE_X)) (instanceOf GATE_X) = s /\
  applyGate (applyGate s (instanceOf GATE_Y)) (instanceOf GATE_Y) = s /\
  applyGate (applyGate s (instanceOf GATE_Z)) (instanceOf GATE_Z) = s /\
  applyGate (applyGate s (instanceOf GATE_H)) (instanceOf GATE_H) = s /\
  applyGate (applyGate s (instanceOf GATE_S)) (instanceOf GATE_S)
  = applyGate s (instanceOf GATE_Z) /\
  applyGate (applyGate s (instanceOf GATE_T)) (instanceOf GATE_T)
  = applyGate s (instanceOf GATE_S).
Proof.
  intros Hs.
  assert (Hn : forall g, normSq (applyGate s g) = 1)
    by (intros g; apply applyGate_normalized, Hs).
  split; [|split; [|split; [|split; [|split]]]].
  - rewrite (applyGate_X (applyGate s (instanceOf GATE_X))) by apply Hn.
    rewrite (applyGate_X s Hs). cbn [fst snd]. destruct s; reflexivity.
  - rewrite (applyGate_Y (applyGate s (instanceOf GATE_Y))) by apply Hn.
    rewrite (applyGate_Y s Hs). cbn [fst snd re im].
    destruct s as [[ar ai] [br bi]]; cbn [fst snd re im].
    f_equal; apply C_eq; ring.
  - rewrite (applyGate_phase GATE_Z PI (applyGate s (instanceOf GATE_Z)))
      by first [reflexivity | apply diag_Z | apply Hn].
    rewrite (applyGate_phase GATE_Z PI s) by first [reflexivity | apply diag_Z | exact Hs].
    cbn [fst snd]. rewrite cMul_polar.
    destruct s as [[ar ai] [br bi]]; unfold cMul, cFromPolar; cbn [fst snd re im].
    replace (PI + PI) with (2 * PI) by ring. rewrite cos_2PI, sin_2PI.
    f_equal; apply C_eq; ring.
  - rewrite (applyGate_H (applyGate s (instanceOf GATE_H))) by apply Hn.
    rewrite (applyGate_H s Hs). cbn [fst snd re im].
    destruct s as [[ar ai] [br bi]]; cbn [fst snd re im].
    f_equal; apply C_eq;
      match goal with
      | |- _ = ?v => transitivity (2 * (SQRT2_INV * SQRT2_INV) * v);
                     [ring|rewrite sqrt2_inv_sq; field]
      end.
  - rewrite (applyGate_phase GATE_S (PI / 2) (applyGate s (instanceOf GATE_S)))
      by first [reflexivity | apply diag_S | apply Hn].
    rewrite (applyGate_phase GATE_S (PI / 2) s) by first [reflexivity | apply diag_S | exact Hs].
    rewrite (applyGate_phase GATE_Z PI s) by first [reflexivity | apply diag_Z | exact Hs].
    cbn [fst snd]. rewrite cMul_polar.
    replace (PI / 2 + PI / 2) with PI by field. reflexivity.
  - rewrite (applyGate_phase GATE_T (PI / 4) (applyGate s (instanceOf GATE_T)))
      by first [reflexivity | apply diag_T | apply Hn].
    rewrite (applyGate_phase GATE_T (PI / 4) s) by first [reflexivity | apply diag_T | exact Hs].
    rewrite (applyGate_phase GATE_S (PI / 2) s) by first [reflexivity | apply diag_S | exact Hs].
    cbn [fst snd]. rewrite cMul_polar.
    replace (PI / 4 + PI / 4) with (PI / 2) by field. reflexivity.
Qed.

Lemma catalog_compositions_witness :
  normSq STATE_PLUS = 1 /\
  applyGate (applyGate STATE_PLUS (instanceOf GATE_H)) (instanceOf GATE_H) = STATE_PLUS.
Proof.
  assert (H : normSq STATE_PLUS = 1) by exact (initial_normalized "plus").
  split; [exact H|].
  exact (proj1 (proj2 (proj2 (proj2 (catalog_compositions STATE_PLUS H))))).
Defined.
(** ** Eigenphases on [|1>] of gates close to a phase gate *)

Lemma cAbs_cScale a k : cAbs (cScale a k) = cAbs a * Rabs k.
Proof.
  unfold cAbs, cScale; simpl.
  replace (re a * k * (re a * k) + im a * k * (im a * k))
    with ((re a * re a + im a * im a) * k²) by (unfold Rsqr; ring).
  rewrite sqrt_mult; [rewrite sqrt_Rsqr_abs; reflexivity|nra|apply Rle_0_sqr].
Qed.

Lemma cAbs_cFromPolar_1 t : cAbs (cFromPolar 1 t) = 1.
Proof. unfold cAbs. rewrite cFromPolar_unit. apply sqrt_1. Qed.

Lemma Rabs_le_between x a : Rabs x <= a -> - a <= x <= a.
Proof. unfold Rabs. destruct (Rcase_abs x); lra. Qed.

Lemma sin_small x : Rabs x <= 1 / 200 -> Rabs (sin x) <= 1 / 200.
Proof.
  intros H. apply Rabs_le_between in H. pose proof PI2_1 as Hpi.
  destruct (Rtotal_order x 0) as [Hx|[->|Hx]].
  - assert (Hs : 0 < sin (- x) < - x)
      by (split; [apply sin_gt_0; lra|apply sin_lt_x; lra]).
    rewrite sin_neg in Hs. rewrite Rabs_left by lra. lra.
  - rewrite sin_0, Rabs_R0. lra.
  - assert (Hs : 0 < sin x < x)
      by (split; [apply sin_gt_0; lra|apply sin_lt_x; lra]).
    rewrite Rabs_right by lra. lra.
Qed.

Lemma cos_small x : Rabs x <= 1 / 200 -> 99 / 100 <= cos x <= 1.
Proof.
  intros H. pose proof (sin_small x H) as Hs. apply Rabs_le_between in Hs.
  apply Rabs_le_between in H. pose proof PI2_1 as Hpi.
  pose proof (COS_bound x) as [_ Hc].
  pose proof (sin2_cos2 x) as Hq. unfold Rsqr in Hq.
  assert (Hp : 0 < cos x) by (apply cos_gt_0; lra).
  split; [|exact Hc]. nra.
Qed.

Lemma complexDiv_one a : complexDiv a (complex 1 0) = a.
Proof.
  destruct a as [ar ai]. unfold complexDiv; simpl.
  rewrite (proj2 (Rltb_false _ _)) by lra. apply C_eq; field.
Qed.

Lemma applyMatrix_U3_one t p l :
  applyMatrix STATE_ONE (Some (createU3Matrix t p l))
  = (m01 (createU3Matrix t p l), m11 (createU3Matrix t p l)).
Proof.
  assert (E : matVec (createU3Matrix t p l) STATE_ONE
              = (m01 (createU3Matrix t p l), m11 (createU3Matrix t p l))).
  { destruct (createU3Matrix t p l) as [[[a1 a2] [b1 b2]] [[c1 c2] [d1 d2]]].
    unfold matVec, STATE_ONE, m00, m01, m10, m11, cAdd, cMul; simpl.
    f_equal; apply C_eq; ring. }
  rewrite applyMatrix_unit; rewrite E; [reflexivity|].
  unfold normSq, createU3Matrix, m01, m11; cbn [fst snd].
  rewrite !cAbs_cScale, !cAbs_cFromPolar_1, !Rmult_1_l, !pow2_abs.
  pose proof (sin2_cos2 (t / 2)) as H. unfold Rsqr in H. nra.
Qed.

(** A gate whose matrix is [createU3Matrix theta phi lambda] with
    [|theta| <= 0.01] passes the eigenstate check on [|1>], with the phase
    of [e^{i (phi + lambda)}]. *)
Lemma kickback_near_phase g t p l :
  isBarrierOrControl g = false ->
  matrix g = Some (createU3Matrix t p l) ->
  Rabs t <= 1 / 100 ->
  getKickbackPhaseForControlledGate (Some g) (Some STATE_ONE) TOL
  = Some (snapped (cPhase (cFromPolar 1 (p + l)))).
Proof.
  intros Hg Hm Ht. unfold isBarrierOrControl in Hg.
  assert (Hx : Rabs (t / 2) <= 1 / 200).
  { apply Rabs_le_between in Ht. unfold Rabs. destruct (Rcase_abs (t / 2)); lra. }
  pose proof (sin_small _ Hx) as Hs. pose proof (cos_small _ Hx) as Hc.
  unfold getKickbackPhaseForControlledGate.
  rewrite Hg, Hm, amps_findIndex_one, applyMatrix_U3_one.
  unfold createU3Matrix, m01, m11; cbn [fst snd].
  set (u := cFromPolar 1 (p + l)). set (c := cos (t / 2)) in *.
  set (v := cScale (cFromPolar 1 (- l)) (- sin (t / 2))).
  assert (Hraw : complexDiv (amp (v, cScale u c) 1) (amp STATE_ONE 1) = cScale u c).
  { change (amp (v, cScale u c) 1) with (cScale u c).
    change (amp STATE_ONE 1) with (complex 1 0).
    apply complexDiv_one. }
  rewrite Hraw.
  assert (Habs : cAbs (cScale u c) = c).
  { rewrite cAbs_cScale. unfold u. rewrite cAbs_cFromPolar_1, Rabs_right by lra. ring. }
  rewrite Habs.
  assert (Hunit : cScale (cScale u c) (1 / c) = u).
  { destruct u as [ur ui]; unfold cScale; simpl. apply C_eq; field; lra. }
  rewrite Hunit.
  rewrite (proj2 (Rleb_false c TOL)) by (unfold TOL; lra).
  assert (Hchk : eigenCheckFails STATE_ONE (v, cScale u c) u TOL = false).
  { apply eigenCheckFails_false. intros i Hi. unfold cDist, TOL.
    destruct i as [|[|i]]; [| |lia]; unfold amp, amps, STATE_ONE; cbn [nth fst snd].
    - replace (cSub v (cMul u (complex 0 0))) with v
        by (destruct v, u; unfold cSub, cMul; simpl; apply C_eq; ring).
      unfold v. rewrite cAbs_cScale, cAbs_cFromPolar_1, Rabs_Ropp. lra.
    - replace (cSub (cScale u c) (cMul u (complex 1 0))) with (cScale u (c - 1))
        by (destruct u; unfold cSub, cMul, cScale; simpl; apply C_eq; ring).
      rewrite cAbs_cScale. unfold u. rewrite cAbs_cFromPolar_1, Rabs_left1 by lra. lra. }
  rewrite Hchk.
  rewrite normalizeAngle_id by (pose proof (cPhase_range u); lra).
  reflexivity.
Qed.

(** Every gate whose matrix is that of a phase gate, [createU3Matrix 0 phi
    lambda] (the gates [Z], [S], [T], the universal gate at [theta = 0], a
    synthesized kickback gate), has on the target state [|0>] the
    eigenphase [0] and on [|1>] the angle [phi + lambda], normalised into
    [(-PI, PI]] and snapped to [0] within the tolerance. *)
Theorem phase_gate_kickback (g : Gate) (p l : R) :
  isBarrierOrControl g = false ->
  matrix g = Some (createU3Matrix 0 p l) ->
  getKickbackPhaseForControlledGate (Some g) (Some STATE_ZERO) TOL = Some 0 /\
  getKickbackPhaseForControlledGate (Some g) (Some STATE_ONE) TOL
  = Some (snapped (cPhase (cFromPolar 1 (p + l)))) /\
  Rabs (cPhase (cFromPolar 1 (p + l))) = Rabs (normalizeAngle (p + l)) /\
  (- PI < normalizeAngle (p + l) ->
   cPhase (cFromPolar 1 (p + l)) = normalizeAngle (p + l)).
Proof.
  intros Hg Hm. split; [|split; [|split]].
  - apply (kickback_diag_zero g (cFromPolar 1 (p + l))); [exact Hg|].
    rewrite Hm. f_equal.
    unfold createU3Matrix, diagMatrix, cScale, cFromPolar; simpl.
    replace (0 / 2) with 0 by field. trig.
    apply Matrix_eq; apply C_eq; ring.
  - apply (kickback_near_phase g 0 p l Hg Hm). rewrite Rabs_R0. lra.
  - apply (cPhase_polar_any 1 (p + l)). lra.
  - apply (cPhase_polar_any 1 (p + l)). lra.
Qed.

Lemma phase_gate_kickback_witness :
  (isBarrierOrControl (cell (kickbackGate (PI / 2) 1)) = false /\
   matrix (cell (kickbackGate (PI / 2) 1)) = Some (createU3Matrix 0 0 (PI / 2))) /\
  getKickbackPhaseForControlledGate (Some (cell (kickbackGate (PI / 2) 1))) (Some STATE_ZERO) TOL
  = Some 0.
Proof.
  assert (H : isBarrierOrControl (cell (kickbackGate (PI / 2) 1)) = false /\
              matrix (cell (kickbackGate (PI / 2) 1)) = Some (createU3Matrix 0 0 (PI / 2))).
  { split; reflexivity. }
  split; [exact H|].
  exact (proj1 (phase_gate_kickback _ 0 (PI / 2) (proj1 H) (proj2 H))).
Defined.

(** ** The hint [gateHasPhaseKickbackPotential] and the detector *)

Lemma potential_U g d tolerance :
  gate g = "U" -> decomposition g = Some d ->
  gateHasPhaseKickbackPotential (Some g) tolerance
  = if Rgtb (Rabs (theta d)) tolerance then false
    else Rgtb (Rabs (normalizeAngle (phi d + lambda d))) tolerance.
Proof.
  intros Hg Hd. unfold gateHasPhaseKickbackPotential. rewrite Hg, Hd. reflexivity.
Qed.

(** For a universal gate whose matrix is the matrix of its angles: with
    [|theta|] above the tolerance the hint is false; otherwise the detector
    finds an eigenphase on the target state [|1>], and the hint is true
    exactly when that eigenphase is not zero, in which case its magnitude
    is that of [phi + lambda] normalised and exceeds the tolerance. *)
Theorem kickback_potential_U (g : Gate) (d : Decomp) :
  gate g = "U" -> decomposition g = Some d -> matrix g = Some (matrixOf d) ->
  (TOL < Rabs (theta d) -> gateHasPhaseKickbackPotential (Some g) TOL = false) /\
  (Rabs (theta d) <= TOL ->
   exists phase,
     getKickbackPhaseForControlledGate (Some g) (Some STATE_ONE) TOL = Some phase /\
     (gateHasPhaseKickbackPotential (Some g) TOL = true <-> phase <> 0) /\
     (phase <> 0 ->
      Rabs phase = Rabs (normalizeAngle (phi d + lambda d)) /\ TOL < Rabs phase)).
Proof.
  intros Hg Hd Hm. rewrite (potential_U g d TOL Hg Hd). unfold Rgtb. split.
  - intros H. rewrite (proj2 (Rltb_true _ _)) by exact H. reflexivity.
  - intros H. rewrite (proj2 (Rltb_false _ _)) by exact H.
    exists (snapped (cPhase (cFromPolar 1 (phi d + lambda d)))).
    assert (Hbc : isBarrierOrControl g = false)
      by (unfold isBarrierOrControl; rewrite Hg; reflexivity).
    split; [apply (kickback_near_phase g _ _ _ Hbc Hm); unfold TOL in H; exact H|].
    destruct (cPhase_polar_any 1 (phi d + lambda d)) as (_ & _ & Habs); [lra|].
    set (q := cPhase (cFromPolar 1 (phi d + lambda d))) in *.
    destruct (snapped_cases q) as [Hlo Hhi].
    destruct (Rle_dec (Rabs q) TOL) as [Hq|Hq].
    + rewrite (Hlo Hq). rewrite <- Habs.
      rewrite (proj2 (Rltb_false _ _)) by exact Hq.
      split; [split; [discriminate|intros E; contradiction E; reflexivity]|].
      intros E; contradiction E; reflexivity.
    + assert (Hq' : TOL < Rabs q) by lra.
      rewrite (Hhi Hq'). rewrite <- Habs.
      rewrite (proj2 (Rltb_true _ _)) by exact Hq'.
      assert (Hne : q <> 0).
      { intros E. rewrite E, Rabs_R0 in Hq'. unfold TOL in Hq'. lra. }
      split; [split; [intros _; exact Hne|reflexivity]|].
      intros _. split; [reflexivity|exact Hq'].
Qed.

Lemma kickback_potential_U_witness :
  (gate (universal (mkDecomp 0 0 PI)) = "U" /\
   decomposition (universal (mkDecomp 0 0 PI)) = Some (mkDecomp 0 0 PI) /\
   matrix (universal (mkDecomp 0 0 PI)) = Some (matrixOf (mkDecomp 0 0 PI))) /\
  (TOL < Rabs (theta (mkDecomp 0 0 PI)) ->
   gateHasPhaseKickbackPotential (Some (universal (mkDecomp 0 0 PI))) TOL = false).
Proof.
  assert (H : gate (universal (mkDecomp 0 0 PI)) = "U" /\
              decomposition (universal (mkDecomp 0 0 PI)) = Some (mkDecomp 0 0 PI) /\
              matrix (universal (mkDecomp 0 0 PI)) = Some (matrixOf (mkDecomp 0 0 PI))).
  { repeat split; reflexivity. }
  split; [exact H|].
  exact (proj1 (kickback_potential_U _ _ (proj1 H) (proj1 (proj2 H)) (proj2 (proj2 H)))).
Defined.
(** ** The hint and the detector on the gates of the palette *)

Lemma kickback_catalog_phase gr l :
  isBarrierOrControl (instanceOf gr) = false ->
  createU3Matrix 0 0 l = defaultMatrix gr ->
  - PI < l <= PI ->
  getKickbackPhaseForControlledGate (Some (instanceOf gr)) (Some STATE_ONE) TOL
  = Some (snapped l).
Proof.
  intros Hg Hm Hl.
  rewrite (kickback_near_phase (instanceOf gr) 0 0 l Hg).
  - replace (0 + l) with l by ring. rewrite cPhase_of_polar by (lra || exact Hl).
    reflexivity.
  - unfold instanceOf; cbn [matrix]. rewrite Hm. reflexivity.
  - rewrite Rabs_R0. lra.
Qed.

(** When the gate sends [|1>] to a state without [|1>] component, the
    quotient of the amplitudes vanishes and there is no eigenphase. *)
Lemma kickback_one_vanishing g m :
  isBarrierOrControl g = false ->
  matrix g = Some m ->
  snd (applyMatrix STATE_ONE (Some m)) = complex 0 0 ->
  getKickbackPhaseForControlledGate (Some g) (Some STATE_ONE) TOL = None.
Proof.
  intros Hg Hm Hz. unfold isBarrierOrControl in Hg.
  unfold getKickbackPhaseForControlledGate.
  rewrite Hg, Hm, amps_findIndex_one.
  change (amp (applyMatrix STATE_ONE (Some m)) 1) with (snd (applyMatrix STATE_ONE (Some m))).
  change (amp STATE_ONE 1) with (complex 1 0).
  rewrite Hz, complexDiv_one, cAbs_real, Rabs_R0.
  rewrite (proj2 (Rleb_true 0 TOL)) by (unfold TOL; lra). reflexivity.
Qed.

Lemma kickback_X_one :
  getKickbackPhaseForControlledGate (Some (instanceOf GATE_X)) (Some STATE_ONE) TOL = None.
Proof.
  apply (kickback_one_vanishing _ (defaultMatrix GATE_X)); try reflexivity.
  rewrite applyMatrix_unit; rewrite matVec_X; [reflexivity|].
  exact (initial_normalized "zero").
Qed.

Lemma kickback_Y_one :
  getKickbackPhaseForControlledGate (Some (instanceOf GATE_Y)) (Some STATE_ONE) TOL = None.
Proof.
  apply (kickback_one_vanishing _ (defaultMatrix GATE_Y)); try reflexivity.
  rewrite applyMatrix_unit; rewrite matVec_Y.
  - unfold STATE_ONE; cbn [fst snd re im]. apply C_eq; ring.
  - rewrite normSq_pair. unfold STATE_ONE; cbn [fst snd re im]. ring.
Qed.

Lemma sqrt2_inv_big : 1 / 2 < SQRT2_INV.
Proof. pose proof sqrt2_inv_sq. pose proof sqrt2_inv_pos. nra. Qed.

Lemma kickback_H_one :
  getKickbackPhaseForControlledGate (Some (instanceOf GATE_H)) (Some STATE_ONE) TOL = None.
Proof.
  pose proof sqrt2_inv_big as Hbig.
  assert (E : applyMatrix STATE_ONE (Some (defaultMatrix GATE_H))
              = (complex SQRT2_INV 0, complex (- SQRT2_INV) 0)).
  { rewrite applyMatrix_unit; rewrite matVec_H.
    - unfold STATE_ONE; cbn [fst snd re im]. f_equal; apply C_eq; ring.
    - rewrite normSq_pair. unfold STATE_ONE; cbn [fst snd re im].
      pose proof sqrt2_inv_sq. nra. }
  unfold getKickbackPhaseForControlledGate.
  change (String.eqb (gate (instanceOf GATE_H)) "BARRIER"
          || String.eqb (gate (instanceOf GATE_H)) "CONTROL")%bool with false.
  change (matrix (instanceOf GATE_H)) with (Some (defaultMatrix GATE_H)).
  cbv iota. rewrite amps_findIndex_one, E.
  change (amp (complex SQRT2_INV 0, complex (- SQRT2_INV) 0) 1)
    with (complex (- SQRT2_INV) 0).
  change (amp STATE_ONE 1) with (complex 1 0).
  rewrite complexDiv_one, cAbs_real, Rabs_left by lra.
  rewrite (proj2 (Rleb_false _ TOL)) by (unfold TOL; lra).
  assert (Hchk : eigenCheckFails STATE_ONE (complex SQRT2_INV 0, complex (- SQRT2_INV) 0)
                   (cScale (complex (- SQRT2_INV) 0) (1 / - - SQRT2_INV)) TOL = true).
  { unfold eigenCheckFails. apply existsb_exists. exists 0%nat.
    split; [simpl; tauto|].
    unfold amp, amps, STATE_ONE; cbn [nth fst snd]. unfold Rgtb. apply Rltb_true.
    replace (cSub (complex SQRT2_INV 0)
                  (cMul (cScale (complex (- SQRT2_INV) 0) (1 / - - SQRT2_INV)) (complex 0 0)))
      with (complex SQRT2_INV 0)
      by (unfold cSub, cMul, cScale; simpl; apply C_eq; ring).
    rewrite cAbs_real, Rabs_right by lra. unfold TOL. lra. }
  rewrite Hchk. reflexivity.
Qed.

Lemma snapped_zero : snapped 0 = 0.
Proof. apply (proj1 (snapped_cases 0)). rewrite Rabs_R0. unfold TOL. lra. Qed.

Lemma snapped_positive a : 1 / 100 < a -> snapped a = a /\ a <> 0.
Proof.
  intros H. split; [|lra]. apply snapped_big. rewrite Rabs_right by lra. exact H.
Qed.

(** For a fresh instance of a catalog gate, the hint is true exactly for
    [Z], [S] and [T], and exactly when the detector finds a non-zero
    eigenphase on the target state [|1>]. *)
Theorem kickback_potential_catalog (gateName : string) (g : Gate) :
  In gateName catalogKeys ->
  createGateInstance gateName None = Returned (Some g) ->
  (gateHasPhaseKickbackPotential (Some g) TOL = true <-> In gateName ["Z"; "S"; "T"]) /\
  (gateHasPhaseKickbackPotential (Some g) TOL = true <->
   exists phase,
     getKickbackPhaseForControlledGate (Some g) (Some STATE_ONE) TOL = Some phase /\
     phase <> 0).
Proof.
  intros Hin Hc. pose proof PI2_1 as Hpi. simpl in Hin.
  assert (Hzero : forall o : option R,
            o = Some 0 \/ o = None ->
            (false = true <-> exists phase, o = Some phase /\ phase <> 0)).
  { intros o Ho. split; [discriminate|]. intros (phase & E & Hne).
    destruct Ho as [->| ->]; [injection E as <-; contradiction Hne; reflexivity|discriminate]. }
  assert (Hnot : forall n, ~ In n ["Z"; "S"; "T"] -> (false = true <-> In n ["Z"; "S"; "T"]))
    by (intros n Hn; split; [discriminate|intros H; contradiction]).
  assert (Hyes : forall (o : option R) a,
            o = Some (snapped a) -> 1 / 100 < a ->
            (true = true <-> exists phase, o = Some phase /\ phase <> 0)).
  { intros o a -> Ha. destruct (snapped_positive a Ha) as [-> Hne].
    split; [intros _; exists a; split; [reflexivity|exact Hne]|reflexivity]. }
  destruct Hin as [<-|[<-|[<-|[<-|[<-|[<-|[<-|[<-|[<-|[]]]]]]]]]].
  - assert (E : createGateInstance "I" None = Returned (Some (instanceOf GATE_I)))
      by reflexivity.
    rewrite E in Hc. injection Hc as <-.
    change (gateHasPhaseKickbackPotential (Some (instanceOf GATE_I)) TOL) with false.
    split; [apply Hnot; simpl; intuition discriminate|]. apply Hzero. left.
    rewrite (kickback_catalog_phase GATE_I 0); [rewrite snapped_zero; reflexivity|reflexivity| |lra].
    exact default_I.
  - assert (E : createGateInstance "X" None = Returned (Some (instanceOf GATE_X)))
      by reflexivity.
    rewrite E in Hc. injection Hc as <-.
    change (gateHasPhaseKickbackPotential (Some (instanceOf GATE_X)) TOL) with false.
    split; [apply Hnot; simpl; intuition discriminate|]. apply Hzero. right.
    exact kickback_X_one.
  - assert (E : createGateInstance "Y" None = Returned (Some (instanceOf GATE_Y)))
      by reflexivity.
    rewrite E in Hc. injection Hc as <-.
    change (gateHasPhaseKickbackPotential (Some (instanceOf GATE_Y)) TOL) with false.
    split; [apply Hnot; simpl; intuition discriminate|]. apply Hzero. right.
    exact kickback_Y_one.
  - assert (E : createGateInstance "Z" None = Returned (Some (instanceOf GATE_Z)))
      by reflexivity.
    rewrite E in Hc. injection Hc as <-.
    change (gateHasPhaseKickbackPotential (Some (instanceOf GATE_Z)) TOL) with true.
    split; [split; [intros _; simpl; tauto|reflexivity]|].
    apply (Hyes _ PI); [|lra].
    apply (kickback_catalog_phase GATE_Z PI); [reflexivity|exact default_Z|lra].
  - assert (E : createGateInstance "H" None = Returned (Some (instanceOf GATE_H)))
      by reflexivity.
    rewrite E in Hc. injection Hc as <-.
    change (gateHasPhaseKickbackPotential (Some (instanceOf GATE_H)) TOL) with false.
    split; [apply Hnot; simpl; intuition discriminate|]. apply Hzero. right.
    exact kickback_H_one.
  - assert (E : createGateInstance "S" None = Returned (Some (instanceOf GATE_S)))
      by reflexivity.
    rewrite E in Hc. injection Hc as <-.
    change (gateHasPhaseKickbackPotential (Some (instanceOf GATE_S)) TOL) with true.
    split; [split; [intros _; simpl; tauto|reflexivity]|].
    apply (Hyes _ (PI / 2)); [|lra].
    apply (kickback_catalog_phase GATE_S (PI / 2)); [reflexivity|exact default_S|lra].
  - assert (E : createGateInstance "T" None = Returned (Some (instanceOf GATE_T)))
      by reflexivity.
    rewrite E in Hc. injection Hc as <-.
    change (gateHasPhaseKickbackPotential (Some (instanceOf GATE_T)) TOL) with true.
    split; [split; [intros _; simpl; tauto|reflexivity]|].
    apply (Hyes _ (PI / 4)); [|lra].
    apply (kickback_catalog_phase GATE_T (PI / 4)); [reflexivity|exact default_T|lra].
  - assert (E : createGateInstance "U" None
                = Returned (Some (universal (mkDecomp 0 0 0)))) by reflexivity.
    rewrite E in Hc. injection Hc as <-.
    assert (Hp : gateHasPhaseKickbackPotential (Some (universal (mkDecomp 0 0 0))) TOL = false).
    { rewrite (potential_U _ (mkDecomp 0 0 0)) by reflexivity. cbn [theta phi lambda].
      unfold Rgtb. rewrite Rabs_R0.
      rewrite (proj2 (Rltb_false _ _)) by (unfold TOL; lra).
      replace (0 + 0) with 0 by ring.
      rewrite normalizeAngle_id by lra. rewrite Rabs_R0.
      apply Rltb_false. unfold TOL. lra. }
    rewrite Hp.
    split; [apply Hnot; simpl; intuition discriminate|]. apply Hzero. left.
    rewrite (kickback_near_phase (universal (mkDecomp 0 0 0)) 0 0 0);
      [|reflexivity|reflexivity|rewrite Rabs_R0; lra].
    replace (0 + 0) with 0 by ring. rewrite cPhase_of_polar by lra.
    rewrite snapped_zero. reflexivity.
  - assert (E : createGateInstance "BARRIER" None
                = Returned (Some (instanceOf GATE_BARRIER))) by reflexivity.
    rewrite E in Hc. injection Hc as <-.
    change (gateHasPhaseKickbackPotential (Some (instanceOf GATE_BARRIER)) TOL) with false.
    split; [apply Hnot; simpl; intuition discriminate|]. apply Hzero. right.
    reflexivity.
Qed.

Lemma kickback_potential_catalog_witness :
  (In "S" catalogKeys /\
   createGateInstance "S" None = Returned (Some (instanceOf GATE_S))) /\
  (gateHasPhaseKickbackPotential (Some (instanceOf GATE_S)) TOL = true <->
   In "S" ["Z"; "S"; "T"]).
Proof.
  assert (H : In "S" catalogKeys /\
              createGateInstance "S" None = Returned (Some (instanceOf GATE_S))).
  { split; [simpl; tauto|reflexivity]. }
  split; [exact H|].
  exact (proj1 (kickback_potential_catalog "S" (instanceOf GATE_S) (proj1 H) (proj2 H))).
Defined.
(** ** Total of the joint probabilities *)

Lemma Rsum_scale k (f : nat -> R) l :
  Rsum (map (fun i => k * f i) l) = k * Rsum (map f l).
Proof.
  induction l as [|a l IH]; [simpl; ring|].
  cbn [map]. unfold Rsum in *. cbn [fold_right]. rewrite IH. ring.
Qed.

Lemma probOf_low ss : forall m j,
  (List.length ss <= m)%nat -> probOf ss (2 ^ m + j) = probOf ss j.
Proof.
  induction ss as [|s ss IH]; intros m j H; [reflexivity|].
  cbn [List.length] in H. cbn [probOf].
  rewrite testbit_add_pow_low by lia. rewrite IH by lia. reflexivity.
Qed.

(** Over all the basis indices the products add up to the product of the
    squared norms of the wires. *)
Lemma probOf_total ss :
  Rsum (map (probOf ss) (seq 0 (2 ^ List.length ss))) = Rprod (map normSq ss).
Proof.
  induction ss as [|s ss IH]; [simpl; ring|].
  cbn [List.length].
  replace (2 ^ S (List.length ss))%nat
    with (2 ^ List.length ss + 2 ^ List.length ss)%nat
    by (rewrite Nat.pow_succ_r'; lia).
  rewrite seq_app, map_app, Rsum_app. cbn [Nat.add].
  assert (Hlow : Rsum (map (probOf (s :: ss)) (seq 0 (2 ^ List.length ss)))
                 = prob0 (getProbabilities s) * Rprod (map normSq ss)).
  { rewrite <- IH, <- Rsum_scale. apply Rsum_map_ext.
    intros i Hi. apply in_seq in Hi. cbn [probOf].
    rewrite testbit_high by lia. reflexivity. }
  assert (Hhigh : Rsum (map (probOf (s :: ss))
                            (seq (2 ^ List.length ss) (2 ^ List.length ss)))
                  = prob1 (getProbabilities s) * Rprod (map normSq ss)).
  { rewrite <- IH, <- Rsum_scale, (seq_from (2 ^ List.length ss)), map_map.
    apply Rsum_map_ext.
    intros j Hj. apply in_seq in Hj. cbn [probOf].
    rewrite testbit_add_pow_top by lia. rewrite probOf_low by lia. reflexivity. }
  rewrite Hlow, Hhigh. cbn [map]. unfold Rprod; cbn [fold_right].
  set (rest := fold_right Rmult 1 (map normSq ss)).
  unfold normSq, getProbabilities; cbn [prob0 prob1]. ring.
Qed.

Lemma Rprod_ones l : Forall (fun x => x = 1) l -> Rprod l = 1.
Proof.
  induction 1 as [|a l Ha _ IH]; [reflexivity|].
  unfold Rprod in *. cbn [fold_right]. rewrite Ha, IH. ring.
Qed.

Lemma joint_unsorted qubitStates :
  (List.length qubitStates <= 31)%nat ->
  Permutation (getMultiQubitProbabilities qubitStates true)
              (map (fun i => mkEntry (labelOf (List.length qubitStates) i)
                                     (probOf qubitStates i))
                   (seq 0 (2 ^ List.length qubitStates))).
Proof.
  intros Hn. unfold getMultiQubitProbabilities.
  rewrite jsSort_perm, filter_all by reflexivity.
  rewrite (map_ext_in _ (fun i => mkEntry (labelOf (List.length qubitStates) i)
                                          (probOf qubitStates i))); [reflexivity|].
  intros i Hi. apply in_seq in Hi. apply jointEntry_spec; [exact Hn|lia].
Qed.

Lemma joint_total qubitStates :
  (List.length qubitStates <= 31)%nat ->
  Rsum (map probability (getMultiQubitProbabilities qubitStates true))
  = Rprod (map normSq qubitStates).
Proof.
  intros Hn.
  rewrite (Rsum_perm _ _ (Permutation_map probability (joint_unsorted _ Hn))).
  rewrite map_map. cbn [probability]. apply probOf_total.
Qed.

(** For at most 31 wires, the probabilities of the list returned with
    the zero entries included add up to the product of the squared norms
    of the wire states: to [1] when every wire state is normalised. *)
Theorem joint_probabilities_total (qubitStates : list State) :
  (List.length qubitStates <= 31)%nat ->
  Rsum (map probability (getMultiQubitProbabilities qubitStates true))
  = Rprod (map normSq qubitStates) /\
  (Forall (fun s => normSq s = 1) qubitStates ->
   Rsum (map probability (getMultiQubitProbabilities qubitStates true)) = 1).
Proof.
  intros Hn. split; [apply joint_total, Hn|].
  intros H. rewrite (joint_total _ Hn). apply Rprod_ones.
  apply Forall_map. exact H.
Qed.

Lemma joint_probabilities_total_witness :
  (List.length [STATE_PLUS; STATE_ONE] <= 31)%nat /\
  Rsum (map probability (getMultiQubitProbabilities [STATE_PLUS; STATE_ONE] true))
  = Rprod (map normSq [STATE_PLUS; STATE_ONE]).
Proof.
  assert (H : (List.length [STATE_PLUS; STATE_ONE] <= 31)%nat) by (simpl; lia).
  split; [exact H|].
  exact (proj1 (joint_probabilities_total [STATE_PLUS; STATE_ONE] H)).
Defined.
(** ** Sorting commutes with filtering and with monotone renaming *)

Section SortFilter.

Context {A : Type} (after : A -> A -> bool) (keep : A -> bool).

Hypothesis after_asym : forall a b, after a b = true -> after b a = false.
Hypothesis after_trans :
  forall x y z, after y x = true -> after y z = false -> after x z = false.
Hypothesis after_later :
  forall x y z, after y x = true -> after y z = false -> after z x = true.

Lemma insertBy_first x l :
  Forall (fun z => after z x = true) l -> insertBy after x l = x :: l.
Proof. destruct 1 as [|y l Hy _]; simpl; [reflexivity|rewrite Hy; reflexivity]. Qed.

Lemma filter_insertBy x l :
  StronglySorted (inOrder after) l ->
  filter keep (insertBy after x l)
  = if keep x then insertBy after x (filter keep l) else filter keep l.
Proof.
  induction l as [|y l IH]; intros Hs.
  - simpl. destruct (keep x); reflexivity.
  - inversion Hs as [|? ? Hs' Hall]; subst. cbn [insertBy].
    destruct (after y x) eqn:E.
    + assert (Hl : Forall (fun z => after z x = true) (y :: l)).
      { constructor; [exact E|]. eapply Forall_impl; [|exact Hall].
        intros z Hz. eapply after_later; eassumption. }
      change (filter keep (x :: y :: l))
        with (if keep x then x :: filter keep (y :: l) else filter keep (y :: l)).
      destruct (keep x); [|reflexivity].
      symmetry. apply insertBy_first, Forall_filter_keep, Hl.
    + cbn [filter]. rewrite (IH Hs').
      destruct (keep y), (keep x); cbn [insertBy]; try rewrite E; reflexivity.
Qed.

Lemma jsSort_filter_acc l : forall acc,
  StronglySorted (inOrder after) acc ->
  filter keep (fold_left (fun acc x => insertBy after x acc) l acc)
  = fold_left (fun acc x => insertBy after x acc) (filter keep l) (filter keep acc).
Proof.
  induction l as [|a l IH]; intros acc Hs; [reflexivity|].
  cbn [fold_left filter].
  rewrite IH by (apply (insertBy_sorted after after_asym after_trans), Hs).
  rewrite (filter_insertBy a acc Hs).
  destruct (keep a); reflexivity.
Qed.

Lemma jsSort_filter l : filter keep (jsSort after l) = jsSort after (filter keep l).
Proof. unfold jsSort. apply (jsSort_filter_acc l []). constructor. Qed.

End SortFilter.

Section SortMap.

Context {A B : Type} (after : A -> A -> bool) (after' : B -> B -> bool) (h : A -> B).

Hypothesis after_map : forall a b, after' (h a) (h b) = after a b.

Lemma insertBy_map x l : insertBy after' (h x) (map h l) = map h (insertBy after x l).
Proof.
  induction l as [|y l IH]; [reflexivity|].
  cbn [map insertBy]. rewrite after_map. destruct (after y x); [reflexivity|].
  cbn [map]. rewrite IH. reflexivity.
Qed.

Lemma jsSort_map_acc l : forall acc,
  fold_left (fun acc x => insertBy after' x acc) (map h l) (map h acc)
  = map h (fold_left (fun acc x => insertBy after x acc) l acc).
Proof.
  induction l as [|a l IH]; intros acc; [reflexivity|].
  cbn [map fold_left]. rewrite insertBy_map. apply IH.
Qed.

Lemma jsSort_map l : jsSort after' (map h l) = map h (jsSort after l).
Proof. unfold jsSort. apply (jsSort_map_acc l []). Qed.

End SortMap.

(** ** The probability panel *)

Lemma RltbAfter_later (x y z : R) :
  Rltb y x = true -> Rltb y z = false -> Rltb z x = true.
Proof. rewrite !Rltb_true, Rltb_false. lra. Qed.

Lemma filter_filter {A} (f g : A -> bool) l :
  filter f (filter g l) = filter (fun a => (g a && f a)%bool) l.
Proof.
  induction l as [|a l IH]; [reflexivity|].
  cbn [filter]. destruct (g a); cbn [filter andb]; rewrite IH; reflexivity.
Qed.

(** The entries the panel shows in the mode [presence], which it filters
    out of the list computed with the zero entries, are the list the
    application computes without the zero entries: filtering after the
    sort and sorting after the filter agree. *)
Theorem presence_is_probabilities (qubitStates : list State) :
  displayProbs "presence" (getMultiQubitProbabilities qubitStates true)
  = map barOf (getMultiQubitProbabilities qubitStates false).
Proof.
  unfold displayProbs. cbn [String.eqb Ascii.eqb Bool.eqb].
  change (if String.eqb "presence" "all" then _ else _)
    with (map barOf (filter (fun p => Rgtb (probability p) (1 / 1000))
                            (getMultiQubitProbabilities qubitStates true))).
  f_equal. unfold getMultiQubitProbabilities.
  rewrite (jsSort_filter (fun a b => Rltb (probability a) (probability b))).
  - f_equal. rewrite filter_filter. apply filter_ext. intros a. reflexivity.
  - intros a b. apply RltbAfter_asym.
  - intros a b c. apply RltbAfter_trans.
  - intros a b c. apply RltbAfter_later.
Qed.

Lemma filter_all_in {A} (f : A -> bool) l :
  (forall a, In a l -> f a = true) -> filter f l = l.
Proof.
  induction l as [|a l IH]; intros H; [reflexivity|].
  cbn [filter]. rewrite (H a (or_introl eq_refl)), IH; [reflexivity|].
  intros b Hb. apply H. right. exact Hb.
Qed.

Lemma fold_left_sum l : forall a,
  fold_left (fun sum p => sum + probability p) l a = a + Rsum (map probability l).
Proof.
  induction l as [|p l IH]; intros a; simpl; [ring|].
  rewrite IH. unfold Rsum. ring.
Qed.

Lemma map_barOf_probability l : map bar_probability (map barOf l) = map probability l.
Proof. rewrite map_map. apply map_ext. reflexivity. Qed.

(** In the mode [compact] the panel shows at most six bars; they carry
    the whole probability of the entries above [0.001]; every bar but the
    row of the others is one of those entries, and the bars before that
    row are the first five of them. *)
Theorem displayProbs_compact (allProbabilities : list Entry) :
  (List.length (displayProbs "compact" allProbabilities) <= 6)%nat /\
  Rsum (map bar_probability (displayProbs "compact" allProbabilities))
  = Rsum (map probability
              (filter (fun p => Rgtb (probability p) (1 / 1000)) allProbabilities)) /\
  filter (fun b => negb (isOthers b)) (displayProbs "compact" allProbabilities)
  = map barOf
        (firstn (if (List.length (filter (fun p => Rgtb (probability p) (1 / 1000))
                                         allProbabilities) <=? 6)%nat
                 then 6 else 5)
                (filter (fun p => Rgtb (probability p) (1 / 1000)) allProbabilities)) /\
  (forall b, In b (displayProbs "compact" allProbabilities) ->
             isOthers b = false -> 1 / 1000 < bar_probability b).
Proof.
  unfold displayProbs.
  change (String.eqb "compact" "all") with false.
  change (String.eqb "compact" "presence") with false. cbv iota.
  set (nonZero := filter (fun p => Rgtb (probability p) (1 / 1000)) allProbabilities).
  assert (Hnz : forall p, In p nonZero -> 1 / 1000 < probability p).
  { intros p Hp. apply filter_In in Hp. destruct Hp as [_ Hp].
    unfold Rgtb in Hp. apply Rltb_true in Hp. exact Hp. }
  assert (Hplain : forall l, filter (fun b => negb (isOthers b)) (map barOf l) = map barOf l).
  { intros l. apply filter_all_in. intros b Hb.
    apply in_map_iff in Hb. destruct Hb as (p & <- & _). reflexivity. }
  destruct (List.length nonZero <=? 6)%nat eqn:E.
  - apply Nat.leb_le in E. split; [rewrite length_map; exact E|].
    split; [rewrite map_barOf_probability; reflexivity|].
    split; [rewrite Hplain, firstn_all2 by exact E; reflexivity|].
    intros b Hb _. apply in_map_iff in Hb. destruct Hb as (p & <- & Hp).
    apply Hnz, Hp.
  - apply Nat.leb_gt in E. split; [|split; [|split]].
    + rewrite length_app, length_map, length_firstn. cbn [List.length].
      pose proof (Nat.le_min_l 5 (List.length nonZero)). lia.
    + rewrite map_app, Rsum_app, map_barOf_probability. cbn [map bar_probability].
      rewrite fold_left_sum. unfold Rsum at 2; cbn [fold_right].
      rewrite <- (firstn_skipn 5 nonZero) at 3. rewrite map_app, Rsum_app. ring.
    + rewrite filter_app, Hplain. cbn [filter isOthers negb]. apply app_nil_r.
    + intros b Hb Ho. apply in_app_or in Hb. destruct Hb as [Hb|[<-|[]]]; [|discriminate].
      apply in_map_iff in Hb. destruct Hb as (p & <- & Hp).
      apply Hnz. rewrite <- (firstn_skipn 5 nonZero). apply in_or_app. left. exact Hp.
Qed.
(** ** The gates of a frame *)

Lemma filter_none_in {A} (f : A -> bool) l :
  (forall a, In a l -> f a = false) -> filter f l = [].
Proof.
  induction l as [|a l IH]; intros H; [reflexivity|].
  cbn [filter]. rewrite (H a (or_introl eq_refl)). apply IH.
  intros b Hb. apply H. right. exact Hb.
Qed.

Lemma sortedBarriers_length barriers :
  List.length (sortedBarriers barriers) = List.length barriers.
Proof. apply jsSort_length. Qed.

(** The gates of a frame are the cells of the row below the bound of the
    frame. *)
Lemma getOrderedGates_bound circuits barriers q f :
  getOrderedGates circuits barriers q f
  = filter (fun e => beforeBound (frameBound barriers f) (slot e))
           (entriesFrom (nth q circuits []) 0).
Proof.
  unfold getOrderedGates, frameBound, barrierCount, sortedBarriers.
  rewrite entries_sort_id.
  destruct (f =? 0)%nat.
  - symmetry. apply filter_none_in. intros e _. reflexivity.
  - destruct (List.length barriers <? f)%nat.
    + symmetry. apply filter_all. reflexivity.
    + destruct (nth_error _ (f - 1)); [reflexivity|].
      symmetry. apply filter_all. reflexivity.
Qed.

Lemma frameBound_inner barriers f :
  (1 <= f <= List.length barriers)%nat ->
  frameBound barriers f = Some (nth (f - 1) (sortedBarriers barriers) 0%nat).
Proof.
  intros H. unfold frameBound.
  destruct (Nat.eqb_spec f 0) as [E|_]; [lia|].
  destruct (Nat.ltb_spec (List.length barriers) f) as [E|_]; [lia|].
  apply nth_error_nth'. rewrite sortedBarriers_length. lia.
Qed.

Lemma frameBound_zero barriers : frameBound barriers 0 = Some 0%nat.
Proof. reflexivity. Qed.

Lemma frameBound_beyond barriers f :
  (List.length barriers < f)%nat -> frameBound barriers f = None.
Proof.
  intros H. unfold frameBound.
  destruct (Nat.eqb_spec f 0) as [E|_]; [lia|].
  destruct (Nat.ltb_spec (List.length barriers) f) as [_|E]; [reflexivity|lia].
Qed.

Lemma sorted_nth (l : list nat) : StronglySorted le l ->
  forall i j, (i <= j < List.length l)%nat -> (nth i l 0 <= nth j l 0)%nat.
Proof.
  induction 1 as [|a l Hs IH Hall]; intros i j Hij; [simpl in Hij; lia|].
  destruct i as [|i], j as [|j]; cbn [nth]; [lia| |lia|].
  - rewrite Forall_forall in Hall. apply Hall, nth_In. simpl in Hij. lia.
  - apply IH. simpl in Hij. lia.
Qed.

(** A later frame has a larger bound. *)
Lemma beforeBound_monotone barriers f d s :
  beforeBound (frameBound barriers f) s = true ->
  beforeBound (frameBound barriers (f + d)) s = true.
Proof.
  destruct (Nat.eq_dec f 0) as [->|Hf]; [intros H; discriminate H|].
  destruct (Nat.le_gt_cases (f + d) (List.length barriers)) as [Hle|Hgt].
  - rewrite !frameBound_inner by lia. cbn [beforeBound].
    rewrite !Nat.ltb_lt. intros H.
    pose proof (sorted_nth _ (proj1 (sortedBarriers_spec barriers)) (f - 1) (f + d - 1)) as Hs.
    fold (sortedBarriers barriers) in Hs. rewrite sortedBarriers_length in Hs.
    specialize (Hs ltac:(lia)). lia.
  - rewrite (frameBound_beyond barriers (f + d)) by lia. reflexivity.
Qed.

Lemma filter_slot_prefix b (l : list Placed) :
  StronglySorted (fun a c => (slot a < slot c)%nat) l ->
  exists k, filter (fun e => beforeBound b (slot e)) l = firstn k l.
Proof.
  induction 1 as [|a l Hs IH Hall]; [exists 0%nat; reflexivity|].
  cbn [filter]. destruct (beforeBound b (slot a)) eqn:E.
  - destruct IH as [k Hk]. exists (S k). cbn [firstn]. rewrite Hk. reflexivity.
  - exists 0%nat. cbn [firstn]. apply filter_none_in. intros e He.
    rewrite Forall_forall in Hall. specialize (Hall e He).
    destruct b as [b|]; [|discriminate E]. cbn [beforeBound] in *.
    apply Nat.ltb_ge in E. apply Nat.ltb_ge. lia.
Qed.

Lemma getOrderedGates_sorted circuits barriers q f :
  StronglySorted (fun a c => (slot a < slot c)%nat) (getOrderedGates circuits barriers q f).
Proof. rewrite getOrderedGates_bound. apply StronglySorted_filter, entriesFrom_sorted. Qed.

(** Stepping forward never removes a gate and never reorders: the gates
    of a frame are an initial segment of the gates of every later frame,
    which are an initial segment of the cells of the row. *)
Theorem getOrderedGates_monotone (circuits : Circuits) (barriers : list nat) (q f d : nat) :
  (exists k, getOrderedGates circuits barriers q f
             = firstn k (getOrderedGates circuits barriers q (f + d))) /\
  (exists k, getOrderedGates circuits barriers q f
             = firstn k (entriesFrom (nth q circuits []) 0)).
Proof.
  split.
  - destruct (filter_slot_prefix (frameBound barriers f) _
                (getOrderedGates_sorted circuits barriers q (f + d))) as [k Hk].
    exists k. rewrite <- Hk. rewrite !getOrderedGates_bound, filter_filter.
    apply filter_ext_in. intros e _.
    destruct (beforeBound (frameBound barriers f) (slot e)) eqn:E.
    + rewrite (beforeBound_monotone _ _ _ _ E). reflexivity.
    + symmetry. apply andb_false_r.
  - rewrite getOrderedGates_bound. apply filter_slot_prefix, entriesFrom_sorted.
Qed.

(** ** The circuit panel agrees with the simulation *)

Lemma isGateAnimated_bound barriers f s :
  isGateAnimated barriers true (Some f) s = beforeBound (frameBound barriers f) s.
Proof.
  unfold isGateAnimated, frameBound. cbn [negb]. rewrite sortedBarriers_length.
  destruct (Nat.eqb_spec f 0) as [->|Hf]; [reflexivity|].
  destruct (Nat.ltb_spec (List.length barriers) f) as [H|H]; [reflexivity|].
  destruct (nth_error (sortedBarriers barriers) (f - 1)) eqn:E; [reflexivity|].
  apply nth_error_None in E. rewrite sortedBarriers_length in E. lia.
Qed.

(** While the animation plays, the gates the circuit panel draws as active
    are the gates the simulation applies: a cell belongs to the gates of
    the frame exactly when [isGateAnimated] holds of its slot.  The same
    holds for the frame [-1], which selects the whole circuit. *)
Theorem isGateAnimated_iff (circuits : Circuits) (barriers : list nat)
    (q s : nat) (g : Gate) (animationFrame : option nat) :
  In (place g s) (getOrderedGates circuits barriers q (frameOf barriers animationFrame)) <->
  nth_error (nth q circuits []) s = Some (Some g) /\
  isGateAnimated barriers true animationFrame s = true.
Proof.
  rewrite getOrderedGates_bound, filter_In, entriesFrom_In, Nat.sub_0_r.
  cbn [slot].
  assert (E : beforeBound (frameBound barriers (frameOf barriers animationFrame)) s
              = isGateAnimated barriers true animationFrame s).
  { destruct animationFrame as [f|]; cbn [frameOf].
    - symmetry. apply isGateAnimated_bound.
    - unfold totalFrames, barrierCount.
      rewrite frameBound_beyond by lia. reflexivity. }
  rewrite E. split; [intros [[_ H1] H2]|intros [H1 H2]]; repeat split; try assumption; lia.
Qed.

(** ** Control signals fire when their gate enters the circuit *)

Lemma inSlotRange_spec barriers f s :
  (1 <= f <= List.length barriers + 1)%nat ->
  inSlotRange (slotRange barriers f) s
  = (beforeBound (frameBound barriers f) s
     && negb (beforeBound (frameBound barriers (f - 1)) s))%bool.
Proof.
  intros Hf. unfold slotRange, inSlotRange. rewrite sortedBarriers_length.
  destruct (Nat.leb_spec f (List.length barriers)) as [Hle|Hgt].
  - replace (0 <? f)%nat with true by (symmetry; apply Nat.ltb_lt; lia).
    cbn [andb fst snd]. rewrite (frameBound_inner barriers f) by lia. cbn [beforeBound].
    destruct (Nat.ltb_spec 1 f) as [H1|H1].
    + rewrite (frameBound_inner barriers (f - 1)) by lia. cbn [beforeBound].
      replace (f - 1 - 1)%nat with (f - 2)%nat by lia.
      rewrite andb_comm. f_equal.
      destruct (Nat.leb_spec (nth (f - 2) (sortedBarriers barriers) 0%nat) s);
        destruct (Nat.ltb_spec s (nth (f - 2) (sortedBarriers barriers) 0%nat));
        try reflexivity; lia.
    + replace (f - 1)%nat with 0%nat by lia. rewrite frameBound_zero. cbn [beforeBound].
      rewrite andb_comm. reflexivity.
  - replace (0 <? f)%nat with true by (symmetry; apply Nat.ltb_lt; lia).
    cbn [andb].
    replace (List.length barriers <? f)%nat with true by (symmetry; apply Nat.ltb_lt; lia).
    cbn [fst snd]. rewrite (frameBound_beyond barriers f) by lia. cbn [beforeBound].
    rewrite andb_true_r.
    destruct (Nat.ltb_spec 0 (List.length barriers)) as [Hn|Hn].
    + rewrite (frameBound_inner barriers (f - 1)) by lia. cbn [beforeBound].
      replace (f - 1 - 1)%nat with (List.length barriers - 1)%nat by lia.
      destruct (Nat.leb_spec (nth (List.length barriers - 1) (sortedBarriers barriers) 0%nat) s);
        destruct (Nat.ltb_spec s (nth (List.length barriers - 1) (sortedBarriers barriers) 0%nat));
        try reflexivity; lia.
    + replace (f - 1)%nat with 0%nat by lia. rewrite frameBound_zero. reflexivity.
Qed.

Lemma activeControlSignals_In circuits barriers mode f sg :
  (1 <= f <= List.length barriers + 1)%nat ->
  (In sg (activeControlSignals circuits barriers mode true (Some f)) <->
   exists q e,
     In e (getOrderedGates circuits barriers q f) /\
     ~ In e (getOrderedGates circuits barriers q (f - 1)) /\
     isControlled e = true /\
     sg = mkSignal (controlOf e) q
            (detectPhaseKickback mode (cell e) q (slot e)
               (buildColumnStateCache circuits barriers mode f))).
Proof.
  intros Hf. unfold activeControlSignals. cbn [negb orb].
  destruct (Nat.eqb_spec f 0) as [E|_]; [lia|].
  rewrite in_flat_map. split.
  - intros (q & Hq & H). apply in_flat_map in H. destruct H as (e & He & H).
    rewrite (inSlotRange_spec barriers f (slot e) Hf) in H.
    destruct (isControlled e) eqn:Ec; [|contradiction].
    destruct (beforeBound (frameBound barriers f) (slot e)) eqn:E1; [|contradiction].
    destruct (beforeBound (frameBound barriers (f - 1)) (slot e)) eqn:E2; [contradiction|].
    cbn [andb negb] in H. destruct H as [<-|[]].
    exists q, e. rewrite !getOrderedGates_bound, !filter_In.
    split; [split; assumption|]. split; [|split; [exact Ec|reflexivity]].
    intros [_ H]. rewrite E2 in H. discriminate.
  - intros (q & e & H1 & H2 & Hc & ->).
    rewrite getOrderedGates_bound, filter_In in H1, H2. destruct H1 as [He E1].
    assert (Hq : (q < List.length circuits)%nat).
    { destruct (Nat.lt_ge_cases q (List.length circuits)) as [H|H]; [exact H|].
      rewrite nth_overflow in He by exact H. contradiction. }
    exists q. split; [apply in_seq; lia|].
    apply in_flat_map. exists e. split; [exact He|].
    rewrite (inSlotRange_spec barriers f (slot e) Hf), Hc, E1.
    destruct (beforeBound (frameBound barriers (f - 1)) (slot e)) eqn:E2.
    + contradiction H2. split; [exact He|reflexivity].
    + left. reflexivity.
Qed.

(** While the animation plays at a frame [1 .. barrierCount + 1], the
    signals are those of the controlled gates that the frame adds: the
    gates of the frame that are not gates of the frame before, each with
    the controlling wire as origin, its own wire as destination and the
    verdict of the detector at its slot. *)
Theorem activeControlSignals_new_gates (circuits : Circuits) (barriers : list nat)
    (initialStateMode : string) (f : nat) (sg : Signal) :
  (1 <= f <= List.length barriers + 1)%nat ->
  (In sg (activeControlSignals circuits barriers initialStateMode true (Some f)) <->
   exists q e,
     In e (getOrderedGates circuits barriers q f) /\
     ~ In e (getOrderedGates circuits barriers q (f - 1)) /\
     isControlled e = true /\
     sg = mkSignal (controlOf e) q
            (detectPhaseKickback initialStateMode (cell e) q (slot e)
               (buildColumnStateCache circuits barriers initialStateMode f))).
Proof. apply activeControlSignals_In. Qed.

Lemma activeControlSignals_new_gates_witness :
  (1 <= 1 <= List.length (@nil nat) + 1)%nat /\
  (In (mkSignal 0 1 true) (activeControlSignals czOne [] "zero" true (Some 1%nat)) <->
   exists q e,
     In e (getOrderedGates czOne [] q 1) /\
     ~ In e (getOrderedGates czOne [] q (1 - 1)) /\
     isControlled e = true /\
     mkSignal 0 1 true
     = mkSignal (controlOf e) q
         (detectPhaseKickback "zero" (cell e) q (slot e)
            (buildColumnStateCache czOne [] "zero" 1))).
Proof.
  assert (H : (1 <= 1 <= List.length (@nil nat) + 1)%nat) by (simpl; lia).
  split; [exact H|].
  exact (activeControlSignals_new_gates czOne [] "zero" 1 (mkSignal 0 1 true) H).
Defined.
(** ** What every emitted branch satisfies *)

Lemma applyGates_normalized gateList : forall s,
  normSq s = 1 -> normSq (applyGates gateList s) = 1.
Proof.
  unfold applyGates. induction gateList as [|g l IH]; intros s H; simpl; [exact H|].
  apply IH. destruct (isBarrierOrControl (cell g)); [exact H|].
  apply applyGate_normalized, H.
Qed.

Lemma branchOf_state mode gates uc cp c :
  normSq (br_state (branchOf mode gates uc cp c)) = 1 /\
  coords (branchOf mode gates uc cp c)
  = stateToBlochCoords (br_state (branchOf mode gates uc cp c)).
Proof.
  unfold branchOf. destruct (comboAssign uc cp c) as [ca p]. cbn [br_state coords].
  split; [apply applyGates_normalized, initial_normalized|reflexivity].
Qed.

Section MergeKeeps.

(** A property of branches that survives a rise of the probability. *)
Variable Q : Branch -> Prop.
Hypothesis Q_rise : forall b p,
  Q b -> 0 <= p ->
  Q (mkBranch (br_state b) (coords b) (br_probability b + p) (rotations b)).

Lemma addToExisting_Forall merged branch merged' :
  0 <= br_probability branch ->
  Forall Q merged -> addToExisting merged branch = Some merged' -> Forall Q merged'.
Proof.
  intros Hp. revert merged'.
  induction merged as [|b rest IH]; intros merged' HQ H; simpl in H; [discriminate|].
  inversion HQ as [|? ? Hb Hrest]; subst.
  destruct (sameBranch b branch).
  - inversion H; subst. constructor; [apply Q_rise; assumption|exact Hrest].
  - destruct (addToExisting rest branch) as [rest'|]; [|discriminate].
    inversion H; subst. constructor; [exact Hb|apply IH; [exact Hrest|reflexivity]].
Qed.

Lemma mergeStep_Forall merged branch :
  0 <= br_probability branch -> Q branch ->
  Forall Q merged -> Forall Q (mergeStep merged branch).
Proof.
  intros Hp Hb HQ. unfold mergeStep.
  destruct (addToExisting merged branch) as [m|] eqn:E.
  - apply (addToExisting_Forall merged branch m Hp HQ E).
  - apply Forall_app. split; [exact HQ|]. constructor; [exact Hb|constructor].
Qed.

Lemma mergeBranches_Forall branches :
  Forall (fun b => 0 <= br_probability b) branches ->
  Forall Q branches -> Forall Q (mergeBranches branches).
Proof.
  unfold mergeBranches. intros Hpos HQ.
  assert (H : forall merged, Forall Q merged -> Forall Q (fold_left mergeStep branches merged)).
  { induction branches as [|b l IH]; intros merged Hm; simpl; [exact Hm|].
    inversion Hpos; subst. inversion HQ; subst.
    apply IH; try assumption. apply mergeStep_Forall; assumption. }
  apply H. constructor.
Qed.

End MergeKeeps.

Lemma wireBranches_good circuits barriers mode frame qi :
  wireBranches circuits barriers mode frame qi <> [] /\
  Forall (fun b => 1 / 100 <= br_probability b /\
                   normSq (br_state b) = 1 /\
                   coords b = stateToBlochCoords (br_state b))
         (wireBranches circuits barriers mode frame qi).
Proof.
  pose proof (wireBranches_cases circuits barriers mode frame qi) as H. cbv zeta in H.
  pose proof (raw_probability circuits barriers mode frame qi) as Hraw. cbv zeta in Hraw.
  pose proof (raw_spec circuits barriers mode frame qi) as Hspec. cbv zeta in Hspec.
  destruct H as [[_ ->]|[(_ & _ & ->)|(_ & Hne & ->)]].
  - split; [discriminate|]. constructor; [|constructor]. cbn [br_probability br_state coords].
    split; [lra|]. split; [apply applyGates_normalized, initial_normalized|reflexivity].
  - split; [discriminate|]. constructor; [|constructor].
    unfold fallbackBranch; cbn [br_probability br_state coords].
    split; [lra|]. split; [apply initial_normalized|reflexivity].
  - split.
    + intros E. apply Hne.
      pose proof (jsSort_length probabilityAfter
                    (mergeBranches
                       (rawBranches mode (buildColumnStateCache circuits barriers mode frame)
                          (effectiveGates circuits barriers mode
                             (buildColumnStateCache circuits barriers mode frame) frame qi))))
        as Hl.
      rewrite E in Hl. cbn [List.length] in Hl.
      set (raw := rawBranches _ _ _) in *.
      destruct raw as [|b l] eqn:Er; [reflexivity|exfalso].
      assert (Hpos : Forall (fun b => 0 <= br_probability b) (b :: l)).
      { eapply Forall_impl; [|exact Hraw]. simpl. intros; lra. }
      destruct (mergeBranches_inv (b :: l) Hpos) as (_ & _ & Hrep).
      destruct (Hrep b (or_introl eq_refl)) as (e & He & _).
      destruct (mergeBranches (b :: l)); [contradiction|discriminate].
    + eapply Permutation_Forall; [symmetry; apply jsSort_perm|].
      apply mergeBranches_Forall.
      * intros b p (H1 & H2 & H3) Hp. cbn [br_probability br_state coords].
        split; [lra|]. split; assumption.
      * eapply Forall_impl; [|exact Hraw]. simpl. intros; lra.
      * rewrite Forall_forall in Hraw. apply Forall_forall. intros b Hb.
        split; [apply Hraw, Hb|].
        rewrite Hspec in Hb. apply in_map_iff in Hb. destruct Hb as (c & <- & _).
        apply branchOf_state.
Qed.

(** For every circuit, wire and frame, the list of branches is not empty,
    and every branch has a probability of at least [0.01], a normalised
    state and the Bloch coordinates of that state. *)
Theorem wireBranches_invariants (circuits : Circuits) (barriers : list nat)
    (initialStateMode : string) (frame qi : nat) :
  wireBranches circuits barriers initialStateMode frame qi <> [] /\
  Forall (fun b => 1 / 100 <= br_probability b /\
                   normSq (br_state b) = 1 /\
                   coords b = stateToBlochCoords (br_state b))
         (wireBranches circuits barriers initialStateMode frame qi).
Proof. apply wireBranches_good. Qed.

(** ** The states the application derives from the branches *)

Lemma representative_In mode (bs : list Branch) :
  bs <> [] -> exists b, In b bs /\ representative mode bs = br_state b.
Proof.
  destruct bs as [|a rest]; [intros H; contradiction H; reflexivity|]. intros _.
  cbn [representative].
  assert (H : forall l acc, In acc (a :: rest) -> incl l (a :: rest) ->
            In (fold_left (fun a c => if Rgtb (br_probability c) (br_probability a)
                                      then c else a) l acc) (a :: rest)).
  { induction l as [|c l IH]; intros acc Hacc Hl; [exact Hacc|].
    cbn [fold_left]. apply IH.
    - destruct (Rgtb _ _); [apply Hl; left; reflexivity|exact Hacc].
    - intros y Hy. apply Hl. right. exact Hy. }
  eexists. split; [|reflexivity].
  apply H; [left; reflexivity|intros y Hy; right; exact Hy].
Qed.

Lemma qubitStates_normSq circuits barriers mode animationFrame :
  Forall (fun s => normSq s = 1) (qubitStates circuits barriers mode animationFrame).
Proof.
  unfold qubitStates, qubitBranches. rewrite map_map. apply Forall_map.
  apply Forall_forall. intros qi _.
  destruct (wireBranches_good circuits barriers mode (frameOf barriers animationFrame) qi)
    as [Hne Hall].
  destruct (representative_In mode _ Hne) as (b & Hb & ->).
  rewrite Forall_forall in Hall. apply (Hall b Hb).
Qed.

(** The application keeps one state per wire, every one normalised; so,
    for a circuit of at most 31 wires, the probabilities of the joint
    outcomes it displays with the zero entries add up to [1], at every
    frame. *)
Theorem qubitStates_total (circuits : Circuits) (barriers : list nat)
    (initialStateMode : string) (animationFrame : option nat) :
  List.length (qubitStates circuits barriers initialStateMode animationFrame)
  = List.length circuits /\
  Forall (fun s => normSq s = 1)
         (qubitStates circuits barriers initialStateMode animationFrame) /\
  ((List.length circuits <= 31)%nat ->
   Rsum (map probability
             (getMultiQubitProbabilities
                (qubitStates circuits barriers initialStateMode animationFrame) true)) = 1).
Proof.
  assert (Hlen : List.length (qubitStates circuits barriers initialStateMode animationFrame)
                 = List.length circuits).
  { unfold qubitStates, qubitBranches. rewrite !length_map, length_seq. reflexivity. }
  split; [exact Hlen|]. split; [apply qubitStates_normSq|].
  intros Hn. rewrite joint_total by (rewrite Hlen; exact Hn).
  apply Rprod_ones, Forall_map, qubitStates_normSq.
Qed.

(** ** Wires without controls *)

Lemma flat_map_nil {A B} (f : A -> list B) l :
  (forall a, In a l -> f a = []) -> flat_map f l = [].
Proof.
  induction l as [|a l IH]; intros H; [reflexivity|].
  cbn [flat_map]. rewrite (H a (or_introl eq_refl)), IH; [reflexivity|].
  intros b Hb. apply H. right. exact Hb.
Qed.

Lemma getOrderedGates_cells circuits barriers q f e :
  In e (getOrderedGates circuits barriers q f) ->
  nth_error (nth q circuits []) (slot e) = Some (Some (cell e)).
Proof.
  rewrite getOrderedGates_bound, filter_In. intros [H _].
  destruct e as [g s]. apply entriesFrom_In in H. rewrite Nat.sub_0_r in H. apply H.
Qed.

Lemma getOrderedGates_inOrder circuits barriers q f :
  StronglySorted (inOrder slotAfter) (getOrderedGates circuits barriers q f).
Proof.
  apply (StronglySorted_weaken (fun a b => (slot a < slot b)%nat));
    [|apply getOrderedGates_sorted].
  intros a b H. unfold inOrder, slotAfter. apply Nat.ltb_ge. lia.
Qed.

Lemma find_none_in {A} (f : A -> bool) l :
  (forall a, In a l -> f a = false) -> find f l = None.
Proof.
  induction l as [|a l IH]; intros H; [reflexivity|].
  cbn [find]. rewrite (H a (or_introl eq_refl)). apply IH.
  intros b Hb. apply H. right. exact Hb.
Qed.

Lemma plain_wire circuits barriers mode frame qi :
  (forall q s g, nth_error (nth q circuits []) s = Some (Some g) -> controlIndex g = None) ->
  wireBranches circuits barriers mode frame qi
  = [mkBranch (applyGates (getOrderedGates circuits barriers qi frame) (getInitialState mode))
              (stateToBlochCoords
                 (applyGates (getOrderedGates circuits barriers qi frame)
                             (getInitialState mode)))
              1
              (buildRotations (getOrderedGates circuits barriers qi frame))].
Proof.
  intros Hno.
  assert (Hk : getKickbackGatesForControl circuits barriers mode
                 (buildColumnStateCache circuits barriers mode frame) frame qi = []).
  { unfold getKickbackGatesForControl. apply flat_map_nil. intros q _.
    apply flat_map_nil. intros e He.
    rewrite (Hno _ _ _ (getOrderedGates_cells _ _ _ _ _ He)).
    destruct (String.eqb (gate (cell e)) "CONTROL"); reflexivity. }
  assert (Hg : effectiveGates circuits barriers mode
                 (buildColumnStateCache circuits barriers mode frame) frame qi
               = getOrderedGates circuits barriers qi frame).
  { unfold effectiveGates. rewrite Hk, app_nil_r.
    apply jsSort_id, getOrderedGates_inOrder. }
  unfold wireBranches. rewrite Hg.
  rewrite find_none_in; [reflexivity|].
  intros e He. unfold isControlled.
  rewrite (Hno _ _ _ (getOrderedGates_cells _ _ _ _ _ He)). reflexivity.
Qed.

(** At the frame [0] every wire has the single branch of its initial
    state; and in a circuit without controlled gates every wire has, at
    every frame, a single branch of probability [1]: the gates of the frame
    applied in slot order to the initial state. *)
Theorem wireBranches_plain (circuits : Circuits) (barriers : list nat)
    (initialStateMode : string) (frame qi : nat) :
  wireBranches circuits barriers initialStateMode 0 qi = [fallbackBranch initialStateMode] /\
  ((forall q s g, nth_error (nth q circuits []) s = Some (Some g) -> controlIndex g = None) ->
   wireBranches circuits barriers initialStateMode frame qi
   = [mkBranch (applyGates (getOrderedGates circuits barriers qi frame)
                           (getInitialState initialStateMode))
               (stateToBlochCoords
                  (applyGates (getOrderedGates circuits barriers qi frame)
                              (getInitialState initialStateMode)))
               1
               (buildRotations (getOrderedGates circuits barriers qi frame))]).
Proof.
  split; [|apply plain_wire].
  assert (Hk : getKickbackGatesForControl circuits barriers initialStateMode
                 (buildColumnStateCache circuits barriers initialStateMode 0) 0 qi = []).
  { unfold getKickbackGatesForControl. apply flat_map_nil. intros q _. reflexivity. }
  unfold wireBranches, effectiveGates. rewrite Hk. reflexivity.
Qed.

(** ** The gates synthesized for a controlling wire *)

Lemma kickback_phase_range g s phase :
  getKickbackPhaseForControlledGate (Some g) (Some s) TOL = Some phase ->
  - PI < phase <= PI.
Proof.
  intros H. destruct (kickback_Some_inv g s phase H) as (ref & _ & Hz).
  cbv zeta in Hz. destruct Hz as (_ & _ & ->).
  set (r := cScale _ _). pose proof (cPhase_range r) as Hr.
  rewrite normalizeAngle_id by lra.
  destruct (snapped_cases (cPhase r)) as [Hlo Hhi].
  destruct (Rle_dec (Rabs (cPhase r)) TOL) as [E|E].
  - rewrite (Hlo E). pose proof PI_RGT_0. lra.
  - rewrite Hhi by lra. exact Hr.
Qed.

(** Every gate synthesized on a controlling wire is a phase gate
    [U(0, 0, phase)] without control of its own, flagged as derived; its
    phase lies in [(-PI, PI]] and exceeds [0.01] in magnitude, and it sits
    at the slot of a gate of the frame that this wire controls and for
    which the detector returns that phase. *)
Theorem kickback_gates_shape (circuits : Circuits) (barriers : list nat)
    (initialStateMode : string) (stateCache : list (list State))
    (frame controlQubit : nat) (e : Placed) :
  In e (getKickbackGatesForControl circuits barriers initialStateMode stateCache
          frame controlQubit) ->
  exists phase targetQubit g,
    e = kickbackGate phase (slot e) /\
    1 / 100 < Rabs phase /\ - PI < phase <= PI /\
    isControlled e = false /\
    In (place g (slot e)) (getOrderedGates circuits barriers targetQubit frame) /\
    controlIndex g = Some controlQubit /\
    String.eqb (gate g) "CONTROL" = false /\
    getKickbackPhaseForControlledGate
      (Some g) (Some (cachedState initialStateMode stateCache targetQubit (slot e))) TOL
    = Some phase.
Proof.
  unfold getKickbackGatesForControl. intros H.
  apply in_flat_map in H. destruct H as (q & _ & H).
  apply in_flat_map in H. destruct H as ([g s] & Hg & H). cbn [cell slot] in H.
  destruct (String.eqb (gate g) "CONTROL") eqn:Ec; [contradiction|].
  destruct (controlIndex g) as [c|] eqn:Eci; cbn [option_nat_eqb negb] in H;
    [|contradiction].
  destruct (Nat.eqb_spec c controlQubit) as [->|Hne]; cbn [negb] in H; [|contradiction].
  destruct (getKickbackPhaseForControlledGate _ _ TOL) as [phase|] eqn:Ep; [|contradiction].
  destruct (Rleb (Rabs phase) (1 / 100)) eqn:El; [contradiction|].
  destruct H as [<-|[]]. apply Rleb_false in El.
  exists phase, q, g. cbn [slot kickbackGate].
  split; [reflexivity|]. split; [exact El|].
  split; [apply (kickback_phase_range _ _ _ Ep)|].
  split; [reflexivity|]. split; [exact Hg|]. split; [exact Eci|].
  split; [exact Ec|exact Ep].
Qed.

Lemma kickback_gates_shape_witness :
  In (kickbackGate PI 1)
     (getKickbackGatesForControl czOne [] "zero" (buildColumnStateCache czOne [] "zero" 1) 1 0) /\
  exists phase targetQubit g,
    kickbackGate PI 1 = kickbackGate phase (slot (kickbackGate PI 1)) /\
    1 / 100 < Rabs phase /\ - PI < phase <= PI /\
    isControlled (kickbackGate PI 1) = false /\
    In (place g (slot (kickbackGate PI 1))) (getOrderedGates czOne [] targetQubit 1) /\
    controlIndex g = Some 0%nat /\
    String.eqb (gate g) "CONTROL" = false /\
    getKickbackPhaseForControlledGate
      (Some g)
      (Some (cachedState "zero" (buildColumnStateCache czOne [] "zero" 1) targetQubit
               (slot (kickbackGate PI 1)))) TOL
    = Some phase.
Proof.
  assert (H : In (kickbackGate PI 1)
                 (getKickbackGatesForControl czOne [] "zero"
                    (buildColumnStateCache czOne [] "zero" 1) 1 0)).
  { rewrite czOne_kickback_gates. left. reflexivity. }
  split; [exact H|].
  exact (kickback_gates_shape czOne [] "zero" _ 1 0 (kickbackGate PI 1) H).
Defined.
(** ** Arrays: assignment and the shift of the columns *)

Lemma nth_update {A} (l : list A) i x d j :
  (i < List.length l)%nat ->
  nth j (firstn i l ++ x :: skipn (S i) l) d = if (j =? i)%nat then x else nth j l d.
Proof.
  intros Hi.
  assert (Hl : List.length (firstn i l) = i) by (rewrite length_firstn; lia).
  destruct (Nat.eqb_spec j i) as [->|Hne].
  - rewrite <- Hl at 1. apply nth_middle.
  - destruct (Nat.lt_ge_cases j i) as [H|H].
    + rewrite app_nth1 by lia. rewrite nth_firstn.
      destruct (Nat.ltb_spec j i); [reflexivity|lia].
    + rewrite app_nth2 by lia. rewrite Hl.
      replace (j - i)%nat with (S (j - i - 1)) by lia. cbn [nth].
      rewrite nth_skipn. f_equal. lia.
Qed.

Lemma length_update {A} (l : list A) i x :
  (i < List.length l)%nat ->
  List.length (firstn i l ++ x :: skipn (S i) l) = List.length l.
Proof.
  intros Hi. rewrite length_app, length_firstn. cbn [List.length].
  rewrite length_skipn. lia.
Qed.

(** Reading after an assignment. *)
Lemma nth_setAt row i v j :
  nth j (setAt row i v) None = if (j =? i)%nat then v else nth j row None.
Proof.
  unfold setAt. destruct (Nat.ltb_spec i (List.length row)) as [Hi|Hi].
  - apply nth_update. exact Hi.
  - destruct (Nat.eqb_spec j i) as [->|Hne].
    + rewrite app_nth2 by lia. rewrite app_nth2 by (rewrite repeat_length; lia).
      rewrite repeat_length, Nat.sub_diag. reflexivity.
    + destruct (Nat.lt_ge_cases j (List.length row)) as [H|H].
      * rewrite app_nth1 by lia. reflexivity.
      * rewrite app_nth2 by lia. rewrite (nth_overflow row) by lia.
        destruct (Nat.lt_ge_cases (j - List.length row) (i - List.length row)) as [H'|H'].
        -- rewrite app_nth1 by (rewrite repeat_length; lia). apply nth_repeat.
        -- rewrite app_nth2 by (rewrite repeat_length; lia). rewrite repeat_length.
           destruct (j - List.length row - (i - List.length row))%nat as [|[|n]] eqn:E;
             [lia|reflexivity|reflexivity].
Qed.

Lemma nth_nil_cell j : nth j (@nil (option Gate)) None = None.
Proof. destruct j; reflexivity. Qed.

Lemma cellAt_overflow c q s : (List.length c <= q)%nat -> cellAt c q s = None.
Proof.
  intros H. unfold cellAt. rewrite (nth_overflow c) by exact H. apply nth_nil_cell.
Qed.

Lemma cellAt_row c q s g : cellAt c q s = Some g -> (q < List.length c)%nat.
Proof.
  intros H. destruct (Nat.lt_ge_cases q (List.length c)) as [Hq|Hq]; [exact Hq|].
  rewrite cellAt_overflow in H by exact Hq. discriminate.
Qed.

Lemma setCell_Returned c qi si v :
  (qi < List.length c)%nat ->
  setCell c qi si v
  = Returned (firstn qi c ++ setAt (nth qi c []) si v :: skipn (S qi) c).
Proof.
  intros H. unfold setCell. rewrite (nth_error_nth' c [] H). reflexivity.
Qed.

Lemma setCell_inv c qi si v c' :
  setCell c qi si v = Returned c' ->
  (qi < List.length c)%nat /\ List.length c' = List.length c /\
  forall q s, cellAt c' q s
              = if ((q =? qi) && (s =? si))%nat%bool then v else cellAt c q s.
Proof.
  unfold setCell. destruct (nth_error c qi) as [row|] eqn:E; [|discriminate].
  intros H.
  assert (Hc : c' = firstn qi c ++ setAt row si v :: skipn (S qi) c) by congruence.
  clear H. subst c'.
  assert (Hq : (qi < List.length c)%nat) by (apply nth_error_Some; congruence).
  split; [exact Hq|]. split; [apply length_update, Hq|].
  intros q s. unfold cellAt. rewrite nth_update by exact Hq.
  destruct (Nat.eqb_spec q qi) as [->|Hne]; cbn [andb]; [|reflexivity].
  rewrite nth_setAt, (nth_error_nth c qi [] E). reflexivity.
Qed.

Lemma shift_loop f n : forall cur j,
  nth j (fold_left (fun newRow s => setAt newRow s (nth (s - 1) newRow None))
                   (rev (seq (S f) n)) cur) None
  = if ((f <? j) && (j <=? f + n))%nat%bool then nth (j - 1) cur None else nth j cur None.
Proof.
  induction n as [|n IH]; intros cur j.
  - cbn [seq rev fold_left].
    destruct (Nat.ltb_spec f j), (Nat.leb_spec j (f + 0)); cbn [andb]; try reflexivity; lia.
  - rewrite seq_S, rev_app_distr. cbn [rev app fold_left]. rewrite IH, !nth_setAt.
    destruct (Nat.ltb_spec f j), (Nat.leb_spec j (f + n)), (Nat.leb_spec j (f + S n)),
             (Nat.eqb_spec (j - 1) (S f + n)), (Nat.eqb_spec j (S f + n));
      cbn [andb]; try reflexivity; try lia; f_equal; lia.
Qed.

(** Reading after the shift of a row: the cells from [fromSlot] on moved
    one slot to the right and the slot [fromSlot] is empty. *)
Lemma nth_shiftRow row f j :
  nth j (shiftRow row f) None
  = if (j <? f)%nat then nth j row None
    else if (j =? f)%nat then None else nth (j - 1) row None.
Proof.
  unfold shiftRow. rewrite nth_setAt, shift_loop.
  destruct (Nat.eqb_spec j f), (Nat.ltb_spec j f), (Nat.ltb_spec f j),
           (Nat.leb_spec j (f + (List.length row - f))); cbn [andb];
    try reflexivity; try lia.
  rewrite !(nth_overflow row) by lia. reflexivity.
Qed.

Lemma cellAt_shift c f q s :
  cellAt (shiftAllColumnsRight c f) q s
  = if (s <? f)%nat then cellAt c q s
    else if (s =? f)%nat then None else cellAt c q (s - 1).
Proof.
  unfold cellAt, shiftAllColumnsRight.
  destruct (Nat.lt_ge_cases q (List.length c)) as [Hq|Hq].
  - rewrite (nth_indep _ [] (shiftRow [] f)) by (rewrite length_map; exact Hq).
    change (shiftRow [] f) with ((fun row => shiftRow row f) []).
    rewrite map_nth. apply nth_shiftRow.
  - rewrite (nth_overflow (map _ c)) by (rewrite length_map; exact Hq).
    rewrite (nth_overflow c) by exact Hq.
    rewrite !nth_nil_cell. destruct (s <? f)%nat, (s =? f)%nat; reflexivity.
Qed.

Lemma shiftAllColumnsRight_length c f :
  List.length (shiftAllColumnsRight c f) = List.length c.
Proof. apply length_map. Qed.

(** ** The cells of a row, from its reading *)

Lemma nth_error_cell (row : list (option Gate)) s g :
  nth_error row s = Some (Some g) <-> nth s row None = Some g.
Proof.
  split; intros H.
  - apply (nth_error_nth row s None H).
  - destruct (nth_error row s) as [o|] eqn:E.
    + rewrite (nth_error_nth row s None E) in H. rewrite H. reflexivity.
    + apply nth_error_None in E. rewrite nth_overflow in H by exact E. discriminate.
Qed.

Lemma entriesFrom_cell row g s :
  In (place g s) (entriesFrom row 0) <-> nth s row None = Some g.
Proof.
  rewrite entriesFrom_In, Nat.sub_0_r, nth_error_cell.
  split; [intros [_ H]; exact H|intros H; split; [lia|exact H]].
Qed.

Lemma entries_cellAt c q g s :
  In (place g s) (entriesFrom (nth q c []) 0) <-> cellAt c q s = Some g.
Proof. apply entriesFrom_cell. Qed.

(** Two lists in strict slot order with the same elements are equal. *)
Lemma sorted_slot_unique (l1 : list Placed) : forall l2,
  StronglySorted (fun a b => (slot a < slot b)%nat) l1 ->
  StronglySorted (fun a b => (slot a < slot b)%nat) l2 ->
  (forall e, In e l1 <-> In e l2) -> l1 = l2.
Proof.
  induction l1 as [|a l1 IH]; intros l2 H1 H2 Hin.
  - destruct l2 as [|b l2]; [reflexivity|].
    exfalso. apply (proj2 (Hin b)). left. reflexivity.
  - destruct l2 as [|b l2].
    + exfalso. apply (proj1 (Hin a)). left. reflexivity.
    + inversion H1 as [|? ? H1' Ha]; subst. inversion H2 as [|? ? H2' Hb]; subst.
      rewrite Forall_forall in Ha, Hb.
      assert (Eab : a = b).
      { destruct (proj1 (Hin a) (or_introl eq_refl)) as [E|E]; [symmetry; exact E|].
        destruct (proj2 (Hin b) (or_introl eq_refl)) as [E'|E']; [exact E'|].
        specialize (Ha b E'). specialize (Hb a E). lia. }
      subst b. f_equal. apply IH; try assumption.
      intros e. split; intros He.
      * destruct (proj1 (Hin e) (or_intror He)) as [E|E]; [|exact E].
        subst e. specialize (Ha a He). lia.
      * destruct (proj2 (Hin e) (or_intror He)) as [E|E]; [|exact E].
        subst e. specialize (Hb a He). lia.
Qed.
(** ** Barriers stay in increasing order *)

Lemma natAfter_later (x y z : nat) :
  (x <? y)%nat = true -> (z <? y)%nat = false -> (x <? z)%nat = true.
Proof. rewrite !Nat.ltb_lt, Nat.ltb_ge. lia. Qed.

Lemma increasing_inOrder (l : list nat) :
  StronglySorted lt l -> StronglySorted (inOrder (fun a b => (b <? a)%nat)) l.
Proof.
  apply StronglySorted_weaken. intros a b H. unfold inOrder. apply Nat.ltb_ge. lia.
Qed.

Lemma sortedBarriers_id barriers :
  StronglySorted lt barriers -> sortedBarriers barriers = barriers.
Proof. intros H. apply jsSort_id, increasing_inOrder, H. Qed.

Lemma increasing_NoDup (l : list nat) : StronglySorted lt l -> NoDup l.
Proof.
  induction 1 as [|a l Hs IH Hall]; constructor; [|exact IH].
  intros Hin. rewrite Forall_forall in Hall. specialize (Hall a Hin). lia.
Qed.

Lemma sorted_NoDup_increasing (l : list nat) :
  StronglySorted le l -> NoDup l -> StronglySorted lt l.
Proof.
  induction 1 as [|a l Hs IH Hall]; intros Hnd; constructor;
    inversion Hnd as [|? ? Hna Hnd']; subst.
  - apply IH. exact Hnd'.
  - rewrite Forall_forall in *. intros b Hb. specialize (Hall b Hb).
    assert (a <> b) by (intros ->; contradiction). lia.
Qed.

Lemma includes_spec si (l : list nat) : existsb (Nat.eqb si) l = true <-> In si l.
Proof.
  rewrite existsb_exists. split.
  - intros [x [Hx E]]. apply Nat.eqb_eq in E. subst. exact Hx.
  - intros H. exists si. split; [exact H|apply Nat.eqb_refl].
Qed.

Lemma addBarrier_spec st si :
  StronglySorted lt (barriers st) ->
  StronglySorted lt (barriers (handleAddBarrier st si)) /\
  (forall b, In b (barriers (handleAddBarrier st si)) <-> b = si \/ In b (barriers st)).
Proof.
  intros Hs. unfold handleAddBarrier. cbn [barriers].
  destruct (existsb (Nat.eqb si) (barriers st)) eqn:E.
  - apply includes_spec in E. split; [exact Hs|].
    intros b. split; [right; assumption|intros [->|H]; assumption].
  - assert (Hn : ~ In si (barriers st)).
    { rewrite <- includes_spec, E. discriminate. }
    destruct (sortedBarriers_spec (barriers st ++ [si])) as [Hle Hp].
    split.
    + apply sorted_NoDup_increasing; [exact Hle|].
      eapply Permutation_NoDup; [symmetry; exact Hp|].
      eapply Permutation_NoDup; [apply Permutation_cons_append|].
      constructor; [exact Hn|apply increasing_NoDup, Hs].
    + intros b. split; intros H.
      * apply (Permutation_in _ Hp), in_app_or in H.
        destruct H as [H|[H|[]]]; [right; exact H|left; symmetry; exact H].
      * apply (Permutation_in _ (Permutation_sym Hp)), in_or_app.
        destruct H as [->|H]; [right; left; reflexivity|left; exact H].
Qed.

Lemma removeBarrier_spec st si :
  StronglySorted lt (barriers st) ->
  StronglySorted lt (barriers (handleRemoveBarrier st si)) /\
  (forall b, In b (barriers (handleRemoveBarrier st si)) <-> b <> si /\ In b (barriers st)).
Proof.
  intros Hs. unfold handleRemoveBarrier. cbn [barriers].
  split; [apply StronglySorted_filter, Hs|].
  intros b. rewrite filter_In, Bool.negb_true_iff, Nat.eqb_neq. tauto.
Qed.

Lemma add_remove_barrier st si :
  StronglySorted lt (barriers st) -> ~ In si (barriers st) ->
  barriers (handleRemoveBarrier (handleAddBarrier st si) si) = barriers st.
Proof.
  intros Hs Hn. unfold handleRemoveBarrier, handleAddBarrier. cbn [barriers].
  destruct (existsb (Nat.eqb si) (barriers st)) eqn:E.
  - apply includes_spec in E. contradiction.
  - rewrite (jsSort_filter (fun a b => (b <? a)%nat));
      [|intros a b; apply natAfter_asym|intros a b c; apply natAfter_trans
       |intros a b c; apply natAfter_later].
    rewrite filter_app. cbn [filter]. rewrite Nat.eqb_refl. cbn [negb].
    rewrite app_nil_r, filter_all_in.
    + apply jsSort_id, increasing_inOrder, Hs.
    + intros b Hb. apply Bool.negb_true_iff, Nat.eqb_neq. intros ->. contradiction.
Qed.

Lemma shiftBarrier_lt si a b :
  (shiftBarrier si b <? shiftBarrier si a)%nat = (b <? a)%nat.
Proof.
  unfold shiftBarrier.
  destruct (Nat.leb_spec si a), (Nat.leb_spec si b), (Nat.ltb_spec b a);
    try reflexivity; try (apply Nat.ltb_lt; lia); apply Nat.ltb_ge; lia.
Qed.

Lemma shiftBarrier_increasing si (l : list nat) :
  StronglySorted lt l -> StronglySorted lt (map (shiftBarrier si) l).
Proof.
  induction 1 as [|a l Hs IH Hall]; cbn [map]; constructor; [exact IH|].
  rewrite Forall_forall in *. intros b' Hb. apply in_map_iff in Hb as [b [<- Hb]].
  specialize (Hall b Hb). apply Nat.ltb_lt. rewrite shiftBarrier_lt. apply Nat.ltb_lt, Hall.
Qed.

Lemma insertGate_barriers st qi si g st' :
  handleInsertGate st qi si g = Returned st' ->
  barriers st'
  = if truthy (cellAt (circuits st) qi si)
    then map (shiftBarrier si) (barriers st) else barriers st.
Proof.
  unfold handleInsertGate, bind. destruct (setCell _ _ _ _); [|discriminate].
  intros H. assert (E : st' = mkEditor a
    (if truthy (cellAt (circuits st) qi si)
     then map (shiftBarrier si) (barriers st) else barriers st)
    (qubitVisibility st) (Some (selectGate qi si g)) None false (initialStateMode st))
    by congruence.
  rewrite E. reflexivity.
Qed.

Lemma updateGate_barriers st qi si g st' :
  handleUpdateGate st qi si g = Returned st' ->
  barriers st' = barriers st \/ barriers st' = map (shiftBarrier si) (barriers st).
Proof.
  unfold handleUpdateGate, bind. destruct (updateGate _ _ _ _) as [[c moved]|]; [|discriminate].
  intros H. cbn [fst snd] in H.
  assert (E : barriers st'
              = if moved then map (shiftBarrier si) (barriers st) else barriers st).
  { assert (E' : Returned (barriers st')
                 = Returned (if moved then map (shiftBarrier si) (barriers st)
                             else barriers st)).
    { change (Returned (barriers st')) with (bind (Returned st') (fun e => Returned (barriers e))).
      rewrite <- H. reflexivity. }
    congruence. }
  rewrite E. destruct moved; [right|left]; reflexivity.
Qed.

Lemma highlighted_bound barriers animationFrame bIdx :
  StronglySorted lt barriers ->
  highlightedBarrier barriers animationFrame = Some bIdx ->
  exists f slotIdx,
    animationFrame = Some f /\
    nth_error barriers bIdx = Some slotIdx /\
    frameBound barriers f = Some slotIdx /\
    forall s, isGateAnimated barriers true animationFrame s = (s <? slotIdx)%nat.
Proof.
  intros Hs. unfold highlightedBarrier.
  destruct animationFrame as [f|]; [|discriminate].
  destruct ((0 <? f) && (f <=? List.length barriers))%nat%bool eqn:E; [|discriminate].
  intros [= <-]. apply Bool.andb_true_iff in E as [E1 E2].
  apply Nat.ltb_lt in E1. apply Nat.leb_le in E2.
  assert (Hb : frameBound barriers f = Some (nth (f - 1) barriers 0%nat)).
  { rewrite frameBound_inner by lia. rewrite sortedBarriers_id by exact Hs. reflexivity. }
  exists f, (nth (f - 1) barriers 0%nat).
  split; [reflexivity|]. split; [apply nth_error_nth'; lia|]. split; [exact Hb|].
  intros s. rewrite isGateAnimated_bound, Hb. reflexivity.
Qed.

Lemma barriers_increasing_kept st :
  StronglySorted lt (barriers st) ->
  (forall si, StronglySorted lt (barriers (handleAddBarrier st si))) /\
  (forall si, StronglySorted lt (barriers (handleRemoveBarrier st si))) /\
  (forall qi si g st', handleInsertGate st qi si g = Returned st' ->
                       StronglySorted lt (barriers st')) /\
  (forall qi si g st', handleUpdateGate st qi si g = Returned st' ->
                       StronglySorted lt (barriers st')) /\
  sortedBarriers (barriers st) = barriers st /\
  (forall animationFrame bIdx,
     highlightedBarrier (barriers st) animationFrame = Some bIdx ->
     exists f slotIdx,
       animationFrame = Some f /\
       nth_error (barriers st) bIdx = Some slotIdx /\
       frameBound (barriers st) f = Some slotIdx /\
       forall s, isGateAnimated (barriers st) true animationFrame s = (s <? slotIdx)%nat).
Proof.
  intros Hs.
  split; [intros si; apply addBarrier_spec, Hs|].
  split; [intros si; apply removeBarrier_spec, Hs|].
  split; [|split; [|split]].
  - intros qi si g st' H. rewrite (insertGate_barriers _ _ _ _ _ H).
    destruct (truthy _); [apply shiftBarrier_increasing, Hs|exact Hs].
  - intros qi si g st' H. destruct (updateGate_barriers _ _ _ _ _ H) as [-> | ->];
      [exact Hs|apply shiftBarrier_increasing, Hs].
  - apply sortedBarriers_id, Hs.
  - intros animationFrame bIdx. apply highlighted_bound, Hs.
Qed.

(** The barrier slots are kept in strictly increasing order, so without
    duplicates: if they are so in a state, they are so after
    [handleAddBarrier], [handleRemoveBarrier], [handleInsertGate] and
    [handleUpdateGate].  Then the sorted copy [sortedBarriers] that the
    frames are computed from is the list of the state itself, and the
    barrier that the circuit panel highlights at a frame, which it picks
    by its index in the list of the state, is the one whose slot bounds
    the gates drawn as active. *)
Theorem barriers_stay_increasing (st : Editor) :
  StronglySorted lt (barriers st) ->
  (forall si, StronglySorted lt (barriers (handleAddBarrier st si))) /\
  (forall si, StronglySorted lt (barriers (handleRemoveBarrier st si))) /\
  (forall qi si g st', handleInsertGate st qi si g = Returned st' ->
                       StronglySorted lt (barriers st')) /\
  (forall qi si g st', handleUpdateGate st qi si g = Returned st' ->
                       StronglySorted lt (barriers st')) /\
  sortedBarriers (barriers st) = barriers st /\
  (forall animationFrame bIdx,
     highlightedBarrier (barriers st) animationFrame = Some bIdx ->
     exists f slotIdx,
       animationFrame = Some f /\
       nth_error (barriers st) bIdx = Some slotIdx /\
       frameBound (barriers st) f = Some slotIdx /\
       forall s, isGateAnimated (barriers st) true animationFrame s = (s <? slotIdx)%nat).
Proof. apply barriers_increasing_kept. Qed.

Lemma barriers_stay_increasing_witness :
  StronglySorted lt (barriers czEditor) /\
  (forall si, StronglySorted lt (barriers (handleAddBarrier czEditor si))) /\
  (forall si, StronglySorted lt (barriers (handleRemoveBarrier czEditor si))) /\
  (forall qi si g st', handleInsertGate czEditor qi si g = Returned st' ->
                       StronglySorted lt (barriers st')) /\
  (forall qi si g st', handleUpdateGate czEditor qi si g = Returned st' ->
                       StronglySorted lt (barriers st')) /\
  sortedBarriers (barriers czEditor) = barriers czEditor /\
  (forall animationFrame bIdx,
     highlightedBarrier (barriers czEditor) animationFrame = Some bIdx ->
     exists f slotIdx,
       animationFrame = Some f /\
       nth_error (barriers czEditor) bIdx = Some slotIdx /\
       frameBound (barriers czEditor) f = Some slotIdx /\
       forall s, isGateAnimated (barriers czEditor) true animationFrame s
                 = (s <? slotIdx)%nat).
Proof.
  assert (H : StronglySorted lt (barriers czEditor)) by (repeat constructor).
  split; [exact H|]. exact (barriers_stay_increasing czEditor H).
Defined.

(** With the barrier slots in increasing order, [handleAddBarrier(si)]
    makes the barrier slots those of the state and [si],
    [handleRemoveBarrier(si)] those of the state other than [si], and
    removing a barrier that was just added, and was not there before, gives
    the barrier slots of the state back. *)
Theorem barrier_add_remove (st : Editor) (si : nat) :
  StronglySorted lt (barriers st) ->
  (forall b, In b (barriers (handleAddBarrier st si)) <-> b = si \/ In b (barriers st)) /\
  (forall b, In b (barriers (handleRemoveBarrier st si)) <-> b <> si /\ In b (barriers st)) /\
  (~ In si (barriers st) ->
   barriers (handleRemoveBarrier (handleAddBarrier st si) si) = barriers st) /\
  (In si (barriers st) -> barriers (handleAddBarrier st si) = barriers st).
Proof.
  intros Hs. split; [apply addBarrier_spec, Hs|].
  split; [apply removeBarrier_spec, Hs|].
  split; [apply add_remove_barrier, Hs|].
  intros Hin. apply includes_spec in Hin. unfold handleAddBarrier. cbn [barriers].
  rewrite Hin. reflexivity.
Qed.

Lemma barrier_add_remove_witness :
  StronglySorted lt (barriers czEditor) /\
  (forall b, In b (barriers (handleAddBarrier czEditor 0)) <->
             b = 0%nat \/ In b (barriers czEditor)) /\
  (forall b, In b (barriers (handleRemoveBarrier czEditor 0)) <->
             b <> 0%nat /\ In b (barriers czEditor)) /\
  (~ In 0%nat (barriers czEditor) ->
   barriers (handleRemoveBarrier (handleAddBarrier czEditor 0) 0) = barriers czEditor) /\
  (In 0%nat (barriers czEditor) -> barriers (handleAddBarrier czEditor 0) = barriers czEditor).
Proof.
  assert (H : StronglySorted lt (barriers czEditor)) by (repeat constructor).
  split; [exact H|]. exact (barrier_add_remove czEditor 0 H).
Defined.
(** ** Inserting a gate keeps the frames of the other gates *)

Lemma getOrderedGates_In c b q f g s :
  In (place g s) (getOrderedGates c b q f) <->
  cellAt c q s = Some g /\ beforeBound (frameBound b f) s = true.
Proof.
  rewrite getOrderedGates_bound, filter_In, entries_cellAt. cbn [slot]. reflexivity.
Qed.

Lemma sortedBarriers_shift si b :
  sortedBarriers (map (shiftBarrier si) b) = map (shiftBarrier si) (sortedBarriers b).
Proof.
  unfold sortedBarriers. apply jsSort_map. intros x y. apply shiftBarrier_lt.
Qed.

Lemma shiftedSlot_lt si s n :
  (shiftedSlot si s <? shiftBarrier si n)%nat = (s <? n)%nat.
Proof.
  unfold shiftedSlot, shiftBarrier.
  destruct (Nat.ltb_spec s si), (Nat.leb_spec si n), (Nat.ltb_spec s n);
    try reflexivity; try (apply Nat.ltb_lt; lia); apply Nat.ltb_ge; lia.
Qed.

Lemma shiftedSlot_increasing si a b :
  (a < b)%nat -> (shiftedSlot si a < shiftedSlot si b)%nat.
Proof.
  unfold shiftedSlot. destruct (Nat.ltb_spec a si), (Nat.ltb_spec b si); lia.
Qed.

Lemma beforeBound_shift si b f s :
  beforeBound (frameBound (map (shiftBarrier si) b) f) (shiftedSlot si s)
  = beforeBound (frameBound b f) s.
Proof.
  unfold frameBound. rewrite length_map.
  destruct (f =? 0)%nat; [reflexivity|].
  destruct (List.length b <? f)%nat; [reflexivity|].
  rewrite sortedBarriers_shift, nth_error_map.
  destruct (nth_error (sortedBarriers b) (f - 1)); cbn [option_map beforeBound];
    [apply shiftedSlot_lt|reflexivity].
Qed.

Lemma renamed_sorted (r : nat -> nat) (l : list Placed) :
  (forall a b, (a < b)%nat -> (r a < r b)%nat) ->
  StronglySorted (fun a b => (slot a < slot b)%nat) l ->
  StronglySorted (fun a b => (slot a < slot b)%nat)
                 (map (fun e => place (cell e) (r (slot e))) l).
Proof.
  intros Hr. induction 1 as [|a l Hs IH Hall]; cbn [map]; constructor; [exact IH|].
  rewrite Forall_forall in *. intros b' Hb. apply in_map_iff in Hb as [b [<- Hb]].
  cbn [slot]. apply Hr, Hall, Hb.
Qed.

(** The cells after an insertion. *)
Lemma insertGate_cells st qi si g st' :
  handleInsertGate st qi si g = Returned st' ->
  (qi < List.length (circuits st))%nat /\
  List.length (circuits st') = List.length (circuits st) /\
  forall q s,
    cellAt (circuits st') q s
    = if ((q =? qi) && (s =? si))%nat%bool then Some g
      else if truthy (cellAt (circuits st) qi si) then
             if (s <? si)%nat then cellAt (circuits st) q s
             else if (s =? si)%nat then None else cellAt (circuits st) q (s - 1)
           else cellAt (circuits st) q s.
Proof.
  unfold handleInsertGate, bind. destruct (setCell _ _ _ _) as [c'|] eqn:E; [|discriminate].
  intros H. assert (Ec : circuits st' = c').
  { assert (E' : Returned (circuits st') = Returned c').
    { change (Returned (circuits st')) with (bind (Returned st') (fun e => Returned (circuits e))).
      rewrite <- H. reflexivity. }
    congruence. }
  rewrite Ec. clear H Ec. apply setCell_inv in E as (Hq & Hl & Hc).
  destruct (truthy (cellAt (circuits st) qi si)).
  - rewrite shiftAllColumnsRight_length in Hq, Hl.
    split; [exact Hq|]. split; [exact Hl|].
    intros q s. rewrite Hc, cellAt_shift. reflexivity.
  - split; [exact Hq|]. split; [exact Hl|]. exact Hc.
Qed.

Lemma insertGate_Returned st qi si g :
  (qi < List.length (circuits st))%nat ->
  exists st', handleInsertGate st qi si g = Returned st'.
Proof.
  intros Hq. unfold handleInsertGate, bind.
  rewrite setCell_Returned; [eexists; reflexivity|].
  destruct (truthy _); [rewrite shiftAllColumnsRight_length|]; exact Hq.
Qed.

Lemma truthy_Some {A} (o : option A) a : o = Some a -> truthy o = true.
Proof. intros ->. reflexivity. Qed.

Lemma insertGate_frames st qi si g st' q f :
  handleInsertGate st qi si g = Returned st' ->
  filter (fun e => negb ((q =? qi) && (slot e =? si))%nat)
         (getOrderedGates (circuits st') (barriers st') q f)
  = map (fun e => place (cell e) (insertedSlot st qi si (slot e)))
        (getOrderedGates (circuits st) (barriers st) q f).
Proof.
  intros H.
  destruct (insertGate_cells _ _ _ _ _ H) as (_ & _ & Hc).
  pose proof (insertGate_barriers _ _ _ _ _ H) as Hb.
  apply sorted_slot_unique.
  - apply StronglySorted_filter, getOrderedGates_sorted.
  - apply renamed_sorted; [|apply getOrderedGates_sorted].
    intros a b Hab. unfold insertedSlot.
    destruct (truthy _); [apply shiftedSlot_increasing|]; exact Hab.
  - intros [g' s']. rewrite filter_In, getOrderedGates_In, in_map_iff, Hc, Hb.
    cbn [slot]. unfold insertedSlot.
    destruct (truthy (cellAt (circuits st) qi si)) eqn:Eocc.
    + split.
      * intros [[Hcell Hbound] Hnew]. apply Bool.negb_true_iff in Hnew.
        rewrite Hnew in Hcell.
        destruct (Nat.ltb_spec s' si) as [Hlt|Hge].
        -- exists (place g' s'). cbn [cell slot].
           assert (Es : shiftedSlot si s' = s').
           { unfold shiftedSlot. destruct (Nat.ltb_spec s' si); [reflexivity|lia]. }
           split; [rewrite Es; reflexivity|].
           apply getOrderedGates_In. split; [exact Hcell|].
           rewrite <- (beforeBound_shift si), Es. exact Hbound.
        -- destruct (Nat.eqb_spec s' si) as [He|Hne]; [discriminate|].
           exists (place g' (s' - 1)). cbn [cell slot].
           assert (Es : shiftedSlot si (s' - 1) = s').
           { unfold shiftedSlot. destruct (Nat.ltb_spec (s' - 1) si); lia. }
           split; [rewrite Es; reflexivity|].
           apply getOrderedGates_In. split; [exact Hcell|].
           rewrite <- (beforeBound_shift si), Es. exact Hbound.
      * intros [[g0 s0] [E Hin]]. cbn [cell slot] in E.
        apply getOrderedGates_In in Hin as [Hcell Hbound].
        assert (Eg : g0 = g') by congruence.
        assert (Es : shiftedSlot si s0 = s') by congruence.
        subst g0 s'. clear E.
        assert (Hne : (shiftedSlot si s0 =? si)%nat = false).
        { apply Nat.eqb_neq. unfold shiftedSlot. destruct (Nat.ltb_spec s0 si); lia. }
        rewrite Hne, Bool.andb_false_r. cbn [negb].
        split; [|reflexivity]. split; [|rewrite beforeBound_shift; exact Hbound].
        unfold shiftedSlot. destruct (Nat.ltb_spec s0 si) as [Hlt|Hge].
        -- destruct (Nat.ltb_spec s0 si); [exact Hcell|lia].
        -- destruct (Nat.ltb_spec (S s0) si); [lia|].
           replace (S s0 - 1)%nat with s0 by lia. exact Hcell.
    + split.
      * intros [[Hcell Hbound] Hnew]. apply Bool.negb_true_iff in Hnew.
        rewrite Hnew in Hcell.
        exists (place g' s'). cbn [cell slot]. split; [reflexivity|].
        apply getOrderedGates_In. split; assumption.
      * intros [[g0 s0] [E Hin]]. cbn [cell slot] in E.
        apply getOrderedGates_In in Hin as [Hcell Hbound].
        assert (Eg : g0 = g') by congruence.
        assert (Es : s0 = s') by congruence.
        subst g0 s0. clear E.
        assert (Hnew : ((q =? qi) && (s' =? si))%nat%bool = false).
        { destruct (Nat.eqb_spec q qi) as [->|]; [|reflexivity].
          destruct (Nat.eqb_spec s' si) as [->|]; [|reflexivity].
          rewrite (truthy_Some _ _ Hcell) in Eocc. discriminate. }
        rewrite Hnew. cbn [negb]. repeat split; assumption.
Qed.

Lemma insertGate_spec st qi si g :
  (qi < List.length (circuits st))%nat ->
  exists st',
    handleInsertGate st qi si g = Returned st' /\
    cellAt (circuits st') qi si = Some g /\
    forall q f,
      filter (fun e => negb ((q =? qi) && (slot e =? si))%nat)
             (getOrderedGates (circuits st') (barriers st') q f)
      = map (fun e => place (cell e) (insertedSlot st qi si (slot e)))
            (getOrderedGates (circuits st) (barriers st) q f).
Proof.
  intros Hq. destruct (insertGate_Returned st qi si g Hq) as [st' H].
  exists st'. split; [exact H|]. split.
  - destruct (insertGate_cells _ _ _ _ _ H) as (_ & _ & Hc).
    rewrite Hc, !Nat.eqb_refl. reflexivity.
  - intros q f. apply (insertGate_frames _ _ _ _ _ q f H).
Qed.

(** [handleInsertGate(qi, si, gate)] on an existing wire puts the gate
    into the cell and keeps every other gate in its frame: for every wire
    and every frame, the gates of the frame in the new state, the new gate
    left out, are the gates of the frame in the old state, in the same
    order, with the slots moved as the insertion moves them (the slots
    from [si] on one to the right if the cell was occupied, none
    otherwise).  So the barriers still separate the same gates. *)
Theorem handleInsertGate_keeps_frames (st : Editor) (qi si : nat) (g : Gate) :
  (qi < List.length (circuits st))%nat ->
  exists st',
    handleInsertGate st qi si g = Returned st' /\
    cellAt (circuits st') qi si = Some g /\
    forall q f,
      filter (fun e => negb ((q =? qi) && (slot e =? si))%nat)
             (getOrderedGates (circuits st') (barriers st') q f)
      = map (fun e => place (cell e) (insertedSlot st qi si (slot e)))
            (getOrderedGates (circuits st) (barriers st) q f).
Proof. apply insertGate_spec. Qed.

Lemma handleInsertGate_keeps_frames_witness :
  (1 < List.length (circuits czEditor))%nat /\
  exists st',
    handleInsertGate czEditor 1 0 (instanceOf GATE_H) = Returned st' /\
    cellAt (circuits st') 1 0 = Some (instanceOf GATE_H) /\
    forall q f,
      filter (fun e => negb ((q =? 1) && (slot e =? 0))%nat)
             (getOrderedGates (circuits st') (barriers st') q f)
      = map (fun e => place (cell e) (insertedSlot czEditor 1 0 (slot e)))
            (getOrderedGates (circuits czEditor) (barriers czEditor) q f).
Proof.
  assert (H : (1 < List.length (circuits czEditor))%nat) by (cbn; lia).
  split; [exact H|]. exact (handleInsertGate_keeps_frames czEditor 1 0 (instanceOf GATE_H) H).
Defined.
(** ** Control markers and controlled gates stay paired *)

(** An edit keeps the pairing when the cells it changes are closed under
    the pairing of the old circuit and paired among themselves in the new
    one. *)
Lemma wellPaired_edit (c c' : Circuits) (changed : nat -> nat -> bool) :
  wellPaired c ->
  (forall q s, changed q s = false -> cellAt c' q s = cellAt c q s) ->
  (forall t s tg k, changed t s = true -> cellAt c t s = Some tg ->
     gate tg <> "CONTROL" -> controlIndex tg = Some k -> changed k s = true) ->
  (forall k s m t, changed k s = true -> cellAt c k s = Some m ->
     gate m = "CONTROL" -> targetIndex m = Some t -> changed t s = true) ->
  (forall q s m, changed q s = true -> cellAt c' q s = Some m -> gate m = "CONTROL" ->
     exists t tg, targetIndex m = Some t /\ cellAt c' t s = Some tg /\
                  gate tg <> "CONTROL" /\ controlIndex tg = Some q) ->
  (forall t s tg k, changed t s = true -> cellAt c' t s = Some tg ->
     gate tg <> "CONTROL" -> controlIndex tg = Some k ->
     exists m, cellAt c' k s = Some m /\ gate m = "CONTROL" /\ targetIndex m = Some t) ->
  wellPaired c'.
Proof.
  intros [W1 W2] Hsame Ha Hb N1 N2. split.
  - intros q s m Hm Hg. destruct (changed q s) eqn:E; [apply (N1 q s m E Hm Hg)|].
    rewrite (Hsame _ _ E) in Hm.
    destruct (W1 q s m Hm Hg) as (t & tg & Ht & Htg & Hn & Hc).
    exists t, tg. repeat split; try assumption.
    destruct (changed t s) eqn:E'; [|rewrite (Hsame _ _ E'); exact Htg].
    rewrite (Ha t s tg q E' Htg Hn Hc) in E. discriminate.
  - intros t s tg k Htg Hn Hc. destruct (changed t s) eqn:E; [apply (N2 t s tg k E Htg Hn Hc)|].
    rewrite (Hsame _ _ E) in Htg.
    destruct (W2 t s tg k Htg Hn Hc) as (m & Hm & Hg & Ht).
    exists m. repeat split; try assumption.
    destruct (changed k s) eqn:E'; [|rewrite (Hsame _ _ E'); exact Hm].
    rewrite (Hb k s m t E' Hm Hg Ht) in E. discriminate.
Qed.

Lemma row_cell (c : Circuits) qi si row :
  nth_error c qi = Some row -> nth si row None = cellAt c qi si.
Proof. intros E. unfold cellAt. rewrite (nth_error_nth c qi [] E). reflexivity. Qed.

Lemma nth_error_row (c : Circuits) qi :
  (qi < List.length c)%nat -> nth_error c qi = Some (nth qi c []).
Proof. intros H. apply nth_error_nth', H. Qed.

Lemma control_not (g : Gate) : String.eqb (gate g) "CONTROL" = false <-> gate g <> "CONTROL".
Proof. apply String.eqb_neq. Qed.

(** What [removeGate] does to a paired circuit, by the cell it is applied
    to. *)
Lemma removeGate_cells prev qi si :
  wellPaired prev -> (qi < List.length prev)%nat ->
  exists next,
    removeGate prev qi si = Returned next /\
    List.length next = List.length prev /\
    forall q s,
      cellAt next q s
      = match cellAt prev qi si with
        | None => cellAt prev q s
        | Some g =>
            if ((q =? qi) && (s =? si))%nat%bool then None
            else if String.eqb (gate g) "CONTROL" then
                   if (option_nat_eqb (targetIndex g) q && (s =? si)%nat)%bool
                   then option_map (fun t => withControl t None) (cellAt prev q s)
                   else cellAt prev q s
                 else
                   if (option_nat_eqb (controlIndex g) q && (s =? si)%nat)%bool
                   then None else cellAt prev q s
        end.
Proof.
  intros [W1 W2] Hq. unfold removeGate.
  rewrite (nth_error_row prev qi Hq), (row_cell prev qi si _ (nth_error_row prev qi Hq)).
  destruct (cellAt prev qi si) as [g|] eqn:Eg.
  2:{ exists prev. repeat split. }
  unfold bind. destruct (String.eqb (gate g) "CONTROL") eqn:Ec.
  - apply String.eqb_eq in Ec.
    destruct (W1 qi si g Eg Ec) as (t & tg & Ht & Htg & Hn & Hci).
    rewrite Ht, Htg, Hci. cbn [option_nat_eqb]. rewrite Nat.eqb_refl.
    pose proof (cellAt_row _ _ _ _ Htg) as Hrow.
    rewrite (setCell_Returned prev t si _ Hrow).
    destruct (setCell_inv _ _ _ _ _ (setCell_Returned prev t si (Some (withControl tg None)) Hrow))
      as (_ & Hl1 & H1).
    set (n1 := firstn t prev ++ _ :: skipn (S t) prev) in *.
    assert (Hq1 : (qi < List.length n1)%nat) by (rewrite Hl1; exact Hq).
    rewrite (setCell_Returned n1 qi si _ Hq1).
    destruct (setCell_inv _ _ _ _ _ (setCell_Returned n1 qi si None Hq1)) as (_ & Hl2 & H2).
    eexists. split; [reflexivity|]. split; [rewrite Hl2; exact Hl1|].
    intros q s. rewrite H2, H1.
    destruct ((q =? qi) && (s =? si))%nat%bool; [reflexivity|].
    rewrite (Nat.eqb_sym t q).
    destruct (Nat.eqb_spec q t) as [->|]; cbn [andb]; [|reflexivity].
    destruct (Nat.eqb_spec s si) as [->|]; [|reflexivity].
    rewrite Htg. reflexivity.
  - destruct (controlIndex g) as [k|] eqn:Ek.
    + apply control_not in Ec.
      destruct (W2 qi si g k Eg Ec Ek) as (m & Hm & Hg & Ht).
      rewrite Hm, Ht. apply String.eqb_eq in Hg. rewrite Hg.
      cbn [option_nat_eqb andb]. rewrite Nat.eqb_refl.
      pose proof (cellAt_row _ _ _ _ Hm) as Hrow.
      rewrite (setCell_Returned prev k si _ Hrow).
      destruct (setCell_inv _ _ _ _ _ (setCell_Returned prev k si None Hrow))
        as (_ & Hl1 & H1).
      set (n1 := firstn k prev ++ _ :: skipn (S k) prev) in *.
      assert (Hq1 : (qi < List.length n1)%nat) by (rewrite Hl1; exact Hq).
      rewrite (setCell_Returned n1 qi si _ Hq1).
      destruct (setCell_inv _ _ _ _ _ (setCell_Returned n1 qi si None Hq1)) as (_ & Hl2 & H2).
      eexists. split; [reflexivity|]. split; [rewrite Hl2; exact Hl1|].
      intros q s. rewrite H2, H1.
      destruct ((q =? qi) && (s =? si))%nat%bool; [reflexivity|].
      rewrite (Nat.eqb_sym k q). reflexivity.
    + rewrite (setCell_Returned prev qi si _ Hq).
      destruct (setCell_inv _ _ _ _ _ (setCell_Returned prev qi si None Hq)) as (_ & Hl2 & H2).
      eexists. split; [reflexivity|]. split; [exact Hl2|].
      intros q s. rewrite H2.
      destruct ((q =? qi) && (s =? si))%nat%bool; reflexivity.
Qed.

Ltac eqb_cases :=
  repeat match goal with
         | |- context [(?a =? ?b)%nat] => destruct (Nat.eqb_spec a b)
         | H : context [(?a =? ?b)%nat] |- _ => destruct (Nat.eqb_spec a b)
         end;
  subst; cbn [andb orb negb option_map] in *;
  try discriminate; try congruence; try lia.

Lemma removeGate_paired prev qi si next :
  wellPaired prev -> (qi < List.length prev)%nat ->
  removeGate prev qi si = Returned next -> wellPaired next.
Proof.
  intros W Hq H.
  destruct (removeGate_cells prev qi si W Hq) as (n & Hn & _ & Hc).
  assert (E : n = next) by congruence. subst n. clear H Hn.
  destruct (cellAt prev qi si) as [g|] eqn:Eg.
  2:{ apply (wellPaired_edit prev next (fun _ _ => false)); try exact W;
        try (intros; discriminate). intros q s _. apply Hc. }
  pose proof W as [W1 W2].
  destruct (String.eqb (gate g) "CONTROL") eqn:Ec.
  - apply String.eqb_eq in Ec.
    destruct (W1 qi si g Eg Ec) as (t & tg & Ht & Htg & Hng & Hci).
    rewrite Ht in Hc. cbn [option_nat_eqb] in Hc.
    assert (Hne : t <> qi) by (intros ->; congruence).
    apply (wellPaired_edit prev next (fun q s => (s =? si) && ((q =? qi) || (q =? t)))%nat%bool);
      [exact W|..].
    + intros q s Hch. rewrite Hc. eqb_cases.
    + intros t' s tg' k Hch Hcell Hn' Hk. eqb_cases.
    + intros k s m t' Hch Hcell Hg' Ht'. eqb_cases.
    + intros q s m Hch Hcell Hg'. rewrite Hc in Hcell. eqb_cases.
      all: try (rewrite Htg in Hcell; cbn in Hcell; injection Hcell as <-; cbn in Hg';
                contradiction).
    + intros q s tg' k Hch Hcell Hn' Hk. rewrite Hc in Hcell. eqb_cases.
      all: try (rewrite Htg in Hcell; cbn in Hcell; injection Hcell as <-; cbn in Hk;
                discriminate).
  - apply control_not in Ec.
    destruct (controlIndex g) as [k|] eqn:Ek.
    + destruct (W2 qi si g k Eg Ec Ek) as (m & Hm & Hg & Ht).
      cbn [option_nat_eqb] in Hc.
      assert (Hne : k <> qi) by (intros ->; congruence).
      apply (wellPaired_edit prev next (fun q s => (s =? si) && ((q =? qi) || (q =? k)))%nat%bool);
        [exact W|..].
      * intros q s Hch. rewrite Hc. eqb_cases.
      * intros t' s tg' k' Hch Hcell Hn' Hk. eqb_cases.
      * intros k' s m' t' Hch Hcell Hg' Ht'. eqb_cases.
      * intros q s m' Hch Hcell Hg'. rewrite Hc in Hcell. eqb_cases.
      * intros q s tg' k' Hch Hcell Hn' Hk. rewrite Hc in Hcell. eqb_cases.
    + cbn [option_nat_eqb andb] in Hc.
      apply (wellPaired_edit prev next (fun q s => (s =? si) && (q =? qi))%nat%bool);
        [exact W|..].
      * intros q s Hch. rewrite Hc. eqb_cases.
      * intros t' s tg' k' Hch Hcell Hn' Hk. eqb_cases.
      * intros k' s m' t' Hch Hcell Hg' Ht'. eqb_cases.
      * intros q s m' Hch Hcell Hg'. rewrite Hc in Hcell. eqb_cases.
      * intros q s tg' k' Hch Hcell Hn' Hk. rewrite Hc in Hcell. eqb_cases.
Qed.
(** ** Removing a gate *)

Lemma removeGate_column prev qi si next :
  wellPaired prev -> (qi < List.length prev)%nat ->
  removeGate prev qi si = Returned next ->
  cellAt next qi si = None /\
  forall q s, s <> si -> cellAt next q s = cellAt prev q s.
Proof.
  intros W Hq H.
  destruct (removeGate_cells prev qi si W Hq) as (n & Hn & _ & Hc).
  assert (E : n = next) by congruence. subst n. clear H Hn.
  split.
  - rewrite Hc. destruct (cellAt prev qi si); [|reflexivity].
    rewrite !Nat.eqb_refl. reflexivity.
  - intros q s Hs. rewrite Hc. destruct (cellAt prev qi si) as [g|]; [|reflexivity].
    destruct (Nat.eqb_spec s si) as [|_]; [contradiction|].
    rewrite !Bool.andb_false_r. destruct (String.eqb (gate g) "CONTROL"); reflexivity.
Qed.

Lemma middleClick_marker st qi si m next :
  wellPaired (circuits st) ->
  cellAt (circuits st) qi si = Some m -> gate m = "CONTROL" ->
  removeGate (circuits st) qi si = Returned next ->
  handleGateMiddleClick st qi si
  = Returned (mkEditor next (barriers st) (qubitVisibility st) None
                       (animationFrame st) (isPlaying st) (initialStateMode st)).
Proof.
  intros W Hm Hg. pose proof (cellAt_row _ _ _ _ Hm) as Hq.
  destruct (proj1 W qi si m Hm Hg) as (t & tg & Ht & Htg & Hn & Hci).
  unfold handleGateMiddleClick, removeGate.
  rewrite (nth_error_row _ qi Hq), (row_cell _ qi si _ (nth_error_row _ qi Hq)), Hm.
  apply String.eqb_eq in Hg. rewrite Hg, Ht, Htg, Hci.
  cbn [option_nat_eqb]. rewrite Nat.eqb_refl.
  pose proof (cellAt_row _ _ _ _ Htg) as Hrow.
  rewrite (setCell_Returned _ t si _ Hrow). cbn [bind].
  rewrite setCell_Returned by (rewrite length_update by exact Hrow; exact Hq).
  cbn [bind]. intros [= <-]. reflexivity.
Qed.

Lemma middleClick_other st qi si :
  match cellAt (circuits st) qi si with
  | Some g => String.eqb (gate g) "CONTROL"
  | None => false
  end = false ->
  handleGateMiddleClick st qi si = handleRemoveGate st qi si.
Proof.
  intros H. unfold handleGateMiddleClick.
  destruct (cellAt (circuits st) qi si) as [g|]; [|reflexivity].
  rewrite H. reflexivity.
Qed.

Lemma removal_spec st qi si :
  wellPaired (circuits st) -> (qi < List.length (circuits st))%nat ->
  exists next,
    handleRemoveGate st qi si
    = Returned (mkEditor next (barriers st) (qubitVisibility st) None None false
                         (initialStateMode st)) /\
    handleGateMiddleClick st qi si
    = Returned (if match cellAt (circuits st) qi si with
                   | Some g => String.eqb (gate g) "CONTROL"
                   | None => false
                   end
                then mkEditor next (barriers st) (qubitVisibility st) None
                              (animationFrame st) (isPlaying st) (initialStateMode st)
                else mkEditor next (barriers st) (qubitVisibility st) None None false
                              (initialStateMode st)) /\
    wellPaired next /\
    cellAt next qi si = None /\
    (forall q s, s <> si -> cellAt next q s = cellAt (circuits st) q s).
Proof.
  intros W Hq. destruct (removeGate_cells _ qi si W Hq) as (next & Hn & _ & _).
  assert (Hrm : handleRemoveGate st qi si
                = Returned (mkEditor next (barriers st) (qubitVisibility st) None None false
                                     (initialStateMode st))).
  { unfold handleRemoveGate, bind. rewrite Hn. reflexivity. }
  exists next. split; [exact Hrm|]. split.
  - destruct (match cellAt (circuits st) qi si with
              | Some g => String.eqb (gate g) "CONTROL"
              | None => false
              end) eqn:E.
    + destruct (cellAt (circuits st) qi si) as [m|] eqn:Em; [|discriminate].
      apply String.eqb_eq in E. apply (middleClick_marker st qi si m next W Em E Hn).
    + rewrite (middleClick_other st qi si E). exact Hrm.
  - split; [apply (removeGate_paired _ qi si next W Hq Hn)|].
    apply (removeGate_column _ qi si next W Hq Hn).
Qed.

Lemma czOne_paired : wellPaired czOne.
Proof.
  split.
  - intros q s m H Hg. pose proof (cellAt_row _ _ _ _ H) as Hq. cbn in Hq.
    destruct q as [|[|q]]; [| |lia];
      (destruct s as [|[|s]]; cbn in H;
       [| |destruct s; discriminate H]);
      injection H as <-; cbn in Hg; try discriminate Hg.
    exists 1%nat, (controlledBy 0 (instanceOf GATE_Z)).
    repeat split; cbn; discriminate.
  - intros t s tg k H Hn Hk. pose proof (cellAt_row _ _ _ _ H) as Hq. cbn in Hq.
    destruct t as [|[|t]]; [| |lia];
      (destruct s as [|[|s]]; cbn in H;
       [| |destruct s; discriminate H]);
      injection H as <-; cbn in Hk; try discriminate Hk; try (exfalso; apply Hn; reflexivity).
    injection Hk as <-. exists (controlMarker 1). repeat split.
Qed.

(** On a circuit whose control markers and controlled gates are paired,
    [handleRemoveGate(qi, si)] on an existing wire returns; it leaves the
    cell empty, changes no cell outside the column [si] and no barrier,
    and keeps the circuit paired (with a control marker goes the control
    of its target, with a controlled gate its marker); it clears the
    selection and stops the animation.  [handleGateMiddleClick(qi, si)]
    gives the same state, except on a control marker, where it gives the
    same circuit but leaves the animation as it is. *)
Theorem removal_keeps_pairing (st : Editor) (qi si : nat) :
  wellPaired (circuits st) -> (qi < List.length (circuits st))%nat ->
  exists next,
    handleRemoveGate st qi si
    = Returned (mkEditor next (barriers st) (qubitVisibility st) None None false
                         (initialStateMode st)) /\
    handleGateMiddleClick st qi si
    = Returned (if match cellAt (circuits st) qi si with
                   | Some g => String.eqb (gate g) "CONTROL"
                   | None => false
                   end
                then mkEditor next (barriers st) (qubitVisibility st) None
                              (animationFrame st) (isPlaying st) (initialStateMode st)
                else mkEditor next (barriers st) (qubitVisibility st) None None false
                              (initialStateMode st)) /\
    wellPaired next /\
    cellAt next qi si = None /\
    (forall q s, s <> si -> cellAt next q s = cellAt (circuits st) q s).
Proof. apply removal_spec. Qed.

Lemma removal_keeps_pairing_witness :
  wellPaired (circuits czPlaying) /\ (0 < List.length (circuits czPlaying))%nat /\
  exists next,
    handleRemoveGate czPlaying 0 1
    = Returned (mkEditor next (barriers czPlaying) (qubitVisibility czPlaying) None None
                         false (initialStateMode czPlaying)) /\
    handleGateMiddleClick czPlaying 0 1
    = Returned (if match cellAt (circuits czPlaying) 0 1 with
                   | Some g => String.eqb (gate g) "CONTROL"
                   | None => false
                   end
                then mkEditor next (barriers czPlaying) (qubitVisibility czPlaying) None
                              (animationFrame czPlaying) (isPlaying czPlaying)
                              (initialStateMode czPlaying)
                else mkEditor next (barriers czPlaying) (qubitVisibility czPlaying) None
                              None false (initialStateMode czPlaying)) /\
    wellPaired next /\
    cellAt next 0 1 = None /\
    (forall q s, s <> 1%nat -> cellAt next q s = cellAt (circuits czPlaying) q s).
Proof.
  assert (H : (0 < List.length (circuits czPlaying))%nat) by (cbn; lia).
  split; [exact czOne_paired|]. split; [exact H|].
  exact (removal_keeps_pairing czPlaying 0 1 czOne_paired H).
Defined.
(** ** When the handlers throw *)

Lemma setCell_TypeError c q s v :
  setCell c q s v = TypeError <-> (List.length c <= q)%nat.
Proof.
  unfold setCell. destruct (nth_error c q) eqn:E.
  - split; [discriminate|]. intros H. apply nth_error_None in H. congruence.
  - split; [intros _; apply nth_error_None, E|reflexivity].
Qed.

Lemma setCell_length c q s v c' :
  setCell c q s v = Returned c' -> List.length c' = List.length c.
Proof. intros H. apply (setCell_inv _ _ _ _ _ H). Qed.

Lemma bind_TypeError {A B} (x : Outcome A) (f : A -> B) :
  bind x (fun a => Returned (f a)) = TypeError <-> x = TypeError.
Proof. destruct x; cbn [bind]; split; intros H; try discriminate; reflexivity. Qed.

(** A step that clears or rewrites a cell that exists, or does nothing. *)
Lemma setCell_keeps c q s v :
  (q < List.length c)%nat ->
  exists c', setCell c q s v = Returned c' /\ List.length c' = List.length c.
Proof.
  intros H. rewrite (setCell_Returned c q s v H). eexists. split; [reflexivity|].
  apply length_update, H.
Qed.

Lemma removeGate_TypeError prev qi si :
  removeGate prev qi si = TypeError <-> (List.length prev <= qi)%nat.
Proof.
  split.
  - intros H. destruct (Nat.lt_ge_cases qi (List.length prev)) as [Hq|Hq]; [exfalso|exact Hq].
    revert H. unfold removeGate.
    rewrite (nth_error_row prev qi Hq), (row_cell prev qi si _ (nth_error_row prev qi Hq)).
    destruct (cellAt prev qi si) as [g|]; [|discriminate].
    assert (Hdone : forall n1, List.length n1 = List.length prev ->
                               bind (Returned n1) (fun next => setCell next qi si None)
                               <> TypeError).
    { intros n1 Hl. cbn [bind]. rewrite setCell_TypeError, Hl. lia. }
    assert (Hstep : forall a v tg, cellAt prev a si = Some tg ->
                                  bind (setCell prev a si v)
                                       (fun next => setCell next qi si None) <> TypeError).
    { intros a v tg Ha.
      destruct (setCell_keeps prev a si v (cellAt_row _ _ _ _ Ha)) as (n1 & -> & Hl).
      apply Hdone, Hl. }
    destruct (String.eqb (gate g) "CONTROL").
    + destruct (targetIndex g) as [t|]; [|apply Hdone; reflexivity].
      destruct (cellAt prev t si) as [tg|] eqn:Et; [|apply Hdone; reflexivity].
      destruct (option_nat_eqb _ _); [apply (Hstep _ _ _ Et)|apply Hdone; reflexivity].
    + destruct (controlIndex g) as [k|]; [|apply Hdone; reflexivity].
      destruct (cellAt prev k si) as [m|] eqn:Em; [|apply Hdone; reflexivity].
      destruct (_ && _)%bool; [apply (Hstep _ _ _ Em)|apply Hdone; reflexivity].
  - intros H. unfold removeGate. apply nth_error_None in H. rewrite H. reflexivity.
Qed.

Lemma insertGate_TypeError st qi si g :
  handleInsertGate st qi si g = TypeError <-> (List.length (circuits st) <= qi)%nat.
Proof.
  unfold handleInsertGate. rewrite bind_TypeError, setCell_TypeError.
  destruct (truthy _); [rewrite shiftAllColumnsRight_length|]; reflexivity.
Qed.

Lemma middleClick_TypeError st qi si :
  handleGateMiddleClick st qi si = TypeError <-> (List.length (circuits st) <= qi)%nat.
Proof.
  assert (Hrm : handleRemoveGate st qi si = TypeError <-> (List.length (circuits st) <= qi)%nat).
  { unfold handleRemoveGate. rewrite bind_TypeError. apply removeGate_TypeError. }
  unfold handleGateMiddleClick.
  destruct (cellAt (circuits st) qi si) as [g|] eqn:Eg; [|exact Hrm].
  destruct (String.eqb (gate g) "CONTROL"); [|exact Hrm].
  pose proof (cellAt_row _ _ _ _ Eg) as Hq.
  split; [|lia]. intros H. exfalso. revert H.
  assert (Hdone : forall n1, List.length n1 = List.length (circuits st) ->
            bind (Returned n1)
                 (fun next => bind (setCell next qi si None)
                    (fun next' => Returned (mkEditor next' (barriers st) (qubitVisibility st)
                                    None (animationFrame st) (isPlaying st)
                                    (initialStateMode st))))
            <> TypeError).
  { intros n1 Hl. cbn [bind]. rewrite bind_TypeError, setCell_TypeError, Hl. lia. }
  destruct (targetIndex g) as [t|]; [|apply Hdone; reflexivity].
  destruct (cellAt (circuits st) t si) as [tg|] eqn:Et; [|apply Hdone; reflexivity].
  destruct (setCell_keeps (circuits st) t si (Some (withControl tg None))
              (cellAt_row _ _ _ _ Et)) as (n1 & -> & Hl).
  apply Hdone, Hl.
Qed.

Lemma removeOldControl_keeps prev si newGate oldGate :
  exists next, removeOldControl prev si newGate oldGate = Returned next /\
               List.length next = List.length prev.
Proof.
  unfold removeOldControl.
  destruct oldGate as [og|]; [|eexists; split; reflexivity].
  destruct (controlIndex og) as [k|]; [|eexists; split; reflexivity].
  destruct (negb _); [|eexists; split; reflexivity].
  destruct (cellAt prev k si) as [m|] eqn:Em; [|eexists; split; reflexivity].
  destruct (String.eqb _ _); [|eexists; split; reflexivity].
  apply setCell_keeps, (cellAt_row _ _ _ _ Em).
Qed.

Lemma updateGate_TypeError prev qi si newGate :
  updateGate prev qi si newGate = TypeError <->
  (List.length prev <= qi)%nat \/
  exists c, controlIndex newGate = Some c /\ (List.length prev <= c)%nat.
Proof.
  unfold updateGate.
  destruct (nth_error prev qi) as [row|] eqn:Er.
  2:{ split; [intros _; left; apply nth_error_None, Er|reflexivity]. }
  assert (Hq : (qi < List.length prev)%nat) by (apply nth_error_Some; congruence).
  destruct (removeOldControl_keeps prev si newGate (nth si row None)) as (next & -> & Hl).
  cbn [bind]. unfold placeGate.
  assert (Hq' : (qi < List.length next)%nat) by (rewrite Hl; exact Hq).
  destruct (controlIndex newGate) as [c|].
  - destruct (nth_error next c) as [ctrlRow|] eqn:Ec.
    + assert (Hc : (c < List.length next)%nat) by (apply nth_error_Some; congruence).
      split.
      * intros H. exfalso. revert H.
        destruct (_ && _)%bool.
        -- destruct (setCell_keeps next qi si None Hq') as (n1 & -> & Hl1). cbn [bind].
           destruct (setCell_keeps (shiftAllColumnsRight n1 si) qi si (Some newGate))
             as (n2 & -> & Hl2);
             [rewrite shiftAllColumnsRight_length, Hl1; exact Hq'|].
           cbn [bind]. rewrite shiftAllColumnsRight_length in Hl2.
           destruct (setCell_keeps n2 c si (Some (controlMarker qi))) as (n3 & -> & Hl3);
             [rewrite Hl2, Hl1; exact Hc|].
           discriminate.
        -- destruct (setCell_keeps next qi si (Some newGate) Hq') as (n1 & -> & Hl1).
           cbn [bind].
           destruct (setCell_keeps n1 c si (Some (controlMarker qi))) as (n2 & -> & Hl2);
             [rewrite Hl1; exact Hc|].
           discriminate.
      * intros [H|(c' & E & H)]; [lia|]. injection E as <-. lia.
    + split; [|reflexivity]. intros _. right. exists c. split; [reflexivity|].
      rewrite <- Hl. apply nth_error_None, Ec.
  - destruct (setCell_keeps next qi si (Some newGate) Hq') as (n1 & -> & Hl1). cbn [bind].
    split; [discriminate|]. intros [H|(c' & E & _)]; [lia|discriminate].
Qed.

(** The handlers throw exactly when they address a wire that does not
    exist: [handleInsertGate], [handleRemoveGate] and
    [handleGateMiddleClick] when there is no wire [qi];
    [handleUpdateGate] when there is no wire [qi] or the new gate names a
    controlling wire that does not exist. *)
Theorem handlers_throw_iff (st : Editor) (qi si : nat) (g : Gate) :
  (handleInsertGate st qi si g = TypeError <-> (List.length (circuits st) <= qi)%nat) /\
  (handleRemoveGate st qi si = TypeError <-> (List.length (circuits st) <= qi)%nat) /\
  (handleGateMiddleClick st qi si = TypeError <-> (List.length (circuits st) <= qi)%nat) /\
  (handleUpdateGate st qi si g = TypeError <->
   (List.length (circuits st) <= qi)%nat \/
   exists c, controlIndex g = Some c /\ (List.length (circuits st) <= c)%nat).
Proof.
  split; [apply insertGate_TypeError|].
  split; [unfold handleRemoveGate; rewrite bind_TypeError; apply removeGate_TypeError|].
  split; [apply middleClick_TypeError|].
  unfold handleUpdateGate. rewrite bind_TypeError. apply updateGate_TypeError.
Qed.
(** ** Inserting a gate keeps the pairing *)

Lemma wellPaired_shift c si : wellPaired c -> wellPaired (shiftAllColumnsRight c si).
Proof.
  intros [W1 W2]. split.
  - intros q s m H Hg. rewrite cellAt_shift in H.
    destruct (s <? si)%nat eqn:E1.
    + destruct (W1 q s m H Hg) as (t & tg & Ht & Htg & Hrest).
      exists t, tg. rewrite cellAt_shift, E1. repeat split; tauto.
    + destruct (s =? si)%nat eqn:E2; [discriminate|].
      destruct (W1 q (s - 1)%nat m H Hg) as (t & tg & Ht & Htg & Hrest).
      exists t, tg. rewrite cellAt_shift, E1, E2. repeat split; tauto.
  - intros t s tg k H Hn Hk. rewrite cellAt_shift in H.
    destruct (s <? si)%nat eqn:E1.
    + destruct (W2 t s tg k H Hn Hk) as (m & Hm & Hrest).
      exists m. rewrite cellAt_shift, E1. repeat split; tauto.
    + destruct (s =? si)%nat eqn:E2; [discriminate|].
      destruct (W2 t (s - 1)%nat tg k H Hn Hk) as (m & Hm & Hrest).
      exists m. rewrite cellAt_shift, E1, E2. repeat split; tauto.
Qed.

Lemma truthy_false {A} (o : option A) : truthy o = false -> o = None.
Proof. destruct o; [discriminate|reflexivity]. Qed.

Lemma insertGate_paired st qi si g st' :
  wellPaired (circuits st) -> gate g <> "CONTROL" -> controlIndex g = None ->
  handleInsertGate st qi si g = Returned st' -> wellPaired (circuits st').
Proof.
  intros W Hg Hc H.
  destruct (insertGate_cells _ _ _ _ _ H) as (_ & _ & Hcells).
  set (base := if truthy (cellAt (circuits st) qi si)
               then shiftAllColumnsRight (circuits st) si else circuits st).
  assert (Wb : wellPaired base).
  { unfold base. destruct (truthy _); [apply wellPaired_shift|]; exact W. }
  assert (Hfree : cellAt base qi si = None).
  { unfold base. destruct (truthy _) eqn:E.
    - rewrite cellAt_shift, Nat.ltb_irrefl, Nat.eqb_refl. reflexivity.
    - apply truthy_false, E. }
  assert (Hview : forall q s, cellAt (circuits st') q s
                              = if ((q =? qi) && (s =? si))%nat%bool then Some g
                                else cellAt base q s).
  { intros q s. rewrite Hcells. unfold base.
    destruct (truthy _); [rewrite cellAt_shift|]; reflexivity. }
  apply (wellPaired_edit base _ (fun q s => (q =? qi) && (s =? si))%nat%bool); [exact Wb|..].
  - intros q s Hch. rewrite Hview, Hch. reflexivity.
  - intros t s tg k Hch Hcell _ _. eqb_cases.
  - intros k s m t Hch Hcell _ _. eqb_cases.
  - intros q s m Hch Hcell Hm. rewrite Hview, Hch in Hcell. congruence.
  - intros t s tg k Hch Hcell _ Hk. rewrite Hview, Hch in Hcell. congruence.
Qed.

Lemma insertGate_pairing_spec st qi si g :
  wellPaired (circuits st) -> (qi < List.length (circuits st))%nat ->
  gate g <> "CONTROL" -> controlIndex g = None ->
  exists st', handleInsertGate st qi si g = Returned st' /\ wellPaired (circuits st').
Proof.
  intros W Hq Hg Hc. destruct (insertGate_Returned st qi si g Hq) as [st' H].
  exists st'. split; [exact H|]. apply (insertGate_paired st qi si g st' W Hg Hc H).
Qed.

(** ** Wires *)

Lemma nth_dropAt {A} qi (l : list A) q d :
  nth q (dropAt qi l) d = nth (if (q <? qi)%nat then q else S q) l d.
Proof.
  unfold dropAt. destruct (Nat.ltb_spec q qi) as [Hlt|Hge].
  - destruct (Nat.lt_ge_cases q (List.length l)) as [H|H].
    + rewrite app_nth1 by (rewrite length_firstn; lia).
      rewrite nth_firstn. destruct (Nat.ltb_spec q qi); [reflexivity|lia].
    + rewrite app_nth2 by (rewrite length_firstn; lia).
      rewrite nth_skipn, !nth_overflow; [reflexivity|lia|rewrite length_firstn; lia].
  - rewrite app_nth2 by (rewrite length_firstn; lia).
    rewrite nth_skipn, length_firstn.
    destruct (Nat.le_gt_cases qi (List.length l)) as [H|H].
    + f_equal. lia.
    + rewrite !nth_overflow; [reflexivity|lia|lia].
Qed.

Lemma length_dropAt {A} qi (l : list A) :
  List.length (dropAt qi l)
  = if (qi <? List.length l)%nat then (List.length l - 1)%nat else List.length l.
Proof.
  unfold dropAt. rewrite length_app, length_firstn, length_skipn.
  destruct (Nat.ltb_spec qi (List.length l)); lia.
Qed.

(** The cells after the removal of a wire. *)
Lemma cellAt_removeQubit c qi q s :
  cellAt (map (map (cleanCell qi)) (dropAt qi c)) q s
  = cleanCell qi (cellAt c (if (q <? qi)%nat then q else S q) s).
Proof.
  unfold cellAt.
  change (@nil (option Gate)) with (map (cleanCell qi) []) at 1.
  rewrite map_nth.
  change (@None Gate) with (cleanCell qi None) at 1.
  rewrite map_nth, nth_dropAt. reflexivity.
Qed.

Lemma renumber_old qi q : renumber qi (if (q <? qi)%nat then q else S q) = q.
Proof.
  unfold renumber. destruct (Nat.ltb_spec q qi).
  - destruct (Nat.ltb_spec qi q); lia.
  - destruct (Nat.ltb_spec qi (S q)); lia.
Qed.

Lemma old_renumber qi t :
  t <> qi -> (if (renumber qi t <? qi)%nat then renumber qi t else S (renumber qi t)) = t.
Proof.
  intros H. unfold renumber. destruct (Nat.ltb_spec qi t).
  - destruct (Nat.ltb_spec (t - 1) qi); lia.
  - destruct (Nat.ltb_spec t qi); lia.
Qed.

Lemma old_not_removed qi q : (if (q <? qi)%nat then q else S q) <> qi.
Proof. destruct (Nat.ltb_spec q qi); lia. Qed.

Lemma removeQubit_paired c qi :
  wellPaired c -> wellPaired (map (map (cleanCell qi)) (dropAt qi c)).
Proof.
  intros [W1 W2]. split.
  - intros q s m' H Hg. rewrite cellAt_removeQubit in H.
    set (u := if (q <? qi)%nat then q else S q) in *.
    destruct (cellAt c u s) as [og|] eqn:Eo; [|discriminate].
    unfold cleanCell in H. destruct (String.eqb (gate og) "CONTROL") eqn:Ec.
    + apply String.eqb_eq in Ec.
      destruct (W1 u s og Eo Ec) as (t & tg & Ht & Htg & Hn & Hci).
      rewrite Ht in H. destruct (Nat.eqb_spec t qi) as [|Hne]; [discriminate|].
      injection H as <-.
      exists (renumber qi t), (withControl tg (Some q)).
      split; [reflexivity|]. split; [|split; [exact Hn|reflexivity]].
      rewrite cellAt_removeQubit, (old_renumber qi t Hne), Htg.
      unfold cleanCell. apply control_not in Hn. rewrite Hn, Hci.
      destruct (Nat.eqb_spec u qi) as [E|_]; [exfalso; apply (old_not_removed qi q E)|].
      unfold u. rewrite renumber_old. reflexivity.
    + exfalso. apply control_not in Ec. apply Ec.
      destruct (controlIndex og) as [k|]; [destruct (k =? qi)%nat|];
        injection H as <-; exact Hg.
  - intros t' s tg' k' H Hn Hk. rewrite cellAt_removeQubit in H.
    set (u := if (t' <? qi)%nat then t' else S t') in *.
    destruct (cellAt c u s) as [og|] eqn:Eo; [|discriminate].
    unfold cleanCell in H. destruct (String.eqb (gate og) "CONTROL") eqn:Ec.
    + exfalso. apply String.eqb_eq in Ec. apply Hn.
      destruct (targetIndex og) as [t|]; [destruct (t =? qi)%nat; [discriminate|]|];
        injection H as <-; exact Ec.
    + apply control_not in Ec.
      destruct (controlIndex og) as [k|] eqn:Ek.
      2:{ injection H as <-. congruence. }
      destruct (Nat.eqb_spec k qi) as [|Hne].
      { injection H as <-. discriminate. }
      injection H as <-. cbn [withControl controlIndex] in Hk. injection Hk as <-.
      destruct (W2 u s og k Eo Ec Ek) as (m & Hm & Hg & Ht).
      exists (withTarget m (Some t')).
      split; [|split; [exact Hg|reflexivity]].
      rewrite cellAt_removeQubit, (old_renumber qi k Hne), Hm.
      unfold cleanCell. apply String.eqb_eq in Hg. rewrite Hg, Ht.
      destruct (Nat.eqb_spec u qi) as [E|_]; [exfalso; apply (old_not_removed qi t' E)|].
      unfold u. rewrite renumber_old. reflexivity.
Qed.

Lemma withTarget_id g t : targetIndex g = Some t -> withTarget g (Some t) = g.
Proof. intros <-. destruct g. reflexivity. Qed.

Lemma withControl_id g k : controlIndex g = Some k -> withControl g (Some k) = g.
Proof. intros <-. destruct g. reflexivity. Qed.

(** On a paired circuit the clean-up for a wire beyond the circuit changes
    nothing. *)
Lemma cleanCell_beyond c qi q s :
  wellPaired c -> (List.length c <= qi)%nat ->
  cleanCell qi (cellAt c q s) = cellAt c q s.
Proof.
  intros [W1 W2] Hq. destruct (cellAt c q s) as [g|] eqn:Eg; [|reflexivity].
  unfold cleanCell. destruct (String.eqb (gate g) "CONTROL") eqn:Ec.
  - apply String.eqb_eq in Ec.
    destruct (W1 q s g Eg Ec) as (t & tg & Ht & Htg & _).
    pose proof (cellAt_row _ _ _ _ Htg) as Hrow. rewrite Ht.
    destruct (Nat.eqb_spec t qi); [lia|].
    unfold renumber. destruct (Nat.ltb_spec qi t); [lia|].
    rewrite (withTarget_id g t Ht). reflexivity.
  - apply control_not in Ec. destruct (controlIndex g) as [k|] eqn:Ek; [|reflexivity].
    destruct (W2 q s g k Eg Ec Ek) as (m & Hm & _).
    pose proof (cellAt_row _ _ _ _ Hm) as Hrow.
    destruct (Nat.eqb_spec k qi); [lia|].
    unfold renumber. destruct (Nat.ltb_spec qi k); [lia|].
    rewrite (withControl_id g k Ek). reflexivity.
Qed.

Lemma map_id_in {A} (f : A -> A) l : (forall a, In a l -> f a = a) -> map f l = l.
Proof.
  induction l as [|a l IH]; intros H; [reflexivity|].
  cbn [map]. rewrite (H a (or_introl eq_refl)), IH; [reflexivity|].
  intros b Hb. apply H. right. exact Hb.
Qed.

Lemma dropAt_last {A} (l : list A) x : dropAt (List.length l) (l ++ [x]) = l.
Proof.
  unfold dropAt. rewrite firstn_app, Nat.sub_diag, firstn_all. cbn [firstn].
  rewrite app_nil_r, skipn_all2; [apply app_nil_r|rewrite length_app; cbn; lia].
Qed.

Lemma cleanCell_rows c qi :
  wellPaired c -> (List.length c <= qi)%nat -> map (map (cleanCell qi)) c = c.
Proof.
  intros W Hq. apply map_id_in. intros row Hrow.
  apply In_nth with (d := []) in Hrow as (q & Hlt & <-).
  apply map_id_in. intros cl Hcl.
  apply In_nth with (d := None) in Hcl as (s & _ & <-).
  apply (cleanCell_beyond c qi q s W Hq).
Qed.

Lemma add_remove_qubit st :
  wellPaired (circuits st) -> (1 <= List.length (circuits st))%nat ->
  List.length (qubitVisibility st) = List.length (circuits st) ->
  circuits (handleRemoveQubit (handleAddQubit st) (List.length (circuits st))) = circuits st /\
  qubitVisibility (handleRemoveQubit (handleAddQubit st) (List.length (circuits st)))
  = qubitVisibility st.
Proof.
  intros W Hl Hv. unfold handleRemoveQubit, handleAddQubit.
  cbn [circuits qubitVisibility]. rewrite length_app. cbn [List.length].
  destruct (Nat.leb_spec (List.length (circuits st) + 1) 1) as [H|_]; [lia|].
  cbn [circuits qubitVisibility]. rewrite dropAt_last.
  rewrite <- Hv at 2. rewrite dropAt_last.
  split; [|reflexivity]. apply cleanCell_rows; [exact W|lia].
Qed.

Lemma addQubit_paired c : wellPaired c -> wellPaired (c ++ [[]]).
Proof.
  intros W. apply (wellPaired_edit c _ (fun _ _ => false)); try exact W;
    try (intros; discriminate).
  intros q s _. unfold cellAt.
  destruct (Nat.lt_ge_cases q (List.length c)) as [H|H].
  - rewrite app_nth1 by exact H. reflexivity.
  - rewrite app_nth2 by exact H. rewrite (nth_overflow c) by exact H.
    destruct (q - List.length c)%nat as [|[|n]]; reflexivity.
Qed.

(** [handleInsertGate] of a gate without a control, which is what the
    palette supplies, keeps a paired circuit paired. *)
Theorem handleInsertGate_keeps_pairing (st : Editor) (qi si : nat) (g : Gate) :
  wellPaired (circuits st) -> (qi < List.length (circuits st))%nat ->
  gate g <> "CONTROL" -> controlIndex g = None ->
  exists st', handleInsertGate st qi si g = Returned st' /\ wellPaired (circuits st').
Proof. apply insertGate_pairing_spec. Qed.

Lemma handleInsertGate_keeps_pairing_witness :
  wellPaired (circuits czEditor) /\ (0 < List.length (circuits czEditor))%nat /\
  gate (instanceOf GATE_H) <> "CONTROL" /\ controlIndex (instanceOf GATE_H) = None /\
  exists st', handleInsertGate czEditor 0 1 (instanceOf GATE_H) = Returned st' /\
              wellPaired (circuits st').
Proof.
  assert (H : (0 < List.length (circuits czEditor))%nat) by (cbn; lia).
  assert (Hg : gate (instanceOf GATE_H) <> "CONTROL") by (cbn; discriminate).
  split; [exact czOne_paired|]. split; [exact H|]. split; [exact Hg|].
  split; [reflexivity|].
  exact (handleInsertGate_keeps_pairing czEditor 0 1 (instanceOf GATE_H)
           czOne_paired H Hg eq_refl).
Defined.

Lemma wires_spec st qi :
  wellPaired (circuits st) ->
  List.length (qubitVisibility st) = List.length (circuits st) ->
  (1 <= List.length (circuits st))%nat ->
  wellPaired (circuits (handleAddQubit st)) /\
  wellPaired (circuits (handleRemoveQubit st qi)) /\
  List.length (qubitVisibility (handleAddQubit st))
  = List.length (circuits (handleAddQubit st)) /\
  List.length (qubitVisibility (handleRemoveQubit st qi))
  = List.length (circuits (handleRemoveQubit st qi)) /\
  (1 <= List.length (circuits (handleRemoveQubit st qi)))%nat /\
  circuits (handleRemoveQubit (handleAddQubit st) (List.length (circuits st))) = circuits st /\
  qubitVisibility (handleRemoveQubit (handleAddQubit st) (List.length (circuits st)))
  = qubitVisibility st.
Proof.
  intros W Hv Hl.
  split; [apply addQubit_paired, W|].
  assert (Hkeep :
    wellPaired (circuits (handleRemoveQubit st qi)) /\
    List.length (qubitVisibility (handleAddQubit st))
    = List.length (circuits (handleAddQubit st)) /\
    List.length (qubitVisibility (handleRemoveQubit st qi))
    = List.length (circuits (handleRemoveQubit st qi)) /\
    (1 <= List.length (circuits (handleRemoveQubit st qi)))%nat).
  { unfold handleRemoveQubit, handleAddQubit.
    destruct (Nat.leb_spec (List.length (circuits st)) 1) as [H1|H1];
      cbn [circuits qubitVisibility].
    - split; [exact W|]. split; [rewrite !length_app, Hv; reflexivity|].
      split; [exact Hv|exact Hl].
    - split; [apply removeQubit_paired, W|].
      split; [rewrite !length_app, Hv; reflexivity|].
      rewrite !length_map, !length_dropAt, Hv.
      split; [reflexivity|]. destruct (Nat.ltb_spec qi (List.length (circuits st))); lia. }
  destruct Hkeep as (K1 & K2 & K3 & K4).
  split; [exact K1|]. split; [exact K2|]. split; [exact K3|]. split; [exact K4|].
  apply (add_remove_qubit st W Hl Hv).
Qed.

(** [handleAddQubit] and [handleRemoveQubit] keep a paired circuit paired
    and the visibility flags as many as the wires; [handleRemoveQubit]
    leaves at least one wire; and adding a wire and removing it again
    gives the circuit and the visibility flags back. *)
Theorem wire_edits_keep_pairing (st : Editor) (qi : nat) :
  wellPaired (circuits st) ->
  List.length (qubitVisibility st) = List.length (circuits st) ->
  (1 <= List.length (circuits st))%nat ->
  wellPaired (circuits (handleAddQubit st)) /\
  wellPaired (circuits (handleRemoveQubit st qi)) /\
  List.length (qubitVisibility (handleAddQubit st))
  = List.length (circuits (handleAddQubit st)) /\
  List.length (qubitVisibility (handleRemoveQubit st qi))
  = List.length (circuits (handleRemoveQubit st qi)) /\
  (1 <= List.length (circuits (handleRemoveQubit st qi)))%nat /\
  circuits (handleRemoveQubit (handleAddQubit st) (List.length (circuits st))) = circuits st /\
  qubitVisibility (handleRemoveQubit (handleAddQubit st) (List.length (circuits st)))
  = qubitVisibility st.
Proof. apply wires_spec. Qed.

Lemma wire_edits_keep_pairing_witness :
  wellPaired (circuits czEditor) /\
  List.length (qubitVisibility czEditor) = List.length (circuits czEditor) /\
  (1 <= List.length (circuits czEditor))%nat /\
  wellPaired (circuits (handleAddQubit czEditor)) /\
  wellPaired (circuits (handleRemoveQubit czEditor 0)) /\
  List.length (qubitVisibility (handleAddQubit czEditor))
  = List.length (circuits (handleAddQubit czEditor)) /\
  List.length (qubitVisibility (handleRemoveQubit czEditor 0))
  = List.length (circuits (handleRemoveQubit czEditor 0)) /\
  (1 <= List.length (circuits (handleRemoveQubit czEditor 0)))%nat /\
  circuits (handleRemoveQubit (handleAddQubit czEditor) (List.length (circuits czEditor)))
  = circuits czEditor /\
  qubitVisibility (handleRemoveQubit (handleAddQubit czEditor)
                     (List.length (circuits czEditor)))
  = qubitVisibility czEditor.
Proof.
  assert (H : (1 <= List.length (circuits czEditor))%nat) by (cbn; lia).
  split; [exact czOne_paired|]. split; [reflexivity|]. split; [exact H|].
  exact (wire_edits_keep_pairing czEditor 0 czOne_paired eq_refl H).
Defined.
(** ** Updating a gate keeps the pairing *)

(** The first step clears the marker of the old control, on the wire [K],
    when the control changes; else it does nothing. *)
Lemma removeOldControl_view prev qi si ng :
  wellPaired prev ->
  (forall m, cellAt prev qi si = Some m -> gate m <> "CONTROL") ->
  exists next K,
    removeOldControl prev si ng (cellAt prev qi si) = Returned next /\
    List.length next = List.length prev /\
    (forall q s, cellAt next q s
                 = if (option_nat_eqb K q && (s =? si)%nat)%bool then None
                   else cellAt prev q s) /\
    (forall k, K = Some k ->
       controlIndex ng <> Some k /\
       exists og m, cellAt prev qi si = Some og /\ controlIndex og = Some k /\
                    cellAt prev k si = Some m /\ gate m = "CONTROL" /\
                    targetIndex m = Some qi) /\
    (K = None ->
       forall og k, cellAt prev qi si = Some og -> controlIndex og = Some k ->
                    controlIndex ng = Some k).
Proof.
  intros [W1 W2] Hnm. unfold removeOldControl.
  assert (Hnone : forall P : Prop, P ->
            exists next K,
              Returned prev = Returned next /\
              List.length next = List.length prev /\
              (forall q s, cellAt next q s
                           = if (option_nat_eqb K q && (s =? si)%nat)%bool then None
                             else cellAt prev q s) /\
              (forall k, K = Some k ->
                 controlIndex ng <> Some k /\
                 exists og m, cellAt prev qi si = Some og /\ controlIndex og = Some k /\
                              cellAt prev k si = Some m /\ gate m = "CONTROL" /\
                              targetIndex m = Some qi) /\
              (K = None -> P)).
  { intros P HP. exists prev, None. repeat split; try discriminate. intros _. exact HP. }
  destruct (cellAt prev qi si) as [og|] eqn:Eo.
  2:{ apply Hnone. intros og k H. discriminate. }
  destruct (controlIndex og) as [k|] eqn:Ek.
  2:{ apply Hnone. intros og' k H. injection H as <-. congruence. }
  destruct (W2 qi si og k Eo (Hnm og eq_refl) Ek) as (m & Hm & Hg & Ht).
  destruct (option_nat_eqb (controlIndex ng) k) eqn:Esame; cbn [negb].
  - apply Hnone. intros og' k' H Hk'. injection H as <-.
    assert (k' = k) by congruence. subst k'.
    destruct (controlIndex ng) as [c|]; [|discriminate].
    cbn [option_nat_eqb] in Esame. apply Nat.eqb_eq in Esame. congruence.
  - rewrite Hm. apply String.eqb_eq in Hg. rewrite Hg.
    pose proof (cellAt_row _ _ _ _ Hm) as Hrow.
    rewrite (setCell_Returned prev k si None Hrow).
    destruct (setCell_inv _ _ _ _ _ (setCell_Returned prev k si None Hrow)) as (_ & Hl & Hv).
    eexists. exists (Some k). split; [reflexivity|]. split; [exact Hl|].
    split; [|split; [|discriminate]].
    + intros q s. rewrite Hv. cbn [option_nat_eqb]. rewrite (Nat.eqb_sym k q). reflexivity.
    + intros k' [= <-]. split.
      * intros E. rewrite E in Esame. cbn [option_nat_eqb] in Esame.
        rewrite Nat.eqb_refl in Esame. discriminate.
      * exists og, m. apply String.eqb_eq in Hg. repeat split; assumption.
Qed.

Lemma setCell_view c q s v :
  (q < List.length c)%nat ->
  exists c', setCell c q s v = Returned c' /\ List.length c' = List.length c /\
             forall q' s', cellAt c' q' s'
                           = if ((q' =? q) && (s' =? s))%nat%bool then v else cellAt c q' s'.
Proof.
  intros H. rewrite (setCell_Returned c q s v H). eexists. split; [reflexivity|].
  destruct (setCell_inv _ _ _ _ _ (setCell_Returned c q s v H)) as (_ & Hl & Hv).
  split; assumption.
Qed.

(** The second step, after the first, makes a paired circuit. *)
Lemma placeGate_paired prev next K qi si ng :
  wellPaired prev ->
  (forall m, cellAt prev qi si = Some m -> gate m <> "CONTROL") ->
  List.length next = List.length prev ->
  (forall q s, cellAt next q s
               = if (option_nat_eqb K q && (s =? si)%nat)%bool then None
                 else cellAt prev q s) ->
  (forall k, K = Some k ->
     controlIndex ng <> Some k /\
     exists og m, cellAt prev qi si = Some og /\ controlIndex og = Some k /\
                  cellAt prev k si = Some m /\ gate m = "CONTROL" /\
                  targetIndex m = Some qi) ->
  (K = None ->
     forall og k, cellAt prev qi si = Some og -> controlIndex og = Some k ->
                  controlIndex ng = Some k) ->
  (qi < List.length prev)%nat ->
  gate ng <> "CONTROL" ->
  (forall c, controlIndex ng = Some c -> (c < List.length prev)%nat /\ c <> qi) ->
  exists n' moved,
    placeGate next qi si ng = Returned (n', moved) /\
    List.length n' = List.length prev /\
    wellPaired n' /\
    cellAt n' qi si = Some ng /\
    (forall c, controlIndex ng = Some c -> cellAt n' c si = Some (controlMarker qi)).
Proof.
  intros W Hnm Hl Hview HK1 HK0 Hq Hng Hctl.
  pose proof W as [W1 W2].
  assert (Fog : forall og k', cellAt prev qi si = Some og -> controlIndex og = Some k' ->
                              K = Some k' \/ controlIndex ng = Some k').
  { intros og k' Ho Hk. destruct K as [k|].
    - left. destruct (HK1 k eq_refl) as (_ & og' & m & Ho' & Hk' & _). congruence.
    - right. apply (HK0 eq_refl og k' Ho Hk). }
  assert (FK : forall k, K = Some k ->
                k <> qi /\ controlIndex ng <> Some k /\
                exists m, cellAt prev k si = Some m /\ gate m = "CONTROL" /\
                          targetIndex m = Some qi).
  { intros k Ek. destruct (HK1 k Ek) as (Hn & og & m & Ho & Hk & Hm & Hg & Ht).
    split; [|split; [exact Hn|exists m; repeat split; assumption]].
    intros ->. apply (Hnm m Hm Hg). }
  clear HK1 HK0.
  assert (Hq' : (qi < List.length next)%nat) by (rewrite Hl; exact Hq).
  unfold placeGate. destruct (controlIndex ng) as [c|] eqn:Ec.
  2:{ destruct (setCell_view next qi si (Some ng) Hq') as (n1 & -> & Hl1 & H1). cbn [bind].
      exists n1, false. split; [reflexivity|]. split; [congruence|].
      split; [|split; [rewrite H1, !Nat.eqb_refl; reflexivity|discriminate]].
      apply (wellPaired_edit prev _
               (fun q s => (s =? si)%nat && ((q =? qi)%nat || option_nat_eqb K q))%bool);
        [exact W|..].
      - intros q s Hch. rewrite H1, Hview.
        destruct K as [k|]; cbn [option_nat_eqb] in *; eqb_cases.
      - intros t s tg k' Hch Hcell Hn Hk.
        destruct K as [k|]; [destruct (FK k eq_refl) as (HkK & HnK & mK & HmK & HgK & HtK)|];
          cbn [option_nat_eqb] in *; eqb_cases.
        all: try (destruct (Fog _ _ Hcell Hk) as [E|E]; congruence).
      - intros k0 s m t Hch Hcell Hg Ht.
        destruct K as [k|]; [destruct (FK k eq_refl) as (HkK & HnK & mK & HmK & HgK & HtK)|];
          cbn [option_nat_eqb] in *; eqb_cases.
        all: try (exfalso; apply (Hnm _ Hcell Hg)).
      - intros q s m Hch Hcell Hg. rewrite H1, Hview in Hcell.
        destruct K as [k|]; cbn [option_nat_eqb] in *; eqb_cases.
      - intros q s tg k' Hch Hcell Hn Hk. rewrite H1, Hview in Hcell.
        destruct K as [k|]; cbn [option_nat_eqb] in *; eqb_cases. }
  destruct (Hctl c eq_refl) as [Hc Hcq].
  assert (Hc' : (c < List.length next)%nat) by (rewrite Hl; exact Hc).
  rewrite (nth_error_row next c Hc'). cbv zeta.
  change (nth si (nth c next []) None) with (cellAt next c si).
  assert (Hex : cellAt next c si = cellAt prev c si).
  { rewrite Hview. destruct K as [k|]; [|reflexivity].
    destruct (FK k eq_refl) as (_ & HnK & _). cbn [option_nat_eqb].
    destruct (Nat.eqb_spec k c) as [->|]; [congruence|reflexivity]. }
  rewrite Hex.
  assert (Hplace :
    (cellAt prev c si = None \/
     exists x, cellAt prev c si = Some x /\ gate x = "CONTROL" /\ targetIndex x = Some qi) ->
    exists n' moved,
      (n1 <- setCell next qi si (Some ng) ;;
       n2 <- setCell n1 c si (Some (controlMarker qi)) ;;
       Returned (n2, false)) = Returned (n', moved) /\
      List.length n' = List.length prev /\
      wellPaired n' /\
      cellAt n' qi si = Some ng /\
      (forall c0, Some c = Some c0 -> cellAt n' c0 si = Some (controlMarker qi))).
  { intros Hfree.
    destruct (setCell_view next qi si (Some ng) Hq') as (n1 & -> & Hl1 & H1). cbn [bind].
    destruct (setCell_view n1 c si (Some (controlMarker qi))) as (n2 & -> & Hl2 & H2);
      [rewrite Hl1; exact Hc'|]. cbn [bind].
    exists n2, false. split; [reflexivity|]. split; [congruence|].
    split; [|split].
    - apply (wellPaired_edit prev _
               (fun q s => (s =? si)%nat &&
                           ((q =? qi)%nat || (q =? c)%nat || option_nat_eqb K q))%bool);
        [exact W|..].
      + intros q s Hch. rewrite H2, H1, Hview.
        destruct K as [k|]; cbn [option_nat_eqb] in *; eqb_cases.
      + intros t s tg k' Hch Hcell Hn Hk.
        destruct K as [k|]; [destruct (FK k eq_refl) as (HkK & HnK & mK & HmK & HgK & HtK)|];
          cbn [option_nat_eqb] in *; eqb_cases.
        all: try (destruct (Fog _ _ Hcell Hk) as [E|E]; congruence).
        all: try (destruct Hfree as [E|(x & E & Hx & _)]; congruence).
      + intros k0 s m t Hch Hcell Hg Ht.
        destruct K as [k|]; [destruct (FK k eq_refl) as (HkK & HnK & mK & HmK & HgK & HtK)|];
          cbn [option_nat_eqb] in *; eqb_cases.
        all: try (exfalso; apply (Hnm _ Hcell Hg)).
        all: try (destruct Hfree as [E|(x & E & Hx & Hxt)]; congruence).
      + intros q s m Hch Hcell Hg. rewrite H2, H1, Hview in Hcell.
        assert (Hng' : cellAt n2 qi si = Some ng).
        { rewrite H2, H1. eqb_cases. }
        destruct K as [k|]; cbn [option_nat_eqb] in *; eqb_cases.
        all: try (injection Hcell as <-; exists qi, ng; repeat split; assumption).
      + intros q s tg k' Hch Hcell Hn Hk. rewrite H2, H1, Hview in Hcell.
        assert (Hmk : cellAt n2 c si = Some (controlMarker qi)).
        { rewrite H2. eqb_cases. }
        destruct K as [k|]; cbn [option_nat_eqb] in *; eqb_cases.
        all: try (injection Hcell as <-; assert (k' = c) by congruence; subst k';
                  exists (controlMarker qi); repeat split; assumption).
        all: try (injection Hcell as <-; exfalso; apply Hn; reflexivity).
    - rewrite H2, H1. eqb_cases.
    - intros c0 [= <-]. rewrite H2. eqb_cases. }
  destruct (cellAt prev c si) as [x|] eqn:Ex; cbn [truthy andb negb].
  2:{ apply Hplace. left. reflexivity. }
  destruct (String.eqb (gate x) "CONTROL" && option_nat_eqb (targetIndex x) qi)%bool eqn:Eours;
    cbn [negb].
  { apply Hplace. right. exists x. apply Bool.andb_true_iff in Eours as [E1 E2].
    apply String.eqb_eq in E1. destruct (targetIndex x) as [t|]; [|discriminate].
    cbn [option_nat_eqb] in E2. apply Nat.eqb_eq in E2. subst t. repeat split. exact E1. }
  clear Hplace.
  destruct (setCell_view next qi si None Hq') as (n1 & -> & Hl1 & H1). cbn [bind].
  destruct (setCell_view (shiftAllColumnsRight n1 si) qi si (Some ng)) as (n2 & -> & Hl2 & H2);
    [rewrite shiftAllColumnsRight_length, Hl1; exact Hq'|]. cbn [bind].
  rewrite shiftAllColumnsRight_length in Hl2.
  destruct (setCell_view n2 c si (Some (controlMarker qi))) as (n3 & -> & Hl3 & H3);
    [rewrite Hl2, Hl1; exact Hc'|]. cbn [bind].
  exists n3, true. split; [reflexivity|]. split; [congruence|].
  assert (Wn1 : wellPaired n1).
  { apply (wellPaired_edit prev _
             (fun q s => (s =? si)%nat && ((q =? qi)%nat || option_nat_eqb K q))%bool);
      [exact W|..].
    - intros q s Hch. rewrite H1, Hview.
      destruct K as [k|]; cbn [option_nat_eqb] in *; eqb_cases.
    - intros t s tg k' Hch Hcell Hn Hk.
      assert (Hnc : t = qi -> s = si -> k' <> c).
      { intros -> -> ->. destruct (W2 qi si tg c Hcell Hn Hk) as (m & Hm & Hg & Ht).
        assert (m = x) by congruence. subst m.
        apply String.eqb_eq in Hg. rewrite Hg, Ht in Eours. cbn in Eours.
        rewrite Nat.eqb_refl in Eours. discriminate. }
      destruct K as [k|]; [destruct (FK k eq_refl) as (HkK & HnK & mK & HmK & HgK & HtK)|];
        cbn [option_nat_eqb] in *; eqb_cases.
      all: try (destruct (Fog _ _ Hcell Hk) as [E|E];
                [congruence|exfalso; apply (Hnc eq_refl eq_refl); congruence]).
    - intros k0 s m t Hch Hcell Hg Ht.
      destruct K as [k|]; [destruct (FK k eq_refl) as (HkK & HnK & mK & HmK & HgK & HtK)|];
        cbn [option_nat_eqb] in *; eqb_cases.
      all: try (exfalso; apply (Hnm _ Hcell Hg)).
    - intros q s m Hch Hcell Hg. rewrite H1, Hview in Hcell.
      destruct K as [k|]; cbn [option_nat_eqb] in *; eqb_cases.
    - intros q s tg k' Hch Hcell Hn Hk. rewrite H1, Hview in Hcell.
      destruct K as [k|]; cbn [option_nat_eqb] in *; eqb_cases. }
  assert (Hng' : cellAt n3 qi si = Some ng) by (rewrite H3, H2; eqb_cases).
  assert (Hmk : cellAt n3 c si = Some (controlMarker qi)) by (rewrite H3; eqb_cases).
  split; [|split; [exact Hng'|intros c0 [= <-]; exact Hmk]].
  apply (wellPaired_edit (shiftAllColumnsRight n1 si) _
           (fun q s => (s =? si)%nat && ((q =? qi)%nat || (q =? c)%nat))%bool);
    [apply wellPaired_shift, Wn1|..].
  - intros q s Hch. rewrite H3, H2. eqb_cases.
  - intros t s tg k' Hch Hcell Hn Hk. rewrite cellAt_shift in Hcell.
    destruct (Nat.eqb_spec s si) as [->|]; [|discriminate].
    rewrite Nat.ltb_irrefl in Hcell. discriminate.
  - intros k0 s m t Hch Hcell Hg Ht. rewrite cellAt_shift in Hcell.
    destruct (Nat.eqb_spec s si) as [->|]; [|discriminate].
    rewrite Nat.ltb_irrefl in Hcell. discriminate.
  - intros q s m Hch Hcell Hg. rewrite H3, H2 in Hcell. eqb_cases.
    all: try (injection Hcell as <-; exists qi, ng; repeat split; assumption).
  - intros q s tg k' Hch Hcell Hn Hk. rewrite H3, H2 in Hcell. eqb_cases.
    all: try (injection Hcell as <-; assert (k' = c) by congruence; subst k';
              exists (controlMarker qi); repeat split; assumption).
    all: try (injection Hcell as <-; exfalso; apply Hn; reflexivity).
Qed.
Lemma updateGate_pairing_spec st qi si ng :
  wellPaired (circuits st) -> (qi < List.length (circuits st))%nat ->
  (forall m, cellAt (circuits st) qi si = Some m -> gate m <> "CONTROL") ->
  gate ng <> "CONTROL" ->
  (forall c, controlIndex ng = Some c -> (c < List.length (circuits st))%nat /\ c <> qi) ->
  exists st',
    handleUpdateGate st qi si ng = Returned st' /\
    wellPaired (circuits st') /\
    List.length (circuits st') = List.length (circuits st) /\
    cellAt (circuits st') qi si = Some ng /\
    (forall c, controlIndex ng = Some c ->
               cellAt (circuits st') c si = Some (controlMarker qi)).
Proof.
  intros W Hq Hnm Hng Hctl. unfold handleUpdateGate, updateGate.
  rewrite (nth_error_row _ qi Hq), (row_cell _ qi si _ (nth_error_row _ qi Hq)).
  destruct (removeOldControl_view (circuits st) qi si ng W Hnm)
    as (next & K & -> & Hl & Hv & HK1 & HK0).
  cbn [bind].
  destruct (placeGate_paired (circuits st) next K qi si ng W Hnm Hl Hv HK1 HK0 Hq Hng Hctl)
    as (n' & moved & -> & Hl' & Wn & Hcell & Hmk).
  cbn [bind fst snd]. eexists. split; [reflexivity|]. cbn [circuits].
  split; [exact Wn|]. split; [exact Hl'|]. split; [exact Hcell|exact Hmk].
Qed.

(** [handleUpdateGate(qi, si, newGate)] on a paired circuit, at a cell
    that holds no control marker, with a new gate whose control, if it has
    one, is another existing wire: the handler returns, the new gate is in
    the cell, its control marker, if it has a control, is in the same
    column on the controlling wire, and the circuit is paired again,
    whichever way the handler takes (control kept, changed, removed, or
    the columns shifted to make room for the marker). *)
Theorem handleUpdateGate_keeps_pairing (st : Editor) (qi si : nat) (ng : Gate) :
  wellPaired (circuits st) -> (qi < List.length (circuits st))%nat ->
  (forall m, cellAt (circuits st) qi si = Some m -> gate m <> "CONTROL") ->
  gate ng <> "CONTROL" ->
  (forall c, controlIndex ng = Some c -> (c < List.length (circuits st))%nat /\ c <> qi) ->
  exists st',
    handleUpdateGate st qi si ng = Returned st' /\
    wellPaired (circuits st') /\
    List.length (circuits st') = List.length (circuits st) /\
    cellAt (circuits st') qi si = Some ng /\
    (forall c, controlIndex ng = Some c ->
               cellAt (circuits st') c si = Some (controlMarker qi)).
Proof. apply updateGate_pairing_spec. Qed.

Lemma handleUpdateGate_keeps_pairing_witness :
  wellPaired (circuits czEditor) /\ (1 < List.length (circuits czEditor))%nat /\
  (forall m, cellAt (circuits czEditor) 1 0 = Some m -> gate m <> "CONTROL") /\
  gate (controlledBy 0 (instanceOf GATE_X)) <> "CONTROL" /\
  (forall c, controlIndex (controlledBy 0 (instanceOf GATE_X)) = Some c ->
             (c < List.length (circuits czEditor))%nat /\ c <> 1%nat) /\
  exists st',
    handleUpdateGate czEditor 1 0 (controlledBy 0 (instanceOf GATE_X)) = Returned st' /\
    wellPaired (circuits st') /\
    List.length (circuits st') = List.length (circuits czEditor) /\
    cellAt (circuits st') 1 0 = Some (controlledBy 0 (instanceOf GATE_X)) /\
    (forall c, controlIndex (controlledBy 0 (instanceOf GATE_X)) = Some c ->
               cellAt (circuits st') c 0 = Some (controlMarker 1)).
Proof.
  assert (H1 : (1 < List.length (circuits czEditor))%nat) by (cbn; lia).
  assert (H2 : forall m, cellAt (circuits czEditor) 1 0 = Some m -> gate m <> "CONTROL").
  { intros m H. cbn in H. injection H as <-. cbn. discriminate. }
  assert (H3 : gate (controlledBy 0 (instanceOf GATE_X)) <> "CONTROL") by (cbn; discriminate).
  assert (H4 : forall c, controlIndex (controlledBy 0 (instanceOf GATE_X)) = Some c ->
                         (c < List.length (circuits czEditor))%nat /\ c <> 1%nat).
  { intros c H. cbn in H. injection H as <-. cbn. lia. }
  split; [exact czOne_paired|]. split; [exact H1|]. split; [exact H2|].
  split; [exact H3|]. split; [exact H4|].
  exact (handleUpdateGate_keeps_pairing czEditor 1 0 (controlledBy 0 (instanceOf GATE_X))
           czOne_paired H1 H2 H3 H4).
Defined.
